(** * API Extractor: the Collector and the API model generator

    A shallow embedding of [Collector.ts] (entity graph construction, name
    assignment, metadata propagation) and of the trimming logic of
    [ApiModelGenerator.ts], together with the properties the specification
    states about them.

    Conventions of the embedding:
    - TypeScript objects that the analyzer front end hands to the Collector
      ([AstEntity], [AstDeclaration]) are immutable; an object reference is an
      identifier, and the objects themselves live in the tables of a
      [Program].  The mutable fields the Collector attaches to them
      ([declarationMetadata], [apiItemMetadata], [symbolMetadata]) live in the
      [Collector] state, keyed by the same identifiers.
    - A [throw] is the outcome [Throw]; recursion that the source bounds only
      by the shape of its input (graph traversal, the renaming loop, the walk
      up the parent chain) is driven by a [fuel] counter and [Timeout] is the
      outcome of running out of it. *)

From Stdlib Require Import ZArith Ascii String.
From stdpp Require Import gmap strings list fin_maps pretty sorting.

Local Open Scope string_scope.
Local Open Scope list_scope.
Set Warnings "-register-all".

(** ** Outcomes: normal completion, a thrown exception, or exhausted fuel *)

Inductive Thrown : Type :=
  | Error (message : string)           (* throw new Error(message) *)
  | InternalError (message : string)   (* throw new InternalError(message) *)
  | TypeError                          (* a property read on undefined *)
  | DanglingReference.                 (* a reference that resolves to no object of the
                                          program; cannot occur with real object pointers *)

Inductive Outcome (A : Type) : Type :=
  | Done (a : A)
  | Throw (e : Thrown)
  | Timeout.
Arguments Done {A} a.
Arguments Throw {A} e.
Arguments Timeout {A}.

Global Instance Outcome_ret : MRet Outcome := fun A a => Done a.
Global Instance Outcome_bind : MBind Outcome := fun A B k m =>
  match m with
  | Done a => k a
  | Throw e => Throw e
  | Timeout => Timeout
  end.

(** A [for ... of] loop whose body can throw. *)
Fixpoint forEach {A S : Type} (body : S -> A -> Outcome S) (l : list A) (s : S)
  : Outcome S :=
  match l with
  | [] => Done s
  | x :: l' => s' ← body s x; forEach body l' s'
  end.

(** ** Data supplied by the analyzer front end *)

Definition EntityId := positive.

(** An [AstDeclaration] object is identified by the symbol it belongs to
    ([AstDeclaration.astSymbol]) and a serial number. *)
Definition DeclId := (EntityId * nat)%type.

Inductive AstEntityReferenceKind : Type := Plain | Inheritance.

Record AstEntityReference : Type := mkRef {
  ref_astEntity : EntityId;
  ref_kind : AstEntityReferenceKind }.

(** [ts.SyntaxKind], restricted to the kinds the Collector and the generator
    dispatch on. *)
Inductive SyntaxKind : Type :=
  | CallSignature | Constructor | ConstructSignature | ClassDeclaration
  | EnumDeclaration | EnumMember | FunctionDeclaration | GetAccessor
  | SetAccessor | IndexSignature | InterfaceDeclaration | MethodDeclaration
  | MethodSignature | ModuleDeclaration | PropertyDeclaration
  | PropertySignature | TypeAliasDeclaration | VariableDeclaration
  | OtherSyntaxKind.

Global Instance SyntaxKind_eq_dec : EqDecision SyntaxKind.
Proof. solve_decision. Defined.
Global Instance AstEntityReferenceKind_eq_dec : EqDecision AstEntityReferenceKind.
Proof. solve_decision. Defined.

(** [ReleaseTag] of api-extractor-model, with its numeric values. *)
Module ReleaseTag.
Inductive t : Type := None | Internal | Alpha | Beta | Public.
Definition value (r : t) : Z :=
  match r with None => 0 | Internal => 1 | Alpha => 2 | Beta => 3 | Public => 4 end.
Definition gtb (a b : t) : bool := (value b <? value a)%Z.
Global Instance eq_dec : EqDecision t.
Proof. solve_decision. Defined.
End ReleaseTag.

(** The part of a parsed doc comment the Collector reads:
    [parserContext.docComment.modifierTagSet].  [hasPreapproved] stands for
    [preapprovedTag && modifierTagSet.hasTag(preapprovedTag)]. *)
Record ModifierTagSet : Type := mkTags {
  isPublic : bool;
  isBeta : bool;
  isAlpha : bool;
  isInternal : bool;
  isEventProperty : bool;
  isOverride : bool;
  isSealed : bool;
  isVirtual : bool;
  hasPreapproved : bool }.

(** [ts.ModifierFlags.Private] *)
Definition ModifierFlags_Private : Z := 8.

(** An [AstDeclaration].  [parsedTsdoc] is what [_parseTsdocForAstDeclaration]
    obtains from the TSDoc parser for this declaration ([None] when the
    declaration has no doc comment). *)
Inductive AstDeclaration : Type := mkAstDeclaration {
  declId : DeclId;
  declaration_kind : SyntaxKind;
  modifierFlags : Z;
  parsedTsdoc : option ModifierTagSet;
  astEntityReferences : list AstEntityReference;
  parent : option DeclId;
  children : list AstDeclaration }.

Definition decl_astSymbol (d : DeclId) : EntityId := fst d.

Record AstSymbol : Type := mkAstSymbol {
  localName : string;
  isExternal : bool;
  parentAstSymbol : option EntityId;
  rootAstSymbol : EntityId;
  astDeclarations : list AstDeclaration }.

Inductive AstEntity : Type :=
  | EntSymbol (s : AstSymbol)
  | EntNamespaceImport (name : string) (exportedLocalEntities : list (string * EntityId))
  | EntImport (name : string).

Definition entity_localName (e : AstEntity) : string :=
  match e with
  | EntSymbol s => localName s
  | EntNamespaceImport n _ => n
  | EntImport n => n
  end.

(** The output of the front end for one working package. *)
Record Program : Type := mkProgram {
  astEntities : gmap EntityId AstEntity;
  (* astSymbolTable.fetchAstModuleExportInfo(astEntryPoint).exportedLocalEntities *)
  entryExports : list (string * EntityId);
  (* the names for which globalVariableAnalyzer.hasGlobalName answers true *)
  globalNames : list string;
  (* extractorConfig.includeForgottenExports *)
  includeForgottenExports : bool }.

Definition hasGlobalName (p : Program) (n : string) : bool :=
  bool_decide (n ∈ globalNames p).

Definition getSymbol (p : Program) (e : EntityId) : Outcome AstSymbol :=
  match astEntities p !! e with
  | Some (EntSymbol s) => Done s
  | _ => Throw DanglingReference
  end.

(** Modelled from the spec: [AstSymbol.forEachDeclarationRecursive] (and
    [AstDeclaration.forEachDeclarationRecursive]) are not part of the
    sources at hand; each declaration of the symbol is visited before its
    children, in declaration order. *)
Fixpoint declarationRecursive (d : AstDeclaration) : list AstDeclaration :=
  d :: flat_map declarationRecursive (children d).

Definition forEachDeclarationRecursive (s : AstSymbol) : list AstDeclaration :=
  flat_map declarationRecursive (astDeclarations s).

(** ** CollectorEntity *)

(** Modelled from the spec: [CollectorEntity.ts] is not part of the sources at
    hand.  A node wraps one entity and owns the set of its export names (a
    JavaScript [Set], kept in insertion order), the namespace imports that
    proxy it, the [consumableViaInheritance] flag and the emitted name. *)
Record CollectorEntity : Type := mkCollectorEntity {
  astEntity : EntityId;
  exportNames : list string;
  astNamespaceImports : list EntityId;
  consumableViaInheritance : bool;
  nameForEmit : option string }.

Definition newCollectorEntity (e : EntityId) : CollectorEntity :=
  mkCollectorEntity e [] [] false None.

Definition addExportName (n : string) (ce : CollectorEntity) : CollectorEntity :=
  if bool_decide (n ∈ exportNames ce) then ce
  else mkCollectorEntity (astEntity ce) (exportNames ce ++ [n]) (astNamespaceImports ce)
         (consumableViaInheritance ce) (nameForEmit ce).

Definition addAstNamespaceImports (ns : EntityId) (ce : CollectorEntity) : CollectorEntity :=
  mkCollectorEntity (astEntity ce) (exportNames ce)
    (if bool_decide (ns ∈ astNamespaceImports ce) then astNamespaceImports ce
     else astNamespaceImports ce ++ [ns])
    (consumableViaInheritance ce) (nameForEmit ce).

Definition setConsumableViaInheritance (ce : CollectorEntity) : CollectorEntity :=
  mkCollectorEntity (astEntity ce) (exportNames ce) (astNamespaceImports ce) true
    (nameForEmit ce).

Definition setNameForEmit (n : string) (ce : CollectorEntity) : CollectorEntity :=
  mkCollectorEntity (astEntity ce) (exportNames ce) (astNamespaceImports ce)
    (consumableViaInheritance ce) (Some n).

(** The name, when the entity is exported under exactly one. *)
Definition singleExportName (ce : CollectorEntity) : option string :=
  match exportNames ce with
  | [n] => Some n
  | _ => None
  end.

Definition exported (ce : CollectorEntity) : bool :=
  match exportNames ce with
  | [] => false
  | _ => true
  end.

(** Exported, or reachable by inheritance from something consumable. *)
Definition consumable (ce : CollectorEntity) : bool :=
  exported ce || consumableViaInheritance ce.

(** ** Metadata records *)

(** [InternalDeclarationMetadata] of [DeclarationMetadata.ts].  The
    [inheritedDeclarations] array is never written by the Collector. *)
Record InternalDeclarationMetadata : Type := mkDeclarationMetadata {
  tsdocParserContext : option ModifierTagSet;
  isAncillary : bool;
  ancillaryDeclarations : list DeclId;
  inheritedDeclarations : list DeclId }.

(** [IApiItemMetadataOptions]; [tsdocComment] is the modifier tag set of the
    doc comment the metadata was computed from. *)
Record ApiItemMetadata : Type := mkApiItemMetadata {
  declaredReleaseTag : ReleaseTag.t;
  effectiveReleaseTag : ReleaseTag.t;
  md_isEventProperty : bool;
  md_isOverride : bool;
  md_isSealed : bool;
  md_isVirtual : bool;
  md_isPreapproved : bool;
  releaseTagSameAsParent : bool;
  tsdocComment : option ModifierTagSet }.

Inductive ExtractorMessageId : Type :=
  | MissingGetter | SetterWithDocs | ExtraReleaseTag | PreapprovedBadReleaseTag
  | PreapprovedUnsupportedType | MissingReleaseTag.

Global Instance ExtractorMessageId_eq_dec : EqDecision ExtractorMessageId.
Proof. solve_decision. Defined.

(** What [messageRouter.addAnalyzerIssue] is told: the message id and the
    declaration or symbol it is reported for (the message text is left out). *)
Inductive MessageTarget : Type :=
  | OnDeclaration (d : DeclId)
  | OnSymbol (s : EntityId).

Global Instance MessageTarget_eq_dec : EqDecision MessageTarget.
Proof. solve_decision. Defined.

Definition ExtractorMessage := (ExtractorMessageId * MessageTarget)%type.

(** ** The Collector state *)

(** [_entities] holds the [CollectorEntity] objects that
    [_entitiesByAstEntity] maps to: the array is kept as the list of their
    entities, and the one object per entity lives in the map, so that an
    update through either reference is seen through the other.
    [apiItemMetadata] maps a declaration to the address of its
    [ApiItemMetadata] object in [metadataObjects], so that sharing one object
    between declarations is visible. *)
Record Collector : Type := mkCollector {
  _astEntryPoint : bool;
  _entities : list EntityId;
  _entitiesByAstEntity : gmap EntityId CollectorEntity;
  messages : list ExtractorMessage;
  declarationMetadata : gmap DeclId InternalDeclarationMetadata;
  apiItemMetadata : gmap DeclId nat;
  metadataObjects : list ApiItemMetadata;
  symbolMetadata : gmap EntityId ReleaseTag.t }.

Definition newCollector : Collector :=
  mkCollector false [] ∅ [] ∅ ∅ [] ∅.

Definition setGraph (es : list EntityId) (m : gmap EntityId CollectorEntity)
    (c : Collector) : Collector :=
  mkCollector (_astEntryPoint c) es m (messages c) (declarationMetadata c)
    (apiItemMetadata c) (metadataObjects c) (symbolMetadata c).

Definition updateEntity (e : EntityId) (ce : CollectorEntity) (c : Collector) : Collector :=
  setGraph (_entities c) (<[e := ce]> (_entitiesByAstEntity c)) c.

Definition addAnalyzerIssue (id : ExtractorMessageId) (t : MessageTarget)
    (c : Collector) : Collector :=
  mkCollector (_astEntryPoint c) (_entities c) (_entitiesByAstEntity c)
    (messages c ++ [(id, t)]) (declarationMetadata c) (apiItemMetadata c)
    (metadataObjects c) (symbolMetadata c).

Definition setDeclarationMetadata (d : DeclId) (m : InternalDeclarationMetadata)
    (c : Collector) : Collector :=
  mkCollector (_astEntryPoint c) (_entities c) (_entitiesByAstEntity c) (messages c)
    (<[d := m]> (declarationMetadata c)) (apiItemMetadata c) (metadataObjects c)
    (symbolMetadata c).

Definition setApiItemMetadata (d : DeclId) (a : nat) (c : Collector) : Collector :=
  mkCollector (_astEntryPoint c) (_entities c) (_entitiesByAstEntity c) (messages c)
    (declarationMetadata c) (<[d := a]> (apiItemMetadata c)) (metadataObjects c)
    (symbolMetadata c).

(** [new ApiItemMetadata(options)]: the new object gets the next address. *)
Definition allocApiItemMetadata (m : ApiItemMetadata) (c : Collector) : nat * Collector :=
  (length (metadataObjects c),
   mkCollector (_astEntryPoint c) (_entities c) (_entitiesByAstEntity c) (messages c)
     (declarationMetadata c) (apiItemMetadata c) (metadataObjects c ++ [m])
     (symbolMetadata c)).

Definition setSymbolMetadata (s : EntityId) (r : ReleaseTag.t) (c : Collector) : Collector :=
  mkCollector (_astEntryPoint c) (_entities c) (_entitiesByAstEntity c) (messages c)
    (declarationMetadata c) (apiItemMetadata c) (metadataObjects c)
    (<[s := r]> (symbolMetadata c)).

Definition setAstEntryPoint (c : Collector) : Collector :=
  mkCollector true (_entities c) (_entitiesByAstEntity c) (messages c)
    (declarationMetadata c) (apiItemMetadata c) (metadataObjects c) (symbolMetadata c).

(** The [entities] getter: the [CollectorEntity] objects in array order. *)
Definition entities (c : Collector) : list CollectorEntity :=
  omap (fun e => _entitiesByAstEntity c !! e) (_entities c).

(** ** Entity graph construction *)

(** JavaScript truthiness of an optional string argument. *)
Definition truthy (s : option string) : bool :=
  match s with
  | Some EmptyString => false
  | Some _ => true
  | None => false
  end.

Definition _createCollectorEntity (astEntity : EntityId) (exportedName : option string)
    (consumableViaInheritance : bool) (c : Collector) : Collector :=
  let '(entity, c) :=
    match _entitiesByAstEntity c !! astEntity with
    | Some entity => (entity, c)
    | None =>
        let entity := newCollectorEntity astEntity in
        (entity, setGraph (_entities c ++ [astEntity])
                   (<[astEntity := entity]> (_entitiesByAstEntity c)) c)
    end in
  let entity :=
    match exportedName with
    | Some n => if truthy exportedName then addExportName n entity else entity
    | None => entity
    end in
  let entity :=
    if consumableViaInheritance then setConsumableViaInheritance entity else entity in
  updateEntity astEntity entity c.

(** The state of one run of the traversal: the Collector, the
    [alreadySeenAstEntities] set, and (a ghost field, for stating properties
    only) the entities whose references were expanded, in order. *)
Record Walk : Type := mkWalk {
  collector : Collector;
  alreadySeenAstEntities : gset EntityId;
  expanded : list EntityId }.

Fixpoint _createEntityForIndirectReferences (p : Program) (fuel : nat)
    (astEntity : EntityId) (w : Walk) : Outcome Walk :=
  match fuel with
  | O => Timeout
  | S fuel =>
    if bool_decide (astEntity ∈ alreadySeenAstEntities w) then Done w
    else
      let w := mkWalk (collector w) ({[astEntity]} ∪ alreadySeenAstEntities w)
                 (expanded w ++ [astEntity]) in
      match astEntities p !! astEntity with
      | Some (EntSymbol s) =>
          forEach (fun w astEntityReference =>
            let referencedAstEntity := ref_astEntity astEntityReference in
            let referenceKind := ref_kind astEntityReference in
            match _entitiesByAstEntity (collector w) !! astEntity with
            | None => Throw (Error EmptyString)   (* throw new Error() *)
            | Some entity =>
                let consumableViaInheritance :=
                  consumable entity && bool_decide (referenceKind = Inheritance) in
                let c :=
                  match astEntities p !! referencedAstEntity with
                  | Some (EntSymbol r) =>
                      match parentAstSymbol r with
                      | None => _createCollectorEntity referencedAstEntity None
                                  consumableViaInheritance (collector w)
                      | Some _ => collector w
                      end
                  | _ => _createCollectorEntity referencedAstEntity None
                           consumableViaInheritance (collector w)
                  end in
                _createEntityForIndirectReferences p fuel referencedAstEntity
                  (mkWalk c (alreadySeenAstEntities w) (expanded w))
            end)
            (flat_map astEntityReferences (forEachDeclarationRecursive s)) w
      | Some (EntNamespaceImport _ exportedLocalEntities) =>
          forEach (fun w exportedEntity =>
            let c := _createCollectorEntity exportedEntity None false (collector w) in
            let c :=
              match _entitiesByAstEntity c !! exportedEntity with
              | Some entity => updateEntity exportedEntity
                                 (addAstNamespaceImports astEntity entity) c
              | None => c
              end in
            _createEntityForIndirectReferences p fuel exportedEntity
              (mkWalk c (alreadySeenAstEntities w) (expanded w)))
            (exportedLocalEntities.*2) w
      | _ => Done w
      end
  end.

(** ** Name assignment *)

Definition InternalSymbolName_Default : string := "default".

Definition dquote : string := String "034"%char EmptyString.

(** [s.includes('.')] *)
Fixpoint includes_dot (s : string) : bool :=
  match s with
  | EmptyString => false
  | String a s' => if bool_decide (a = "."%char) then true else includes_dot s'
  end.

(** [s.split('.')[0]] *)
Fixpoint split_dot_0 (s : string) : string :=
  match s with
  | EmptyString => EmptyString
  | String a s' => if bool_decide (a = "."%char) then EmptyString else String a (split_dot_0 s')
  end.

(** The first loop of [_makeUniqueNames]: the names of the explicit package
    exports, with the sanity check. *)
Definition collectExportNames (c : Collector) : Outcome (gset string) :=
  forEach (fun usedNames e =>
    match _entitiesByAstEntity c !! e with
    | None => Throw DanglingReference   (* the array only holds entities of the map *)
    | Some entity =>
        forEach (fun (usedNames : gset string) exportName =>
          if bool_decide (exportName ∈ usedNames) then
            Throw (InternalError
              ("A package cannot have two exports with the name " +:+ dquote +:+ exportName +:+ dquote))
          else Done ({[exportName]} ∪ usedNames))
          (exportNames entity) usedNames
    end) (_entities c) (∅ : gset string).

(** The [while] loop of [_makeUniqueNames]; [suffix] and [nameForEmit] are
    its two variables. *)
Fixpoint uniqueNameLoop (p : Program) (fuel : nat) (usedNames : gset string)
    (idealNameForEmit : string) (suffix : N) (nameForEmit : string) : Outcome string :=
  match fuel with
  | O => Timeout
  | S fuel =>
      if bool_decide (nameForEmit = "default")
         || bool_decide (nameForEmit ∈ usedNames)
         || hasGlobalName p nameForEmit
      then
        let suffix := (suffix + 1)%N in
        uniqueNameLoop p fuel usedNames idealNameForEmit suffix
          (idealNameForEmit +:+ "_" +:+ pretty suffix)
      else Done nameForEmit
  end.

Definition idealName (ast : AstEntity) (entity : CollectorEntity) : string :=
  let idealNameForEmit :=
    match singleExportName entity with
    | Some n => if bool_decide (n ≠ InternalSymbolName_Default) then n
                else entity_localName ast
    | None => entity_localName ast
    end in
  if includes_dot idealNameForEmit then split_dot_0 idealNameForEmit
  else idealNameForEmit.

(** One iteration of the second loop of [_makeUniqueNames]. *)
Definition assignName (p : Program) (fuel : nat) (st : Collector * gset string)
    (e : EntityId) : Outcome (Collector * gset string) :=
  let '(c, usedNames) := st in
  match _entitiesByAstEntity c !! e, astEntities p !! e with
  | Some entity, Some ast =>
      let idealNameForEmit := idealName ast entity in
      if bool_decide (idealNameForEmit ∈ exportNames entity)
         && negb (hasGlobalName p idealNameForEmit)
         && bool_decide (idealNameForEmit ≠ "default")
      then Done (updateEntity e (setNameForEmit idealNameForEmit entity) c, usedNames)
      else
        nameForEmit ← uniqueNameLoop p fuel usedNames idealNameForEmit 1 idealNameForEmit;
        Done (updateEntity e (setNameForEmit nameForEmit entity) c,
              {[nameForEmit]} ∪ usedNames)
  | _, _ => Throw DanglingReference
  end.

Definition _makeUniqueNames (p : Program) (fuel : nat) (c : Collector) : Outcome Collector :=
  usedNames ← collectExportNames c;
  '(c, _) ← forEach (assignName p fuel) (_entities c) (c, usedNames);
  Done c.

(** ** Metadata propagation *)

Definition newDeclarationMetadata (d : AstDeclaration) : InternalDeclarationMetadata :=
  mkDeclarationMetadata (parsedTsdoc d) false [] [].

Definition _addAncillaryDeclaration (mainAstDeclaration ancillaryAstDeclaration : AstDeclaration)
    (c : Collector) : Outcome Collector :=
  match declarationMetadata c !! declId mainAstDeclaration,
        declarationMetadata c !! declId ancillaryAstDeclaration with
  | Some mainMetadata, Some ancillaryMetadata =>
      if bool_decide (declId ancillaryAstDeclaration ∈ ancillaryDeclarations mainMetadata)
      then Done c   (* already added *)
      else if bool_decide (decl_astSymbol (declId mainAstDeclaration)
                           ≠ decl_astSymbol (declId ancillaryAstDeclaration))
      then Throw (InternalError
        "Invalid call to _addAncillaryDeclaration() because declarations do not belong to the same symbol")
      else if isAncillary mainMetadata
      then Throw (InternalError
        "Invalid call to _addAncillaryDeclaration() because the target is ancillary itself")
      else if isAncillary ancillaryMetadata
      then Throw (InternalError
        "Invalid call to _addAncillaryDeclaration() because source is already ancillary to another declaration")
      else if bool_decide (is_Some (apiItemMetadata c !! declId mainAstDeclaration))
              || bool_decide (is_Some (apiItemMetadata c !! declId ancillaryAstDeclaration))
      then Throw (InternalError
        "Invalid call to _addAncillaryDeclaration() because the API item metadata has already been constructed")
      else
        (* ancillaryMetadata.isAncillary = true *)
        let c := setDeclarationMetadata (declId ancillaryAstDeclaration)
                   (mkDeclarationMetadata (tsdocParserContext ancillaryMetadata) true
                      (ancillaryDeclarations ancillaryMetadata)
                      (inheritedDeclarations ancillaryMetadata)) c in
        (* mainMetadata.ancillaryDeclarations.push(ancillaryAstDeclaration) *)
        match declarationMetadata c !! declId mainAstDeclaration with
        | Some mainMetadata =>
            Done (setDeclarationMetadata (declId mainAstDeclaration)
                    (mkDeclarationMetadata (tsdocParserContext mainMetadata)
                       (isAncillary mainMetadata)
                       (ancillaryDeclarations mainMetadata ++ [declId ancillaryAstDeclaration])
                       (inheritedDeclarations mainMetadata)) c)
        | None => Throw TypeError
        end
  | _, _ => Throw TypeError
  end.

Definition _calculateDeclarationMetadataForDeclarations (p : Program) (astSymbol : AstSymbol)
    (c : Collector) : Outcome Collector :=
  (* Initialize DeclarationMetadata for each declaration *)
  c ← forEach (fun c astDeclaration =>
         if bool_decide (is_Some (declarationMetadata c !! declId astDeclaration)) then
           Throw (InternalError
             "AstDeclaration.declarationMetadata is not expected to have been initialized yet")
         else Done (setDeclarationMetadata (declId astDeclaration)
                      (newDeclarationMetadata astDeclaration) c))
       (astDeclarations astSymbol) c;
  (* Detect ancillary declarations *)
  forEach (fun c astDeclaration =>
    if bool_decide (declaration_kind astDeclaration = SetAccessor) then
      owner ← getSymbol p (decl_astSymbol (declId astDeclaration));
      '(c, foundGetter) ← forEach (fun (r : Collector * bool) getterAstDeclaration =>
             if bool_decide (declaration_kind getterAstDeclaration = GetAccessor) then
               c ← _addAncillaryDeclaration getterAstDeclaration astDeclaration (fst r);
               Done (c, true)
             else Done r)
           (astDeclarations owner) (c, false);
      Done (if (foundGetter : bool) then c
            else addAnalyzerIssue MissingGetter (OnDeclaration (declId astDeclaration)) c)
    else Done c)
    (astDeclarations astSymbol) c.

(** The release tag declared by a doc comment, and whether the comment has
    more than one release tag. *)
Definition declaredTagOf (modifierTagSet : ModifierTagSet) : ReleaseTag.t * bool :=
  let declaredReleaseTag := ReleaseTag.None in
  let extraReleaseTags := false in
  let declaredReleaseTag :=
    if isPublic modifierTagSet then ReleaseTag.Public else declaredReleaseTag in
  let '(declaredReleaseTag, extraReleaseTags) :=
    if isBeta modifierTagSet then
      if bool_decide (declaredReleaseTag ≠ ReleaseTag.None) then (declaredReleaseTag, true)
      else (ReleaseTag.Beta, extraReleaseTags)
    else (declaredReleaseTag, extraReleaseTags) in
  let '(declaredReleaseTag, extraReleaseTags) :=
    if isAlpha modifierTagSet then
      if bool_decide (declaredReleaseTag ≠ ReleaseTag.None) then (declaredReleaseTag, true)
      else (ReleaseTag.Alpha, extraReleaseTags)
    else (declaredReleaseTag, extraReleaseTags) in
  let '(declaredReleaseTag, extraReleaseTags) :=
    if isInternal modifierTagSet then
      if bool_decide (declaredReleaseTag ≠ ReleaseTag.None) then (declaredReleaseTag, true)
      else (ReleaseTag.Internal, extraReleaseTags)
    else (declaredReleaseTag, extraReleaseTags) in
  (declaredReleaseTag, extraReleaseTags).

(** The [DeclarationMetadata] object of a declaration as it is now: the
    object is shared and mutable, and [snapshot] is what was read from it
    earlier. *)
Definition liveDeclarationMetadata (c : Collector) (d : AstDeclaration)
    (snapshot : InternalDeclarationMetadata) : InternalDeclarationMetadata :=
  default snapshot (declarationMetadata c !! declId d).

(** Reading [apiItemMetadata] through a declaration. *)
Definition readApiItemMetadata (c : Collector) (d : DeclId) : option (nat * ApiItemMetadata) :=
  a ← apiItemMetadata c !! d;
  m ← metadataObjects c !! a;
  Some (a, m).

Section Metadata.
Variable p : Program.
(** [this._fetchSymbolMetadata], as seen from the functions it calls. *)
Variable fetchSym : EntityId -> Collector -> Outcome Collector.

(** [fetchApiItemMetadata]: the address of the metadata object ([None] for
    [undefined]) and the state. *)
Definition fetchApiItemMetadata_with (astDeclaration : DeclId) (c : Collector)
    : Outcome (option nat * Collector) :=
  c ← (if bool_decide (apiItemMetadata c !! astDeclaration = None)
       then fetchSym (decl_astSymbol astDeclaration) c
       else Done c);
  Done (apiItemMetadata c !! astDeclaration, c).

(** The block of [_calculateApiItemMetadata] under [if (parserContext)]:
    the declared release tag, [isPreapproved], and the state with the
    diagnostics of the block. *)
Definition readModifierTags (astSymbol : AstSymbol) (astDeclaration : AstDeclaration)
    (parserContext : option ModifierTagSet) (c : Collector)
    : ReleaseTag.t * bool * Collector :=
  match parserContext with
  | None => (ReleaseTag.None, false, c)
  | Some modifierTagSet =>
      let '(declaredReleaseTag, extraReleaseTags) := declaredTagOf modifierTagSet in
      let c :=
        if extraReleaseTags && negb (isExternal astSymbol)
        then addAnalyzerIssue ExtraReleaseTag (OnDeclaration (declId astDeclaration)) c
        else c in
      if hasPreapproved modifierTagSet then
        match declaration_kind astDeclaration with
        | ClassDeclaration | EnumDeclaration | InterfaceDeclaration
        | ModuleDeclaration =>
            if bool_decide (declaredReleaseTag = ReleaseTag.Internal)
            then (declaredReleaseTag, true, c)
            else (declaredReleaseTag, false,
                  addAnalyzerIssue PreapprovedBadReleaseTag
                    (OnDeclaration (declId astDeclaration)) c)
        | _ => (declaredReleaseTag, false,
                addAnalyzerIssue PreapprovedUnsupportedType
                  (OnDeclaration (declId astDeclaration)) c)
        end
      else (declaredReleaseTag, false, c)
  end.

(** The block "This needs to be set regardless of whether or not a
    parserContext exists": [options.effectiveReleaseTag] and
    [options.releaseTagSameAsParent]. *)
Definition inheritReleaseTag (astDeclaration : AstDeclaration)
    (declaredReleaseTag : ReleaseTag.t) (c : Collector)
    : Outcome (ReleaseTag.t * bool * Collector) :=
  match parent astDeclaration with
  | Some parentDeclaration =>
      '(a, c) ← fetchApiItemMetadata_with parentDeclaration c;
      match a ≫= (fun a => metadataObjects c !! a) with
      | None => Throw TypeError
      | Some parentApiItemMetadata =>
          let effective :=
            if bool_decide (declaredReleaseTag = ReleaseTag.None)
            then effectiveReleaseTag parentApiItemMetadata
            else declaredReleaseTag in
          Done (effective,
                bool_decide (effectiveReleaseTag parentApiItemMetadata = effective), c)
      end
  | None => Done (declaredReleaseTag, false, c)
  end.

(** The block under [if (options.effectiveReleaseTag === ReleaseTag.None)]. *)
Definition healReleaseTag (astSymbol : AstSymbol) (astDeclaration : AstDeclaration)
    (effectiveReleaseTag : ReleaseTag.t) (c : Collector)
    : Outcome (ReleaseTag.t * Collector) :=
  if bool_decide (effectiveReleaseTag = ReleaseTag.None) then
    if negb (isExternal astSymbol) then
      (* Don't report missing release tags for forgotten exports *)
      match _entitiesByAstEntity c !! rootAstSymbol astSymbol with
      | Some entity =>
          if consumable entity then
            root ← getSymbol p (rootAstSymbol astSymbol);
            Done (ReleaseTag.Public,
                  if bool_decide (localName root ≠ "_default")
                  then addAnalyzerIssue MissingReleaseTag
                         (OnSymbol (decl_astSymbol (declId astDeclaration))) c
                  else c)
          else Done (effectiveReleaseTag, c)
      | None => Done (effectiveReleaseTag, c)
      end
    else Done (ReleaseTag.Public, c)
  else Done (effectiveReleaseTag, c).

(** [new ApiItemMetadata(options)], its assignment to the declaration, and
    the sharing with the ancillary declarations. *)
Definition attachApiItemMetadata (astDeclaration : AstDeclaration)
    (declarationMetadata : InternalDeclarationMetadata) (options : ApiItemMetadata)
    (c : Collector) : Collector :=
  let '(a, c) := allocApiItemMetadata options c in
  let c := setApiItemMetadata (declId astDeclaration) a c in
  foldl (fun c ancillaryDeclaration => setApiItemMetadata ancillaryDeclaration a c)
    c (ancillaryDeclarations declarationMetadata).

Definition _calculateApiItemMetadata_with (astDeclaration : AstDeclaration) (c : Collector)
    : Outcome Collector :=
  astSymbol ← getSymbol p (decl_astSymbol (declId astDeclaration));
  match declarationMetadata c !! declId astDeclaration with
  | None => Throw TypeError
  | Some declarationMetadata =>
    if isAncillary declarationMetadata then
      (* We never calculate ApiItemMetadata for an ancillary declaration *)
      Done (if bool_decide (declaration_kind astDeclaration = SetAccessor)
               && bool_decide (is_Some (tsdocParserContext declarationMetadata))
            then addAnalyzerIssue SetterWithDocs (OnDeclaration (declId astDeclaration)) c
            else c)
    else
      let parserContext := tsdocParserContext declarationMetadata in
      let '(declaredReleaseTag, isPreapproved, c) :=
        readModifierTags astSymbol astDeclaration parserContext c in
      '(effectiveReleaseTag, sameAsParent, c) ←
        inheritReleaseTag astDeclaration declaredReleaseTag c;
      '(effectiveReleaseTag, c) ←
        healReleaseTag astSymbol astDeclaration effectiveReleaseTag c;
      let options :=
        mkApiItemMetadata declaredReleaseTag effectiveReleaseTag
          (from_option isEventProperty false parserContext)
          (from_option isOverride false parserContext)
          (from_option isSealed false parserContext)
          (from_option isVirtual false parserContext)
          isPreapproved sameAsParent parserContext in
      Done (attachApiItemMetadata astDeclaration
              (liveDeclarationMetadata c astDeclaration declarationMetadata) options c)
  end.

(** The body of [_fetchSymbolMetadata] after the parent symbol is solved. *)
Definition solveSymbol (astSymbolId : EntityId) (astSymbol : AstSymbol) (c : Collector)
    : Outcome Collector :=
  c ← _calculateDeclarationMetadataForDeclarations p astSymbol c;
  c ← forEach (fun c astDeclaration => _calculateApiItemMetadata_with astDeclaration c)
        (astDeclarations astSymbol) c;
  maxEffectiveReleaseTag ←
    forEach (fun maxEffectiveReleaseTag astDeclaration =>
      match readApiItemMetadata c (declId astDeclaration) with
      | None => Throw TypeError
      | Some (_, apiItemMetadata) =>
          let effectiveReleaseTag := effectiveReleaseTag apiItemMetadata in
          Done (if ReleaseTag.gtb effectiveReleaseTag maxEffectiveReleaseTag
                then effectiveReleaseTag else maxEffectiveReleaseTag)
      end) (astDeclarations astSymbol) ReleaseTag.None;
  Done (setSymbolMetadata astSymbolId maxEffectiveReleaseTag c).
End Metadata.

Fixpoint _fetchSymbolMetadata (p : Program) (fuel : nat) (astSymbolId : EntityId)
    (c : Collector) : Outcome Collector :=
  match fuel with
  | O => Timeout
  | S fuel =>
      if bool_decide (is_Some (symbolMetadata c !! astSymbolId)) then Done c
      else
        astSymbol ← getSymbol p astSymbolId;
        c ← match parentAstSymbol astSymbol with
            | Some parentId =>
                if bool_decide (symbolMetadata c !! parentId = None)
                then _fetchSymbolMetadata p fuel parentId c
                else Done c
            | None => Done c
            end;
        solveSymbol p (_fetchSymbolMetadata p fuel) astSymbolId astSymbol c
  end.

Definition _calculateApiItemMetadata (p : Program) (fuel : nat) :=
  _calculateApiItemMetadata_with p (_fetchSymbolMetadata p fuel).

Definition fetchApiItemMetadata (p : Program) (fuel : nat) :=
  fetchApiItemMetadata_with (_fetchSymbolMetadata p fuel).

Definition fetchSymbolMetadata (p : Program) (fuel : nat) (astSymbol : EntityId)
    (c : Collector) : Outcome Collector :=
  if bool_decide (symbolMetadata c !! astSymbol = None)
  then _fetchSymbolMetadata p fuel astSymbol c
  else Done c.

Definition fetchDeclarationMetadata (p : Program) (fuel : nat) (astDeclaration : DeclId)
    (c : Collector) : Outcome (option InternalDeclarationMetadata * Collector) :=
  c ← (if bool_decide (declarationMetadata c !! astDeclaration = None)
       then _fetchSymbolMetadata p fuel (decl_astSymbol astDeclaration) c
       else Done c);
  Done (declarationMetadata c !! astDeclaration, c).

Definition getNonAncillaryDeclarations (p : Program) (fuel : nat) (astSymbol : AstSymbol)
    (c : Collector) : Outcome (list AstDeclaration * Collector) :=
  forEach (fun (r : list AstDeclaration * Collector) astDeclaration =>
    '(declarationMetadata, c) ← fetchDeclarationMetadata p fuel (declId astDeclaration) (snd r);
    match declarationMetadata with
    | None => Throw TypeError
    | Some declarationMetadata =>
        Done (if isAncillary declarationMetadata then fst r
              else fst r ++ [astDeclaration], c)
    end) (astDeclarations astSymbol) ([], c).

(** ** Sorting and [analyze] *)

Definition toLowerCase_ascii (a : ascii) : ascii :=
  let n := nat_of_ascii a in
  if (65 <=? n)%nat && (n <=? 90)%nat then ascii_of_nat (n + 32) else a.

(** [String.prototype.toLowerCase], on the ASCII letters. *)
Fixpoint toLowerCase (s : string) : string :=
  match s with
  | EmptyString => EmptyString
  | String a s' => String (toLowerCase_ascii a) (toLowerCase s')
  end.

Definition getSortKeyIgnoringUnderscore (identifier : option string) : string :=
  match identifier with
  | None => EmptyString
  | Some EmptyString => EmptyString
  | Some (String a withoutUnderscore as identifier) =>
      if bool_decide (a = "_"%char)
      then toLowerCase withoutUnderscore +:+ "*" +:+ withoutUnderscore +:+ "*" +:+ "_"
      else toLowerCase identifier +:+ "*" +:+ identifier
  end.

(** Modelled from the spec: [CollectorEntity.getSortKey] is not part of the
    sources at hand; the key is the emitted name, case-insensitive first and
    with a leading underscore moved to the end. *)
Definition getSortKey (ce : CollectorEntity) : string :=
  getSortKeyIgnoringUnderscore (nameForEmit ce).

Fixpoint insertByKey {A : Type} (key : A -> string) (x : A) (l : list A) : list A :=
  match l with
  | [] => [x]
  | y :: l' => if String.ltb (key x) (key y) then x :: y :: l'
               else y :: insertByKey key x l'
  end.

(** Modelled from the spec: [Sort.sortBy] of node-core-library is not part of
    the sources at hand; a stable sort by the key. *)
Definition sortBy {A : Type} (key : A -> string) (l : list A) : list A :=
  foldl (fun sorted x => insertByKey key x sorted) [] l.

Definition sortEntities (c : Collector) : Collector :=
  setGraph
    (sortBy (fun e => from_option getSortKey EmptyString (_entitiesByAstEntity c !! e))
       (_entities c))
    (_entitiesByAstEntity c) c.

(** [analyze], from the creation of the entities for the top-level exports
    on.  The compiler diagnostics, the package doc comment, the reference
    directives and the star exports do not touch the entity graph and are
    left out. *)
Definition analyze (p : Program) (fuel : nat) (c : Collector) : Outcome Collector :=
  if _astEntryPoint c then Throw (Error "DtsRollupGenerator.analyze() was already called")
  else
    let c := setAstEntryPoint c in
    (* Create a CollectorEntity for each top-level export *)
    let c := foldl (fun c (ex : string * EntityId) =>
                      _createCollectorEntity (snd ex) (Some (fst ex)) false c)
               c (entryExports p) in
    let exportedAstEntities := (entryExports p).*2 in
    (* Create a CollectorEntity for each indirectly referenced export *)
    w ← forEach (fun w exportedAstEntity =>
           w ← _createEntityForIndirectReferences p fuel exportedAstEntity w;
           match astEntities p !! exportedAstEntity with
           | Some (EntSymbol _) =>
               c ← fetchSymbolMetadata p fuel exportedAstEntity (collector w);
               Done (mkWalk c (alreadySeenAstEntities w) (expanded w))
           | _ => Done w
           end)
         exportedAstEntities (mkWalk c ∅ []);
    c ← _makeUniqueNames p fuel (collector w);
    Done (sortEntities c).

(** ** Overload indexes *)

(** [_cachedOverloadIndexesByDeclaration], a [gmap DeclId nat], is the only
    state that [getOverloadIndex] reads and writes. *)

(** The [for] loop of [getOverloadIndex]: the cache and [nextIndex]. *)
Definition cacheOverloads (kind : SyntaxKind) (allDeclarations : list AstDeclaration)
    (cache : gmap DeclId nat) : gmap DeclId nat * nat :=
  foldl (fun (st : gmap DeclId nat * nat) other =>
           (* Filter out other declarations that are not overloads *)
           if bool_decide (declaration_kind other = kind)
           then (<[declId other := snd st]> (fst st), S (snd st))
           else st)
    (cache, 1) allDeclarations.

Definition getOverloadIndex (p : Program) (astDeclaration : AstDeclaration)
    (cache : gmap DeclId nat) : Outcome (nat * gmap DeclId nat) :=
  astSymbol ← getSymbol p (decl_astSymbol (declId astDeclaration));
  let allDeclarations := astDeclarations astSymbol in
  if bool_decide (length allDeclarations = 1) then Done (1, cache)   (* trivial case *)
  else
    let '(overloadIndex, cache) :=
      match cache !! declId astDeclaration with
      | Some overloadIndex => (Some overloadIndex, cache)
      | None =>
          let cache :=
            fst (cacheOverloads (declaration_kind astDeclaration) allDeclarations cache) in
          (cache !! declId astDeclaration, cache)
      end in
    match overloadIndex with
    | None => Throw (InternalError "Error calculating overload index for declaration")
    | Some overloadIndex => Done (overloadIndex, cache)
    end.

(** ** The API model generator *)

(** [ApiItemKind] of api-extractor-model, for the items the generator makes. *)
Inductive ApiItemKind : Type :=
  | ApiCallSignature | ApiClass | ApiConstructor | ApiConstructSignature
  | ApiEntryPoint | ApiEnum | ApiEnumMember | ApiFunction | ApiIndexSignature
  | ApiInterface | ApiMethod | ApiMethodSignature | ApiNamespace
  | ApiProperty | ApiPropertySignature | ApiTypeAlias | ApiVariable.

Global Instance ApiItemKind_eq_dec : EqDecision ApiItemKind.
Proof. solve_decision. Defined.

(** Modelled from the spec: of the [getContainerKey] functions of
    api-extractor-model only [ApiInterface.getContainerKey] is part of the
    sources at hand; it joins the name and the item kind with a bar.  A key
    is kept as the item kind together with the arguments the generator
    passes to [getContainerKey] ([None] for an argument the kind does not
    take): two keys are equal when the kind and the arguments are. *)
Record ContainerKey : Type := mkContainerKey {
  key_kind : ApiItemKind;
  key_name : option string;
  key_isStatic : option bool;
  key_overloadIndex : option nat }.

Global Instance ContainerKey_eq_dec : EqDecision ContainerKey.
Proof. solve_decision. Defined.

(** An item of the model, with what the generator passes to its constructor:
    the container key (kind, name, static flag, overload index), the release
    tag, the doc comment, the excerpt, and the members of a container.
    [ExcerptBuilder] is not part of the sources at hand: the excerpt is kept
    as the list of the declarations whose text it is built from, which is
    what [_buildExcerptTokens] decides. *)
Inductive ApiItem : Type := mkApiItem {
  containerKey : ContainerKey;
  api_releaseTag : ReleaseTag.t;
  api_docComment : option ModifierTagSet;
  api_excerptTokens : list DeclId;
  members : list ApiItem }.

(** Modelled from the spec: [ApiItemContainerMixin] is not part of the
    sources at hand.  [tryGetMemberByKey] finds the member with the key (it
    is returned with its position, which stands for the reference to the
    object), and [addMember] appends a member. *)
Definition tryGetMemberByKey (key : ContainerKey) (parentApiItem : ApiItem)
    : option (nat * ApiItem) :=
  list_find (fun member => containerKey member = key) (members parentApiItem).

Definition addMember (member : ApiItem) (parentApiItem : ApiItem) : ApiItem :=
  mkApiItem (containerKey parentApiItem) (api_releaseTag parentApiItem)
    (api_docComment parentApiItem) (api_excerptTokens parentApiItem)
    (members parentApiItem ++ [member]).

(** A member of [parentApiItem] is an object that is updated in place while
    its own members are processed: [setMember] puts the updated member back
    at its position. *)
Definition setMember (index : nat) (member : ApiItem) (parentApiItem : ApiItem) : ApiItem :=
  mkApiItem (containerKey parentApiItem) (api_releaseTag parentApiItem)
    (api_docComment parentApiItem) (api_excerptTokens parentApiItem)
    (<[index := member]> (members parentApiItem)).

(** The state of the generator: the Collector, and the
    [_cachedOverloadIndexesByDeclaration] map of the Collector, which only
    [getOverloadIndex] reads and writes.  The model under construction is
    passed along with it. *)
Record Generator : Type := mkGenerator {
  _collector : Collector;
  _cachedOverloadIndexesByDeclaration : gmap DeclId nat }.

(** [ts.ModifierFlags.Static] *)
Definition ModifierFlags_Static : Z := 32.

Definition isPrivate (d : AstDeclaration) : bool :=
  bool_decide (Z.land (modifierFlags d) ModifierFlags_Private ≠ 0%Z).

Definition isStatic (d : AstDeclaration) : bool :=
  bool_decide (Z.land (modifierFlags d) ModifierFlags_Static ≠ 0%Z).

Definition trimmedTag (r : ReleaseTag.t) : bool :=
  bool_decide (r = ReleaseTag.Internal) || bool_decide (r = ReleaseTag.Alpha).

(** The [switch] of [_processDeclaration]: the kind of item that the
    [_processApiXxx] handler of a declaration kind makes ([None] for the
    default case). *)
Definition apiItemKindOf (k : SyntaxKind) : option ApiItemKind :=
  match k with
  | CallSignature => Some ApiCallSignature
  | Constructor => Some ApiConstructor
  | ConstructSignature => Some ApiConstructSignature
  | ClassDeclaration => Some ApiClass
  | EnumDeclaration => Some ApiEnum
  | EnumMember => Some ApiEnumMember
  | FunctionDeclaration => Some ApiFunction
  | GetAccessor => Some ApiProperty
  | SetAccessor => Some ApiProperty
  | IndexSignature => Some ApiIndexSignature
  | InterfaceDeclaration => Some ApiInterface
  | MethodDeclaration => Some ApiMethod
  | MethodSignature => Some ApiMethodSignature
  | ModuleDeclaration => Some ApiNamespace
  | PropertyDeclaration => Some ApiProperty
  | PropertySignature => Some ApiPropertySignature
  | TypeAliasDeclaration => Some ApiTypeAlias
  | VariableDeclaration => Some ApiVariable
  | OtherSyntaxKind => None
  end.

(** How the sixteen handlers differ: the arguments of [getContainerKey] ... *)
Definition keyUsesName (kind : ApiItemKind) : bool :=
  match kind with
  | ApiCallSignature | ApiConstructor | ApiConstructSignature | ApiIndexSignature => false
  | _ => true
  end.

Definition keyUsesStatic (kind : ApiItemKind) : bool :=
  match kind with
  | ApiMethod | ApiProperty => true
  | _ => false
  end.

Definition keyUsesOverloadIndex (kind : ApiItemKind) : bool :=
  match kind with
  | ApiCallSignature | ApiConstructor | ApiConstructSignature | ApiFunction
  | ApiIndexSignature | ApiMethod | ApiMethodSignature => true
  | _ => false
  end.

(** ... the second test of the release tag, in [_processApiFunction] and
    [_processApiMethod] ... *)
Definition trimsAgain (kind : ApiItemKind) : bool :=
  match kind with
  | ApiFunction | ApiMethod => true
  | _ => false
  end.

(** ... and the call of [_processChildDeclarations]. *)
Definition processesChildren (kind : ApiItemKind) : bool :=
  match kind with
  | ApiClass | ApiEnum | ApiInterface | ApiNamespace => true
  | _ => false
  end.

(** The container key a handler computes: [name] is
    [exportedName ? exportedName : astDeclaration.astSymbol.localName]. *)
Definition getContainerKey (p : Program) (kind : ApiItemKind) (astDeclaration : AstDeclaration)
    (exportedName : option string) (cache : gmap DeclId nat)
    : Outcome (ContainerKey * gmap DeclId nat) :=
  name ← (if keyUsesName kind then
            if truthy exportedName then Done exportedName
            else
              astSymbol ← getSymbol p (decl_astSymbol (declId astDeclaration));
              Done (Some (localName astSymbol))
          else Done None);
  let isStatic := if keyUsesStatic kind then Some (isStatic astDeclaration) else None in
  '(overloadIndex, cache) ←
    (if keyUsesOverloadIndex kind then
       '(overloadIndex, cache) ← getOverloadIndex p astDeclaration cache;
       Done (Some overloadIndex, cache)
     else Done (None, cache));
  Done (mkContainerKey kind name isStatic overloadIndex, cache).

(** [_buildExcerptTokens]: the main declaration, then its ancillary
    declarations. *)
Definition _buildExcerptTokens (p : Program) (fuel : nat) (astDeclaration : AstDeclaration)
    (c : Collector) : Outcome (list DeclId * Collector) :=
  '(declarationMetadata, c) ← fetchDeclarationMetadata p fuel (declId astDeclaration) c;
  match declarationMetadata with
  | None => Throw TypeError
  | Some declarationMetadata =>
      Done (declId astDeclaration :: ancillaryDeclarations declarationMetadata, c)
  end.

(** What the [_processApiXxx] handlers do before they go on to the children:
    they look for the member of [parentApiItem] with the container key of the
    declaration, and make it when there is none.  The result is the member
    found or made, with its position ([None] when [_processApiFunction] or
    [_processApiMethod] returns early), and [parentApiItem]. *)
Definition _processApiItem (p : Program) (fuel : nat) (kind : ApiItemKind)
    (astDeclaration : AstDeclaration) (exportedName : option string)
    (parentApiItem : ApiItem) (g : Generator)
    : Outcome (option (nat * ApiItem) * ApiItem * Generator) :=
  '(containerKey, cache) ←
    getContainerKey p kind astDeclaration exportedName (_cachedOverloadIndexesByDeclaration g);
  let g := mkGenerator (_collector g) cache in
  match tryGetMemberByKey containerKey parentApiItem with
  | Some found => Done (Some found, parentApiItem, g)
  | None =>
      '(excerptTokens, c) ← _buildExcerptTokens p fuel astDeclaration (_collector g);
      '(a, c) ← fetchApiItemMetadata p fuel (declId astDeclaration) c;
      let g := mkGenerator c (_cachedOverloadIndexesByDeclaration g) in
      match a ≫= (fun a => metadataObjects c !! a) with
      | None => Throw TypeError
      | Some apiItemMetadata =>
          let docComment := tsdocComment apiItemMetadata in
          let releaseTag := effectiveReleaseTag apiItemMetadata in
          if trimsAgain kind && trimmedTag releaseTag
          then Done (None, parentApiItem, g)   (* trim out "@internal" or "@alpha" *)
          else
            let apiItem := mkApiItem containerKey releaseTag docComment excerptTokens [] in
            Done (Some (length (members parentApiItem), apiItem),
                  addMember apiItem parentApiItem, g)
      end
  end.

Fixpoint _processDeclaration (p : Program) (fuel : nat) (astDeclaration : AstDeclaration)
    (exportedName : option string) (parentApiItem : ApiItem) (g : Generator)
    : Outcome (ApiItem * Generator) :=
  if isPrivate astDeclaration then Done (parentApiItem, g)   (* trim out private declarations *)
  else
    '(a, c) ← fetchApiItemMetadata p fuel (declId astDeclaration) (_collector g);
    let g := mkGenerator c (_cachedOverloadIndexesByDeclaration g) in
    match a ≫= (fun a => metadataObjects c !! a) with
    | None => Throw TypeError
    | Some apiItemMetadata =>
        let releaseTag := effectiveReleaseTag apiItemMetadata in
        if trimmedTag releaseTag
        then Done (parentApiItem, g)   (* trim out "@internal" or "@alpha" *)
        else
          match apiItemKindOf (declaration_kind astDeclaration) with
          | None => Done (parentApiItem, g)   (* ignore unknown types *)
          | Some kind =>
              '(found, parentApiItem, g) ←
                _processApiItem p fuel kind astDeclaration exportedName parentApiItem g;
              if processesChildren kind then
                match found with
                | Some (index, apiItem) =>
                    (* _processChildDeclarations *)
                    '(apiItem, g) ←
                      forEach (fun (st : ApiItem * Generator) childDeclaration =>
                                 _processDeclaration p fuel childDeclaration None
                                   (fst st) (snd st))
                        (children astDeclaration) (apiItem, g);
                    Done (setMember index apiItem parentApiItem, g)
                | None => Done (parentApiItem, g)
                end
              else Done (parentApiItem, g)
          end
    end.

(** [_processAstModule]; [processAstEntity] is [this._processAstEntity], and
    [moduleSymbolName] is [astModule.moduleSymbol.name] ([AstModule] is not
    part of the sources at hand). *)
Definition _processAstModule
    (processAstEntity : EntityId -> option string -> ApiItem -> Generator
                        -> Outcome (ApiItem * Generator))
    (moduleSymbolName : string) (exportedLocalEntities : list (string * EntityId))
    (exportedName : option string) (parentApiItem : ApiItem) (g : Generator)
    : Outcome (ApiItem * Generator) :=
  let name :=
    match exportedName with
    | Some n => if truthy exportedName then n else moduleSymbolName
    | None => moduleSymbolName
    end in
  let containerKey := mkContainerKey ApiNamespace (Some name) None None in
  let '(index, apiNamespace, parentApiItem) :=
    match tryGetMemberByKey containerKey parentApiItem with
    | Some (index, apiNamespace) => (index, apiNamespace, parentApiItem)
    | None =>
        let apiNamespace := mkApiItem containerKey ReleaseTag.None None [] [] in
        (length (members parentApiItem), apiNamespace, addMember apiNamespace parentApiItem)
    end in
  '(apiNamespace, g) ←
    forEach (fun (st : ApiItem * Generator) (ex : string * EntityId) =>
               processAstEntity (snd ex) (Some (fst ex)) (fst st) (snd st))
      exportedLocalEntities (apiNamespace, g);
  Done (setMember index apiNamespace parentApiItem, g).

Fixpoint _processAstEntity (p : Program) (moduleSymbolName : EntityId -> string) (fuel : nat)
    (astEntity : EntityId) (exportedName : option string) (parentApiItem : ApiItem)
    (g : Generator) : Outcome (ApiItem * Generator) :=
  match fuel with
  | O => Timeout
  | S fuel' =>
      match astEntities p !! astEntity with
      | Some (EntSymbol s) =>
          (* Skip ancillary declarations; we will process them with the main declaration *)
          '(ds, c) ← getNonAncillaryDeclarations p fuel s (_collector g);
          forEach (fun (st : ApiItem * Generator) astDeclaration =>
                     _processDeclaration p fuel astDeclaration exportedName (fst st) (snd st))
            ds (parentApiItem, mkGenerator c (_cachedOverloadIndexesByDeclaration g))
      | Some (EntNamespaceImport _ exportedLocalEntities) =>
          _processAstModule (_processAstEntity p moduleSymbolName fuel')
            (moduleSymbolName astEntity) exportedLocalEntities exportedName parentApiItem g
      | _ => Done (parentApiItem, g)
      end
  end.

(** [buildApiPackage]: the result is the [ApiEntryPoint] with its members
    (the [ApiPackage] around it has the name and the doc comment of the
    package and this one member). *)
Definition buildApiPackage (p : Program) (moduleSymbolName : EntityId -> string) (fuel : nat)
    (g : Generator) : Outcome (ApiItem * Generator) :=
  let apiEntryPoint :=
    mkApiItem (mkContainerKey ApiEntryPoint (Some EmptyString) None None)
      ReleaseTag.None None [] [] in
  (* Process each top-level CollectorEntity *)
  forEach (fun (st : ApiItem * Generator) entity =>
    if exported entity || includeForgottenExports p
    then _processAstEntity p moduleSymbolName fuel (astEntity entity) (nameForEmit entity)
           (fst st) (snd st)
    else Done st)
    (entities (_collector g)) (apiEntryPoint, g).
(** * Vocabulary of the statements *)

(** The computation ends (normally or by a throw), and a normal result
    satisfies [Q]. *)
Definition ends_with {A : Type} (o : Outcome A) (Q : A -> Prop) : Prop :=
  match o with
  | Done a => Q a
  | Throw _ => True
  | Timeout => False
  end.

(** What one call adds to the walk: the entities in [new] were not seen
    before, are pairwise distinct, and are exactly what was added to
    [alreadySeenAstEntities]. *)
Definition extends_walk (w w' : Walk) : Prop :=
  exists new : list EntityId,
    expanded w' = expanded w ++ new /\
    NoDup new /\
    (forall x, x ∈ new -> x ∉ alreadySeenAstEntities w) /\
    alreadySeenAstEntities w' = alreadySeenAstEntities w ∪ list_to_set new.

(** The entities of the program that the walk has not seen yet. *)
Definition unseen (p : Program) (w : Walk) : nat :=
  size (dom (astEntities p) ∖ alreadySeenAstEntities w).


(** [s.includes(needle)] on strings, used to look for a name in a message. *)
Fixpoint startsWith (needle s : string) : bool :=
  match needle, s with
  | EmptyString, _ => true
  | String a n', String b s' => bool_decide (a = b) && startsWith n' s'
  | String _ _, EmptyString => false
  end.

Fixpoint includesText (needle s : string) : bool :=
  startsWith needle s ||
  match s with
  | EmptyString => false
  | String _ s' => includesText needle s'
  end.

Definition error_message (e : Thrown) : string :=
  match e with
  | Error m => m
  | InternalError m => m
  | TypeError => EmptyString
  | DanglingReference => EmptyString
  end.

(** The message of the error names one of the entities of the program. *)
Definition namesAnEntity (p : Program) (e : Thrown) : bool :=
  existsb (fun x => includesText (entity_localName (snd x)) (error_message e))
    (map_to_list (astEntities p)).

(** [y] is referenced, by a plain or an inheritance reference, from a
    declaration of the symbol [x]. *)
Definition references (p : Program) (x y : EntityId) : Prop :=
  exists s r, astEntities p !! x = Some (EntSymbol s) /\
    r ∈ flat_map astEntityReferences (forEachDeclarationRecursive s) /\
    ref_astEntity r = y.

(** [y] is exported by the module of the namespace import [x]. *)
Definition reexports (p : Program) (x y : EntityId) : Prop :=
  exists name ex, astEntities p !! x = Some (EntNamespaceImport name ex) /\ y ∈ ex.*2.

Definition edge (p : Program) (x y : EntityId) : Prop :=
  references p x y \/ reexports p x y.

(** Every entity but a symbol nested in another symbol. *)
Definition rootLevel (p : Program) (e : EntityId) : Prop :=
  match astEntities p !! e with
  | Some (EntSymbol r) => parentAstSymbol r = None
  | _ => True
  end.

(** [e] is exported by the entry module, or by the module of a namespace
    import. *)
Definition exportedSomewhere (p : Program) (e : EntityId) : Prop :=
  e ∈ (entryExports p).*2 \/ exists ns, reexports p ns e.

(** How many of the [CollectorEntity] objects of [l] wrap the entity [E]. *)
Definition occurrences (E : EntityId) (l : list CollectorEntity) : nat :=
  length (filter (fun ce => astEntity ce = E) l).

Definition installed (c : Collector) (e : EntityId) : Prop :=
  is_Some (_entitiesByAstEntity c !! e).

(** The array and the map of the Collector hold the same objects, once each. *)
Definition graph_wf (c : Collector) : Prop :=
  NoDup (_entities c) /\
  (forall e, e ∈ _entities c <-> installed c e) /\
  (forall e ce, _entitiesByAstEntity c !! e = Some ce -> astEntity ce = e).

(** Two states with the same entity graph. *)
Definition same_graph (c c' : Collector) : Prop :=
  _entities c' = _entities c /\ _entitiesByAstEntity c' = _entitiesByAstEntity c.

(** The walk is closed under [edge], except at the entities of [G] (those
    whose expansion is under way). *)
Definition closed_except (p : Program) (G : gset EntityId) (w : Walk) : Prop :=
  forall x y, x ∈ alreadySeenAstEntities w -> x ∉ G -> edge p x y ->
    y ∈ alreadySeenAstEntities w.

Definition seen_installed (p : Program) (w : Walk) : Prop :=
  forall y, y ∈ alreadySeenAstEntities w -> rootLevel p y -> installed (collector w) y.

Definition walk_le (w w' : Walk) : Prop :=
  alreadySeenAstEntities w ⊆ alreadySeenAstEntities w' /\
  (forall y, installed (collector w) y -> installed (collector w') y).

Definition walk_ok (p : Program) (G : gset EntityId) (w : Walk) : Prop :=
  closed_except p G w /\ seen_installed p w /\ graph_wf (collector w).

(** Every export name of every [CollectorEntity], in array order. *)
Definition allExportNames (c : Collector) : list string :=
  flat_map exportNames (entities c).

(** The names the renaming loop must avoid. *)
Definition reservedNames (p : Program) (usedNames : gset string) : gset string :=
  {["default"]} ∪ usedNames ∪ list_to_set (globalNames p).

(** The candidate the renaming loop tries after [suffix] was incremented to [j]. *)
Definition candidate (idealNameForEmit : string) (j : N) : string :=
  idealNameForEmit +:+ "_" +:+ pretty j.

(** The condition under which [_makeUniqueNames] takes the ideal name as it is. *)
Definition acceptsIdeal (p : Program) (entity : CollectorEntity) (n : string) : bool :=
  bool_decide (n ∈ exportNames entity) && negb (hasGlobalName p n)
  && bool_decide (n ≠ "default").

(** The names the renaming loop tries, in order: the ideal name, then the
    ideal name with the suffixes [_2], [_3], ... *)
Definition nthCandidate (idealNameForEmit : string) (j : N) : string :=
  if bool_decide (j = 1%N) then idealNameForEmit else candidate idealNameForEmit j.

(** The names the renaming loop cannot give to an entity that comes after the
    entities [before] in the array: ["default"], the global names, the export
    names of all entities, and the names emitted for the entities [before]
    ([c] is the state before the renaming, [c'] the state after it). *)
Definition taken (p : Program) (c c' : Collector) (before : list EntityId) (n : string) : Prop :=
  n = "default" \/ hasGlobalName p n = true \/ n ∈ allExportNames c \/
  exists e0 ce0, e0 ∈ before /\ _entitiesByAstEntity c' !! e0 = Some ce0 /\
                 nameForEmit ce0 = Some n.

(** Fuel that is enough for [_makeUniqueNames] on [c]. *)
Definition namingFuel (p : Program) (c : Collector) : nat :=
  length (allExportNames c) + length (_entities c) + length (globalNames p) + 3.

(** [c'] is [c] with other emitted names: nothing else differs. *)
Definition renamed (c c' : Collector) : Prop :=
  _entities c' = _entities c /\
  (forall e, _entitiesByAstEntity c !! e = None -> _entitiesByAstEntity c' !! e = None) /\
  (forall e ce, _entitiesByAstEntity c !! e = Some ce ->
     exists n, _entitiesByAstEntity c' !! e
               = Some (mkCollectorEntity (astEntity ce) (exportNames ce)
                         (astNamespaceImports ce) (consumableViaInheritance ce) n)).

(** Every export name is in [usedNames]. *)
Definition exports_used (c : Collector) (used : gset string) : Prop :=
  forall e ce n, _entitiesByAstEntity c !! e = Some ce -> n ∈ exportNames ce -> n ∈ used.

(** No name is an export name of two entities. *)
Definition exports_owned (c : Collector) : Prop :=
  forall e1 e2 ce1 ce2 n,
    _entitiesByAstEntity c !! e1 = Some ce1 -> _entitiesByAstEntity c !! e2 = Some ce2 ->
    n ∈ exportNames ce1 -> n ∈ exportNames ce2 -> e1 = e2.

(** What the second pass of [_makeUniqueNames] has done for the entity [e]:
    it was given a name that is now in [used'], and that name is either the
    ideal name, accepted as it is, or a name that was not reserved. *)
Definition named (p : Program) (c c' : Collector) (used used' : gset string)
    (e : EntityId) : Prop :=
  exists ce ast n,
    _entitiesByAstEntity c !! e = Some ce /\
    astEntities p !! e = Some ast /\
    _entitiesByAstEntity c' !! e = Some (setNameForEmit n ce) /\
    n ∈ used' /\
    ((acceptsIdeal p ce (idealName ast ce) = true /\ n = idealName ast ce) \/
     (acceptsIdeal p ce (idealName ast ce) = false /\ n ∉ reservedNames p used)).

(** ** Example programs *)

Definition noTags : ModifierTagSet :=
  mkTags false false false false false false false false false.
Definition publicTag : ModifierTagSet :=
  mkTags true false false false false false false false false.

(** [[
      export namespace AnotherNamespace {
        class A {}
        export class B extends A {}
      }
    ]]
    as in the [inheritance] scenario: entity 1 is the namespace, 2 and 3 are
    the nested classes. *)
Definition nestedA : AstDeclaration :=
  mkAstDeclaration (2%positive, 0) ClassDeclaration 0 None [] (Some (1%positive, 0)) [].
Definition nestedB : AstDeclaration :=
  mkAstDeclaration (3%positive, 0) ClassDeclaration 0 (Some publicTag)
    [mkRef 2%positive Inheritance] (Some (1%positive, 0)) [].
Definition anotherNamespace : AstDeclaration :=
  mkAstDeclaration (1%positive, 0) ModuleDeclaration 0 (Some publicTag) [] None
    [nestedA; nestedB].
Definition progNested : Program :=
  mkProgram
    (list_to_map
       [(1%positive, EntSymbol (mkAstSymbol "AnotherNamespace" false None 1%positive [anotherNamespace]));
        (2%positive, EntSymbol (mkAstSymbol "A" false (Some 1%positive) 1%positive [nestedA]));
        (3%positive, EntSymbol (mkAstSymbol "B" false (Some 1%positive) 1%positive [nestedB]))])
    [("AnotherNamespace", 1%positive)] [] false.

(** [[
      class Base {}
      export namespace NS {
        class A extends Base {}
        export class B extends A {}
      }
    ]]
    entity 1 is the namespace, 2 and 3 the nested classes, 4 is [Base]. *)
Definition innerA : AstDeclaration :=
  mkAstDeclaration (2%positive, 0) ClassDeclaration 0 None
    [mkRef 4%positive Inheritance] (Some (1%positive, 0)) [].
Definition innerB : AstDeclaration :=
  mkAstDeclaration (3%positive, 0) ClassDeclaration 0 (Some publicTag)
    [mkRef 2%positive Inheritance] (Some (1%positive, 0)) [].
Definition nsDeclaration : AstDeclaration :=
  mkAstDeclaration (1%positive, 0) ModuleDeclaration 0 (Some publicTag) [] None
    [innerA; innerB].
Definition baseDeclaration : AstDeclaration :=
  mkAstDeclaration (4%positive, 0) ClassDeclaration 0 None [] None [].
Definition progNestedBase : Program :=
  mkProgram
    (list_to_map
       [(1%positive, EntSymbol (mkAstSymbol "NS" false None 1%positive [nsDeclaration]));
        (2%positive, EntSymbol (mkAstSymbol "A" false (Some 1%positive) 1%positive [innerA]));
        (3%positive, EntSymbol (mkAstSymbol "B" false (Some 1%positive) 1%positive [innerB]));
        (4%positive, EntSymbol (mkAstSymbol "Base" false None 4%positive [baseDeclaration]))])
    [("NS", 1%positive)] [] false.

(** ** The claims as the specification states them, where the code differs *)

(** Every entity reachable from the exports by a chain of references appears
    exactly once in [entities]. *)
Definition reachability_closure_as_stated : Prop :=
  forall (p : Program) (fuel : nat) (c : Collector) (x E : EntityId),
    analyze p fuel newCollector = Done c ->
    x ∈ (entryExports p).*2 -> rtc (references p) x E ->
    occurrences E (entities c) = 1.

(** Every error the traversal aborts with names an entity of the program. *)
Definition abort_context_as_stated : Prop :=
  forall (p : Program) (fuel : nat) (e : EntityId) (w : Walk) (err : Thrown),
    _createEntityForIndirectReferences p fuel e w = Throw err ->
    namesAnEntity p err = true.

(** [[
      class Y {}
      class X extends Y {}
      /** @public */ export class A { prop: X; }
      /** @public */ export class B extends X {}
    ]]
    entities 1 to 4 are [A], [B], [X], [Y]; 5 is the property [A.prop]. *)
Definition propOfA : AstDeclaration :=
  mkAstDeclaration (5%positive, 0) PropertyDeclaration 0 None
    [mkRef 3%positive Plain] (Some (1%positive, 0)) [].
Definition classA : AstDeclaration :=
  mkAstDeclaration (1%positive, 0) ClassDeclaration 0 (Some publicTag) [] None [propOfA].
Definition classB : AstDeclaration :=
  mkAstDeclaration (2%positive, 0) ClassDeclaration 0 (Some publicTag)
    [mkRef 3%positive Inheritance] None [].
Definition classX : AstDeclaration :=
  mkAstDeclaration (3%positive, 0) ClassDeclaration 0 None
    [mkRef 4%positive Inheritance] None [].
Definition classY : AstDeclaration :=
  mkAstDeclaration (4%positive, 0) ClassDeclaration 0 None [] None [].
Definition inheritanceEntities : gmap EntityId AstEntity :=
  list_to_map
    [(1%positive, EntSymbol (mkAstSymbol "A" false None 1%positive [classA]));
     (2%positive, EntSymbol (mkAstSymbol "B" false None 2%positive [classB]));
     (3%positive, EntSymbol (mkAstSymbol "X" false None 3%positive [classX]));
     (4%positive, EntSymbol (mkAstSymbol "Y" false None 4%positive [classY]));
     (5%positive, EntSymbol (mkAstSymbol "prop" false (Some 1%positive) 1%positive [propOfA]))].
(** [A] is exported before [B] ... *)
Definition progPlainFirst : Program :=
  mkProgram inheritanceEntities [("A", 1%positive); ("B", 2%positive)] [] false.
(** ... and the same declarations with [B] exported before [A]. *)
Definition progInheritanceFirst : Program :=
  mkProgram inheritanceEntities [("B", 2%positive); ("A", 1%positive)] [] false.

(** The [CollectorEntity] of [e] once the analysis is done. *)
Definition analyzed (p : Program) (e : EntityId) : option CollectorEntity :=
  match analyze p 10 newCollector with
  | Done c => _entitiesByAstEntity c !! e
  | _ => None
  end.

(** Every reference to [y] in the program: the referencing symbol and the kind. *)
Definition referencesTo (p : Program) (y : EntityId)
    : list (EntityId * AstEntityReferenceKind) :=
  flat_map (fun xe : EntityId * AstEntity =>
    match snd xe with
    | EntSymbol s =>
        omap (fun r => if bool_decide (ref_astEntity r = y)
                       then Some (fst xe, ref_kind r) else None)
          (flat_map astEntityReferences (forEachDeclarationRecursive s))
    | _ => []
    end) (map_to_list (astEntities p)).

(** [[
      class X {}
      export { X as P, X as Q };
    ]] *)
Definition progAliases : Program :=
  mkProgram
    (list_to_map
       [(1%positive, EntSymbol (mkAstSymbol "X" false None 1%positive
           [mkAstDeclaration (1%positive, 0) ClassDeclaration 0 (Some publicTag) [] None []]))])
    [("P", 1%positive); ("Q", 1%positive)] [] false.

(** [[ export default class Foo {} ]] *)
Definition progDefault : Program :=
  mkProgram
    (list_to_map
       [(1%positive, EntSymbol (mkAstSymbol "Foo" false None 1%positive
           [mkAstDeclaration (1%positive, 0) ClassDeclaration 0 (Some publicTag) [] None []]))])
    [("default", 1%positive)] [] false.

(** "Example 3" of the comment in [_makeUniqueNames]:
    [[
      class X {}
      export { X as A };
      export { X as B };
      class Y {}
      export { Y as X };
    ]] *)
Definition progAliasClash : Program :=
  mkProgram
    (list_to_map
       [(1%positive, EntSymbol (mkAstSymbol "X" false None 1%positive
           [mkAstDeclaration (1%positive, 0) ClassDeclaration 0 (Some publicTag) [] None []]));
        (2%positive, EntSymbol (mkAstSymbol "Y" false None 2%positive
           [mkAstDeclaration (2%positive, 0) ClassDeclaration 0 (Some publicTag) [] None []]))])
    [("A", 1%positive); ("B", 1%positive); ("X", 2%positive)] [] false.

(** A symbol exported under two aliases is emitted under its local name. *)
Definition two_aliases_as_stated : Prop :=
  forall (p : Program) (fuel : nat) (c : Collector) (e : EntityId) (s : AstSymbol)
         (ce : CollectorEntity) (P Q : string),
    analyze p fuel newCollector = Done c ->
    astEntities p !! e = Some (EntSymbol s) ->
    _entitiesByAstEntity c !! e = Some ce -> exportNames ce = [P; Q] ->
    nameForEmit ce = Some (localName s).

(** An entity whose only export name is not a global name is emitted under
    that export name. *)
Definition sole_export_name_as_stated : Prop :=
  forall (p : Program) (fuel : nat) (c c' : Collector) (ce : CollectorEntity) (n : string),
    graph_wf c -> _makeUniqueNames p fuel c = Done c' ->
    ce ∈ entities c' -> exportNames ce = [n] -> hasGlobalName p n = false ->
    nameForEmit ce = Some n.

(** The outcome of a run with [fuel]: a normal result satisfies [Q], and the
    fuel can only run out below [bound]. *)
Definition ends_within {A : Type} (bound fuel : nat) (o : Outcome A) (Q : A -> Prop) : Prop :=
  match o with
  | Done a => Q a
  | Throw _ => True
  | Timeout => fuel < bound
  end.

(** ** Release tags: the rules in the specification's words *)

(** The first visibility modifier of a comment in the order Public, Beta,
    Alpha, Internal. *)
Definition firstInPrecedence (tags : ModifierTagSet) : ReleaseTag.t :=
  if isPublic tags then ReleaseTag.Public
  else if isBeta tags then ReleaseTag.Beta
  else if isAlpha tags then ReleaseTag.Alpha
  else if isInternal tags then ReleaseTag.Internal
  else ReleaseTag.None.

(** How many visibility modifiers a comment defines. *)
Definition visibilityModifiers (tags : ModifierTagSet) : nat :=
  length (filter (fun b : bool => b = true)
            [isPublic tags; isBeta tags; isAlpha tags; isInternal tags]).

(** The declared tag if there is one, otherwise the effective tag of the
    parent, otherwise [None]. *)
Definition inheritedTag (declared : ReleaseTag.t) (parentEffective : option ReleaseTag.t)
    : ReleaseTag.t :=
  if bool_decide (declared = ReleaseTag.None)
  then default ReleaseTag.None parentEffective
  else declared.

(** A tag that is still [None] becomes [Public] for an external symbol and
    for a symbol whose root entity is consumable. *)
Definition healedTag (external rootConsumable : bool) (t : ReleaseTag.t) : ReleaseTag.t :=
  if bool_decide (t = ReleaseTag.None)
  then (if external || rootConsumable then ReleaseTag.Public else ReleaseTag.None)
  else t.

(** Whether the root symbol of [sym] has a consumable [CollectorEntity]. *)
Definition rootConsumable (c : Collector) (sym : AstSymbol) : bool :=
  from_option consumable false (_entitiesByAstEntity c !! rootAstSymbol sym).

(** The effective tag of the parent declaration, as [fetchApiItemMetadata]
    returns it from the state [c1], leaving the state [c2]; [None] when the
    declaration has no parent. *)
Definition parentTag (p : Program) (fuel : nat) (d : AstDeclaration)
    (c1 c2 : Collector) (t : option ReleaseTag.t) : Prop :=
  match parent d with
  | None => t = None /\ c2 = c1
  | Some pd =>
      exists a pm, fetchApiItemMetadata p fuel pd c1 = Done (Some a, c2) /\
                   metadataObjects c2 !! a = Some pm /\
                   t = Some (effectiveReleaseTag pm)
  end.

(** [c'] has the messages of [c] and possibly more, after them. *)
Definition messages_grow (c c' : Collector) : Prop :=
  exists more, messages c' = messages c ++ more.

(** The metadata attached to a declaration. *)
Definition metadataOf (c : Collector) (d : DeclId) : option ApiItemMetadata :=
  snd <$> readApiItemMetadata c d.

(** The declaration [d] is one of the declarations of its symbol in [p]. *)
Definition declares (p : Program) (d : AstDeclaration) : Prop :=
  exists s, astEntities p !! decl_astSymbol (declId d) = Some (EntSymbol s) /\
            d ∈ astDeclarations s.

(** The diagnostic of the [if (parserContext)] block for a comment with more
    than one release tag. *)
Definition extraReleaseTagMessages (sym : AstSymbol) (d : AstDeclaration)
    (tags : option ModifierTagSet) : list ExtractorMessage :=
  if from_option (fun t => bool_decide (2 <= visibilityModifiers t)) false tags
     && negb (isExternal sym)
  then [(ExtraReleaseTag, OnDeclaration (declId d))] else [].

(** The diagnostic of the block that heals a missing release tag. *)
Definition missingReleaseTagMessages (c : Collector) (sym root : AstSymbol)
    (d : AstDeclaration) (base : ReleaseTag.t) : list ExtractorMessage :=
  if bool_decide (base = ReleaseTag.None) && negb (isExternal sym)
     && rootConsumable c sym && bool_decide (localName root <> "_default")
  then [(MissingReleaseTag, OnSymbol (decl_astSymbol (declId d)))] else [].

(** [c1] is [c] with more diagnostics and nothing else changed. *)
Definition only_messages (c c1 : Collector) : Prop :=
  messages_grow c c1 /\
  apiItemMetadata c1 = apiItemMetadata c /\ metadataObjects c1 = metadataObjects c /\
  declarationMetadata c1 = declarationMetadata c /\ same_graph c c1.

(** [[ /** @public @beta */ export class T {} ]] *)
Definition twoTags : ModifierTagSet :=
  mkTags true true false false false false false false false.
Definition classTwoTags : AstDeclaration :=
  mkAstDeclaration (1%positive, 0) ClassDeclaration 0 (Some twoTags) [] None [].
Definition progTwoTags : Program :=
  mkProgram
    (list_to_map [(1%positive, EntSymbol (mkAstSymbol "T" false None 1%positive [classTwoTags]))])
    [("T", 1%positive)] [] false.

(** [[ export class U {} ]], without a doc comment. *)
Definition classUndocumented : AstDeclaration :=
  mkAstDeclaration (1%positive, 0) ClassDeclaration 0 None [] None [].
Definition progUndocumented : Program :=
  mkProgram
    (list_to_map
       [(1%positive, EntSymbol (mkAstSymbol "U" false None 1%positive [classUndocumented]))])
    [("U", 1%positive)] [] false.

(** [[
      /** @public */ export class C { m(): void; }
    ]]
    entity 1 is the class, entity 2 its method, which has no doc comment. *)
Definition methodOfC : AstDeclaration :=
  mkAstDeclaration (2%positive, 0) MethodDeclaration 0 None [] (Some (1%positive, 0)) [].
Definition classC : AstDeclaration :=
  mkAstDeclaration (1%positive, 0) ClassDeclaration 0 (Some publicTag) [] None [methodOfC].
Definition progMethod : Program :=
  mkProgram
    (list_to_map
       [(1%positive, EntSymbol (mkAstSymbol "C" false None 1%positive [classC]));
        (2%positive, EntSymbol (mkAstSymbol "m" false (Some 1%positive) 1%positive [methodOfC]))])
    [("C", 1%positive)] [] false.

(** [[
      class Unexported {}
      /** @public */ export function someFunction(): Unexported;
    ]]
    as in the [inheritance] scenario: entity 1 is the function, entity 2 the
    class, a forgotten export. *)
Definition classUnexported : AstDeclaration :=
  mkAstDeclaration (2%positive, 0) ClassDeclaration 0 None [] None [].
Definition someFunction : AstDeclaration :=
  mkAstDeclaration (1%positive, 0) FunctionDeclaration 0 (Some publicTag)
    [mkRef 2%positive Plain] None [].
Definition progForgotten : Program :=
  mkProgram
    (list_to_map
       [(1%positive, EntSymbol (mkAstSymbol "someFunction" false None 1%positive [someFunction]));
        (2%positive, EntSymbol (mkAstSymbol "Unexported" false None 2%positive [classUnexported]))])
    [("someFunction", 1%positive)] [] false.

(** The metadata [fetchApiItemMetadata] returns for [d] once [p] is analyzed,
    and the diagnostics reported by then. *)
Definition fetched (p : Program) (d : DeclId)
    : option (ApiItemMetadata * list ExtractorMessage) :=
  match analyze p 10 newCollector with
  | Done c =>
      match fetchApiItemMetadata p 10 d c with
      | Done (Some a, c') => (fun m => (m, messages c')) <$> metadataObjects c' !! a
      | _ => None
      end
  | _ => None
  end.

(** The effective tag is the declared tag, else the parent's effective tag,
    else [None]. *)
Definition effective_tag_as_stated : Prop :=
  forall (p : Program) (d : AstDeclaration) (m : ApiItemMetadata)
         (msgs : list ExtractorMessage),
    declares p d -> parent d = None ->
    fetched p (declId d) = Some (m, msgs) ->
    effectiveReleaseTag m = inheritedTag (declaredReleaseTag m) None.

(** A comment with more than one visibility modifier leaves the declared tag
    [None]. *)
Definition extra_tags_as_stated : Prop :=
  forall (p : Program) (d : AstDeclaration) (tags : ModifierTagSet)
         (m : ApiItemMetadata) (msgs : list ExtractorMessage),
    declares p d -> parsedTsdoc d = Some tags -> 2 <= visibilityModifiers tags ->
    fetched p (declId d) = Some (m, msgs) ->
    declaredReleaseTag m = ReleaseTag.None.

(** A symbol of the package that is in the graph and has no release tag gets
    the diagnostic and is treated as [Public]. *)
Definition missing_tag_as_stated : Prop :=
  forall (p : Program) (c : Collector) (s : AstSymbol) (d : AstDeclaration)
         (m : ApiItemMetadata) (msgs : list ExtractorMessage),
    analyze p 10 newCollector = Done c ->
    installed c (decl_astSymbol (declId d)) ->
    astEntities p !! decl_astSymbol (declId d) = Some (EntSymbol s) ->
    astDeclarations s = [d] -> isExternal s = false ->
    parsedTsdoc d = None -> parent d = None ->
    fetched p (declId d) = Some (m, msgs) ->
    effectiveReleaseTag m = ReleaseTag.Public /\
    (MissingReleaseTag, OnSymbol (decl_astSymbol (declId d))) ∈ msgs.

(** ** The API model generator *)

(** An item of the model and everything below it. *)
Fixpoint allItems (i : ApiItem) : list ApiItem :=
  i :: flat_map allItems (members i).

(** The items below [i]. *)
Definition descendants (i : ApiItem) : list ApiItem :=
  flat_map allItems (members i).

(** [i'] is the item [i], possibly with other members. *)
Definition same_item (i i' : ApiItem) : Prop :=
  containerKey i' = containerKey i /\ api_releaseTag i' = api_releaseTag i /\
  api_docComment i' = api_docComment i /\ api_excerptTokens i' = api_excerptTokens i.

(** What a call leaves of a container: [parent'] is the item [parent]; its
    members are the members of [parent], each possibly with other members of
    its own, followed by new members that satisfy [Q]. *)
Definition grows (Q : ApiItem -> Prop) (parent parent' : ApiItem) : Prop :=
  same_item parent parent' /\
  exists old more, members parent' = old ++ more /\
    Forall2 same_item (members parent) old /\ Forall Q more.

(** An item of the model was made with a release tag that is not trimmed. *)
Definition untrimmed (i : ApiItem) : Prop :=
  trimmedTag (api_releaseTag i) = false.

(** The item was made from the declaration [x]: its excerpt starts with the
    text of [x]. *)
Definition madeFrom (x : AstDeclaration) (i : ApiItem) : Prop :=
  head (api_excerptTokens i) = Some (declId x).

(** [x] is a declaration of the program: it is in the declaration tree of
    one of the symbols. *)
Definition declaredIn (p : Program) (x : AstDeclaration) : Prop :=
  exists e s, astEntities p !! e = Some (EntSymbol s) /\ x ∈ forEachDeclarationRecursive s.

(** An item that was made from a declaration was made from a declaration of
    the program that is not private. *)
Definition fromPublic (p : Program) (i : ApiItem) : Prop :=
  forall d, head (api_excerptTokens i) = Some d ->
    exists x, declaredIn p x /\ declId x = d /\ isPrivate x = false.

(** The item [i] was made for the entity [e]: from one of the declarations
    of the symbol, or as the namespace of the namespace import. *)
Definition madeFor (p : Program) (e : EntityId) (i : ApiItem) : Prop :=
  match astEntities p !! e with
  | Some (EntSymbol s) => exists x, x ∈ astDeclarations s /\ madeFrom x i
  | Some (EntNamespaceImport _ _) =>
      key_kind (containerKey i) = ApiNamespace /\ api_excerptTokens i = []
  | _ => False
  end.

(** No two members of the item have the same container key. *)
Definition distinct_keys (i : ApiItem) : Prop :=
  NoDup (containerKey <$> members i).

(** The effective release tag [fetchApiItemMetadata] returns for [d], and
    the state it leaves. *)
Definition fetchedTag (p : Program) (fuel : nat) (d : DeclId) (c : Collector)
    (r : ReleaseTag.t) (c' : Collector) : Prop :=
  exists a m, fetchApiItemMetadata p fuel d c = Done (Some a, c') /\
              metadataObjects c' !! a = Some m /\ effectiveReleaseTag m = r.

(** [[
      /** @public */ export class K {
        private secret: number;
        /** @internal */ hidden(): void;
        /** @alpha */ early: Inner;   // Inner is an interface with a member
        shown(): void;
      }
    ]]
    entities 1 to 5 are [K], [secret], [hidden], [early] and [shown]; the
    declaration of [early] is given a child to show that children go with
    their parent. *)
Definition internalTag : ModifierTagSet :=
  mkTags false false false true false false false false false.
Definition alphaTag : ModifierTagSet :=
  mkTags false false true false false false false false false.
Definition memberSecret : AstDeclaration :=
  mkAstDeclaration (2%positive, 0) PropertyDeclaration 8 None [] (Some (1%positive, 0)) [].
Definition memberHidden : AstDeclaration :=
  mkAstDeclaration (3%positive, 0) MethodDeclaration 0 (Some internalTag) []
    (Some (1%positive, 0)) [].
Definition childOfEarly : AstDeclaration :=
  mkAstDeclaration (6%positive, 0) PropertySignature 0 None [] (Some (4%positive, 0)) [].
Definition memberEarly : AstDeclaration :=
  mkAstDeclaration (4%positive, 0) InterfaceDeclaration 0 (Some alphaTag) []
    (Some (1%positive, 0)) [childOfEarly].
Definition memberShown : AstDeclaration :=
  mkAstDeclaration (5%positive, 0) MethodDeclaration 0 None [] (Some (1%positive, 0)) [].
Definition classK : AstDeclaration :=
  mkAstDeclaration (1%positive, 0) ClassDeclaration 0 (Some publicTag) [] None
    [memberSecret; memberHidden; memberEarly; memberShown].
Definition progTrim (forgotten : bool) : Program :=
  mkProgram
    (list_to_map
       [(1%positive, EntSymbol (mkAstSymbol "K" false None 1%positive [classK]));
        (2%positive, EntSymbol (mkAstSymbol "secret" false (Some 1%positive) 1%positive [memberSecret]));
        (3%positive, EntSymbol (mkAstSymbol "hidden" false (Some 1%positive) 1%positive [memberHidden]));
        (4%positive, EntSymbol (mkAstSymbol "early" false (Some 1%positive) 1%positive [memberEarly]));
        (5%positive, EntSymbol (mkAstSymbol "shown" false (Some 1%positive) 1%positive [memberShown]));
        (6%positive, EntSymbol (mkAstSymbol "x" false (Some 4%positive) 1%positive [childOfEarly]))])
    [("K", 1%positive)] [] forgotten.

(** [[
      // file.ts
      /** @public */ export function f(): void;
      // index.ts
      import * as ns from './file';
      export { ns };
    ]]
    entity 1 is the namespace import, entity 2 the function. *)
Definition functionF : AstDeclaration :=
  mkAstDeclaration (2%positive, 0) FunctionDeclaration 0 (Some publicTag) [] None [].
Definition progNs (forgotten : bool) : Program :=
  mkProgram
    (list_to_map
       [(1%positive, EntNamespaceImport "ns" [("f", 2%positive)]);
        (2%positive, EntSymbol (mkAstSymbol "f" false None 2%positive [functionF]))])
    [("ns", 1%positive)] [] forgotten.

(** [astModule.moduleSymbol.name] for the examples. *)
Definition moduleNames (e : EntityId) : string := "module".

(** The entry point [buildApiPackage] returns after [analyze]. *)
Definition modelOf (p : Program) : option ApiItem :=
  match analyze p 10 newCollector with
  | Done c =>
      match buildApiPackage p moduleNames 10 (mkGenerator c ∅) with
      | Done (apiEntryPoint, _) => Some apiEntryPoint
      | _ => None
      end
  | _ => None
  end.

(** The entry point with the members [ms]. *)
Definition entryPointWith (ms : list ApiItem) : ApiItem :=
  mkApiItem (mkContainerKey ApiEntryPoint (Some EmptyString) None None)
    ReleaseTag.None None [] ms.

(** [progForgotten] with [includeForgottenExports] set. *)
Definition progForgottenIncluded : Program :=
  mkProgram (astEntities progForgotten) (entryExports progForgotten)
    (globalNames progForgotten) true.

(** The Collector once [progNs false] is analyzed, and what [buildApiPackage]
    returns for it. *)
Definition nsAnalyzed : Collector :=
  match analyze (progNs false) 10 newCollector with
  | Done c => c
  | _ => newCollector
  end.
Definition nsBuilt : ApiItem * Generator :=
  match buildApiPackage (progNs false) moduleNames 10 (mkGenerator nsAnalyzed ∅) with
  | Done r => r
  | _ => (entryPointWith [], mkGenerator nsAnalyzed ∅)
  end.

(** An entity without export names is processed only when
    [includeForgottenExports] is set: with the option off, nothing in the
    model is made for it. *)
Definition forgotten_exports_as_stated : Prop :=
  forall (p : Program) (c : Collector) (apiEntryPoint : ApiItem) (g' : Generator)
         (ce : CollectorEntity) (i : ApiItem),
    analyze p 10 newCollector = Done c ->
    buildApiPackage p moduleNames 10 (mkGenerator c ∅) = Done (apiEntryPoint, g') ->
    includeForgottenExports p = false ->
    ce ∈ entities c -> exportNames ce = [] ->
    i ∈ descendants apiEntryPoint -> ~ madeFor p (astEntity ce) i.

(** The state in which [_calculateApiItemMetadata] finds the Collector when
    [_fetchSymbolMetadata] calls it for the only declaration [d] of a root
    symbol of [p]: the analysis is done up to the entity graph, and the
    [DeclarationMetadata] of [d] is initialized. *)
Definition readyFor (p : Program) (d : AstDeclaration) : Collector :=
  setDeclarationMetadata (declId d) (newDeclarationMetadata d)
    (foldl (fun c (ex : string * EntityId) =>
              _createCollectorEntity (snd ex) (Some (fst ex)) false c)
       newCollector (entryExports p)).

(** The state after [_calculateApiItemMetadata] ran from [readyFor]. *)
Definition calculated (p : Program) (d : AstDeclaration) : Collector :=
  match _calculateApiItemMetadata p 10 d (readyFor p d) with
  | Done c' => c'
  | _ => newCollector
  end.

(** ** Ancillary declarations *)

(** The [DeclarationMetadata] objects that exist in [c] still exist in [c'],
    with the same doc comment and the same [isAncillary]; their
    [ancillaryDeclarations] arrays may have been pushed to. *)
Definition dm_grow (c c' : Collector) : Prop :=
  forall d m, declarationMetadata c !! d = Some m ->
    exists m', declarationMetadata c' !! d = Some m' /\
      isAncillary m' = isAncillary m /\
      tsdocParserContext m' = tsdocParserContext m /\
      ancillaryDeclarations m `prefix_of` ancillaryDeclarations m'.

(** The same, for the objects of the declarations outside [D]. *)
Definition dm_grow_except (D : list DeclId) (c c' : Collector) : Prop :=
  forall d m, d ∉ D -> declarationMetadata c !! d = Some m ->
    exists m', declarationMetadata c' !! d = Some m' /\
      isAncillary m' = isAncillary m /\
      tsdocParserContext m' = tsdocParserContext m /\
      ancillaryDeclarations m `prefix_of` ancillaryDeclarations m'.

(** Some declaration of the program has the identity [d] and the kind [k]. *)
Definition declarationKindOf (p : Program) (d : DeclId) (k : SyntaxKind) : Prop :=
  exists e s n, astEntities p !! e = Some (EntSymbol s) /\ n ∈ astDeclarations s /\
                declId n = d /\ declaration_kind n = k.

(** An identity denotes one declaration: the declarations of the program that
    carry the same identity have the same kind. *)
Definition identified_declarations (p : Program) : Prop :=
  forall d k1 k2, declarationKindOf p d k1 -> declarationKindOf p d k2 -> k1 = k2.

(** Only setters are ancillary, and only getters have ancillary declarations. *)
Definition accessor_roles (p : Program) (c : Collector) : Prop :=
  forall d m, declarationMetadata c !! d = Some m ->
    (isAncillary m = true -> declarationKindOf p d SetAccessor) /\
    (ancillaryDeclarations m <> [] -> declarationKindOf p d GetAccessor).

(** [[
      /** @public */ export class P {
        /** the value */ get value(): number;
        set value(v: number);
      }
    ]]
    entity 1 is the class, entity 2 the property with its two declarations. *)
Definition getterDeclaration : AstDeclaration :=
  mkAstDeclaration (2%positive, 0) GetAccessor 0 (Some noTags) [] (Some (1%positive, 0)) [].
Definition setterDeclaration : AstDeclaration :=
  mkAstDeclaration (2%positive, 1) SetAccessor 0 None [] (Some (1%positive, 0)) [].
Definition classP : AstDeclaration :=
  mkAstDeclaration (1%positive, 0) ClassDeclaration 0 (Some publicTag) [] None
    [getterDeclaration; setterDeclaration].
Definition valueSymbol : AstSymbol :=
  mkAstSymbol "value" false (Some 1%positive) 1%positive [getterDeclaration; setterDeclaration].
Definition progAccessors : Program :=
  mkProgram
    (list_to_map
       [(1%positive, EntSymbol (mkAstSymbol "P" false None 1%positive [classP]));
        (2%positive, EntSymbol valueSymbol)])
    [("P", 1%positive)] [] false.

(** The Collector once [progAccessors] is analyzed and the metadata of the
    property was fetched. *)
Definition accessorsFetched : Collector :=
  match analyze progAccessors 10 newCollector with
  | Done c =>
      match _fetchSymbolMetadata progAccessors 10 2%positive c with
      | Done c' => c'
      | _ => newCollector
      end
  | _ => newCollector
  end.
Definition accessorsAnalyzed : Collector :=
  match analyze progAccessors 10 newCollector with
  | Done c => c
  | _ => newCollector
  end.

(** [[
      /** @public */ export class P {
        set value(v: number);
        /** the value */ get value(): number;
      }
    ]]
    the class of [progAccessors] with the setter first. *)
Definition classSetterFirst : AstDeclaration :=
  mkAstDeclaration (1%positive, 0) ClassDeclaration 0 (Some publicTag) [] None
    [setterDeclaration; getterDeclaration].
Definition progSetterFirst : Program :=
  mkProgram
    (list_to_map
       [(1%positive, EntSymbol (mkAstSymbol "P" false None 1%positive [classSetterFirst]));
        (2%positive, EntSymbol (mkAstSymbol "value" false (Some 1%positive) 1%positive
                                  [setterDeclaration; getterDeclaration]))])
    [("P", 1%positive)] [] false.

(** The symbol [sid] of the program is a property with a getter [g] and a
    setter [t], in either order. *)
Definition accessor_pair (p : Program) (sid : EntityId) (sym : AstSymbol)
    (g t : AstDeclaration) : Prop :=
  getSymbol p sid = Done sym /\
  (astDeclarations sym = [g; t] \/ astDeclarations sym = [t; g]) /\
  declaration_kind g = GetAccessor /\ declaration_kind t = SetAccessor /\
  decl_astSymbol (declId g) = sid /\ decl_astSymbol (declId t) = sid /\
  declId g <> declId t.

(** In [c] the setter [t] is ancillary to the getter [g], and the two
    declarations point to one and the same [ApiItemMetadata] object. *)
Definition accessor_pair_linked (c : Collector) (g t : AstDeclaration) : Prop :=
  exists mg mt a o,
    declarationMetadata c !! declId g = Some mg /\ isAncillary mg = false /\
    declId t ∈ ancillaryDeclarations mg /\
    declarationMetadata c !! declId t = Some mt /\ isAncillary mt = true /\
    apiItemMetadata c !! declId g = Some a /\ apiItemMetadata c !! declId t = Some a /\
    metadataObjects c !! a = Some o.

(** The declarations that have an [ApiItemMetadata] in [c] have one in [c']. *)
Definition api_kept (c c' : Collector) : Prop :=
  forall d, is_Some (apiItemMetadata c !! d) -> is_Some (apiItemMetadata c' !! d).

(** ** The inheritance flag *)

(** A declaration of the symbol [x] has an inheritance reference to [y]. *)
Definition inherits (p : Program) (x y : EntityId) : Prop :=
  exists s r, astEntities p !! x = Some (EntSymbol s) /\
    r ∈ flat_map astEntityReferences (forEachDeclarationRecursive s) /\
    ref_astEntity r = y /\ ref_kind r = Inheritance.

(** Every entity with the flag [consumableViaInheritance] is the target of an
    inheritance reference. *)
Definition flag_justified (p : Program) (c : Collector) : Prop :=
  forall e ce, _entitiesByAstEntity c !! e = Some ce ->
    consumableViaInheritance ce = true -> exists x, inherits p x e.

(** ** Well-formed front-end data *)

(** The declarations of a symbol are distinct objects. *)
Definition distinct_declarations (p : Program) : Prop :=
  forall e s, astEntities p !! e = Some (EntSymbol s) -> NoDup (declId <$> astDeclarations s).

(** [astDeclaration.astSymbol] is the symbol that lists the declaration. *)
Definition owned_declarations (p : Program) : Prop :=
  forall e s d, astEntities p !! e = Some (EntSymbol s) -> d ∈ astDeclarations s ->
    decl_astSymbol (declId d) = e.

(** ** Overload indexes *)

(** The number of [d] among the declarations of its kind: one more than the
    declarations of that kind in [before]. *)
Definition overloadNumber (before : list AstDeclaration) (d : AstDeclaration) : nat :=
  S (length (filter (fun x => declaration_kind x = declaration_kind d) before)).

(** Every index in the cache is the number of the declaration among the
    declarations of its kind in its symbol. *)
Definition cache_ok (p : Program) (cache : gmap DeclId nat) : Prop :=
  forall s before d after i,
    getSymbol p (decl_astSymbol (declId d)) = Done s ->
    astDeclarations s = before ++ d :: after ->
    cache !! declId d = Some i -> i = overloadNumber before d.

(** [[
      export function f(x: number): number;
      export function f(x: string): string;
      export namespace f { }
      export function f(x: boolean): boolean;
    ]] *)
Definition overload1 : AstDeclaration :=
  mkAstDeclaration (1%positive, 0) FunctionDeclaration 0 None [] None [].
Definition overload2 : AstDeclaration :=
  mkAstDeclaration (1%positive, 1) FunctionDeclaration 0 None [] None [].
Definition namespaceOfF : AstDeclaration :=
  mkAstDeclaration (1%positive, 2) ModuleDeclaration 0 None [] None [].
Definition overload3 : AstDeclaration :=
  mkAstDeclaration (1%positive, 3) FunctionDeclaration 0 None [] None [].
Definition symbolF : AstSymbol :=
  mkAstSymbol "f" false None 1%positive [overload1; overload2; namespaceOfF; overload3].
Definition progOverloads : Program :=
  mkProgram (list_to_map [(1%positive, EntSymbol symbolF)]) [("f", 1%positive)] [] false.

(** ** What the metadata functions leave alone *)

(** The [SymbolMetadata] that are set in [c] are the same in [c'], the
    [ApiItemMetadata] objects of [c] are unchanged in [c'] (others may have
    been made), and [_astEntryPoint] is the same. *)
Definition store_grow (c c' : Collector) : Prop :=
  (forall e r, symbolMetadata c !! e = Some r -> symbolMetadata c' !! e = Some r) /\
  (exists more, metadataObjects c' = metadataObjects c ++ more) /\
  _astEntryPoint c' = _astEntryPoint c.

(** ** Setters without a getter *)

(** [[
      export class Q { set only(v: number); }
    ]]
    entity 1 is the class, entity 2 the property with its single setter. *)
Definition loneSetter : AstDeclaration :=
  mkAstDeclaration (2%positive, 0) SetAccessor 0 None [] (Some (1%positive, 0)) [].
Definition classQ : AstDeclaration :=
  mkAstDeclaration (1%positive, 0) ClassDeclaration 0 (Some publicTag) [] None [loneSetter].
Definition onlySymbol : AstSymbol :=
  mkAstSymbol "only" false (Some 1%positive) 1%positive [loneSetter].
Definition progLoneSetter : Program :=
  mkProgram
    (list_to_map
       [(1%positive, EntSymbol (mkAstSymbol "Q" false None 1%positive [classQ]));
        (2%positive, EntSymbol onlySymbol)])
    [("Q", 1%positive)] [] false.

(** Some declaration of the symbol is a getter. *)
Definition hasGetter (s : AstSymbol) : bool :=
  bool_decide (Exists (fun d => declaration_kind d = GetAccessor) (astDeclarations s)).

(** The diagnostics for the setters of a symbol that has no getter. *)
Definition missingGetterMessages (s : AstSymbol) : list ExtractorMessage :=
  if hasGetter s then []
  else (fun d => (MissingGetter, OnDeclaration (declId d)))
         <$> filter (fun d => declaration_kind d = SetAccessor) (astDeclarations s).

(** [[
      export class R {
        /** the value */ get value(): number;
        /** sets the value */ set value(v: number);
      }
    ]] *)
Definition documentedSetter : AstDeclaration :=
  mkAstDeclaration (2%positive, 1) SetAccessor 0 (Some publicTag) [] (Some (1%positive, 0)) [].
Definition classR : AstDeclaration :=
  mkAstDeclaration (1%positive, 0) ClassDeclaration 0 (Some publicTag) [] None
    [getterDeclaration; documentedSetter].
Definition documentedValueSymbol : AstSymbol :=
  mkAstSymbol "value" false (Some 1%positive) 1%positive [getterDeclaration; documentedSetter].
Definition progSetterWithDocs : Program :=
  mkProgram
    (list_to_map
       [(1%positive, EntSymbol (mkAstSymbol "R" false None 1%positive [classR]));
        (2%positive, EntSymbol documentedValueSymbol)])
    [("R", 1%positive)] [] false.

(** The Collector once the metadata of the property of [progSetterWithDocs]
    was fetched from a new Collector. *)
Definition setterWithDocsFetched : Collector :=
  match _fetchSymbolMetadata progSetterWithDocs 10 2%positive newCollector with
  | Done c' => c'
  | _ => newCollector
  end.

(** ** The links between main and ancillary declarations *)

(** The documented shape of [ancillaryDeclarations]: every declaration in
    such an array is ancillary; no array lists a declaration twice; no
    declaration is listed by two declarations; and every ancillary
    declaration is listed by some declaration. *)
Definition links_ok (dm : gmap DeclId InternalDeclarationMetadata) : Prop :=
  (forall d m x, dm !! d = Some m -> x ∈ ancillaryDeclarations m ->
     exists mx, dm !! x = Some mx /\ isAncillary mx = true) /\
  (forall d m, dm !! d = Some m -> NoDup (ancillaryDeclarations m)) /\
  (forall d1 d2 m1 m2 x, dm !! d1 = Some m1 -> dm !! d2 = Some m2 ->
     x ∈ ancillaryDeclarations m1 -> x ∈ ancillaryDeclarations m2 -> d1 = d2) /\
  (forall x mx, dm !! x = Some mx -> isAncillary mx = true ->
     exists d m, dm !! d = Some m /\ x ∈ ancillaryDeclarations m).

(** The metadata of the Collector hangs together: the links between main and
    ancillary declarations have their shape, and a declaration that has an
    [ApiItemMetadata] has a [DeclarationMetadata]. *)
Definition consistent (c : Collector) : Prop :=
  links_ok (declarationMetadata c) /\
  forall d, is_Some (apiItemMetadata c !! d) -> is_Some (declarationMetadata c !! d).

(** ** The entity graph after [analyze] *)

(** [e] can be reached from an export of the entry module along references
    and namespace re-exports. *)
Definition reachable (p : Program) (e : EntityId) : Prop :=
  exists x, x ∈ (entryExports p).*2 /\ rtc (edge p) x e.

(** [[
      class Base {}
      /** @public */ export class Derived extends Base {}
      class Unused {}
    ]] *)
Definition classBase : AstDeclaration :=
  mkAstDeclaration (2%positive, 0) ClassDeclaration 0 None [] None [].
Definition classDerived : AstDeclaration :=
  mkAstDeclaration (1%positive, 0) ClassDeclaration 0 (Some publicTag)
    [mkRef 2%positive Inheritance] None [].
Definition classUnused : AstDeclaration :=
  mkAstDeclaration (3%positive, 0) ClassDeclaration 0 None [] None [].
Definition progUnused : Program :=
  mkProgram
    (list_to_map
       [(1%positive, EntSymbol (mkAstSymbol "Derived" false None 1%positive [classDerived]));
        (2%positive, EntSymbol (mkAstSymbol "Base" false None 2%positive [classBase]));
        (3%positive, EntSymbol (mkAstSymbol "Unused" false None 3%positive [classUnused]))])
    [("Derived", 1%positive)] [] false.

(** The Collector after the analysis of [progUnused]. *)
Definition unusedAnalyzed : Collector :=
  match analyze progUnused 10 newCollector with
  | Done c => c
  | _ => newCollector
  end.

(** The export names of the entities of [c] are the non-empty names under
    which [exports] lists them, and everything that [exports] lists has a
    [CollectorEntity]. *)
Definition exports_exact (exports : list (string * EntityId)) (c : Collector) : Prop :=
  (forall e ce, _entitiesByAstEntity c !! e = Some ce ->
     forall n, n ∈ exportNames ce <-> n <> EmptyString /\ (n, e) ∈ exports) /\
  (forall x, x ∈ exports.*2 -> installed c x).

(** Two entities registered under the same export name. *)
Definition clashingExports : Collector :=
  _createCollectorEntity 2%positive (Some "A") false
    (_createCollectorEntity 1%positive (Some "A") false newCollector).

(** The graph of [export default class Foo {}] before and after the names are
    assigned. *)
Definition defaultExported : Collector :=
  _createCollectorEntity 1%positive (Some "default") false newCollector.
Definition defaultNamed : Collector :=
  match _makeUniqueNames progDefault 10 defaultExported with
  | Done c => c
  | _ => newCollector
  end.
(** * Properties *)

(** ** Reasoning about outcomes and loops *)

Lemma ends_with_mono {A : Type} (o : Outcome A) (Q Q' : A -> Prop) :
  (forall a, Q a -> Q' a) -> ends_with o Q -> ends_with o Q'.
Proof. destruct o; simpl; auto. Qed.

Lemma bind_Done {A B : Type} (m : Outcome A) (k : A -> Outcome B) (b : B) :
  m ≫= k = Done b -> exists a, m = Done a /\ k a = Done b.
Proof. destruct m; simpl; intros H; try discriminate. eauto. Qed.

Lemma forEach_app {A S : Type} (body : S -> A -> Outcome S) (l1 l2 : list A) (s : S) :
  forEach body (l1 ++ l2) s = forEach body l1 s ≫= forEach body l2.
Proof.
  revert s. induction l1 as [|x l1 IH]; intros s; simpl; [done|].
  destruct (body s x); simpl; auto.
Qed.

(** Loop invariant, partial correctness. *)
Lemma forEach_invariant {A S : Type} (body : S -> A -> Outcome S) (I : S -> Prop)
    (l : list A) :
  (forall s x s', x ∈ l -> I s -> body s x = Done s' -> I s') ->
  forall s s', I s -> forEach body l s = Done s' -> I s'.
Proof.
  induction l as [|x l IH]; intros Hb s s' Hs H; simpl in H.
  - by inversion H; subst.
  - apply bind_Done in H as (s1 & H1 & H2).
    eapply IH; [ | | exact H2].
    + intros. eapply Hb; eauto. by right.
    + eapply Hb; eauto. by left.
Qed.

(** Loop invariant together with a fact recorded for every element, which
    later iterations keep. *)
Lemma forEach_collect {A S : Type} (body : S -> A -> Outcome S) (I : S -> Prop)
    (R : S -> S -> Prop) (Q : A -> S -> Prop) (l : list A) :
  (forall s, R s s) ->
  (forall s1 s2 s3, R s1 s2 -> R s2 s3 -> R s1 s3) ->
  (forall x s s', Q x s -> R s s' -> Q x s') ->
  (forall s x s', x ∈ l -> I s -> body s x = Done s' -> I s' /\ R s s' /\ Q x s') ->
  forall s s', I s -> forEach body l s = Done s' ->
    I s' /\ R s s' /\ forall x, x ∈ l -> Q x s'.
Proof.
  intros Hrefl Htrans Hmono.
  induction l as [|x l IH]; intros Hb s s' Hs H; simpl in H.
  - inversion H; subst. split_and!; auto. intros x Hx. by apply elem_of_nil in Hx.
  - apply bind_Done in H as (s1 & H1 & H2).
    destruct (Hb s x s1) as (HI1 & HR1 & HQ1); [by left|done|done|].
    destruct (IH (fun s x s' Hx => Hb s x s' (list_elem_of_further _ _ _ Hx)) s1 s' HI1 H2)
      as (HI & HR & HQ).
    split_and!; eauto.
    intros y Hy. apply elem_of_cons in Hy as [->|Hy]; eauto.
Qed.

(** Loop invariant, total correctness up to throws. *)
Lemma forEach_ends {A S : Type} (body : S -> A -> Outcome S) (I : S -> Prop) (l : list A) :
  (forall s x, x ∈ l -> I s -> ends_with (body s x) I) ->
  forall s, I s -> ends_with (forEach body l s) I.
Proof.
  induction l as [|x l IH]; intros Hb s Hs; simpl; [done|].
  specialize (Hb s x (list_elem_of_here _ _) Hs) as Hx.
  destruct (body s x) as [s1| |]; simpl in *; try done.
  apply IH; auto. intros. apply Hb; auto. by right.
Qed.

(** ** The traversal ends, and expands an entity at most once *)

Lemma extends_walk_refl (w : Walk) : extends_walk w w.
Proof.
  exists []. rewrite app_nil_r. split_and!; auto.
  - constructor.
  - intros x Hx. by apply elem_of_nil in Hx.
  - set_solver.
Qed.

Lemma extends_walk_trans (w1 w2 w3 : Walk) :
  extends_walk w1 w2 -> extends_walk w2 w3 -> extends_walk w1 w3.
Proof.
  intros (n1 & E1 & D1 & F1 & S1) (n2 & E2 & D2 & F2 & S2).
  exists (n1 ++ n2). split_and!.
  - by rewrite E2, E1, app_assoc.
  - apply NoDup_app. split_and!; auto.
    intros x Hx1 Hx2. apply (F2 x Hx2). rewrite S1. set_solver.
  - intros x Hx. apply elem_of_app in Hx as [Hx|Hx]; auto.
    intros Hs. apply (F2 x Hx). rewrite S1. set_solver.
  - rewrite S2, S1, list_to_set_app_L. set_solver.
Qed.

Lemma extends_walk_collector (w w' : Walk) (c : Collector) :
  extends_walk w w' ->
  extends_walk w (mkWalk c (alreadySeenAstEntities w') (expanded w')).
Proof. intros (n & ? & ? & ? & ?). exists n. simpl. auto. Qed.

Lemma unseen_mono (p : Program) (w w' : Walk) :
  extends_walk w w' -> unseen p w' <= unseen p w.
Proof.
  intros (n & _ & _ & _ & S). unfold unseen. apply subseteq_size.
  rewrite S. set_solver.
Qed.

Lemma unseen_add (p : Program) (w : Walk) (e : EntityId) (c : Collector) (l : list EntityId) :
  is_Some (astEntities p !! e) -> e ∉ alreadySeenAstEntities w ->
  unseen p (mkWalk c ({[e]} ∪ alreadySeenAstEntities w) l) < unseen p w.
Proof.
  intros He Hn. unfold unseen. simpl. apply subset_size.
  apply elem_of_dom in He. set_solver.
Qed.

Section TraversalEnds.
Variables (p : Program) (fuel : nat).
Hypothesis IH : forall (e : EntityId) (w : Walk),
  unseen p w < fuel ->
  ends_with (_createEntityForIndirectReferences p fuel e w) (extends_walk w).

(** A recursive call made from inside one of the two loops. *)
Lemma traversal_ends_step (w w1 w2 : Walk) (c : Collector) (x : EntityId) :
  unseen p w1 < fuel ->
  extends_walk w w2 /\ unseen p w2 <= unseen p w1 ->
  ends_with
    (_createEntityForIndirectReferences p fuel x
       (mkWalk c (alreadySeenAstEntities w2) (expanded w2)))
    (fun w' => extends_walk w w' /\ unseen p w' <= unseen p w1).
Proof.
  intros Hlt [Hw2 Hu2].
  set (w3 := mkWalk c (alreadySeenAstEntities w2) (expanded w2)).
  assert (Hu3 : unseen p w3 = unseen p w2) by done.
  eapply ends_with_mono; [|apply (IH x w3); lia].
  intros w4 H34.
  assert (H24 : extends_walk w2 w4).
  { destruct H34 as (n & ? & ? & ? & ?). exists n. auto. }
  split; [by eapply extends_walk_trans|].
  apply (unseen_mono p) in H24. lia.
Qed.
End TraversalEnds.

Lemma traversal_ends (p : Program) (fuel : nat) :
  forall (e : EntityId) (w : Walk),
    unseen p w < fuel ->
    ends_with (_createEntityForIndirectReferences p fuel e w) (extends_walk w).
Proof.
  induction fuel as [|fuel IH]; intros e w Hfuel; [lia|].
  simpl. case_bool_decide as Hseen; simpl; [apply extends_walk_refl|].
  set (w1 := mkWalk (collector w) ({[e]} ∪ alreadySeenAstEntities w) (expanded w ++ [e])).
  assert (Hw1 : extends_walk w w1).
  { exists [e]. simpl. split_and!; auto.
    - apply NoDup_singleton.
    - intros x Hx. apply list_elem_of_singleton in Hx. by subst.
    - set_solver. }
  destruct (astEntities p !! e) as [[s|name ex|name]|] eqn:Hlook; simpl; try done.
  - assert (Hlt : unseen p w1 < unseen p w) by (apply unseen_add; eauto).
    apply (ends_with_mono _ (fun w' => extends_walk w w' /\ unseen p w' <= unseen p w1));
      [tauto|].
    apply forEach_ends; [|split; [done|lia]].
    intros w2 r _ Hw2.
    destruct (_entitiesByAstEntity (collector w2) !! e); simpl; [|done].
    apply (traversal_ends_step p fuel IH); auto. lia.
  - assert (Hlt : unseen p w1 < unseen p w) by (apply unseen_add; eauto).
    apply (ends_with_mono _ (fun w' => extends_walk w w' /\ unseen p w' <= unseen p w1));
      [tauto|].
    apply forEach_ends; [|split; [done|lia]].
    intros w2 x _ Hw2.
    apply (traversal_ends_step p fuel IH); auto. lia.
Qed.

(** C9: the indirect-reference traversal ends on every program, cyclic
    reference graphs included: with fuel above the number of entities of the
    program it never runs out, whatever the entity and the walk it starts
    from; and when it returns, the entities it expanded were all unseen
    before and pairwise distinct, so that no entity is expanded twice. *)
Theorem traversal_terminates_expanding_once
    (p : Program) (e : EntityId) (w : Walk) (k : nat) :
  ends_with
    (_createEntityForIndirectReferences p (S (size (astEntities p)) + k) e w)
    (extends_walk w).
Proof.
  apply traversal_ends.
  assert (unseen p w <= size (astEntities p)); [|lia].
  unfold unseen. rewrite <- size_dom. apply subseteq_size. set_solver.
Qed.

(** ** What the traversal throws *)

Lemma forEach_throw {A S : Type} (body : S -> A -> Outcome S) (P : Thrown -> Prop)
    (l : list A) :
  (forall s x err, x ∈ l -> body s x = Throw err -> P err) ->
  forall s err, forEach body l s = Throw err -> P err.
Proof.
  induction l as [|x l IH]; intros Hb s err H; simpl in H; [done|].
  destruct (body s x) as [s1|e1|] eqn:Hx; simpl in H; try done.
  - eapply IH; eauto. intros. eapply Hb; eauto. by right.
  - inversion H; subst. eapply Hb; eauto. by left.
Qed.

Lemma traversal_throws_bare_error (p : Program) (fuel : nat) :
  forall (e : EntityId) (w : Walk) (err : Thrown),
    _createEntityForIndirectReferences p fuel e w = Throw err ->
    err = Error EmptyString.
Proof.
  induction fuel as [|fuel IH]; intros e w err H; simpl in H; [done|].
  case_bool_decide; [done|].
  destruct (astEntities p !! e) as [[s|name ex|name]|]; try done.
  - eapply (forEach_throw _ (fun err => err = Error EmptyString)); [|exact H].
    intros w2 r err' _ Hr. simpl in *.
    destruct (_entitiesByAstEntity (collector w2) !! e).
    + exact (IH _ _ _ Hr).
    + by inversion Hr.
  - eapply (forEach_throw _ (fun err => err = Error EmptyString)); [|exact H].
    intros w2 x err' _ Hr. simpl. exact (IH _ _ _ Hr).
Qed.

(** What [getOverloadIndex] throws on its own "This should never happen"
    path: an [InternalError] with a message. *)
Lemma getOverloadIndex_throws (p : Program) (d : AstDeclaration) (cache : gmap DeclId nat)
    (err : Thrown) :
  getOverloadIndex p d cache = Throw err ->
  err = InternalError "Error calculating overload index for declaration" \/
  err = DanglingReference.
Proof.
  unfold getOverloadIndex, getSymbol. intros H.
  destruct (astEntities p !! decl_astSymbol (declId d)) as [[s|? ?|?]|]; simpl in H;
    try (inversion H; auto; fail).
  case_bool_decide; [done|].
  destruct (cache !! declId d) as [i|]; [done|].
  destruct (fst (cacheOverloads _ _ _) !! declId d); [done|]. inversion H; auto.
Qed.

(** C8 (the code does not do what the claim asks for): whenever the
    indirect-reference traversal aborts, what it throws is the bare [Error]
    with an empty message, which names no declaration and no symbol; the
    abort is reached by [analyze] on [progNestedBase], a program the front
    end can produce, where the message names none of the entities; and the
    sibling path of [getOverloadIndex] throws an [InternalError] that has a
    message. *)
Theorem traversal_abort_has_no_context
    (p : Program) (fuel : nat) (e : EntityId) (w : Walk) :
  match _createEntityForIndirectReferences p fuel e w with
  | Throw err => err = Error EmptyString /\ error_message err = EmptyString
  | _ => True
  end /\
  analyze progNestedBase 10 newCollector = Throw (Error EmptyString) /\
  namesAnEntity progNestedBase (Error EmptyString) = false /\
  (forall d cache err,
     getOverloadIndex p d cache = Throw err -> err <> DanglingReference ->
     err = InternalError "Error calculating overload index for declaration").
Proof.
  split_and!.
  - destruct (_createEntityForIndirectReferences p fuel e w) as [|err|] eqn:H; auto.
    apply traversal_throws_bare_error in H. by subst.
  - by vm_compute.
  - by vm_compute.
  - intros d cache err H Hne. by apply getOverloadIndex_throws in H as [->| ->].
Qed.

(** ** The entity graph: one node per entity *)

Lemma graph_wf_new : graph_wf newCollector.
Proof.
  split_and!; simpl.
  - constructor.
  - intros e. unfold installed. simpl. rewrite lookup_empty. split.
    + intros H. by apply elem_of_nil in H.
    + intros [? ?]. done.
  - intros e ce. by rewrite lookup_empty.
Qed.

Lemma graph_wf_updateEntity (c : Collector) (e : EntityId) (ce : CollectorEntity) :
  graph_wf c -> installed c e -> astEntity ce = e -> graph_wf (updateEntity e ce c).
Proof.
  intros (Hnd & Hdom & Hid) Hin Hce. split_and!; simpl; auto.
  - intros x. unfold installed; simpl. rewrite Hdom. unfold installed.
    destruct (decide (x = e)) as [->|Hne].
    + rewrite lookup_insert_eq. split; eauto.
    + by rewrite lookup_insert_ne.
  - intros x cx. destruct (decide (x = e)) as [->|Hne].
    + rewrite lookup_insert_eq. by intros [= <-].
    + rewrite lookup_insert_ne by done. apply Hid.
Qed.

Lemma installed_updateEntity (c : Collector) (e x : EntityId) (ce : CollectorEntity) :
  installed c x -> installed (updateEntity e ce c) x.
Proof.
  unfold installed; simpl. intros H. destruct (decide (x = e)) as [->|Hne].
  - rewrite lookup_insert_eq. eauto.
  - by rewrite lookup_insert_ne.
Qed.

Lemma astEntity_addExportName n ce : astEntity (addExportName n ce) = astEntity ce.
Proof. unfold addExportName. by case_bool_decide. Qed.

(** The object [_createCollectorEntity] works on, and the state once a new
    object is in place. *)
Lemma _createCollectorEntity_unfold (e : EntityId) (n : option string) (b : bool)
    (c : Collector) :
  exists ce c1,
    _createCollectorEntity e n b c = updateEntity e ce c1 /\
    astEntity ce = astEntity (default (newCollectorEntity e) (_entitiesByAstEntity c !! e)) /\
    ((installed c e /\ c1 = c) \/
     (~ installed c e /\
      c1 = setGraph (_entities c ++ [e])
             (<[e := newCollectorEntity e]> (_entitiesByAstEntity c)) c)).
Proof.
  unfold _createCollectorEntity, installed.
  destruct (_entitiesByAstEntity c !! e) as [ce0|] eqn:Hl; simpl.
  - eexists _, c. split; [reflexivity|]. split; [|left; eauto].
    destruct b, n as [[|? ?]|]; simpl; auto using astEntity_addExportName.
  - eexists _, _. split; [reflexivity|]. split; [|right; split; [|reflexivity]].
    + destruct b, n as [[|? ?]|]; simpl; auto using astEntity_addExportName.
    + by intros [? ?].
Qed.

Lemma graph_wf_create (e : EntityId) (n : option string) (b : bool) (c : Collector) :
  graph_wf c -> graph_wf (_createCollectorEntity e n b c).
Proof.
  intros Hwf. destruct (_createCollectorEntity_unfold e n b c)
    as (ce & c1 & -> & Hce & [[Hin ->]|[Hnin ->]]).
  - apply graph_wf_updateEntity; auto.
    destruct Hin as [ce0 Hl]. rewrite Hl in Hce. simpl in Hce.
    rewrite Hce. by apply Hwf.
  - destruct Hwf as (Hnd & Hdom & Hid).
    assert (Hl : _entitiesByAstEntity c !! e = None).
    { destruct (_entitiesByAstEntity c !! e) eqn:E; auto. exfalso. apply Hnin. red. eauto. }
    rewrite Hl in Hce. simpl in Hce.
    apply graph_wf_updateEntity; auto.
    + split_and!; simpl.
      * apply NoDup_app. split_and!; auto.
        -- intros x Hx Hx'. apply list_elem_of_singleton in Hx'. subst. by apply Hnin, Hdom.
        -- apply NoDup_singleton.
      * intros x. unfold installed; simpl. rewrite elem_of_app, Hdom.
        unfold installed. rewrite list_elem_of_singleton.
        destruct (decide (x = e)) as [->|Hne].
        -- rewrite lookup_insert_eq. split; eauto.
        -- rewrite lookup_insert_ne by done. split; [intros [?|?]; done|auto].
      * intros x cx. destruct (decide (x = e)) as [->|Hne].
        -- rewrite lookup_insert_eq. by intros [= <-].
        -- rewrite lookup_insert_ne by done. apply Hid.
    + red. simpl. rewrite lookup_insert_eq. eauto.
Qed.

Lemma installed_create (e x : EntityId) (n : option string) (b : bool) (c : Collector) :
  installed c x -> installed (_createCollectorEntity e n b c) x.
Proof.
  intros Hx. destruct (_createCollectorEntity_unfold e n b c)
    as (ce & c1 & -> & _ & [[_ ->]|[_ ->]]); apply installed_updateEntity; auto.
  red. simpl. destruct (decide (x = e)) as [->|Hne].
  - rewrite lookup_insert_eq. eauto.
  - by rewrite lookup_insert_ne.
Qed.

Lemma installed_create_self (e : EntityId) (n : option string) (b : bool) (c : Collector) :
  installed (_createCollectorEntity e n b c) e.
Proof.
  destruct (_createCollectorEntity_unfold e n b c) as (ce & c1 & -> & _ & _).
  red. simpl. rewrite lookup_insert_eq. eauto.
Qed.

Lemma installed_create_inv (e x : EntityId) (n : option string) (b : bool) (c : Collector) :
  installed (_createCollectorEntity e n b c) x -> x = e \/ installed c x.
Proof.
  destruct (decide (x = e)) as [->|Hne]; [by left|]. right.
  destruct (_createCollectorEntity_unfold e n b c) as (ce & c1 & Heq & _ & [[_ ->]|[_ ->]]);
    rewrite Heq in H; unfold installed in *; simpl in H;
    by rewrite !lookup_insert_ne in H by done.
Qed.

Lemma walk_le_refl (w : Walk) : walk_le w w.
Proof. split; auto. Qed.

Lemma walk_le_trans (w1 w2 w3 : Walk) : walk_le w1 w2 -> walk_le w2 w3 -> walk_le w1 w3.
Proof. intros [? ?] [? ?]. split; [set_solver|auto]. Qed.

(** ** The traversal closes the walk under references *)

Section TraversalClosed.
Variables (p : Program) (fuel : nat).

Hypothesis IH : forall (e : EntityId) (w w' : Walk) (G : gset EntityId),
  _createEntityForIndirectReferences p fuel e w = Done w' ->
  walk_ok p G w -> (rootLevel p e -> installed (collector w) e) ->
  walk_ok p G w' /\ walk_le w w' /\ e ∈ alreadySeenAstEntities w'.

(** A recursive call made from inside one of the two loops, after the
    Collector was updated to [c]. *)
Lemma traversal_closed_step (G : gset EntityId) (w2 w4 : Walk) (c : Collector)
    (x : EntityId) :
  _createEntityForIndirectReferences p fuel x
    (mkWalk c (alreadySeenAstEntities w2) (expanded w2)) = Done w4 ->
  walk_ok p G w2 -> graph_wf c ->
  (forall y, installed (collector w2) y -> installed c y) ->
  (rootLevel p x -> installed c x) ->
  walk_ok p G w4 /\ walk_le w2 w4 /\ x ∈ alreadySeenAstEntities w4.
Proof.
  intros Hrun (Hcl & Hinst & Hwf) Hwfc Hmono Hx.
  apply (IH _ _ _ G) in Hrun as (Hok & Hle & Hseen); auto.
  - split_and!; auto. destruct Hle as [Hs Hi]. split; auto.
  - split_and!; auto. intros y Hy Hr. apply Hmono. by apply Hinst.
Qed.
End TraversalClosed.

Lemma traversal_closed (p : Program) (fuel : nat) :
  forall (e : EntityId) (w w' : Walk) (G : gset EntityId),
    _createEntityForIndirectReferences p fuel e w = Done w' ->
    walk_ok p G w -> (rootLevel p e -> installed (collector w) e) ->
    walk_ok p G w' /\ walk_le w w' /\ e ∈ alreadySeenAstEntities w'.
Proof.
  induction fuel as [|fuel IH]; intros e w w' G Hrun Hok He; simpl in Hrun; [done|].
  case_bool_decide as Hseen.
  { inversion Hrun; subst. split_and!; auto using walk_le_refl. }
  set (w1 := mkWalk (collector w) ({[e]} ∪ alreadySeenAstEntities w) (expanded w ++ [e])) in *.
  destruct Hok as (Hcl & Hinst & Hwf).
  assert (Hle1 : walk_le w w1) by (split; simpl; [set_solver|auto]).
  assert (Hok1 : walk_ok p (G ∪ {[e]}) w1).
  { split_and!; simpl; auto.
    - intros x y Hx HxG Hxy. simpl in *.
      assert (x ∈ alreadySeenAstEntities w) by set_solver.
      assert (x ∉ G) by set_solver.
      apply elem_of_union. right. eauto.
    - intros y Hy Hr. simpl in *. apply elem_of_union in Hy as [Hy|Hy]; auto.
      apply elem_of_singleton in Hy. subst. auto. }
  assert (Hfinish : forall w',
    walk_ok p (G ∪ {[e]}) w' -> walk_le w1 w' ->
    (forall y, edge p e y -> y ∈ alreadySeenAstEntities w') ->
    walk_ok p G w' /\ walk_le w w' /\ e ∈ alreadySeenAstEntities w').
  { intros w2 (Hcl2 & Hinst2 & Hwf2) Hle2 Hedges.
    assert (e ∈ alreadySeenAstEntities w2).
    { destruct Hle2 as [Hs _]. apply Hs. simpl. set_solver. }
    split_and!; auto; [|by eapply walk_le_trans].
    split_and!; auto. intros x y Hx HxG Hxy.
    destruct (decide (x = e)) as [->|Hne]; [auto|].
    apply (Hcl2 x y); auto. set_solver. }
  destruct (astEntities p !! e) as [[s|name ex|name]|] eqn:Hlook.
  - eapply (forEach_collect _ (walk_ok p (G ∪ {[e]})) walk_le
              (fun r w => ref_astEntity r ∈ alreadySeenAstEntities w))
      in Hrun as (Hok' & Hle' & Hall);
      [ | apply walk_le_refl | apply walk_le_trans | | | exact Hok1 ].
    + apply Hfinish; auto. intros y [(s' & r & Hs' & Hr & <-)|(n' & ex' & Hn' & _)].
      * rewrite Hlook in Hs'. inversion Hs'; subst. by apply Hall.
      * rewrite Hlook in Hn'. done.
    + intros r wa wb Hr [Hs _]. by apply Hs.
    + intros w2 r w4 _ Hok2 Hbody. simpl in Hbody.
      destruct (_entitiesByAstEntity (collector w2) !! e) as [entity|]; [|done].
      eapply (traversal_closed_step p fuel IH) in Hbody; eauto.
      * destruct Hok2 as (_ & _ & Hwf2).
        destruct (astEntities p !! ref_astEntity r) as [[r0|? ?|?]|];
          try (destruct (parentAstSymbol r0)); auto using graph_wf_create.
      * intros y Hy.
        destruct (astEntities p !! ref_astEntity r) as [[r0|? ?|?]|];
          try (destruct (parentAstSymbol r0)); auto using installed_create.
      * unfold rootLevel.
        destruct (astEntities p !! ref_astEntity r) as [[r0|? ?|?]|];
          try (destruct (parentAstSymbol r0)); auto using installed_create_self; done.
  - eapply (forEach_collect _ (walk_ok p (G ∪ {[e]})) walk_le
              (fun x w => x ∈ alreadySeenAstEntities w))
      in Hrun as (Hok' & Hle' & Hall);
      [ | apply walk_le_refl | apply walk_le_trans | | | exact Hok1 ].
    + apply Hfinish; auto. intros y [(s' & r & Hs' & _)|(n' & ex' & Hn' & Hy)].
      * rewrite Hlook in Hs'. done.
      * rewrite Hlook in Hn'. inversion Hn'; subst. by apply Hall.
    + intros x wa wb Hx [Hs _]. by apply Hs.
    + intros w2 x w4 _ Hok2 Hbody. simpl in Hbody.
      assert (Hi : installed (_createCollectorEntity x None false (collector w2)) x)
        by apply installed_create_self.
      destruct Hi as [entity Hentity]. rewrite Hentity in Hbody.
      destruct Hok2 as (Hcl2 & Hinst2 & Hwf2).
      eapply (traversal_closed_step p fuel IH) in Hbody; eauto.
      * split_and!; eauto.
      * apply graph_wf_updateEntity; auto using graph_wf_create.
        -- red. eauto.
        -- unfold addAstNamespaceImports. simpl.
           apply (graph_wf_create x None false) in Hwf2. by apply Hwf2.
      * intros y Hy. by apply installed_updateEntity, installed_create.
      * intros _. apply installed_updateEntity. red. eauto.
  - inversion Hrun; subst. apply Hfinish; auto using walk_le_refl.
    intros y [(s' & r & Hs' & _)|(n' & ex' & Hn' & _)]; rewrite Hlook in *; done.
  - inversion Hrun; subst. apply Hfinish; auto using walk_le_refl.
    intros y [(s' & r & Hs' & _)|(n' & ex' & Hn' & _)]; rewrite Hlook in *; done.
Qed.

(** ** Metadata propagation leaves the entity graph alone *)

Lemma same_graph_refl (c : Collector) : same_graph c c.
Proof. by split. Qed.

Lemma same_graph_trans (c1 c2 c3 : Collector) :
  same_graph c1 c2 -> same_graph c2 c3 -> same_graph c1 c3.
Proof. intros [? ?] [? ?]. split; congruence. Qed.

Lemma forEach_same_graph {A : Type} (body : Collector -> A -> Outcome Collector)
    (l : list A) :
  (forall c x c', x ∈ l -> body c x = Done c' -> same_graph c c') ->
  forall c c', forEach body l c = Done c' -> same_graph c c'.
Proof.
  intros Hb c c' H.
  eapply (forEach_invariant _ (same_graph c)); [|apply same_graph_refl|exact H].
  intros s x s' Hx Hs Hbody. eapply same_graph_trans; eauto.
Qed.

Ltac outcome_inv :=
  repeat (simpl in *; match goal with
  | H : Done _ = Done _ |- _ => inversion H; subst; clear H
  | H : Throw _ = Done _ |- _ => discriminate H
  | H : Timeout = Done _ |- _ => discriminate H
  | H : _ ≫= _ = Done _ |- _ => apply bind_Done in H as (? & ? & H)
  | H : (if ?b then _ else _) = Done _ |- _ => destruct b eqn:?
  | H : match ?x with _ => _ end = Done _ |- _ => destruct x eqn:?
  | H : (let '(_, _) := ?x in _) = Done _ |- _ => destruct x eqn:?
  end).

Lemma same_graph_addAncillary (m a : AstDeclaration) (c c' : Collector) :
  _addAncillaryDeclaration m a c = Done c' -> same_graph c c'.
Proof. unfold _addAncillaryDeclaration. intros H. outcome_inv; by split. Qed.

Lemma same_graph_declarationMetadata (p : Program) (s : AstSymbol) (c c' : Collector) :
  _calculateDeclarationMetadataForDeclarations p s c = Done c' -> same_graph c c'.
Proof.
  unfold _calculateDeclarationMetadataForDeclarations. intros H.
  apply bind_Done in H as (c1 & H1 & H2).
  apply (same_graph_trans _ c1).
  - revert H1. apply forEach_same_graph. intros. outcome_inv. by split.
  - revert H2. apply forEach_same_graph. intros c2 d c3 _ H.
    case_bool_decide; [|by inversion H; subst; apply same_graph_refl].
    apply bind_Done in H as (owner & _ & H).
    apply bind_Done in H as ([c4 found] & H & H').
    assert (same_graph c2 c4).
    { eapply (forEach_invariant _ (fun r => same_graph c2 (fst r))) in H;
        [exact H| |apply same_graph_refl].
      intros r g r' _ Hr Hb. case_bool_decide; [|by inversion Hb; subst].
      apply bind_Done in Hb as (c5 & Hb & Hb'). inversion Hb'; subst. simpl.
      eapply same_graph_trans; eauto using same_graph_addAncillary. }
    inversion H'; subst. destruct found; auto;
      eapply same_graph_trans; eauto; by split.
Qed.

Lemma same_graph_foldl_set (a : nat) (l : list DeclId) (c : Collector) :
  same_graph c (foldl (fun c d => setApiItemMetadata d a c) c l).
Proof.
  revert c. induction l as [|d l IH]; intros c; simpl; [apply same_graph_refl|].
  eapply same_graph_trans; [|apply IH]. by split.
Qed.

Section MetadataFrame.
Variables (p : Program) (fetchSym : EntityId -> Collector -> Outcome Collector).
Hypothesis fetchSym_frame : forall e c c', fetchSym e c = Done c' -> same_graph c c'.

Lemma same_graph_fetchApiItemMetadata_with d c a c' :
  fetchApiItemMetadata_with fetchSym d c = Done (a, c') -> same_graph c c'.
Proof.
  unfold fetchApiItemMetadata_with. intros H.
  apply bind_Done in H as (c1 & H1 & H2). inversion H2; subst.
  case_bool_decide; [eauto|]. inversion H1; subst. apply same_graph_refl.
Qed.

Lemma same_graph_readModifierTags sym d tags c r b c' :
  readModifierTags sym d tags c = (r, b, c') -> same_graph c c'.
Proof.
  unfold readModifierTags. intros H.
  destruct tags as [tags|]; [|by inversion H; subst; split].
  destruct (declaredTagOf tags) as [dt extra].
  destruct (extra && negb (isExternal sym)), (hasPreapproved tags);
    try destruct (declaration_kind d); try case_bool_decide;
    inversion H; subst; by split.
Qed.

Lemma same_graph_inheritReleaseTag d r c r' b c' :
  inheritReleaseTag fetchSym d r c = Done (r', b, c') -> same_graph c c'.
Proof.
  unfold inheritReleaseTag. intros H.
  destruct (parent d) as [pd|]; [|by inversion H; subst; split].
  apply bind_Done in H as ([a c3] & Hf & H).
  apply same_graph_fetchApiItemMetadata_with in Hf.
  destruct (a ≫= _); [|done]. by inversion H; subst.
Qed.

Lemma same_graph_healReleaseTag sym d r c r' c' :
  healReleaseTag p sym d r c = Done (r', c') -> same_graph c c'.
Proof.
  unfold healReleaseTag. case_bool_decide; [|by inversion 1; subst; split].
  destruct (negb (isExternal sym)); [|by inversion 1; subst; split].
  destruct (_entitiesByAstEntity c !! rootAstSymbol sym) as [entity|];
    [|by inversion 1; subst; split].
  destruct (consumable entity); [|by inversion 1; subst; split].
  intros Hrun. apply bind_Done in Hrun as (root & _ & Hrun).
  inversion Hrun; subst. case_bool_decide; by split.
Qed.

Lemma same_graph_attach d dm o c : same_graph c (attachApiItemMetadata d dm o c).
Proof.
  unfold attachApiItemMetadata. simpl.
  eapply same_graph_trans; [|apply same_graph_foldl_set]. by split.
Qed.

Lemma same_graph_calculateApiItemMetadata_with d c c' :
  _calculateApiItemMetadata_with p fetchSym d c = Done c' -> same_graph c c'.
Proof.
  unfold _calculateApiItemMetadata_with. intros H.
  apply bind_Done in H as (sym & _ & H).
  destruct (declarationMetadata c !! declId d) as [dm|]; [|done].
  destruct (isAncillary dm).
  { inversion H; subst. destruct (_ && _); by split. }
  destruct (readModifierTags sym d (tsdocParserContext dm) c) as [[declared pre] c1] eqn:H1.
  apply same_graph_readModifierTags in H1.
  apply bind_Done in H as ([[eff same] c2] & H2 & H).
  apply same_graph_inheritReleaseTag in H2.
  apply bind_Done in H as ([eff' c3] & H3 & H).
  apply same_graph_healReleaseTag in H3.
  inversion H; subst.
  eapply same_graph_trans; [exact H1|]. eapply same_graph_trans; [exact H2|].
  eapply same_graph_trans; [exact H3|]. apply same_graph_attach.
Qed.

Lemma same_graph_solveSymbol e s c c' :
  solveSymbol p fetchSym e s c = Done c' -> same_graph c c'.
Proof.
  unfold solveSymbol. intros H.
  apply bind_Done in H as (c1 & H1 & H).
  apply bind_Done in H as (c2 & H2 & H).
  apply bind_Done in H as (r & _ & H). inversion H; subst.
  apply same_graph_declarationMetadata in H1.
  eapply same_graph_trans; [exact H1|].
  eapply (same_graph_trans _ c2); [|by split].
  revert H2. apply forEach_same_graph. intros ? ? ? _.
  apply same_graph_calculateApiItemMetadata_with.
Qed.
End MetadataFrame.

Lemma same_graph_fetchSymbolMetadata' (p : Program) (fuel : nat) :
  forall e c c', _fetchSymbolMetadata p fuel e c = Done c' -> same_graph c c'.
Proof.
  induction fuel as [|fuel IH]; intros e c c' H; simpl in H; [done|].
  case_bool_decide; [by inversion H; subst; apply same_graph_refl|].
  apply bind_Done in H as (s & _ & H).
  apply bind_Done in H as (c1 & H1 & H).
  eapply (same_graph_trans _ c1).
  - destruct (parentAstSymbol s); [case_bool_decide|]; eauto;
      inversion H1; subst; apply same_graph_refl.
  - eapply same_graph_solveSymbol; eauto.
Qed.

Lemma same_graph_fetchSymbolMetadata (p : Program) (fuel : nat) e c c' :
  fetchSymbolMetadata p fuel e c = Done c' -> same_graph c c'.
Proof.
  unfold fetchSymbolMetadata. case_bool_decide.
  - apply same_graph_fetchSymbolMetadata'.
  - inversion 1; subst. apply same_graph_refl.
Qed.

Lemma graph_wf_same_graph (c c' : Collector) :
  same_graph c c' -> graph_wf c -> graph_wf c'.
Proof.
  intros [He Hm] (Hnd & Hdom & Hid). unfold graph_wf, installed in *.
  rewrite He, Hm. auto.
Qed.

(** ** Name assignment *)

Lemma reserved_spec (p : Program) (used : gset string) (n : string) :
  bool_decide (n = "default") || bool_decide (n ∈ used) || hasGlobalName p n = true
  <-> n ∈ reservedNames p used.
Proof.
  unfold reservedNames, hasGlobalName.
  rewrite !orb_true_iff, !bool_decide_eq_true, !elem_of_union, elem_of_singleton,
    elem_of_list_to_set. tauto.
Qed.

Lemma uniqueNameLoop_Done (p : Program) (fuel : nat) (used : gset string) (ideal : string) :
  forall (suffix : N) (name n : string),
    uniqueNameLoop p fuel used ideal suffix name = Done n ->
    n ∉ reservedNames p used.
Proof.
  induction fuel as [|fuel IH]; intros suffix name n H; simpl in H; [done|].
  destruct (bool_decide (name = "default") || bool_decide (name ∈ used) || hasGlobalName p name)
    eqn:Hbad.
  - eapply IH; eauto.
  - inversion H; subst. rewrite <- reserved_spec, Hbad. done.
Qed.

Lemma uniqueNameLoop_first (p : Program) (fuel : nat) (used : gset string)
    (ideal : string) (suffix : N) (name : string) :
  name ∉ reservedNames p used ->
  uniqueNameLoop p (S fuel) used ideal suffix name = Done name.
Proof.
  intros Hn. simpl.
  destruct (bool_decide (name = "default") || bool_decide (name ∈ used) || hasGlobalName p name)
    eqn:Hbad; [|done].
  apply reserved_spec in Hbad. done.
Qed.

Lemma uniqueNameLoop_no_throw (p : Program) (fuel : nat) (used : gset string) (ideal : string) :
  forall (suffix : N) (name : string) (err : Thrown),
    uniqueNameLoop p fuel used ideal suffix name <> Throw err.
Proof.
  induction fuel as [|fuel IH]; intros suffix name err; simpl; [done|].
  destruct (_ || _ || _); [apply IH|done].
Qed.

(** When the loop runs out of fuel, every candidate it has tried is reserved. *)
Lemma uniqueNameLoop_Timeout (p : Program) (fuel : nat) (used : gset string) (ideal : string) :
  forall (suffix : N) (name : string),
    uniqueNameLoop p fuel used ideal suffix name = Timeout ->
    forall j, 1 <= j < fuel -> candidate ideal (suffix + N.of_nat j) ∈ reservedNames p used.
Proof.
  induction fuel as [|fuel IH]; intros suffix name H j Hj; [lia|].
  simpl in H.
  destruct (bool_decide (name = "default") || bool_decide (name ∈ used) || hasGlobalName p name)
    eqn:Hbad; [|done].
  destruct (decide (j = 1)) as [->|Hne].
  - destruct fuel as [|fuel]; [lia|]. simpl in H.
    match type of H with context [if ?b then _ else _] => destruct b eqn:Hbad1 end; [|done].
    apply reserved_spec in Hbad1. exact Hbad1.
  - specialize (IH _ _ H (j - 1)).
    replace (suffix + 1 + N.of_nat (j - 1))%N with (suffix + N.of_nat j)%N in IH by lia.
    apply IH. lia.
Qed.

Lemma candidate_inj (ideal : string) : Inj (=) (=) (candidate ideal).
Proof.
  intros i j H. unfold candidate in H.
  apply (inj (String.app ideal)) in H. apply (inj (String.app "_")) in H.
  by apply (inj pretty) in H.
Qed.

Lemma uniqueNameLoop_ends (p : Program) (fuel : nat) (used : gset string)
    (ideal : string) (suffix : N) (name : string) :
  size (reservedNames p used) + 2 <= fuel ->
  exists n, uniqueNameLoop p fuel used ideal suffix name = Done n.
Proof.
  intros Hfuel.
  destruct (uniqueNameLoop p fuel used ideal suffix name) as [n|err|] eqn:H; eauto.
  { by apply uniqueNameLoop_no_throw in H. }
  exfalso.
  pose proof (uniqueNameLoop_Timeout _ _ _ _ _ _ H) as Hall.
  set (B := reservedNames p used) in *.
  set (l := (fun j => candidate ideal (suffix + N.of_nat j)) <$> seq 1 (S (size B))).
  assert (Hnd : NoDup l).
  { apply NoDup_fmap_2; [|apply NoDup_seq].
    intros i j Hij. apply candidate_inj in Hij. lia. }
  assert (Hsub : list_to_set l ⊆ B).
  { intros x Hx. apply elem_of_list_to_set in Hx.
    apply list_elem_of_fmap in Hx as (j & -> & Hj). apply elem_of_seq in Hj.
    apply Hall. lia. }
  apply subseteq_size in Hsub. rewrite size_list_to_set in Hsub by done.
  unfold l in Hsub. rewrite length_fmap, length_seq in Hsub. lia.
Qed.

(** The inner loop of the first pass, over the export names of one entity. *)
Lemma collect_inner (names : list string) :
  forall (used used' : gset string),
    forEach (fun (usedNames : gset string) exportName =>
      if bool_decide (exportName ∈ usedNames) then
        Throw (InternalError
          ("A package cannot have two exports with the name " +:+ dquote +:+ exportName +:+ dquote))
      else Done ({[exportName]} ∪ usedNames)) names used = Done used' ->
    used' = used ∪ list_to_set names /\ NoDup names /\ (forall n, n ∈ names -> n ∉ used).
Proof.
  induction names as [|n names IH]; intros used used' H; simpl in H.
  - inversion H; subst. split_and!; [set_solver|constructor|set_solver].
  - case_bool_decide as Hn; [done|]. simpl in H.
    apply IH in H as (-> & Hnd & Hfresh). split_and!.
    + set_solver.
    + constructor; auto. intros Hin. apply (Hfresh n Hin). set_solver.
    + intros x Hx. apply elem_of_cons in Hx as [->|Hx]; auto.
      intros Hu. apply (Hfresh x Hx). set_solver.
Qed.

Lemma collect_outer (c : Collector) (l : list EntityId) :
  forall (used used' : gset string),
    forEach (fun usedNames e =>
      match _entitiesByAstEntity c !! e with
      | None => Throw DanglingReference
      | Some entity =>
          forEach (fun (usedNames : gset string) exportName =>
            if bool_decide (exportName ∈ usedNames) then
              Throw (InternalError
                ("A package cannot have two exports with the name " +:+ dquote +:+ exportName +:+ dquote))
            else Done ({[exportName]} ∪ usedNames))
            (exportNames entity) usedNames
      end) l used = Done used' ->
    let names := flat_map exportNames (omap (fun e => _entitiesByAstEntity c !! e) l) in
    used' = used ∪ list_to_set names /\ NoDup names /\ (forall n, n ∈ names -> n ∉ used) /\
    (forall e, e ∈ l -> installed c e).
Proof.
  induction l as [|e l IH]; intros used used' H; simpl in H.
  - inversion H; subst. simpl. split_and!; [set_solver|constructor|set_solver|set_solver].
  - apply bind_Done in H as (used1 & H1 & H2).
    destruct (_entitiesByAstEntity c !! e) as [entity|] eqn:Hl; [|done].
    apply collect_inner in H1 as (-> & Hnd1 & Hf1).
    apply IH in H2 as (-> & Hnd2 & Hf2 & Hinst). simpl. rewrite Hl. simpl.
    split_and!.
    + rewrite list_to_set_app_L. set_solver.
    + apply NoDup_app. split_and!; auto.
      intros x Hx1 Hx2. apply (Hf2 x Hx2). set_solver.
    + intros x Hx. apply elem_of_app in Hx as [Hx|Hx]; auto.
      intros Hu. apply (Hf2 x Hx). set_solver.
    + intros x Hx. apply elem_of_cons in Hx as [->|Hx]; auto. red. eauto.
Qed.

Lemma collectExportNames_spec (c : Collector) (used : gset string) :
  collectExportNames c = Done used ->
  used = list_to_set (allExportNames c) /\ NoDup (allExportNames c) /\
  (forall e, e ∈ _entities c -> installed c e).
Proof.
  intros H. apply collect_outer in H as (-> & Hnd & _ & Hinst).
  split_and!; auto. set_solver.
Qed.

(** An export name belongs to one entity only. *)
Lemma allExportNames_owner (c : Collector) :
  graph_wf c -> NoDup (allExportNames c) ->
  forall e1 e2 ce1 ce2 n,
    _entitiesByAstEntity c !! e1 = Some ce1 -> _entitiesByAstEntity c !! e2 = Some ce2 ->
    n ∈ exportNames ce1 -> n ∈ exportNames ce2 -> e1 = e2.
Proof.
  intros (Hnd & Hdom & _). unfold allExportNames, entities.
  intros Hnames e1 e2 ce1 ce2 n H1 H2 Hn1 Hn2.
  assert (He1 : e1 ∈ _entities c) by (apply Hdom; red; eauto).
  assert (He2 : e2 ∈ _entities c) by (apply Hdom; red; eauto).
  clear Hdom. revert Hnd Hnames He1 He2.
  induction (_entities c) as [|e l IH]; intros Hnd Hnames He1 He2.
  { by apply elem_of_nil in He1. }
  apply NoDup_cons in Hnd as [Hel Hnd].
  simpl in Hnames.
  assert (Hin : forall x cx, x ∈ l -> _entitiesByAstEntity c !! x = Some cx ->
            n ∈ exportNames cx ->
            n ∈ flat_map exportNames (omap (fun e => _entitiesByAstEntity c !! e) l)).
  { intros x cx Hx Hcx Hnx. apply list_elem_of_In, in_flat_map. exists cx.
    split; [|by apply list_elem_of_In].
    apply list_elem_of_In, list_elem_of_omap. eauto. }
  destruct (_entitiesByAstEntity c !! e) as [ce|] eqn:Hl; simpl in Hnames.
  - apply NoDup_app in Hnames as (_ & Hdisj & Hrest).
    apply elem_of_cons in He1 as [->|He1]; apply elem_of_cons in He2 as [->|He2].
    + done.
    + rewrite Hl in H1. inversion H1; subst. exfalso. eapply Hdisj; eauto.
    + rewrite Hl in H2. inversion H2; subst. exfalso. eapply Hdisj; eauto.
    + by apply IH.
  - apply elem_of_cons in He1 as [->|He1]; [congruence|].
    apply elem_of_cons in He2 as [->|He2]; [congruence|]. by apply IH.
Qed.

Lemma allExportNames_elem (c : Collector) (e : EntityId) (ce : CollectorEntity) (n : string) :
  e ∈ _entities c -> _entitiesByAstEntity c !! e = Some ce -> n ∈ exportNames ce ->
  n ∈ allExportNames c.
Proof.
  intros He Hce Hn. unfold allExportNames, entities.
  apply list_elem_of_In, in_flat_map. exists ce. split; [|by apply list_elem_of_In].
  apply list_elem_of_In, list_elem_of_omap. eauto.
Qed.

(** What one iteration of the second pass does. *)
Lemma assignName_spec (p : Program) (fuel : nat) (c c' : Collector)
    (used used' : gset string) (e : EntityId) :
  assignName p fuel (c, used) e = Done (c', used') ->
  exists entity ast n,
    _entitiesByAstEntity c !! e = Some entity /\
    astEntities p !! e = Some ast /\
    c' = updateEntity e (setNameForEmit n entity) c /\
    ((acceptsIdeal p entity (idealName ast entity) = true /\
      n = idealName ast entity /\ used' = used)
     \/
     (acceptsIdeal p entity (idealName ast entity) = false /\
      (n ∉ reservedNames p used) /\ (used' = {[n]} ∪ used) /\
      (idealName ast entity ∉ reservedNames p used -> n = idealName ast entity))).
Proof.
  unfold assignName. intros H.
  destruct (_entitiesByAstEntity c !! e) as [entity|]; [|done].
  destruct (astEntities p !! e) as [ast|]; [|done].
  fold (acceptsIdeal p entity (idealName ast entity)) in H.
  destruct (acceptsIdeal p entity (idealName ast entity)) eqn:Hacc.
  - inversion H; subst. exists entity, ast, (idealName ast entity). split_and!; auto.
  - apply bind_Done in H as (n & Hloop & H). inversion H; subst.
    exists entity, ast, n. split_and!; auto. right. split_and!; auto.
    + by eapply uniqueNameLoop_Done.
    + intros Hok. destruct fuel as [|fuel]; [done|].
      rewrite uniqueNameLoop_first in Hloop by done. by inversion Hloop.
Qed.

Lemma renamed_refl (c : Collector) : renamed c c.
Proof.
  split_and!; auto. intros e ce H. exists (nameForEmit ce). by destruct ce.
Qed.

Lemma renamed_trans (c1 c2 c3 : Collector) : renamed c1 c2 -> renamed c2 c3 -> renamed c1 c3.
Proof.
  intros (E1 & N1 & S1) (E2 & N2 & S2). split_and!; [congruence|auto|].
  intros e ce H. destruct (S1 e ce H) as (n1 & H1).
  destruct (S2 e _ H1) as (n2 & H2). simpl in H2. eauto.
Qed.

Lemma renamed_update (c : Collector) (e : EntityId) (ce : CollectorEntity) (n : string) :
  _entitiesByAstEntity c !! e = Some ce -> renamed c (updateEntity e (setNameForEmit n ce) c).
Proof.
  intros H. split_and!; simpl; auto.
  - intros x Hx. rewrite lookup_insert_ne; [done|]. intros ->. congruence.
  - intros x cx Hx. destruct (decide (x = e)) as [->|Hne].
    + rewrite lookup_insert_eq. rewrite H in Hx. inversion Hx; subst. eauto.
    + rewrite lookup_insert_ne by done. exists (nameForEmit cx). by destruct cx.
Qed.

Lemma renamed_graph_wf (c c' : Collector) : renamed c c' -> graph_wf c -> graph_wf c'.
Proof.
  intros (E & N & S) (Hnd & Hdom & Hid). split_and!.
  - by rewrite E.
  - intros e. rewrite E, Hdom. unfold installed. split; intros [ce Hce].
    + destruct (S e ce Hce) as (n & ->). eauto.
    + destruct (_entitiesByAstEntity c !! e) eqn:Hl; eauto.
      apply N in Hl. congruence.
  - intros e ce' Hce'. destruct (_entitiesByAstEntity c !! e) as [ce|] eqn:Hl.
    + destruct (S e ce Hl) as (n & Hn). rewrite Hn in Hce'. inversion Hce'; subst. simpl. eauto.
    + apply N in Hl. congruence.
Qed.

Lemma renamed_installed (c c' : Collector) (e : EntityId) :
  renamed c c' -> installed c e -> installed c' e.
Proof. intros (_ & _ & S) [ce Hce]. destruct (S e ce Hce) as (n & Hn). red. eauto. Qed.

Lemma renamed_exports (c c' : Collector) (e : EntityId) (ce' : CollectorEntity) :
  renamed c c' -> _entitiesByAstEntity c' !! e = Some ce' ->
  exists ce, _entitiesByAstEntity c !! e = Some ce /\ exportNames ce' = exportNames ce
             /\ astEntity ce' = astEntity ce
             /\ consumableViaInheritance ce' = consumableViaInheritance ce.
Proof.
  intros (_ & N & S) H. destruct (_entitiesByAstEntity c !! e) as [ce|] eqn:Hl.
  - destruct (S e ce Hl) as (n & Hn). rewrite Hn in H. inversion H; subst. eauto.
  - apply N in Hl. congruence.
Qed.

Lemma exports_used_mono (c c' : Collector) (used used' : gset string) :
  renamed c c' -> used ⊆ used' -> exports_used c used -> exports_used c' used'.
Proof.
  intros Hr Hs Hu e ce' n Hce' Hn.
  destruct (renamed_exports _ _ _ _ Hr Hce') as (ce & Hce & Hex & _).
  rewrite Hex in Hn. apply Hs. eauto.
Qed.

Lemma exports_owned_renamed (c c' : Collector) :
  renamed c c' -> exports_owned c -> exports_owned c'.
Proof.
  intros Hr Ho e1 e2 ce1' ce2' n H1 H2 Hn1 Hn2.
  destruct (renamed_exports _ _ _ _ Hr H1) as (ce1 & Hce1 & Hex1 & _).
  destruct (renamed_exports _ _ _ _ Hr H2) as (ce2 & Hce2 & Hex2 & _).
  rewrite Hex1 in Hn1. rewrite Hex2 in Hn2. eauto.
Qed.

Lemma reservedNames_mono (p : Program) (used used' : gset string) :
  used ⊆ used' -> reservedNames p used ⊆ reservedNames p used'.
Proof. unfold reservedNames. set_solver. Qed.

Lemma used_reserved (p : Program) (used : gset string) : used ⊆ reservedNames p used.
Proof. unfold reservedNames. set_solver. Qed.

Lemma acceptsIdeal_export (p : Program) (ce : CollectorEntity) (n : string) :
  acceptsIdeal p ce n = true -> n ∈ exportNames ce.
Proof.
  unfold acceptsIdeal. rewrite !andb_true_iff, bool_decide_eq_true. tauto.
Qed.

(** The second pass of [_makeUniqueNames] over the entities [l]. *)
Lemma assign_loop (p : Program) (fuel : nat) (l : list EntityId) :
  forall (c c' : Collector) (used used' : gset string),
    NoDup l -> exports_used c used -> exports_owned c ->
    forEach (assignName p fuel) l (c, used) = Done (c', used') ->
    renamed c c' /\ used ⊆ used' /\
    (forall e ce, e ∉ l -> _entitiesByAstEntity c !! e = Some ce ->
                  _entitiesByAstEntity c' !! e = Some ce) /\
    (forall e, e ∈ l -> named p c c' used used' e) /\
    (forall e1 e2 ce1 ce2, e1 ∈ l -> e2 ∈ l -> e1 <> e2 ->
       _entitiesByAstEntity c' !! e1 = Some ce1 ->
       _entitiesByAstEntity c' !! e2 = Some ce2 ->
       nameForEmit ce1 <> nameForEmit ce2).
Proof.
  induction l as [|e0 l IH]; intros c c' used used' Hnd Hused Howned H; simpl in H.
  { inversion H; subst. split_and!; auto using renamed_refl.
    - intros e He. by apply elem_of_nil in He.
    - intros e1 e2 ce1 ce2 He1. by apply elem_of_nil in He1. }
  apply bind_Done in H as ([c1 used1] & Hstep & Hrest).
  apply NoDup_cons in Hnd as [He0 Hnd].
  apply assignName_spec in Hstep as (entity0 & ast0 & n0 & Hl0 & Hast0 & -> & Hcase).
  set (c1 := updateEntity e0 (setNameForEmit n0 entity0) c) in *.
  assert (Hr1 : renamed c c1) by (by apply renamed_update).
  assert (Hu1 : used ⊆ used1) by (destruct Hcase as [(_ & _ & ->)|(_ & _ & -> & _)]; set_solver).
  assert (Hn0 : n0 ∈ used1).
  { destruct Hcase as [(Hacc & -> & ->)|(_ & _ & -> & _)]; [|set_solver].
    eapply Hused; eauto. by apply acceptsIdeal_export in Hacc. }
  apply IH in Hrest as (Hr & Hu & Hout & Hnamed & Hdist); auto;
    [|by eapply exports_used_mono|by eapply exports_owned_renamed].
  assert (Hc'0 : _entitiesByAstEntity c' !! e0 = Some (setNameForEmit n0 entity0)).
  { apply Hout; auto. unfold c1. simpl. by rewrite lookup_insert_eq. }
  assert (Hnamed' : forall e, e ∈ l -> named p c c' used used' e).
  { intros e He. destruct (Hnamed e He) as (ce & ast & n & Hce & Hast & Hce' & Hn & Ho).
    assert (e <> e0) by (intros ->; done).
    unfold c1 in Hce. simpl in Hce. rewrite lookup_insert_ne in Hce by done.
    exists ce, ast, n. split_and!; auto.
    destruct Ho as [?|(? & Hnr)]; [by left|right]. split_and!; auto.
    intros Hn'. apply Hnr. by eapply reservedNames_mono. }
  assert (Hnamed0 : named p c c' used used' e0).
  { exists entity0, ast0, n0. split_and!; auto.
    destruct Hcase as [(? & ? & _)|(? & ? & _)]; auto. }
  split_and!.
  - by eapply renamed_trans.
  - set_solver.
  - intros e ce He Hce. apply not_elem_of_cons in He as [Hne He].
    apply Hout; auto. unfold c1. simpl. by rewrite lookup_insert_ne.
  - intros e He. apply elem_of_cons in He as [->|He]; auto.
  - assert (Hcross : forall e2 ce2, e2 ∈ l ->
              _entitiesByAstEntity c' !! e2 = Some ce2 ->
              nameForEmit ce2 <> Some n0).
    { intros e2 ce2 He2 Hce2 Heq.
      destruct (Hnamed e2 He2) as (ce & ast & n & Hce & Hast & Hce' & Hn & Ho).
      rewrite Hce' in Hce2. inversion Hce2; subst. simpl in Heq. inversion Heq; subst.
      assert (e2 <> e0) by (intros ->; done).
      unfold c1 in Hce. simpl in Hce. rewrite lookup_insert_ne in Hce by done.
      destruct Ho as [(Hacc & Hid)|(_ & Hnr)].
      - apply acceptsIdeal_export in Hacc. rewrite <- Hid in Hacc.
        destruct Hcase as [(Hacc0 & -> & _)|(_ & Hnr0 & _)].
        + apply acceptsIdeal_export in Hacc0. apply H. eapply Howned; eauto.
        + apply Hnr0. apply used_reserved. eapply Hused; eauto.
      - apply Hnr. by apply used_reserved. }
    intros e1 e2 ce1 ce2 He1 He2 Hne H1 H2.
    apply elem_of_cons in He1 as [->|He1]; apply elem_of_cons in He2 as [->|He2].
    + done.
    + rewrite Hc'0 in H1. inversion H1; subst. simpl. intros Heq. symmetry in Heq.
      by eapply Hcross.
    + rewrite Hc'0 in H2. inversion H2; subst. simpl. by eapply Hcross.
    + eapply (Hdist e1 e2); eauto.
Qed.

Lemma assign_loop_head (p : Program) (fuel : nat) (e0 : EntityId) (l : list EntityId)
    (c c' : Collector) (used used' : gset string) (ce : CollectorEntity) (ast : AstEntity) :
  NoDup (e0 :: l) -> exports_used c used -> exports_owned c ->
  forEach (assignName p fuel) (e0 :: l) (c, used) = Done (c', used') ->
  _entitiesByAstEntity c !! e0 = Some ce -> astEntities p !! e0 = Some ast ->
  acceptsIdeal p ce (idealName ast ce) = true \/ idealName ast ce ∉ reservedNames p used ->
  _entitiesByAstEntity c' !! e0 = Some (setNameForEmit (idealName ast ce) ce).
Proof.
  intros Hnd Hused Howned H Hce Hast Hideal. simpl in H.
  apply bind_Done in H as ([c1 used1] & Hstep & Hrest).
  apply NoDup_cons in Hnd as [He0 Hnd].
  apply assignName_spec in Hstep as (entity0 & ast0 & n0 & Hl0 & Hast0 & -> & Hcase).
  rewrite Hce in Hl0. rewrite Hast in Hast0. inversion Hl0; inversion Hast0; subst.
  assert (n0 = idealName ast0 entity0) as ->.
  { destruct Hcase as [(_ & -> & _)|(Hacc & _ & _ & Hid)]; auto.
    destruct Hideal as [Ht|Hn]; [congruence|auto]. }
  assert (Hu1 : used ⊆ used1) by (destruct Hcase as [(_ & _ & ->)|(_ & _ & -> & _)]; set_solver).
  apply assign_loop in Hrest as (_ & _ & Hout & _); auto.
  - apply Hout; auto. simpl. by rewrite lookup_insert_eq.
  - eapply exports_used_mono; eauto. by apply renamed_update.
  - eapply exports_owned_renamed; eauto. by apply renamed_update.
Qed.

(** The name the loop returns is the first candidate that is not reserved. *)
Lemma uniqueNameLoop_least (p : Program) (fuel : nat) (used : gset string) (ideal : string) :
  forall (suffix : N) (name n : string),
    uniqueNameLoop p fuel used ideal suffix name = Done n ->
    (n = name /\ name ∉ reservedNames p used) \/
    (name ∈ reservedNames p used /\
     exists j, (suffix < j)%N /\ n = candidate ideal j /\ (n ∉ reservedNames p used) /\
       forall i, (suffix < i < j)%N -> candidate ideal i ∈ reservedNames p used).
Proof.
  induction fuel as [|fuel IH]; intros suffix name n H; simpl in H; [done|].
  destruct (bool_decide (name = "default") || bool_decide (name ∈ used) || hasGlobalName p name)
    eqn:Hbad.
  - right. apply reserved_spec in Hbad. split; [done|].
    apply IH in H as [[-> Hfree]|(Hres & j & Hj & -> & Hfree & Hall)].
    + exists (suffix + 1)%N. split_and!; [lia|done|done|]. intros i Hi. lia.
    + exists j. split_and!; [lia|done|done|].
      intros i Hi. destruct (decide (i = suffix + 1)%N) as [->|Hne]; [done|].
      apply Hall. lia.
  - left. inversion H; subst. split; [done|]. rewrite <- reserved_spec, Hbad. done.
Qed.

Lemma assignName_least (p : Program) (fuel : nat) (c c' : Collector)
    (used used' : gset string) (e : EntityId) (entity : CollectorEntity) (ast : AstEntity) :
  assignName p fuel (c, used) e = Done (c', used') ->
  _entitiesByAstEntity c !! e = Some entity -> astEntities p !! e = Some ast ->
  exists n,
    c' = updateEntity e (setNameForEmit n entity) c /\
    ((acceptsIdeal p entity (idealName ast entity) = true /\
      n = idealName ast entity /\ used' = used)
     \/
     (acceptsIdeal p entity (idealName ast entity) = false /\ used' = {[n]} ∪ used /\
      exists j, (1 <= j)%N /\ n = nthCandidate (idealName ast entity) j /\
        (n ∉ reservedNames p used) /\
        forall i, (1 <= i < j)%N ->
                  nthCandidate (idealName ast entity) i ∈ reservedNames p used)).
Proof.
  unfold assignName. intros H Hentity Hast. rewrite Hentity, Hast in H.
  fold (acceptsIdeal p entity (idealName ast entity)) in H.
  destruct (acceptsIdeal p entity (idealName ast entity)) eqn:Hacc.
  - inversion H; subst. exists (idealName ast entity). split; [done|]. by left.
  - apply bind_Done in H as (n & Hloop & H). inversion H; subst.
    exists n. split; [done|]. right. split_and!; [done|done|].
    apply uniqueNameLoop_least in Hloop as [[-> Hfree]|(Hres & j & Hj & -> & Hfree & Hall)].
    + exists 1%N. split_and!; [lia|done|done|]. intros i Hi. lia.
    + exists j. unfold nthCandidate. rewrite bool_decide_eq_false_2 by lia.
      split_and!; [lia|done|done|]. intros i Hi. case_bool_decide; [done|].
      apply Hall. lia.
Qed.

(** The names in [usedNames] after the second pass over [l]: those that were
    there, and the names given to the entities of [l]. *)
Lemma assign_loop_used (p : Program) (fuel : nat) (l : list EntityId) :
  forall (c c' : Collector) (used used' : gset string),
    NoDup l -> exports_used c used -> exports_owned c ->
    forEach (assignName p fuel) l (c, used) = Done (c', used') ->
    forall n, n ∈ used' <->
      n ∈ used \/ exists e ce, e ∈ l /\ _entitiesByAstEntity c' !! e = Some ce /\
                               nameForEmit ce = Some n.
Proof.
  induction l as [|e0 l IH]; intros c c' used used' Hnd Hused Howned H n; simpl in H.
  { inversion H; subst. split; [by left|]. intros [?|(e & ce & He & _)]; [done|].
    by apply elem_of_nil in He. }
  apply bind_Done in H as ([c1 used1] & Hstep & Hrest).
  apply NoDup_cons in Hnd as [He0 Hnd].
  apply assignName_spec in Hstep as (entity0 & ast0 & n0 & Hl0 & Hast0 & -> & Hcase).
  set (c1 := updateEntity e0 (setNameForEmit n0 entity0) c) in *.
  assert (Hr1 : renamed c c1) by (by apply renamed_update).
  assert (Hu1 : used ⊆ used1) by (destruct Hcase as [(_ & _ & ->)|(_ & _ & -> & _)]; set_solver).
  assert (Hused1 : exports_used c1 used1) by (by eapply exports_used_mono).
  assert (Howned1 : exports_owned c1) by (by eapply exports_owned_renamed).
  pose proof (assign_loop p fuel l c1 c' used1 used' Hnd Hused1 Howned1 Hrest)
    as (_ & _ & Hout & _).
  assert (Hc'0 : _entitiesByAstEntity c' !! e0 = Some (setNameForEmit n0 entity0)).
  { apply Hout; auto. unfold c1. simpl. by rewrite lookup_insert_eq. }
  rewrite (IH c1 c' used1 used' Hnd Hused1 Howned1 Hrest n).
  assert (Hn1 : n ∈ used1 <-> n ∈ used \/ n = n0).
  { destruct Hcase as [(Hacc & -> & ->)|(_ & _ & -> & _)]; [|set_solver].
    split; [by left|]. intros [?| ->]; [done|].
    eapply Hused; eauto. by apply acceptsIdeal_export in Hacc. }
  rewrite Hn1. split.
  - intros [[?| ->]|(e & ce & He & Hce & Hn)]; [by left| |].
    + right. exists e0, (setNameForEmit n0 entity0). split_and!; [by left|done|done].
    + right. exists e, ce. split_and!; [by right|done|done].
  - intros [?|(e & ce & He & Hce & Hn)]; [by left; left|].
    apply elem_of_cons in He as [->|He].
    + rewrite Hc'0 in Hce. inversion Hce; subst. simpl in Hn. inversion Hn; subst.
      left. by right.
    + right. eauto.
Qed.

(** The second pass at an entity anywhere in the array. *)
Lemma assign_loop_at (p : Program) (fuel : nat) (before : list EntityId) (e : EntityId)
    (after : list EntityId) (c c' : Collector) (used used' : gset string)
    (ce : CollectorEntity) (ast : AstEntity) :
  NoDup (before ++ e :: after) -> exports_used c used -> exports_owned c ->
  forEach (assignName p fuel) (before ++ e :: after) (c, used) = Done (c', used') ->
  _entitiesByAstEntity c !! e = Some ce -> astEntities p !! e = Some ast ->
  exists n (used1 : gset string),
    _entitiesByAstEntity c' !! e = Some (setNameForEmit n ce) /\
    (forall m, m ∈ used1 <->
       m ∈ used \/ exists e0 ce0, e0 ∈ before /\ _entitiesByAstEntity c' !! e0 = Some ce0 /\
                                  nameForEmit ce0 = Some m) /\
    ((acceptsIdeal p ce (idealName ast ce) = true /\ n = idealName ast ce) \/
     (acceptsIdeal p ce (idealName ast ce) = false /\
      exists j, (1 <= j)%N /\ n = nthCandidate (idealName ast ce) j /\
        (n ∉ reservedNames p used1) /\
        forall i, (1 <= i < j)%N ->
                  nthCandidate (idealName ast ce) i ∈ reservedNames p used1)).
Proof.
  intros Hnd Hused Howned H Hce Hast.
  apply NoDup_app in Hnd as (Hndb & Hdisj & Hnda).
  apply NoDup_cons in Hnda as [Hea Hnda].
  assert (Heb : e ∉ before) by (intros Hin; apply (Hdisj e Hin); by left).
  rewrite forEach_app in H. apply bind_Done in H as ([c1 used1] & Hbefore & H).
  simpl in H. apply bind_Done in H as ([c2 used2] & Hstep & Hafter).
  pose proof (assign_loop p fuel before c c1 used used1 Hndb Hused Howned Hbefore)
    as (Hr1 & Hu1 & Hout1 & _).
  pose proof (assign_loop_used p fuel before c c1 used used1 Hndb Hused Howned Hbefore)
    as Hused1.
  assert (Hce1 : _entitiesByAstEntity c1 !! e = Some ce) by (by apply Hout1).
  assert (Hexp1 : exports_used c1 used1) by (by eapply exports_used_mono).
  assert (Hown1 : exports_owned c1) by (by eapply exports_owned_renamed).
  destruct (assignName_least _ _ _ _ _ _ _ _ _ Hstep Hce1 Hast) as (n & -> & Hcase).
  set (c2 := updateEntity e (setNameForEmit n ce) c1) in *.
  assert (Hr2 : renamed c1 c2) by (by apply renamed_update).
  assert (Hu2 : used1 ⊆ used2)
    by (destruct Hcase as [(_ & _ & ->)|(_ & -> & _)]; set_solver).
  assert (Hexp2 : exports_used c2 used2) by (by eapply exports_used_mono).
  assert (Hown2 : exports_owned c2) by (by eapply exports_owned_renamed).
  pose proof (assign_loop p fuel after c2 c' used2 used' Hnda Hexp2 Hown2 Hafter)
    as (_ & _ & Hout2 & _).
  assert (Hstable : forall e0, e0 ∈ before ->
            _entitiesByAstEntity c' !! e0 = _entitiesByAstEntity c1 !! e0).
  { intros e0 He0.
    assert (Hne : e0 <> e) by (intros ->; done).
    assert (He0a : e0 ∉ after) by (intros Hin; apply (Hdisj e0 He0); by right).
    assert (H12 : _entitiesByAstEntity c2 !! e0 = _entitiesByAstEntity c1 !! e0).
    { unfold c2. simpl. by rewrite lookup_insert_ne. }
    destruct (_entitiesByAstEntity c1 !! e0) as [ce0|] eqn:Hl.
    - apply Hout2; [done|]. by rewrite H12.
    - destruct (_entitiesByAstEntity c' !! e0) as [ce0'|] eqn:Hl'; [|done].
      assert (Hr : renamed c2 c').
      { by destruct (assign_loop p fuel after c2 c' used2 used' Hnda Hexp2 Hown2 Hafter). }
      destruct (renamed_exports _ _ _ _ Hr Hl') as (ce2 & Hce2 & _). congruence. }
  exists n, used1. split_and!.
  - apply Hout2; [done|]. unfold c2. simpl. by rewrite lookup_insert_eq.
  - intros m. rewrite (Hused1 m). split.
    + intros [?|(e0 & ce0 & He0 & Hl & Hn)]; [by left|right].
      exists e0, ce0. split_and!; [done| |done]. by rewrite Hstable.
    + intros [?|(e0 & ce0 & He0 & Hl & Hn)]; [by left|right].
      exists e0, ce0. split_and!; [done| |done]. by rewrite <- Hstable.
  - destruct Hcase as [(Hacc & -> & _)|(Hacc & _ & Hj)]; [by left|by right].
Qed.

Lemma makeUniqueNames_spec (p : Program) (fuel : nat) (c c' : Collector) :
  graph_wf c -> _makeUniqueNames p fuel c = Done c' ->
  renamed c c' /\
  NoDup (allExportNames c) /\
  (exists used', forall e, installed c e ->
     named p c c' (list_to_set (allExportNames c)) used' e) /\
  (forall e1 e2 ce1 ce2, e1 <> e2 ->
     _entitiesByAstEntity c' !! e1 = Some ce1 ->
     _entitiesByAstEntity c' !! e2 = Some ce2 ->
     nameForEmit ce1 <> nameForEmit ce2) /\
  (forall e rest ce ast, _entities c = e :: rest ->
     _entitiesByAstEntity c !! e = Some ce -> astEntities p !! e = Some ast ->
     acceptsIdeal p ce (idealName ast ce) = true \/
     idealName ast ce ∉ reservedNames p (list_to_set (allExportNames c)) ->
     _entitiesByAstEntity c' !! e = Some (setNameForEmit (idealName ast ce) ce)).
Proof.
  intros Hwf H. unfold _makeUniqueNames in H.
  apply bind_Done in H as (used & Hcollect & H).
  apply bind_Done in H as ([c1 used1] & Hloop & H). inversion H; subst.
  apply collectExportNames_spec in Hcollect as (-> & Hnd & Hinst).
  pose proof Hwf as (HndE & Hdom & Hid).
  assert (Hused : exports_used c (list_to_set (allExportNames c))).
  { intros e ce n Hce Hn. apply elem_of_list_to_set.
    eapply allExportNames_elem; eauto. apply Hdom. red. eauto. }
  assert (Howned : exports_owned c) by (red; by apply allExportNames_owner).
  pose proof Hloop as Hloop'.
  apply assign_loop in Hloop as (Hr & Hu & Hout & Hnamed & Hdist); auto.
  split_and!; auto.
  - exists used1. intros e He. apply Hnamed. by apply Hdom.
  - intros e1 e2 ce1 ce2 Hne H1 H2.
    assert (He : forall e ce, _entitiesByAstEntity c' !! e = Some ce -> e ∈ _entities c).
    { intros e ce Hce. destruct (renamed_exports _ _ _ _ Hr Hce) as (ce0 & Hce0 & _).
      apply Hdom. red. eauto. }
    eapply (Hdist e1 e2); eauto.
  - intros e rest ce ast He Hce Hast Hideal. rewrite He in *.
    eapply assign_loop_head; eauto.
Qed.

(** The name of an entity anywhere in the array, after [_makeUniqueNames]. *)
Lemma makeUniqueNames_at (p : Program) (fuel : nat) (c c' : Collector)
    (before : list EntityId) (e : EntityId) (after : list EntityId)
    (ce : CollectorEntity) (ast : AstEntity) :
  graph_wf c -> _makeUniqueNames p fuel c = Done c' ->
  _entities c = before ++ e :: after ->
  _entitiesByAstEntity c !! e = Some ce -> astEntities p !! e = Some ast ->
  exists n,
    _entitiesByAstEntity c' !! e = Some (setNameForEmit n ce) /\
    ((acceptsIdeal p ce (idealName ast ce) = true /\ n = idealName ast ce) \/
     (acceptsIdeal p ce (idealName ast ce) = false /\
      exists j, (1 <= j)%N /\ n = nthCandidate (idealName ast ce) j /\
        ~ taken p c c' before n /\
        forall i, (1 <= i < j)%N -> taken p c c' before (nthCandidate (idealName ast ce) i))).
Proof.
  intros Hwf H Hsplit Hce Hast. unfold _makeUniqueNames in H.
  apply bind_Done in H as (used & Hcollect & H).
  apply bind_Done in H as ([c1 used1] & Hloop & H). inversion H; subst.
  apply collectExportNames_spec in Hcollect as (-> & Hnd & Hinst).
  pose proof Hwf as (HndE & Hdom & Hid).
  assert (Hused : exports_used c (list_to_set (allExportNames c))).
  { intros e0 ce0 n Hce0 Hn. apply elem_of_list_to_set.
    eapply allExportNames_elem; eauto. apply Hdom. red. eauto. }
  assert (Howned : exports_owned c) by (red; by apply allExportNames_owner).
  rewrite Hsplit in Hloop, HndE.
  destruct (assign_loop_at _ _ _ _ _ _ _ _ _ _ _ HndE Hused Howned Hloop Hce Hast)
    as (n & used0 & Hn & Hused0 & Hcase).
  assert (Htaken : forall m, m ∈ reservedNames p used0 <-> taken p c c' before m).
  { intros m. unfold reservedNames, taken, hasGlobalName.
    rewrite !elem_of_union, elem_of_singleton, elem_of_list_to_set, Hused0,
      elem_of_list_to_set, bool_decide_eq_true. tauto. }
  exists n. split; [exact Hn|].
  destruct Hcase as [?|(Hacc & j & Hj & -> & Hfree & Hall)]; [by left|right].
  split; [done|]. exists j. split_and!; [done|done|by rewrite <- Htaken|].
  intros i Hi. apply Htaken. by apply Hall.
Qed.

Lemma size_add_le (n : string) (used : gset string) :
  size ({[n]} ∪ used) <= 1 + size used.
Proof.
  rewrite size_union_alt, size_singleton.
  assert (size (used ∖ {[n]}) <= size used) by (apply subseteq_size; set_solver). lia.
Qed.

Lemma size_list_to_set_le (l : list string) :
  size (list_to_set l : gset string) <= length l.
Proof.
  induction l as [|g gs IH]; simpl.
  - change (size (∅ : gset string) <= 0). by rewrite size_empty.
  - pose proof (size_add_le g (list_to_set gs)). lia.
Qed.

Lemma size_reservedNames (p : Program) (used : gset string) :
  size (reservedNames p used) <= 1 + size used + length (globalNames p).
Proof.
  unfold reservedNames. rewrite size_union_alt.
  pose proof (size_add_le "default" used).
  assert (size ((list_to_set (globalNames p) : gset string) ∖ ({["default"]} ∪ used))
          <= length (globalNames p)).
  { etransitivity; [|apply size_list_to_set_le]. apply subseteq_size. set_solver. }
  lia.
Qed.

Lemma assign_loop_ends (p : Program) (fuel : nat) (l : list EntityId) :
  forall (st : Collector * gset string),
    size (snd st) + length (globalNames p) + length l + 3 <= fuel ->
    ends_with (forEach (assignName p fuel) l st) (fun _ => True).
Proof.
  induction l as [|e l IH]; intros [c used] Hfuel; [done|].
  change (ends_with (assignName p fuel (c, used) e ≫= forEach (assignName p fuel) l)
            (fun _ => True)).
  simpl in Hfuel.
  destruct (assignName p fuel (c, used) e) as [[c1 used1]|err|] eqn:Hstep; [| done |].
  - change (ends_with (forEach (assignName p fuel) l (c1, used1)) (fun _ => True)).
    apply IH. simpl.
    apply assignName_spec in Hstep as (? & ? & n & _ & _ & _ & [(_ & _ & ->)|(_ & _ & -> & _)]);
      [lia|].
    pose proof (size_add_le n used). lia.
  - exfalso. unfold assignName in Hstep.
    destruct (_entitiesByAstEntity c !! e) as [entity|]; [|done].
    destruct (astEntities p !! e) as [ast|]; [|done].
    destruct (_ && _ && _); [done|].
    destruct (uniqueNameLoop_ends p fuel used (idealName ast entity) 1 (idealName ast entity))
      as [n Hn].
    + pose proof (size_reservedNames p used). lia.
    + rewrite Hn in Hstep. done.
Qed.

Lemma collectExportNames_ends (c : Collector) :
  ends_with (collectExportNames c) (fun used => size used <= length (allExportNames c)).
Proof.
  destruct (collectExportNames c) as [used|err|] eqn:H; simpl; auto.
  - apply collectExportNames_spec in H as (-> & Hnd & _). by rewrite size_list_to_set.
  - unfold collectExportNames in H.
    assert (Hends : ends_with (Timeout : Outcome (gset string)) (fun _ => True)); [|done].
    rewrite <- H. apply forEach_ends; [|done].
    intros used e _ _. destruct (_entitiesByAstEntity c !! e); [|done].
    apply forEach_ends; [|done]. intros u n _ _. by case_bool_decide.
Qed.

Lemma makeUniqueNames_ends (p : Program) (c : Collector) (k : nat) :
  ends_with (_makeUniqueNames p (namingFuel p c + k) c) (fun _ => True).
Proof.
  unfold _makeUniqueNames.
  pose proof (collectExportNames_ends c) as Hc.
  destruct (collectExportNames c) as [used|err|]; simpl in *; auto.
  pose proof (assign_loop_ends p (namingFuel p c + k) (_entities c) (c, used)) as Hl.
  destruct (forEach _ _ _) as [[c1 used1]|err|]; simpl in *; auto.
  apply Hl. unfold namingFuel. lia.
Qed.

(** ** Sorting *)

Lemma insertByKey_Permutation {A : Type} (key : A -> string) (x : A) (l : list A) :
  insertByKey key x l ≡ₚ x :: l.
Proof.
  induction l as [|y l IH]; simpl; [done|].
  destruct (String.ltb _ _); [done|]. rewrite IH. apply Permutation_swap.
Qed.

Lemma sortBy_Permutation {A : Type} (key : A -> string) (l : list A) :
  sortBy key l ≡ₚ l.
Proof.
  unfold sortBy.
  assert (H : forall acc, foldl (fun sorted x => insertByKey key x sorted) acc l ≡ₚ acc ++ l).
  { induction l as [|x l IH]; intros acc; simpl; [by rewrite app_nil_r|].
    rewrite IH, insertByKey_Permutation. apply Permutation_middle. }
  apply (H []).
Qed.

Lemma graph_wf_sortEntities (c : Collector) : graph_wf c -> graph_wf (sortEntities c).
Proof.
  intros (Hnd & Hdom & Hid). unfold sortEntities. split_and!; simpl; auto.
  - revert Hnd. apply NoDup_Permutation_proper. apply sortBy_Permutation.
  - intros e. unfold installed. simpl. rewrite <- (Hdom e).
    apply elem_of_Permutation_proper, sortBy_Permutation.
Qed.

(** ** [analyze] *)

Lemma entities_astEntity (c : Collector) :
  graph_wf c -> astEntity <$> entities c = _entities c.
Proof.
  intros (_ & Hdom & Hid). unfold entities.
  assert (H : forall l : list EntityId, (forall e, e ∈ l -> installed c e) ->
            astEntity <$> omap (fun e => _entitiesByAstEntity c !! e) l = l).
  { induction l as [|e l IH]; intros Hl; simpl; [done|].
    destruct (Hl e) as [ce Hce]; [by left|]. rewrite Hce. simpl.
    f_equal; [by apply Hid|]. apply IH. intros x Hx. apply Hl. by right. }
  apply H. intros e He. by apply Hdom.
Qed.

Lemma occurrences_none (E : EntityId) (l : list CollectorEntity) :
  E ∉ astEntity <$> l -> occurrences E l = 0.
Proof.
  unfold occurrences. induction l as [|ce l IH]; simpl; intros Hin; [done|].
  apply not_elem_of_cons in Hin as [Hne Hin].
  rewrite filter_cons. destruct (decide (astEntity ce = E)); [congruence|auto].
Qed.

Lemma occurrences_once (E : EntityId) (l : list CollectorEntity) :
  NoDup (astEntity <$> l) -> E ∈ astEntity <$> l -> occurrences E l = 1.
Proof.
  induction l as [|ce l IH]; simpl; intros Hnd Hin.
  { by apply elem_of_nil in Hin. }
  apply NoDup_cons in Hnd as [Hce Hnd].
  unfold occurrences in *. rewrite filter_cons.
  destruct (decide (astEntity ce = E)) as [Heq|Hne]; simpl.
  - f_equal. apply (occurrences_none E l). by rewrite <- Heq.
  - apply IH; auto. apply elem_of_cons in Hin as [?|?]; [congruence|done].
Qed.

Lemma exports_loop (l : list (string * EntityId)) :
  forall c, graph_wf c ->
    let c' := foldl (fun c (ex : string * EntityId) =>
                       _createCollectorEntity (snd ex) (Some (fst ex)) false c) c l in
    graph_wf c' /\ (forall y, installed c y -> installed c' y) /\
    (forall x, x ∈ l.*2 -> installed c' x).
Proof.
  induction l as [|[n e] l IH]; intros c Hwf; simpl.
  { split_and!; auto. intros x Hx. by apply elem_of_nil in Hx. }
  destruct (IH (_createCollectorEntity e (Some n) false c)) as (Hwf' & Hmono & Hall);
    [by apply graph_wf_create|].
  split_and!; auto.
  - intros y Hy. by apply Hmono, installed_create.
  - intros x Hx. apply elem_of_cons in Hx as [->|Hx]; auto.
    apply Hmono, installed_create_self.
Qed.

(** The state [analyze] hands to [_makeUniqueNames]. *)
Lemma analyze_unfold (p : Program) (fuel : nat) (c : Collector) :
  analyze p fuel newCollector = Done c ->
  exists w c1,
    forEach (fun w exportedAstEntity =>
           w ← _createEntityForIndirectReferences p fuel exportedAstEntity w;
           match astEntities p !! exportedAstEntity with
           | Some (EntSymbol _) =>
               c ← fetchSymbolMetadata p fuel exportedAstEntity (collector w);
               Done (mkWalk c (alreadySeenAstEntities w) (expanded w))
           | _ => Done w
           end)
      (entryExports p).*2
      (mkWalk (foldl (fun c (ex : string * EntityId) =>
                        _createCollectorEntity (snd ex) (Some (fst ex)) false c)
                 (setAstEntryPoint newCollector) (entryExports p)) ∅ []) = Done w /\
    _makeUniqueNames p fuel (collector w) = Done c1 /\
    c = sortEntities c1.
Proof.
  unfold analyze. simpl. intros H.
  apply bind_Done in H as (w & Hw & H).
  apply bind_Done in H as (c1 & Hc1 & H). inversion H; subst. eauto.
Qed.

(** The loop of [analyze] over the exports of the entry module. *)
Lemma analyze_loop (p : Program) (fuel : nat) (w : Walk) :
  forEach (fun w exportedAstEntity =>
           w ← _createEntityForIndirectReferences p fuel exportedAstEntity w;
           match astEntities p !! exportedAstEntity with
           | Some (EntSymbol _) =>
               c ← fetchSymbolMetadata p fuel exportedAstEntity (collector w);
               Done (mkWalk c (alreadySeenAstEntities w) (expanded w))
           | _ => Done w
           end)
      (entryExports p).*2
      (mkWalk (foldl (fun c (ex : string * EntityId) =>
                        _createCollectorEntity (snd ex) (Some (fst ex)) false c)
                 (setAstEntryPoint newCollector) (entryExports p)) ∅ []) = Done w ->
  walk_ok p ∅ w /\
  (forall x, x ∈ (entryExports p).*2 -> installed (collector w) x) /\
  (forall x, x ∈ (entryExports p).*2 -> x ∈ alreadySeenAstEntities w).
Proof.
  intros Hloop.
  set (c0 := foldl _ _ _) in Hloop.
  destruct (exports_loop (entryExports p) (setAstEntryPoint newCollector))
    as (Hwf0 & _ & Hexp0); [apply graph_wf_new|]. fold c0 in Hwf0, Hexp0.
  eapply (forEach_collect _
            (fun w => walk_ok p ∅ w /\
                      forall x, x ∈ (entryExports p).*2 -> installed (collector w) x)
            walk_le (fun x w => x ∈ alreadySeenAstEntities w))
    in Hloop as ((Hok & Hexp) & Hle & Hseen);
    [ | apply walk_le_refl | apply walk_le_trans | | | ].
  - by split_and!.
  - intros x wa wb Hx [Hs _]. by apply Hs.
  - intros w1 x w3 Hx [Hok Hexp] Hbody.
    apply bind_Done in Hbody as (w2 & Hrun & Hbody).
    apply (traversal_closed p fuel x w1 w2 ∅) in Hrun as (Hok2 & Hle2 & Hx2); auto.
    assert (Hexp2 : forall y, y ∈ (entryExports p).*2 -> installed (collector w2) y).
    { intros y Hy. apply Hle2. auto. }
    destruct (astEntities p !! x) as [[s|? ?|?]|];
      try (inversion Hbody; subst; split_and!; auto; fail).
    apply bind_Done in Hbody as (c2 & Hfetch & Hbody). inversion Hbody; subst.
    apply same_graph_fetchSymbolMetadata in Hfetch as [He Hm].
    destruct Hok2 as (Hcl2 & Hinst2 & Hwf2). destruct Hle2 as [Hs2 Hi2].
    split_and!; simpl; auto.
    + split_and!; auto.
      * intros y Hy Hr. red. simpl. rewrite Hm. by apply Hinst2.
      * simpl. eapply graph_wf_same_graph; eauto. by split.
    + intros y Hy. red. rewrite Hm. by apply Hexp2.
    + split; simpl; auto. intros y Hy. red. rewrite Hm. by apply Hi2.
  - split.
    + split_and!; simpl; auto.
      * intros x y Hx. set_solver.
      * intros y Hy. set_solver.
    + auto.
Qed.

Lemma analyze_graph (p : Program) (fuel : nat) (c : Collector) :
  analyze p fuel newCollector = Done c ->
  graph_wf c /\
  exists seen : gset EntityId,
    (forall x, x ∈ (entryExports p).*2 -> x ∈ seen /\ installed c x) /\
    (forall x y, x ∈ seen -> edge p x y -> y ∈ seen) /\
    (forall y, y ∈ seen -> rootLevel p y -> installed c y).
Proof.
  intros H. apply analyze_unfold in H as (w & c1 & Hloop & Hnames & ->).
  apply analyze_loop in Hloop as (Hok & Hexp & Hseen).
  destruct Hok as (Hcl & Hinst & Hwf).
  apply makeUniqueNames_spec in Hnames as (Hr & _); auto.
  split; [by apply graph_wf_sortEntities, (renamed_graph_wf _ _ Hr)|].
  exists (alreadySeenAstEntities w). split_and!.
  - intros x Hx. split; auto.
    apply (renamed_installed _ _ _ Hr). auto.
  - intros x y Hx Hxy. apply (Hcl x y); auto. set_solver.
  - intros y Hy Hroot. apply (renamed_installed _ _ _ Hr). auto.
Qed.

Lemma rtc_edge_seen (p : Program) (seen : gset EntityId) (x E : EntityId) :
  (forall x y, x ∈ seen -> edge p x y -> y ∈ seen) ->
  rtc (references p) x E -> x ∈ seen -> E ∈ seen.
Proof.
  intros Hcl Hrtc. induction Hrtc as [|x y z Hxy _ IH]; auto.
  intros Hx. apply IH. apply (Hcl x y); auto. by left.
Qed.

(** ** Which entities get a node *)

(** A property of the Collector that is kept when a node is made for an
    entity that is not a nested symbol, or for a member of a namespace
    import, is kept by the traversal. *)
Section TraversalCreates.
Variables (p : Program) (I : Collector -> Prop).
Hypothesis I_reference : forall c e b,
  I c -> rootLevel p e -> I (_createCollectorEntity e None b c).
Hypothesis I_member : forall c ns e,
  I c -> reexports p ns e -> I (_createCollectorEntity e None false c).
Hypothesis I_import : forall c e ns entity,
  I c -> _entitiesByAstEntity c !! e = Some entity ->
  I (updateEntity e (addAstNamespaceImports ns entity) c).

Lemma traversal_creates (fuel : nat) :
  forall (e : EntityId) (w w' : Walk),
    _createEntityForIndirectReferences p fuel e w = Done w' ->
    I (collector w) -> I (collector w').
Proof.
  induction fuel as [|fuel IH]; intros e w w' Hrun HI; simpl in Hrun; [done|].
  case_bool_decide as Hseen; [by inversion Hrun; subst|].
  destruct (astEntities p !! e) as [[s|name ex|name]|] eqn:He;
    [| |by inversion Hrun; subst..].
  - eapply (forEach_invariant _ (fun w => I (collector w))); [| |exact Hrun]; [|exact HI].
    intros w1 r w2 Hr HI1 Hbody. cbv beta zeta in Hbody.
    destruct (_entitiesByAstEntity (collector w1) !! e) as [entity|]; [|done].
    apply IH in Hbody; [done|]. simpl.
    destruct (astEntities p !! ref_astEntity r) as [[t|? ?|?]|] eqn:Ht;
      [destruct (parentAstSymbol t) eqn:Hpt; [done|]|..];
      apply I_reference; auto; unfold rootLevel; by rewrite Ht.
  - eapply (forEach_invariant _ (fun w => I (collector w))); [| |exact Hrun]; [|exact HI].
    intros w1 x w2 Hx HI1 Hbody. cbv beta zeta in Hbody.
    assert (Hre : reexports p e x) by (by exists name, ex).
    apply IH in Hbody; [done|]. simpl.
    destruct (_entitiesByAstEntity (_createCollectorEntity x None false (collector w1)) !! x)
      as [entity|] eqn:Hl; eauto.
Qed.
End TraversalCreates.

(** The nodes that exist once the exports of the entry module are
    registered are those of the exports. *)
Lemma exports_installed (exports : list (string * EntityId)) (l : list (string * EntityId)) :
  forall c0, (forall e, installed c0 e -> e ∈ exports.*2) ->
    (forall y, y ∈ l.*2 -> y ∈ exports.*2) ->
    forall e, installed (foldl (fun c (ex : string * EntityId) =>
                _createCollectorEntity (snd ex) (Some (fst ex)) false c) c0 l) e ->
              e ∈ exports.*2.
Proof.
  induction l as [|[n x] l IHl]; intros c0 Hc0 Hl e He; simpl in He; [by apply Hc0|].
  eapply IHl; [| |exact He].
  - intros y Hy. apply installed_create_inv in Hy as [->|Hy]; [|by apply Hc0].
    apply Hl. rewrite fmap_cons. by left.
  - intros y Hy. apply Hl. rewrite fmap_cons. by right.
Qed.

(** After [analyze], a nested symbol has a node only when it is exported, by
    the entry module or by the module of a namespace import. *)
Lemma analyze_nodes (p : Program) (fuel : nat) (c : Collector) :
  analyze p fuel newCollector = Done c ->
  forall e, installed c e -> rootLevel p e \/ exportedSomewhere p e.
Proof.
  intros H. apply analyze_unfold in H as (w & c1 & Hloop & Hnames & ->).
  pose proof (analyze_loop _ _ _ Hloop) as ((_ & _ & Hwf) & _).
  apply makeUniqueNames_spec in Hnames as (Hr & _); [|done].
  set (I := fun c : Collector =>
              forall e, installed c e -> rootLevel p e \/ exportedSomewhere p e).
  assert (Href : forall c0 e b, I c0 -> rootLevel p e -> I (_createCollectorEntity e None b c0)).
  { intros c0 e b HI0 He y Hy. apply installed_create_inv in Hy as [->|Hy]; auto. }
  assert (Hmem : forall c0 ns e, I c0 -> reexports p ns e ->
                                 I (_createCollectorEntity e None false c0)).
  { intros c0 ns e HI0 He y Hy. apply installed_create_inv in Hy as [->|Hy]; auto.
    right. right. by exists ns. }
  assert (Himp : forall c0 e ns entity, I c0 -> _entitiesByAstEntity c0 !! e = Some entity ->
                   I (updateEntity e (addAstNamespaceImports ns entity) c0)).
  { intros c0 e ns entity HI0 Hl y Hy. apply HI0. unfold installed in *. simpl in Hy.
    destruct (decide (y = e)) as [->|Hne]; [eauto|]. by rewrite lookup_insert_ne in Hy. }
  assert (HI : I (collector w)).
  { eapply (forEach_invariant _ (fun w => I (collector w))); [| |exact Hloop].
    - intros w1 x w3 Hx HI1 Hbody.
      apply bind_Done in Hbody as (w2 & Hrun & Hbody).
      pose proof (traversal_creates p I Href Hmem Himp fuel x w1 w2 Hrun HI1) as HI2.
      destruct (astEntities p !! x) as [[s|? ?|?]|]; try (by inversion Hbody; subst).
      apply bind_Done in Hbody as (c2 & Hfetch & Hbody). inversion Hbody; subst. simpl.
      apply same_graph_fetchSymbolMetadata in Hfetch as [_ Hm].
      intros e. unfold installed. rewrite Hm. apply HI2.
    - simpl. intros e He. right. left.
      eapply (exports_installed (entryExports p)); [| |exact He]; [|done].
      intros y [? Hy]. simpl in Hy. by rewrite lookup_empty in Hy. }
  intros e [ce Hce]. apply HI. simpl in Hce.
  destruct (renamed_exports _ _ _ _ Hr Hce) as (ce0 & Hce0 & _). red. eauto.
Qed.

(** C1 (as the code has it): when [analyze] returns, no entity has two
    [CollectorEntity] nodes; every entity that is reachable from an export of
    the entry module by a chain of plain or inheritance references, and that
    is exported itself or is not a symbol nested in another symbol, appears
    exactly once in [entities]; and a symbol nested in another symbol that is
    exported neither by the entry module nor by the module of a namespace
    import gets no node of its own, however it is referenced: it appears in
    [entities] zero times. *)
Theorem reachable_root_entities_appear_once
    (p : Program) (fuel : nat) (c : Collector) (x E : EntityId) :
  analyze p fuel newCollector = Done c ->
  NoDup (astEntity <$> entities c) /\
  (x ∈ (entryExports p).*2 -> rtc (references p) x E ->
   rootLevel p E \/ E ∈ (entryExports p).*2 ->
   occurrences E (entities c) = 1) /\
  (~ rootLevel p E -> ~ exportedSomewhere p E -> occurrences E (entities c) = 0).
Proof.
  intros H. pose proof (analyze_nodes _ _ _ H) as Hnodes.
  apply analyze_graph in H as (Hwf & seen & Hexp & Hcl & Hinst).
  pose proof Hwf as (Hnd & Hdom & _).
  rewrite (entities_astEntity c Hwf). split_and!; [done| |].
  - intros Hx Hreach HE.
    apply occurrences_once; rewrite (entities_astEntity c Hwf); [done|].
    apply Hdom. destruct HE as [Hroot|HE].
    + apply Hinst; auto. eapply rtc_edge_seen; eauto. by apply Hexp.
    + by apply Hexp.
  - intros Hnested Hexported. apply occurrences_none.
    rewrite (entities_astEntity c Hwf). intros Hin. apply Hdom in Hin.
    destruct (Hnodes E Hin); done.
Qed.

Example reachable_root_entities_appear_once_witness :
  (1%positive ∈ (entryExports progPlainFirst).*2 /\
   rtc (references progPlainFirst) 1%positive 4%positive /\
   rootLevel progPlainFirst 4%positive /\
   occurrences 4%positive (entities
     (match analyze progPlainFirst 10 newCollector with Done c => c | _ => newCollector end))
   = 1) /\
  (~ rootLevel progNested 2%positive /\ ~ exportedSomewhere progNested 2%positive /\
   references progNested 1%positive 2%positive /\
   occurrences 2%positive (entities
     (match analyze progNested 10 newCollector with Done c => c | _ => newCollector end))
   = 0).
Proof.
  split.
  - assert (Hx : 1%positive ∈ (entryExports progPlainFirst).*2) by (vm_compute; by left).
    assert (Hchain : rtc (references progPlainFirst) 1%positive 4%positive).
    { apply (rtc_l _ _ 3%positive); [|apply rtc_once].
      - exists (mkAstSymbol "A" false None 1%positive [classA]), (mkRef 3%positive Plain).
        split_and!; [by vm_compute| |done]. vm_compute. by left.
      - exists (mkAstSymbol "X" false None 3%positive [classX]), (mkRef 4%positive Inheritance).
        split_and!; [by vm_compute| |done]. vm_compute. by left. }
    assert (Hroot : rootLevel progPlainFirst 4%positive) by (by vm_compute).
    split_and!; [exact Hx|exact Hchain|exact Hroot|].
    destruct (analyze progPlainFirst 10 newCollector) as [c| |] eqn:Hrun;
      [|vm_compute in Hrun; discriminate..].
    apply (proj1 (proj2 (reachable_root_entities_appear_once progPlainFirst 10 c
                           1%positive 4%positive Hrun)) Hx Hchain).
    by left.
  - assert (Hnested : ~ rootLevel progNested 2%positive) by (vm_compute; discriminate).
    assert (Hnot : ~ exportedSomewhere progNested 2%positive).
    { intros [Hin|(ns & name & ex & Hl & _)].
      - vm_compute in Hin. apply list_elem_of_In in Hin. simpl in Hin.
        destruct Hin as [Hin|[]]. discriminate Hin.
      - apply elem_of_list_to_map_2 in Hl.
        repeat (apply elem_of_cons in Hl as [Hl|Hl]; [discriminate Hl|]).
        by apply elem_of_nil in Hl. }
    assert (Href : references progNested 1%positive 2%positive).
    { exists (mkAstSymbol "AnotherNamespace" false None 1%positive [anotherNamespace]),
        (mkRef 2%positive Inheritance). split_and!; [by vm_compute| |done].
      vm_compute. by left. }
    split_and!; [exact Hnested|exact Hnot|exact Href|].
    destruct (analyze progNested 10 newCollector) as [c| |] eqn:Hrun;
      [|vm_compute in Hrun; discriminate..].
    apply (proj2 (proj2 (reachable_root_entities_appear_once progNested 10 c
                           1%positive 2%positive Hrun)) Hnested Hnot).
Defined.

(** The nested class [A] is referenced from the exported namespace, yet it
    gets no [CollectorEntity] of its own. *)
Lemma reachability_closure_counterexample : ~ reachability_closure_as_stated.
Proof.
  intros H.
  destruct (analyze progNested 10 newCollector) as [c| |] eqn:Hrun;
    [|vm_compute in Hrun; discriminate..].
  specialize (H progNested 10 c 1%positive 2%positive Hrun).
  assert (Hocc : occurrences 2%positive (entities c) = 0).
  { vm_compute in Hrun. inversion Hrun; subst. vm_compute. reflexivity. }
  rewrite Hocc in H. discriminate H.
  - vm_compute. by left.
  - apply rtc_once. exists (mkAstSymbol "AnotherNamespace" false None 1%positive [anotherNamespace]),
      (mkRef 2%positive Inheritance). split_and!; [by vm_compute| |done].
    vm_compute. by left.
Qed.

(** In [progNestedBase] the traversal reaches the nested class [A], which has
    a reference of its own and no [CollectorEntity]: the abort names
    nothing. *)
Lemma abort_names_no_entity : ~ abort_context_as_stated.
Proof.
  intros H.
  specialize (H progNestedBase 10 1%positive
    (mkWalk (_createCollectorEntity 1%positive (Some "NS") false newCollector) ∅ [])
    (Error EmptyString)).
  assert (Hn : namesAnEntity progNestedBase (Error EmptyString) = false)
    by (vm_compute; reflexivity).
  rewrite Hn in H. discriminate H. vm_compute. reflexivity.
Qed.

Lemma elem_of_entities (c : Collector) (ce : CollectorEntity) :
  ce ∈ entities c <-> exists e, e ∈ _entities c /\ _entitiesByAstEntity c !! e = Some ce.
Proof. unfold entities. apply list_elem_of_omap. Qed.

(** ** The inheritance flag depends on the order of the exports *)

Lemma consumableViaInheritance_addExportName (n : string) (ce : CollectorEntity) :
  consumableViaInheritance (addExportName n ce) = consumableViaInheritance ce.
Proof. unfold addExportName. by case_bool_decide. Qed.

Lemma flag_justified_create (p : Program) (e : EntityId) (n : option string) (b : bool)
    (c : Collector) :
  flag_justified p c -> (b = true -> exists x, inherits p x e) ->
  flag_justified p (_createCollectorEntity e n b c).
Proof.
  intros Hj Hb e' ce' Hl Hflag. unfold _createCollectorEntity in Hl.
  destruct (decide (e' = e)) as [->|Hne].
  - destruct b; [by apply Hb|].
    destruct (_entitiesByAstEntity c !! e) as [ce0|] eqn:Hl0; simpl in Hl;
      rewrite lookup_insert_eq in Hl; inversion Hl; subst ce'; clear Hl.
    + apply (Hj e ce0 Hl0).
      destruct n as [n|]; [destruct (truthy (Some n))|]; simpl in Hflag;
        by rewrite ?consumableViaInheritance_addExportName in Hflag.
    + exfalso.
      destruct n as [n|]; [destruct (truthy (Some n))|]; simpl in Hflag;
        rewrite ?consumableViaInheritance_addExportName in Hflag; done.
  - apply (Hj e' ce'); [|done].
    destruct (_entitiesByAstEntity c !! e) as [ce0|] eqn:Hl0; simpl in Hl;
      by rewrite !lookup_insert_ne in Hl by done.
Qed.

Lemma flag_justified_same_graph (p : Program) (c c' : Collector) :
  same_graph c c' -> flag_justified p c -> flag_justified p c'.
Proof. intros [_ Hm] Hj e ce. rewrite Hm. apply Hj. Qed.

(** The traversal sets the flag only at the target of an inheritance
    reference of the entity it is expanding. *)
Lemma traversal_flag (p : Program) (fuel : nat) :
  forall (e : EntityId) (w w' : Walk),
    _createEntityForIndirectReferences p fuel e w = Done w' ->
    flag_justified p (collector w) -> flag_justified p (collector w').
Proof.
  induction fuel as [|fuel IH]; intros e w w' Hrun Hj; simpl in Hrun; [done|].
  case_bool_decide as Hseen; [by inversion Hrun; subst|].
  destruct (astEntities p !! e) as [[s|name ex|name]|] eqn:He;
    [| |by inversion Hrun; subst..].
  - eapply (forEach_invariant _ (fun w => flag_justified p (collector w)));
      [| |exact Hrun]; [|exact Hj].
    intros w1 r w2 Hr Hj1 Hbody. cbv beta zeta in Hbody.
    destruct (_entitiesByAstEntity (collector w1) !! e) as [entity|]; [|done].
    apply IH in Hbody; [done|]. simpl.
    assert (Hcreate : flag_justified p
              (_createCollectorEntity (ref_astEntity r) None
                 (consumable entity && bool_decide (ref_kind r = Inheritance))
                 (collector w1))).
    { apply flag_justified_create; [done|]. intros Hb.
      apply andb_true_iff in Hb as [_ Hk]. apply bool_decide_eq_true in Hk.
      exists e, s, r. by split_and!. }
    destruct (astEntities p !! ref_astEntity r) as [[t|? ?|?]|]; try done.
    by destruct (parentAstSymbol t).
  - eapply (forEach_invariant _ (fun w => flag_justified p (collector w)));
      [| |exact Hrun]; [|exact Hj].
    intros w1 x w2 Hx Hj1 Hbody. cbv beta zeta in Hbody.
    apply IH in Hbody; [done|]. simpl.
    assert (Hcreate : flag_justified p (_createCollectorEntity x None false (collector w1)))
      by (by apply flag_justified_create).
    destruct (_entitiesByAstEntity (_createCollectorEntity x None false (collector w1)) !! x)
      as [entity|] eqn:Hl; [|done].
    intros e' ce' Hl' Hflag. simpl in Hl'.
    destruct (decide (e' = x)) as [->|Hne].
    + rewrite lookup_insert_eq in Hl'. inversion Hl'; subst ce'. simpl in Hflag.
      by apply (Hcreate x entity).
    + rewrite lookup_insert_ne in Hl' by done. by apply (Hcreate e' ce').
Qed.

Lemma flag_justified_exports (p : Program) (l : list (string * EntityId)) (c : Collector) :
  flag_justified p c ->
  flag_justified p (foldl (fun c (ex : string * EntityId) =>
                             _createCollectorEntity (snd ex) (Some (fst ex)) false c) c l).
Proof.
  revert c. induction l as [|[n x] l IHl]; intros c Hc; simpl; [done|].
  apply IHl. by apply flag_justified_create.
Qed.

Lemma analyze_flag (p : Program) (fuel : nat) (c : Collector) :
  analyze p fuel newCollector = Done c -> flag_justified p c.
Proof.
  intros H. apply analyze_unfold in H as (w & c1 & Hloop & Hnames & ->).
  pose proof (analyze_loop _ _ _ Hloop) as ((_ & _ & Hwf) & _).
  apply makeUniqueNames_spec in Hnames as ((_ & Hnone & Hr) & _); [|done].
  assert (Hj : flag_justified p (collector w)).
  { eapply (forEach_invariant _ (fun w => flag_justified p (collector w)));
      [| |exact Hloop].
    - intros w1 x w3 _ Hj1 Hbody.
      apply bind_Done in Hbody as (w2 & Hrun & Hbody).
      apply traversal_flag in Hrun; [|done].
      destruct (astEntities p !! x) as [[s|? ?|?]|]; try (by inversion Hbody; subst).
      apply bind_Done in Hbody as (c2 & Hfetch & Hbody). inversion Hbody; subst. simpl.
      apply same_graph_fetchSymbolMetadata in Hfetch.
      by apply (flag_justified_same_graph p (collector w2)).
    - simpl. apply flag_justified_exports.
      intros e ce Hl. simpl in Hl. by rewrite lookup_empty in Hl. }
  intros e ce Hl Hflag. simpl in Hl.
  destruct (_entitiesByAstEntity (collector w) !! e) as [ce0|] eqn:Hl0.
  - destruct (Hr e ce0 Hl0) as (n & Hl1). rewrite Hl1 in Hl. inversion Hl; subst ce.
    by apply (Hj e ce0).
  - apply Hnone in Hl0. congruence.
Qed.


(** C2 (the code at the failing input): [Y] has no export name and its only
    reference is the inheritance reference from [X]; [X] is consumable, being
    reachable by inheritance from the exported [B]; yet [Y] is left with
    [consumableViaInheritance = false], because [X] was expanded when the
    plain reference from [A] reached it first.  With [B] exported before
    [A], the same declarations give [Y] the flag.  The other half of the
    claim holds of every program: an entity with the flag is the target of an
    inheritance reference, so one that is referenced by plain references only
    does not have the flag. *)
Theorem inheritance_flag_lost_after_plain_visit :
  (referencesTo progPlainFirst 4%positive = [(3%positive, Inheritance)] /\
   (consumable <$> analyzed progPlainFirst 3%positive) = Some true /\
   (exportNames <$> analyzed progPlainFirst 4%positive) = Some [] /\
   (consumableViaInheritance <$> analyzed progPlainFirst 4%positive) = Some false /\
   (consumableViaInheritance <$> analyzed progInheritanceFirst 4%positive) = Some true) /\
  (forall p fuel c ce,
     analyze p fuel newCollector = Done c -> ce ∈ entities c ->
     (forall x, ~ inherits p x (astEntity ce)) ->
     consumableViaInheritance ce = false).
Proof.
  split; [vm_compute; auto 10|].
  intros p fuel c ce Hrun Hin Hplain.
  destruct (consumableViaInheritance ce) eqn:Hflag; [exfalso|done].
  pose proof (analyze_flag _ _ _ Hrun) as Hj.
  apply analyze_graph in Hrun as ((_ & _ & Hid) & _).
  apply elem_of_entities in Hin as (e & _ & Hl).
  destruct (Hj e ce Hl Hflag) as [x Hx].
  apply (Hplain x). by rewrite (Hid e ce Hl).
Qed.

(** ** Emitted names *)

Lemma idealName_single (ast : AstEntity) (ce : CollectorEntity) (n : string) :
  exportNames ce = [n] -> n <> "default" -> includes_dot n = false ->
  idealName ast ce = n.
Proof.
  intros Hex Hd Hdot. unfold idealName, singleExportName. rewrite Hex.
  rewrite bool_decide_eq_true_2 by done. by rewrite Hdot.
Qed.

Lemma idealName_aliases (ast : AstEntity) (ce : CollectorEntity) (P Q : string)
    (more : list string) :
  exportNames ce = P :: Q :: more -> includes_dot (entity_localName ast) = false ->
  idealName ast ce = entity_localName ast.
Proof.
  intros Hex Hdot. unfold idealName, singleExportName. rewrite Hex. by rewrite Hdot.
Qed.

Lemma not_reserved (p : Program) (used : gset string) (n : string) :
  n <> "default" -> n ∉ used -> hasGlobalName p n = false -> n ∉ reservedNames p used.
Proof.
  intros Hd Hu Hg. rewrite <- reserved_spec.
  rewrite (bool_decide_eq_false_2 (n = "default")), (bool_decide_eq_false_2 (n ∈ used)), Hg;
    done.
Qed.

Lemma split_dot_0_id (s : string) : includes_dot s = false -> split_dot_0 s = s.
Proof.
  induction s as [|a s IH]; simpl; [done|].
  case_bool_decide; [done|]. intros Hdot. by rewrite IH.
Qed.

(** The ideal name of an entity with more than one export name: the local
    name, cut at its first dot. *)
Lemma idealName_local (ast : AstEntity) (ce : CollectorEntity) (P Q : string)
    (more : list string) :
  exportNames ce = P :: Q :: more ->
  idealName ast ce = split_dot_0 (entity_localName ast).
Proof.
  intros Hex. unfold idealName, singleExportName. rewrite Hex.
  destruct (includes_dot (entity_localName ast)) eqn:Hdot; [done|].
  by rewrite split_dot_0_id.
Qed.

(** C3 (as the code has it): [_makeUniqueNames] ends once the fuel reaches
    [namingFuel]; after it has run, distinct [CollectorEntity] nodes have
    distinct emitted names; an entity whose only export name is not
    ["default"], contains no dot and is not a global name is emitted under
    that export name; and an entity exported under two aliases [P] and [Q],
    wherever it is in the array, with [X] its local name cut at its first
    dot: when [X] is one of [P], [Q] and is neither a global name nor
    ["default"] it is emitted as [X]; otherwise it is emitted under the first
    of the names [X], [X_2], [X_3], ... that is not ["default"], not a global
    name, not an export name of any entity and not the name emitted for an
    entity before it in the array.  For [export { X as P, X as Q }] alone the
    analysis yields one node, with export names [P] and [Q], emitted as
    [X]. *)
Theorem emitted_names_unique (p : Program) (fuel : nat) (c : Collector) :
  graph_wf c ->
  ends_within (namingFuel p c) fuel (_makeUniqueNames p fuel c) (fun c' =>
    (forall ce1 ce2, ce1 ∈ entities c' -> ce2 ∈ entities c' ->
       astEntity ce1 <> astEntity ce2 ->
       is_Some (nameForEmit ce1) /\ nameForEmit ce1 <> nameForEmit ce2) /\
    (forall ce n, ce ∈ entities c' -> exportNames ce = [n] ->
       n <> "default" -> includes_dot n = false -> hasGlobalName p n = false ->
       nameForEmit ce = Some n) /\
    (forall before e after ast ce' P Q,
       _entities c = before ++ e :: after -> astEntities p !! e = Some ast ->
       _entitiesByAstEntity c' !! e = Some ce' -> exportNames ce' = [P; Q] ->
       let X := split_dot_0 (entity_localName ast) in
       (acceptsIdeal p ce' X = true -> nameForEmit ce' = Some X) /\
       (acceptsIdeal p ce' X = false ->
        exists j, (1 <= j)%N /\ nameForEmit ce' = Some (nthCandidate X j) /\
          ~ taken p c c' before (nthCandidate X j) /\
          forall i, (1 <= i < j)%N -> taken p c c' before (nthCandidate X i)))) /\
  (length <$> (entities <$> (match analyze progAliases 10 newCollector with
                             | Done c => Some c | _ => None end))) = Some 1 /\
  (exportNames <$> analyzed progAliases 1%positive) = Some ["P"; "Q"] /\
  (nameForEmit <$> analyzed progAliases 1%positive) = Some (Some "X").
Proof.
  intros Hwf. split; [|by vm_compute].
  destruct (_makeUniqueNames p fuel c) as [c'|err|] eqn:Hrun; simpl; auto.
  2:{ destruct (decide (fuel < namingFuel p c)) as [|Hge]; [done|exfalso].
      pose proof (makeUniqueNames_ends p c (fuel - namingFuel p c)) as Hends.
      replace (namingFuel p c + (fuel - namingFuel p c)) with fuel in Hends by lia.
      by rewrite Hrun in Hends. }
  pose proof Hrun as Hrun'.
  apply makeUniqueNames_spec in Hrun as (Hr & Hnd & (used' & Hnamed) & Hdist & Hhead); auto.
  pose proof Hwf as (_ & Hdom & _).
  pose proof (renamed_graph_wf _ _ Hr Hwf) as (_ & Hdom' & Hid').
  assert (Hnamed' : forall e ce', _entitiesByAstEntity c' !! e = Some ce' ->
            named p c c' (list_to_set (allExportNames c)) used' e).
  { intros e ce' Hce'. apply Hnamed.
    destruct (renamed_exports _ _ _ _ Hr Hce') as (ce & Hce & _). red. eauto. }
  split_and!.
  - intros ce1 ce2 H1 H2 Hne.
    apply elem_of_entities in H1 as (e1 & _ & H1). apply elem_of_entities in H2 as (e2 & _ & H2).
    rewrite (Hid' _ _ H1), (Hid' _ _ H2) in Hne. split; [|by eapply (Hdist e1 e2)].
    destruct (Hnamed' _ _ H1) as (ce & ast & n & _ & _ & Hce1 & _).
    rewrite Hce1 in H1. inversion H1; subst. simpl. eauto.
  - intros ce' n Hin Hex Hd Hdot Hg.
    apply elem_of_entities in Hin as (e & _ & Hce').
    destruct (Hnamed' _ _ Hce') as (ce & ast & m & Hce & Hast & Hce1 & _ & Ho).
    rewrite Hce1 in Hce'. inversion Hce'; subst. simpl in *.
    rewrite (idealName_single ast ce n) in Ho by done.
    destruct Ho as [(_ & ->)|(Hacc & _)]; [done|].
    unfold acceptsIdeal in Hacc. rewrite Hex, Hg in Hacc.
    rewrite bool_decide_eq_true_2 in Hacc by (by left).
    rewrite bool_decide_eq_true_2 in Hacc by done. done.
  - intros before e after ast ce' P Q He Hast Hce' Hex.
    set (X := split_dot_0 (entity_localName ast)).
    destruct (renamed_exports _ _ _ _ Hr Hce') as (ce & Hce & Hex' & _).
    rewrite Hex in Hex'. symmetry in Hex'.
    destruct (makeUniqueNames_at _ _ _ _ _ _ _ _ _ Hwf Hrun' He Hce Hast)
      as (n & Hn & Hcase).
    rewrite Hn in Hce'. inversion Hce'; subst ce'. clear Hce'.
    rewrite (idealName_local ast ce P Q [] Hex') in Hcase. fold X in Hcase.
    assert (Hsame : acceptsIdeal p (setNameForEmit n ce) X = acceptsIdeal p ce X) by done.
    rewrite Hsame. simpl.
    destruct Hcase as [(Hacc & ->)|(Hacc & j & Hj & -> & Hfree & Hall)].
    + split; [done|]. intros Hf. congruence.
    + split; [intros Ht; congruence|]. intros _. exists j. by split_and!.
Qed.

Example emitted_names_unique_witness :
  let c := foldl (fun c (ex : string * EntityId) =>
                    _createCollectorEntity (snd ex) (Some (fst ex)) false c)
             newCollector (entryExports progAliasClash) in
  graph_wf c /\
  exists c', _makeUniqueNames progAliasClash 10 c = Done c' /\
             (nameForEmit <$> (_entitiesByAstEntity c' !! 2%positive)) = Some (Some "X") /\
             (nameForEmit <$> (_entitiesByAstEntity c' !! 1%positive)) = Some (Some "X_2") /\
             exists j, (1 <= j)%N /\ nthCandidate "X" j = "X_2" /\
               forall i, (1 <= i < j)%N -> taken progAliasClash c c' [] (nthCandidate "X" i).
Proof.
  intros c.
  assert (Hwf : graph_wf c).
  { unfold c. simpl. auto using graph_wf_create, graph_wf_new. }
  split; [exact Hwf|].
  pose proof (proj1 (emitted_names_unique progAliasClash 10 c Hwf)) as H.
  destruct (_makeUniqueNames progAliasClash 10 c) as [c'| |] eqn:Hrun;
    [|vm_compute in Hrun; discriminate..].
  exists c'. split; [reflexivity|]. simpl in H. destruct H as (_ & _ & H).
  assert (Hc' : _entitiesByAstEntity c' !! 1%positive
                = Some (mkCollectorEntity 1%positive ["A"; "B"] [] false (Some "X_2")) /\
                _entitiesByAstEntity c' !! 2%positive
                = Some (mkCollectorEntity 2%positive ["X"] [] false (Some "X"))).
  { vm_compute in Hrun. inversion Hrun; subst c'. by vm_compute. }
  destruct Hc' as [Hc1 Hc2]. rewrite Hc1, Hc2. simpl.
  split; [done|]. split; [done|].
  destruct (H [] 1%positive [2%positive]
              (EntSymbol (mkAstSymbol "X" false None 1%positive
                 [mkAstDeclaration (1%positive, 0) ClassDeclaration 0 (Some publicTag) [] None []]))
              _ "A" "B" eq_refl eq_refl Hc1 eq_refl) as [_ Hloop].
  destruct Hloop as (j & Hj & Hname & _ & Hall); [by vm_compute|].
  exists j. split; [done|]. split; [|exact Hall].
  simpl in Hname. by inversion Hname.
Defined.

(** The class of [export default class Foo {}] has ["default"] for its only
    export name and is emitted as [Foo]; and in "Example 3" of the code the
    class [X], exported as [A] and [B], is emitted as [X_2], because [X] is
    the export name of [Y]. *)
Lemma sole_export_name_counterexample :
  ~ sole_export_name_as_stated /\ ~ two_aliases_as_stated.
Proof.
  split.
  - intros H.
    set (c := _createCollectorEntity 1%positive (Some "default") false newCollector).
    destruct (_makeUniqueNames progDefault 10 c) as [c'| |] eqn:Hrun;
      [|vm_compute in Hrun; discriminate..].
    assert (Hwf : graph_wf c) by (unfold c; auto using graph_wf_create, graph_wf_new).
    specialize (H progDefault 10 c c'
      (mkCollectorEntity 1%positive ["default"] [] false (Some "Foo")) "default" Hwf Hrun).
    assert (Hn : Some "Foo" = Some "default" -> False) by discriminate.
    apply Hn, H; [|done|done].
    vm_compute in Hrun. inversion Hrun; subst. vm_compute. by left.
  - intros H.
    destruct (analyze progAliasClash 10 newCollector) as [c| |] eqn:Hrun;
      [|vm_compute in Hrun; discriminate..].
    specialize (H progAliasClash 10 c 1%positive
      (mkAstSymbol "X" false None 1%positive
         [mkAstDeclaration (1%positive, 0) ClassDeclaration 0 (Some publicTag) [] None []])
      (mkCollectorEntity 1%positive ["A"; "B"] [] false (Some "X_2")) "A" "B" Hrun).
    assert (Hn : Some "X_2" = Some "X" -> False) by discriminate.
    apply Hn, H; [by vm_compute| |done].
    vm_compute in Hrun. inversion Hrun; subst. by vm_compute.
Qed.

(** ** Metadata of one declaration *)

Lemma declaredTagOf_spec (tags : ModifierTagSet) :
  declaredTagOf tags = (firstInPrecedence tags, bool_decide (2 <= visibilityModifiers tags)).
Proof. by destruct tags as [[] [] [] [] ? ? ? ? ?]. Qed.

Lemma messages_grow_refl (c : Collector) : messages_grow c c.
Proof. exists []. by rewrite app_nil_r. Qed.

Lemma messages_grow_trans (c1 c2 c3 : Collector) :
  messages_grow c1 c2 -> messages_grow c2 c3 -> messages_grow c1 c3.
Proof. intros [m1 H1] [m2 H2]. exists (m1 ++ m2). by rewrite H2, H1, app_assoc. Qed.

Lemma messages_grow_elem (c c' : Collector) (m : ExtractorMessage) :
  messages_grow c c' -> m ∈ messages c -> m ∈ messages c'.
Proof. intros [more ->] H. apply elem_of_app. by left. Qed.

Lemma messages_grow_add (id : ExtractorMessageId) (t : MessageTarget) (c : Collector) :
  messages_grow c (addAnalyzerIssue id t c).
Proof. by exists [(id, t)]. Qed.

(** The declared tag and the diagnostics of the [if (parserContext)] block. *)
Lemma readModifierTags_spec (sym : AstSymbol) (d : AstDeclaration)
    (tags : option ModifierTagSet) (c : Collector) :
  exists pre c1 more,
    readModifierTags sym d tags c
      = (from_option firstInPrecedence ReleaseTag.None tags, pre, c1) /\
    messages c1 = messages c ++
      (if from_option (fun t => bool_decide (2 <= visibilityModifiers t)) false tags
          && negb (isExternal sym)
       then [(ExtraReleaseTag, OnDeclaration (declId d))] else []) ++ more /\
    (forall m, m ∈ more -> fst m = PreapprovedBadReleaseTag \/ fst m = PreapprovedUnsupportedType) /\
    apiItemMetadata c1 = apiItemMetadata c /\ metadataObjects c1 = metadataObjects c /\
    declarationMetadata c1 = declarationMetadata c /\ same_graph c c1.
Proof.
  unfold readModifierTags. destruct tags as [tags|]; simpl.
  2:{ eexists _, _, []. split; [reflexivity|]. simpl. rewrite app_nil_r.
      split_and!; auto; [|by split]. intros m Hm. by apply elem_of_nil in Hm. }
  rewrite declaredTagOf_spec.
  set (extra := bool_decide (2 <= visibilityModifiers tags) && negb (isExternal sym)).
  set (c0 := if extra then addAnalyzerIssue ExtraReleaseTag (OnDeclaration (declId d)) c
             else c).
  assert (Hc0 : messages c0 = messages c ++
                  (if extra then [(ExtraReleaseTag, OnDeclaration (declId d))] else []) /\
                apiItemMetadata c0 = apiItemMetadata c /\
                metadataObjects c0 = metadataObjects c /\
                declarationMetadata c0 = declarationMetadata c /\ same_graph c c0).
  { unfold c0. destruct extra; simpl; rewrite ?app_nil_r; split_and!; auto; by split. }
  destruct Hc0 as (Hm0 & Ha0 & Ho0 & Hd0 & Hg0).
  assert (Hplain : exists pre c1 more,
    (firstInPrecedence tags, false, c0)
      = (firstInPrecedence tags, pre, c1) /\
    messages c1 = messages c ++
      (if extra then [(ExtraReleaseTag, OnDeclaration (declId d))] else []) ++ more /\
    (forall m, m ∈ more -> fst m = PreapprovedBadReleaseTag \/ fst m = PreapprovedUnsupportedType) /\
    apiItemMetadata c1 = apiItemMetadata c /\ metadataObjects c1 = metadataObjects c /\
    declarationMetadata c1 = declarationMetadata c /\ same_graph c c1).
  { exists false, c0, []. rewrite app_nil_r. split_and!; auto.
    intros m Hm. by apply elem_of_nil in Hm. }
  assert (Hmsg : forall id, id = PreapprovedBadReleaseTag \/ id = PreapprovedUnsupportedType ->
    exists pre c1 more,
    (firstInPrecedence tags, false, addAnalyzerIssue id (OnDeclaration (declId d)) c0)
      = (firstInPrecedence tags, pre, c1) /\
    messages c1 = messages c ++
      (if extra then [(ExtraReleaseTag, OnDeclaration (declId d))] else []) ++ more /\
    (forall m, m ∈ more -> fst m = PreapprovedBadReleaseTag \/ fst m = PreapprovedUnsupportedType) /\
    apiItemMetadata c1 = apiItemMetadata c /\ metadataObjects c1 = metadataObjects c /\
    declarationMetadata c1 = declarationMetadata c /\ same_graph c c1).
  { intros id Hid. eexists false, _, [(id, OnDeclaration (declId d))].
    split; [reflexivity|]. simpl. rewrite Hm0, <- app_assoc.
    split_and!; auto; try (eapply same_graph_trans; [exact Hg0|]; by split).
    intros m Hm. apply list_elem_of_singleton in Hm. by subst. }
  assert (Hpre : exists pre c1 more,
    (firstInPrecedence tags, true, c0)
      = (firstInPrecedence tags, pre, c1) /\
    messages c1 = messages c ++
      (if extra then [(ExtraReleaseTag, OnDeclaration (declId d))] else []) ++ more /\
    (forall m, m ∈ more -> fst m = PreapprovedBadReleaseTag \/ fst m = PreapprovedUnsupportedType) /\
    apiItemMetadata c1 = apiItemMetadata c /\ metadataObjects c1 = metadataObjects c /\
    declarationMetadata c1 = declarationMetadata c /\ same_graph c c1).
  { exists true, c0, []. rewrite app_nil_r. split_and!; auto.
    intros m Hm. by apply elem_of_nil in Hm. }
  fold extra. fold c0.
  destruct (hasPreapproved tags); [|exact Hplain].
  destruct (declaration_kind d); try case_bool_decide; auto.
Qed.

Lemma inheritReleaseTag_spec (p : Program) (fuel : nat) (d : AstDeclaration)
    (declared base : ReleaseTag.t) (same : bool) (c1 c2 : Collector) :
  inheritReleaseTag (_fetchSymbolMetadata p fuel) d declared c1 = Done (base, same, c2) ->
  exists t, parentTag p fuel d c1 c2 t /\ base = inheritedTag declared t.
Proof.
  unfold inheritReleaseTag, parentTag, inheritedTag. intros H.
  destruct (parent d) as [pd|].
  - apply bind_Done in H as ([a c3] & Hf & H).
    destruct a as [a|]; simpl in H; [|done].
    destruct (metadataObjects c3 !! a) as [pm|] eqn:Hpm; [|done].
    inversion H; subst. exists (Some (effectiveReleaseTag pm)). split; [|done].
    exists a, pm. split_and!; auto.
  - inversion H; subst. exists None. split; [done|].
    simpl. by case_bool_decide.
Qed.

Lemma healReleaseTag_spec (p : Program) (sym : AstSymbol) (d : AstDeclaration)
    (base eff : ReleaseTag.t) (c2 c3 : Collector) :
  healReleaseTag p sym d base c2 = Done (eff, c3) ->
  eff = healedTag (isExternal sym) (rootConsumable c2 sym) base /\
  apiItemMetadata c3 = apiItemMetadata c2 /\ metadataObjects c3 = metadataObjects c2 /\
  declarationMetadata c3 = declarationMetadata c2 /\
  exists root,
    (base = ReleaseTag.None /\ isExternal sym = false /\ rootConsumable c2 sym = true ->
     getSymbol p (rootAstSymbol sym) = Done root) /\
    messages c3 = messages c2 ++
      (if bool_decide (base = ReleaseTag.None) && negb (isExternal sym)
          && rootConsumable c2 sym && bool_decide (localName root <> "_default")
       then [(MissingReleaseTag, OnSymbol (decl_astSymbol (declId d)))] else []).
Proof.
  unfold healReleaseTag, healedTag, rootConsumable.
  case_bool_decide as Hbase; simpl.
  2:{ intros H; inversion H; subst. split_and!; auto. exists sym. rewrite app_nil_r.
      split; [intros (? & _); done|done]. }
  destruct (isExternal sym); simpl.
  { intros H; inversion H; subst. split_and!; auto. exists sym. rewrite app_nil_r.
    split; [intros (_ & ? & _); done|done]. }
  destruct (_entitiesByAstEntity c2 !! rootAstSymbol sym) as [entity|]; simpl.
  2:{ intros H; inversion H; subst. split_and!; auto. exists sym. rewrite app_nil_r.
      split; [intros (_ & _ & ?); done|done]. }
  destruct (consumable entity); simpl.
  2:{ intros H; inversion H; subst. split_and!; auto. exists sym. rewrite app_nil_r.
      split; [intros (_ & _ & ?); done|done]. }
  intros H. apply bind_Done in H as (root & Hroot & H). inversion H; subst.
  split_and!; auto; try (by case_bool_decide).
  exists root. split; [done|]. case_bool_decide; simpl; [done|by rewrite app_nil_r].
Qed.

Lemma foldl_set_lookup (a : nat) (l : list DeclId) (c : Collector) (d : DeclId) :
  apiItemMetadata c !! d = Some a ->
  apiItemMetadata (foldl (fun c x => setApiItemMetadata x a c) c l) !! d = Some a.
Proof.
  revert c. induction l as [|x l IH]; intros c H; simpl; [done|].
  apply IH. simpl. destruct (decide (x = d)) as [->|Hne].
  - by rewrite lookup_insert_eq.
  - by rewrite lookup_insert_ne.
Qed.

Lemma foldl_set_other (a : nat) (l : list DeclId) (c : Collector) :
  let c' := foldl (fun c x => setApiItemMetadata x a c) c l in
  messages c' = messages c /\ metadataObjects c' = metadataObjects c /\
  declarationMetadata c' = declarationMetadata c /\
  (forall x, x ∈ l -> apiItemMetadata c' !! x = Some a) /\
  (forall x, x ∉ l -> apiItemMetadata c' !! x = apiItemMetadata c !! x).
Proof.
  revert c. induction l as [|x l IH]; intros c; simpl.
  { split_and!; auto. intros y Hy. by apply elem_of_nil in Hy. }
  destruct (IH (setApiItemMetadata x a c)) as (Hm & Ho & Hd & Hin & Hout).
  split_and!; auto.
  - intros y Hy. apply elem_of_cons in Hy as [->|Hy]; auto.
    apply foldl_set_lookup. simpl. by rewrite lookup_insert_eq.
  - intros y Hy. apply not_elem_of_cons in Hy as [Hne Hy].
    rewrite Hout by done. simpl. by rewrite lookup_insert_ne.
Qed.

Lemma attach_spec (d : AstDeclaration) (dm : InternalDeclarationMetadata)
    (o : ApiItemMetadata) (c : Collector) :
  let c' := attachApiItemMetadata d dm o c in
  let a := length (metadataObjects c) in
  apiItemMetadata c' !! declId d = Some a /\
  metadataObjects c' = metadataObjects c ++ [o] /\
  messages c' = messages c /\
  declarationMetadata c' = declarationMetadata c /\
  (forall x, x ∈ ancillaryDeclarations dm -> apiItemMetadata c' !! x = Some a) /\
  (forall x, x ∉ ancillaryDeclarations dm -> x <> declId d ->
             apiItemMetadata c' !! x = apiItemMetadata c !! x).
Proof.
  unfold attachApiItemMetadata. simpl.
  match goal with |- context [foldl _ ?c0 _] => set (c1 := c0) end.
  destruct (foldl_set_other (length (metadataObjects c)) (ancillaryDeclarations dm) c1)
    as (Hm & Ho & Hd & Hin & Hout).
  split_and!; auto.
  - apply foldl_set_lookup. unfold c1. simpl. by rewrite lookup_insert_eq.
  - intros x Hx Hne. rewrite Hout by done. unfold c1. simpl. by rewrite lookup_insert_ne.
Qed.

Lemma metadataOf_attach (d : AstDeclaration) (dm : InternalDeclarationMetadata)
    (o : ApiItemMetadata) (c : Collector) :
  metadataOf (attachApiItemMetadata d dm o c) (declId d) = Some o.
Proof.
  destruct (attach_spec d dm o c) as (Ha & Ho & _).
  unfold metadataOf, readApiItemMetadata. rewrite Ha. simpl. rewrite Ho.
  rewrite lookup_app_r by lia. by rewrite Nat.sub_diag.
Qed.

(** [_calculateApiItemMetadata] on a declaration that is not ancillary, block
    by block. *)
Lemma calculate_blocks (p : Program) (fuel : nat) (d : AstDeclaration) (c c' : Collector) :
  _calculateApiItemMetadata p fuel d c = Done c' ->
  exists sym dm,
    getSymbol p (decl_astSymbol (declId d)) = Done sym /\
    declarationMetadata c !! declId d = Some dm /\
    (isAncillary dm = true ->
       apiItemMetadata c' = apiItemMetadata c /\ metadataObjects c' = metadataObjects c) /\
    (isAncillary dm = false ->
       exists declared pre c1 base same c2 eff c3,
         readModifierTags sym d (tsdocParserContext dm) c = (declared, pre, c1) /\
         inheritReleaseTag (_fetchSymbolMetadata p fuel) d declared c1 = Done (base, same, c2) /\
         healReleaseTag p sym d base c2 = Done (eff, c3) /\
         declaredReleaseTag <$> metadataOf c' (declId d) = Some declared /\
         effectiveReleaseTag <$> metadataOf c' (declId d) = Some eff /\
         messages c' = messages c3).
Proof.
  unfold _calculateApiItemMetadata, _calculateApiItemMetadata_with. intros H.
  apply bind_Done in H as (sym & Hsym & H).
  destruct (declarationMetadata c !! declId d) as [dm|]; [|done].
  exists sym, dm. split_and!; auto.
  - intros Hanc. rewrite Hanc in H. inversion H; subst. by destruct (_ && _).
  - intros Hanc. rewrite Hanc in H.
    destruct (readModifierTags sym d (tsdocParserContext dm) c) as [[declared pre] c1] eqn:H1.
    apply bind_Done in H as ([[base same] c2] & H2 & H).
    apply bind_Done in H as ([eff c3] & H3 & H).
    inversion H; subst.
    exists declared, pre, c1, base, same, c2, eff, c3.
    rewrite metadataOf_attach. simpl. split_and!; auto.
    by destruct (attach_spec d (liveDeclarationMetadata c3 d dm)
      (mkApiItemMetadata declared eff (from_option isEventProperty false (tsdocParserContext dm))
         (from_option isOverride false (tsdocParserContext dm))
         (from_option isSealed false (tsdocParserContext dm))
         (from_option isVirtual false (tsdocParserContext dm)) pre same
         (tsdocParserContext dm)) c3) as (_ & _ & ? & _).
Qed.

(** ** Diagnostics are only ever added *)

Lemma forEach_preorder {A S : Type} (R : S -> S -> Prop) (body : S -> A -> Outcome S)
    (l : list A) :
  (forall s, R s s) -> (forall s1 s2 s3, R s1 s2 -> R s2 s3 -> R s1 s3) ->
  (forall s x s', x ∈ l -> body s x = Done s' -> R s s') ->
  forall s s', forEach body l s = Done s' -> R s s'.
Proof.
  intros Hrefl Htrans Hb s s' H.
  eapply (forEach_invariant _ (R s)); [|apply Hrefl|exact H].
  intros s1 x s2 Hx Hs Hbody. eapply Htrans; eauto.
Qed.

Lemma messages_grow_addAncillary (m a : AstDeclaration) (c c' : Collector) :
  _addAncillaryDeclaration m a c = Done c' -> messages_grow c c'.
Proof.
  unfold _addAncillaryDeclaration. intros H.
  outcome_inv; exists []; simpl; by rewrite app_nil_r.
Qed.

Lemma messages_grow_declarationMetadata (p : Program) (s : AstSymbol) (c c' : Collector) :
  _calculateDeclarationMetadataForDeclarations p s c = Done c' -> messages_grow c c'.
Proof.
  unfold _calculateDeclarationMetadataForDeclarations. intros H.
  apply bind_Done in H as (c1 & H1 & H2).
  apply (messages_grow_trans _ c1).
  - revert H1. apply forEach_preorder; [apply messages_grow_refl|apply messages_grow_trans|].
    intros. outcome_inv. exists []. simpl. by rewrite app_nil_r.
  - revert H2. apply forEach_preorder; [apply messages_grow_refl|apply messages_grow_trans|].
    intros c2 d c3 _ H.
    case_bool_decide; [|by inversion H; subst; apply messages_grow_refl].
    apply bind_Done in H as (owner & _ & H).
    apply bind_Done in H as ([c4 found] & H & H').
    assert (messages_grow c2 c4).
    { eapply (forEach_invariant _ (fun r => messages_grow c2 (fst r))) in H;
        [exact H| |apply messages_grow_refl].
      intros r g r' _ Hr Hb. case_bool_decide; [|by inversion Hb; subst].
      apply bind_Done in Hb as (c5 & Hb & Hb'). inversion Hb'; subst. simpl.
      eapply messages_grow_trans; eauto using messages_grow_addAncillary. }
    inversion H'; subst. destruct found; auto.
    eapply messages_grow_trans; eauto using messages_grow_add.
Qed.

Section MetadataMessages.
Variables (p : Program) (fetchSym : EntityId -> Collector -> Outcome Collector).
Hypothesis fetchSym_grow : forall e c c', fetchSym e c = Done c' -> messages_grow c c'.

Lemma messages_grow_fetchApiItemMetadata_with d c a c' :
  fetchApiItemMetadata_with fetchSym d c = Done (a, c') -> messages_grow c c'.
Proof.
  unfold fetchApiItemMetadata_with. intros H.
  apply bind_Done in H as (c1 & H1 & H2). inversion H2; subst.
  case_bool_decide; [eauto|]. inversion H1; subst. apply messages_grow_refl.
Qed.

Lemma messages_grow_inheritReleaseTag d r c r' b c' :
  inheritReleaseTag fetchSym d r c = Done (r', b, c') -> messages_grow c c'.
Proof.
  unfold inheritReleaseTag. intros H.
  destruct (parent d) as [pd|]; [|by inversion H; subst; apply messages_grow_refl].
  apply bind_Done in H as ([a c3] & Hf & H).
  apply messages_grow_fetchApiItemMetadata_with in Hf.
  destruct (a ≫= _); [|done]. by inversion H; subst.
Qed.

Lemma messages_grow_calculateApiItemMetadata_with d c c' :
  _calculateApiItemMetadata_with p fetchSym d c = Done c' -> messages_grow c c'.
Proof.
  unfold _calculateApiItemMetadata_with. intros H.
  apply bind_Done in H as (sym & _ & H).
  destruct (declarationMetadata c !! declId d) as [dm|]; [|done].
  destruct (isAncillary dm).
  { inversion H; subst. destruct (_ && _); auto using messages_grow_refl, messages_grow_add. }
  destruct (readModifierTags_spec sym d (tsdocParserContext dm) c)
    as (pre & c1 & more & Hread & Hm1 & _).
  rewrite Hread in H.
  apply bind_Done in H as ([[eff same] c2] & H2 & H).
  apply messages_grow_inheritReleaseTag in H2.
  apply bind_Done in H as ([eff' c3] & H3 & H).
  apply healReleaseTag_spec in H3 as (_ & _ & _ & _ & root & _ & Hm3).
  inversion H; subst.
  eapply messages_grow_trans; [eexists; exact Hm1|].
  eapply messages_grow_trans; [exact H2|].
  eapply messages_grow_trans; [eexists; exact Hm3|].
  match goal with |- messages_grow _ (attachApiItemMetadata ?d ?dm ?o ?c) =>
    destruct (attach_spec d dm o c) as (_ & _ & Hm & _) end.
  exists []. by rewrite app_nil_r.
Qed.

Lemma messages_grow_solveSymbol e s c c' :
  solveSymbol p fetchSym e s c = Done c' -> messages_grow c c'.
Proof.
  unfold solveSymbol. intros H.
  apply bind_Done in H as (c1 & H1 & H).
  apply bind_Done in H as (c2 & H2 & H).
  apply bind_Done in H as (r & _ & H). inversion H; subst.
  apply messages_grow_declarationMetadata in H1.
  eapply messages_grow_trans; [exact H1|].
  eapply (messages_grow_trans _ c2); [|exists []; simpl; by rewrite app_nil_r].
  revert H2. apply forEach_preorder; [apply messages_grow_refl|apply messages_grow_trans|].
  intros ? ? ? _. apply messages_grow_calculateApiItemMetadata_with.
Qed.
End MetadataMessages.

Lemma messages_grow_fetchSymbolMetadata' (p : Program) (fuel : nat) :
  forall e c c', _fetchSymbolMetadata p fuel e c = Done c' -> messages_grow c c'.
Proof.
  induction fuel as [|fuel IH]; intros e c c' H; simpl in H; [done|].
  case_bool_decide; [by inversion H; subst; apply messages_grow_refl|].
  apply bind_Done in H as (s & _ & H).
  apply bind_Done in H as (c1 & H1 & H).
  eapply (messages_grow_trans _ c1).
  - destruct (parentAstSymbol s); [case_bool_decide|]; eauto;
      inversion H1; subst; apply messages_grow_refl.
  - eapply messages_grow_solveSymbol; eauto.
Qed.

Lemma rootConsumable_same_graph (c c' : Collector) (sym : AstSymbol) :
  same_graph c c' -> rootConsumable c' sym = rootConsumable c sym.
Proof. intros [_ Hm]. unfold rootConsumable. by rewrite Hm. Qed.

Lemma parentTag_frame (p : Program) (fuel : nat) (d : AstDeclaration)
    (c1 c2 : Collector) (t : option ReleaseTag.t) :
  parentTag p fuel d c1 c2 t -> same_graph c1 c2 /\ messages_grow c1 c2.
Proof.
  unfold parentTag. destruct (parent d) as [pd|].
  - intros (a & pm & Hf & _). split.
    + eapply same_graph_fetchApiItemMetadata_with; [|exact Hf].
      apply same_graph_fetchSymbolMetadata'.
    + eapply messages_grow_fetchApiItemMetadata_with; [|exact Hf].
      apply messages_grow_fetchSymbolMetadata'.
  - intros [_ ->]. split; [apply same_graph_refl|apply messages_grow_refl].
Qed.

(** Everything [_calculateApiItemMetadata] decides for a declaration that is
    not ancillary. *)
Lemma calculate_summary (p : Program) (fuel : nat) (d : AstDeclaration)
    (c c' : Collector) (dm : InternalDeclarationMetadata) :
  _calculateApiItemMetadata p fuel d c = Done c' ->
  declarationMetadata c !! declId d = Some dm -> isAncillary dm = false ->
  exists sym c1 c2 t root more,
    getSymbol p (decl_astSymbol (declId d)) = Done sym /\
    only_messages c c1 /\
    messages c1 = messages c ++ extraReleaseTagMessages sym d (tsdocParserContext dm) ++ more /\
    (forall m, m ∈ more -> fst m = PreapprovedBadReleaseTag \/ fst m = PreapprovedUnsupportedType) /\
    parentTag p fuel d c1 c2 t /\
    let declared := from_option firstInPrecedence ReleaseTag.None (tsdocParserContext dm) in
    let base := inheritedTag declared t in
    declaredReleaseTag <$> metadataOf c' (declId d) = Some declared /\
    effectiveReleaseTag <$> metadataOf c' (declId d)
      = Some (healedTag (isExternal sym) (rootConsumable c sym) base) /\
    (base = ReleaseTag.None /\ isExternal sym = false /\ rootConsumable c sym = true ->
     getSymbol p (rootAstSymbol sym) = Done root) /\
    messages c' = messages c2 ++ missingReleaseTagMessages c sym root d base.
Proof.
  intros Hrun Hdm Hanc.
  apply calculate_blocks in Hrun as (sym & dm' & Hsym & Hdm' & _ & Hblocks).
  rewrite Hdm in Hdm'. inversion Hdm'; subst dm'.
  destruct (Hblocks Hanc) as (declared & pre & c1 & base & same & c2 & eff & c3
                              & H1 & H2 & H3 & Hdecl & Heff & Hmsg).
  destruct (readModifierTags_spec sym d (tsdocParserContext dm) c)
    as (pre' & c1' & more & Hread & Hm1 & Hmore & Ha1 & Ho1 & Hd1 & Hg1).
  rewrite Hread in H1. inversion H1; subst declared pre' c1'.
  apply inheritReleaseTag_spec in H2 as (t & Hparent & ->).
  apply healReleaseTag_spec in H3 as (-> & _ & _ & _ & root & Hroot & Hm3).
  destruct (parentTag_frame _ _ _ _ _ _ Hparent) as [Hg2 _].
  assert (Hrc : rootConsumable c2 sym = rootConsumable c sym).
  { rewrite (rootConsumable_same_graph c1 c2) by done.
    by apply rootConsumable_same_graph. }
  rewrite Hrc in *.
  assert (Hc1 : only_messages c c1).
  { unfold only_messages. split_and!; auto. eexists. exact Hm1. }
  exists sym, c1, c2, t, root, more. cbv zeta. split_and!; auto.
  rewrite Hmsg. exact Hm3.
Qed.

(** C4 (as the code has it): for a declaration that is not ancillary, the
    effective release tag that [_calculateApiItemMetadata] stores is the
    declared tag when there is one, otherwise the effective tag of the parent
    declaration, otherwise [None], except that a tag that is still [None] is
    replaced by [Public] when the symbol is external or its root entity is
    consumable.  A method without a tag in a class declared [Public] gets
    [Public]. *)
Theorem effective_tag_rule (p : Program) (fuel : nat) (d : AstDeclaration)
    (c c' : Collector) (dm : InternalDeclarationMetadata) :
  _calculateApiItemMetadata p fuel d c = Done c' ->
  declarationMetadata c !! declId d = Some dm -> isAncillary dm = false ->
  (exists sym c1 c2 t declared,
    getSymbol p (decl_astSymbol (declId d)) = Done sym /\
    only_messages c c1 /\ parentTag p fuel d c1 c2 t /\
    declaredReleaseTag <$> metadataOf c' (declId d) = Some declared /\
    effectiveReleaseTag <$> metadataOf c' (declId d)
      = Some (healedTag (isExternal sym) (rootConsumable c sym) (inheritedTag declared t))) /\
  (effectiveReleaseTag ∘ fst <$> fetched progMethod (2%positive, 0)) = Some ReleaseTag.Public.
Proof.
  intros Hrun Hdm Hanc. split; [|by vm_compute].
  destruct (calculate_summary p fuel d c c' dm Hrun Hdm Hanc)
    as (sym & c1 & c2 & t & root & more & Hsym & Hc1 & _ & _ & Hparent & Hdecl & Heff & _).
  exists sym, c1, c2, t. eauto 10.
Qed.

(** C6 (as the code has it): for a declaration that is not ancillary, the
    declared release tag is the first visibility modifier of its doc comment
    in the order Public, Beta, Alpha, Internal, and [None] when there is no
    comment or no such modifier; with more than one modifier the tag is
    therefore not [None], and the [ExtraReleaseTag] diagnostic is reported
    for the declaration exactly when the symbol is not external. *)
Theorem declared_tag_first_in_precedence (p : Program) (fuel : nat) (d : AstDeclaration)
    (c c' : Collector) (dm : InternalDeclarationMetadata) :
  _calculateApiItemMetadata p fuel d c = Done c' ->
  declarationMetadata c !! declId d = Some dm -> isAncillary dm = false ->
  exists sym,
    getSymbol p (decl_astSymbol (declId d)) = Done sym /\
    declaredReleaseTag <$> metadataOf c' (declId d)
      = Some (from_option firstInPrecedence ReleaseTag.None (tsdocParserContext dm)) /\
    (forall tags, tsdocParserContext dm = Some tags -> 2 <= visibilityModifiers tags ->
       firstInPrecedence tags <> ReleaseTag.None /\
       (isExternal sym = false ->
        (ExtraReleaseTag, OnDeclaration (declId d)) ∈ messages c')) /\
    (exists c1 more,
       only_messages c c1 /\
       messages c1 = messages c ++ extraReleaseTagMessages sym d (tsdocParserContext dm) ++ more /\
       (forall m, m ∈ more -> fst m <> ExtraReleaseTag) /\
       (isExternal sym = true -> extraReleaseTagMessages sym d (tsdocParserContext dm) = [])).
Proof.
  intros Hrun Hdm Hanc.
  destruct (calculate_summary p fuel d c c' dm Hrun Hdm Hanc)
    as (sym & c1 & c2 & t & root & more & Hsym & Hc1 & Hm1 & Hmore & Hparent
        & Hdecl & Heff & _ & Hm').
  exists sym. split_and!; auto.
  - intros tags Htags Hcount. split.
    + destruct tags as [[] [] [] [] ? ? ? ? ?]; simpl in *; try done;
        unfold visibilityModifiers in Hcount; simpl in Hcount; lia.
    + intros Hext.
      assert (Hin1 : (ExtraReleaseTag, OnDeclaration (declId d)) ∈ messages c1).
      { rewrite Hm1. unfold extraReleaseTagMessages. rewrite Htags, Hext. simpl.
        rewrite bool_decide_eq_true_2 by done. simpl.
        apply elem_of_app. right. by left. }
      destruct (parentTag_frame _ _ _ _ _ _ Hparent) as [_ Hg2].
      apply (messages_grow_elem c1 c2) in Hin1; auto.
      rewrite Hm'. apply elem_of_app. by left.
  - exists c1, more. split_and!; auto.
    + intros m Hm Hid. destruct (Hmore m Hm) as [H|H]; rewrite H in Hid; done.
    + intros Hext. unfold extraReleaseTagMessages. rewrite Hext. simpl.
      by rewrite andb_false_r.
Qed.

(** C7 (as the code has it): for a declaration that is not ancillary, of a
    symbol that is not external, whose release tag is still [None] after
    inheriting from the parent: when the root symbol has a consumable
    [CollectorEntity] the effective tag is set to [Public], and the
    [MissingReleaseTag] diagnostic is reported for the symbol unless the root
    symbol is named [_default]; when it has none, or one that is not
    consumable (a forgotten export), the tag stays [None] and nothing is
    reported. *)
Theorem missing_release_tag_healed (p : Program) (fuel : nat) (d : AstDeclaration)
    (c c' : Collector) (dm : InternalDeclarationMetadata) :
  _calculateApiItemMetadata p fuel d c = Done c' ->
  declarationMetadata c !! declId d = Some dm -> isAncillary dm = false ->
  exists sym c1 c2 t,
    getSymbol p (decl_astSymbol (declId d)) = Done sym /\
    only_messages c c1 /\ parentTag p fuel d c1 c2 t /\
    (inheritedTag (from_option firstInPrecedence ReleaseTag.None (tsdocParserContext dm)) t
       = ReleaseTag.None ->
     isExternal sym = false ->
     (rootConsumable c sym = true ->
        effectiveReleaseTag <$> metadataOf c' (declId d) = Some ReleaseTag.Public /\
        exists root, getSymbol p (rootAstSymbol sym) = Done root /\
          (localName root <> "_default" ->
           messages c' = messages c2
                           ++ [(MissingReleaseTag, OnSymbol (decl_astSymbol (declId d)))]) /\
          (localName root = "_default" -> messages c' = messages c2)) /\
     (rootConsumable c sym = false ->
        effectiveReleaseTag <$> metadataOf c' (declId d) = Some ReleaseTag.None /\
        messages c' = messages c2)).
Proof.
  intros Hrun Hdm Hanc.
  destruct (calculate_summary p fuel d c c' dm Hrun Hdm Hanc)
    as (sym & c1 & c2 & t & root & more & Hsym & Hc1 & Hm1 & Hmore & Hparent
        & Hdecl & Heff & Hroot & Hm').
  exists sym, c1, c2, t. split_and!; auto.
  intros Hbase Hext. rewrite Hbase in *. unfold missingReleaseTagMessages in Hm'.
  rewrite Hext in *. unfold healedTag in Heff. simpl in *. split.
  - intros Hcons. rewrite Hcons in *. split; [done|].
    exists root. split_and!; auto.
    + intros Hn. by rewrite Hm', bool_decide_eq_true_2.
    + intros Hn. rewrite Hm', bool_decide_eq_false_2, app_nil_r; [done|]. by intros ?.
  - intros Hcons. rewrite Hcons in *. split; [done|]. by rewrite Hm', app_nil_r.
Qed.

(** ** Induction on the tree of a declaration *)

Lemma AstDeclaration_tree_ind (P : AstDeclaration -> Prop) :
  (forall id k f t r pa ch, Forall P ch -> P (mkAstDeclaration id k f t r pa ch)) ->
  forall d, P d.
Proof.
  intros H. fix IH 1. intros [id k f t r pa ch]. apply H.
  induction ch as [|x ch IHch]; constructor; [apply IH|exact IHch].
Qed.

(** ** The rules at concrete declarations *)

Example effective_tag_rule_witness :
  _calculateApiItemMetadata progUndocumented 10 classUndocumented
    (readyFor progUndocumented classUndocumented)
    = Done (calculated progUndocumented classUndocumented) /\
  is_Some (effectiveReleaseTag <$>
             metadataOf (calculated progUndocumented classUndocumented) (declId classUndocumented)).
Proof.
  assert (Hrun : _calculateApiItemMetadata progUndocumented 10 classUndocumented
                   (readyFor progUndocumented classUndocumented)
                 = Done (calculated progUndocumented classUndocumented))
    by (vm_compute; reflexivity).
  split; [exact Hrun|].
  destruct (proj1 (effective_tag_rule progUndocumented 10 classUndocumented _ _
                     (newDeclarationMetadata classUndocumented) Hrun
                     ltac:(vm_compute; reflexivity) ltac:(reflexivity)))
    as (sym & c1 & c2 & t & declared & _ & _ & _ & _ & Heff).
  rewrite Heff. eauto.
Defined.

(** The exported class without a doc comment has no parent and no declared
    tag, and its effective tag is [Public]. *)
Lemma effective_tag_counterexample : ~ effective_tag_as_stated.
Proof.
  intros H.
  specialize (H progUndocumented classUndocumented).
  destruct (fetched progUndocumented (1%positive, 0)) as [[m msgs]|] eqn:Hf;
    [|vm_compute in Hf; discriminate].
  specialize (H m msgs).
  assert (Hm : effectiveReleaseTag m = ReleaseTag.Public /\
               declaredReleaseTag m = ReleaseTag.None).
  { vm_compute in Hf. inversion Hf; subst. by split. }
  destruct Hm as [He Hd]. rewrite He, Hd in H.
  assert (Hne : ReleaseTag.Public = inheritedTag ReleaseTag.None None -> False)
    by (vm_compute; discriminate).
  assert (Hdecl : declares progUndocumented classUndocumented).
  { eexists. split; [by vm_compute|]. by left. }
  exact (Hne (H Hdecl eq_refl Hf)).
Qed.

Example declared_tag_first_in_precedence_witness :
  _calculateApiItemMetadata progTwoTags 10 classTwoTags (readyFor progTwoTags classTwoTags)
    = Done (calculated progTwoTags classTwoTags) /\
  (declaredReleaseTag <$> metadataOf (calculated progTwoTags classTwoTags) (declId classTwoTags))
    = Some ReleaseTag.Public /\
  (ExtraReleaseTag, OnDeclaration (declId classTwoTags))
    ∈ messages (calculated progTwoTags classTwoTags).
Proof.
  assert (Hrun : _calculateApiItemMetadata progTwoTags 10 classTwoTags
                   (readyFor progTwoTags classTwoTags)
                 = Done (calculated progTwoTags classTwoTags))
    by (vm_compute; reflexivity).
  split; [exact Hrun|].
  destruct (declared_tag_first_in_precedence progTwoTags 10 classTwoTags _ _
              (newDeclarationMetadata classTwoTags) Hrun
              ltac:(vm_compute; reflexivity) ltac:(reflexivity))
    as (sym & Hsym & Hdecl & Hextra & _).
  split; [exact Hdecl|].
  destruct (Hextra twoTags eq_refl) as [_ Hmsg].
  - unfold visibilityModifiers. simpl. lia.
  - apply Hmsg. vm_compute in Hsym. by inversion Hsym.
Defined.

(** The class commented [@public @beta] is declared [Public]. *)
Lemma extra_tags_counterexample : ~ extra_tags_as_stated.
Proof.
  intros H.
  specialize (H progTwoTags classTwoTags twoTags).
  destruct (fetched progTwoTags (1%positive, 0)) as [[m msgs]|] eqn:Hf;
    [|vm_compute in Hf; discriminate].
  specialize (H m msgs).
  assert (Hm : declaredReleaseTag m = ReleaseTag.Public).
  { vm_compute in Hf. by inversion Hf; subst. }
  rewrite Hm in H.
  assert (Hd : declares progTwoTags classTwoTags).
  { eexists. split; [by vm_compute|]. by left. }
  assert (Hc : 2 <= visibilityModifiers twoTags) by (vm_compute; lia).
  discriminate (H Hd eq_refl Hc Hf).
Qed.

Example missing_release_tag_healed_witness :
  _calculateApiItemMetadata progUndocumented 10 classUndocumented
    (readyFor progUndocumented classUndocumented)
    = Done (calculated progUndocumented classUndocumented) /\
  (effectiveReleaseTag <$>
     metadataOf (calculated progUndocumented classUndocumented) (declId classUndocumented))
    = Some ReleaseTag.Public.
Proof.
  assert (Hrun : _calculateApiItemMetadata progUndocumented 10 classUndocumented
                   (readyFor progUndocumented classUndocumented)
                 = Done (calculated progUndocumented classUndocumented))
    by (vm_compute; reflexivity).
  split; [exact Hrun|].
  destruct (missing_release_tag_healed progUndocumented 10 classUndocumented _ _
              (newDeclarationMetadata classUndocumented) Hrun
              ltac:(vm_compute; reflexivity) ltac:(reflexivity))
    as (sym & c1 & c2 & t & Hsym & _ & Hparent & Hheal).
  vm_compute in Hsym. inversion Hsym; subst sym. clear Hsym.
  destruct Hparent as [-> _].
  destruct Hheal as [Hcons _]; [reflexivity|reflexivity|].
  destruct Hcons as [Heff _]; [by vm_compute|exact Heff].
Defined.

(** The class [Unexported] is in the graph, is not external and has no
    release tag; being a forgotten export, it keeps the tag [None] and
    nothing is reported. *)
Lemma missing_tag_counterexample : ~ missing_tag_as_stated.
Proof.
  intros H.
  destruct (analyze progForgotten 10 newCollector) as [c| |] eqn:Hrun;
    [|vm_compute in Hrun; discriminate..].
  specialize (H progForgotten c
    (mkAstSymbol "Unexported" false None 2%positive [classUnexported]) classUnexported).
  destruct (fetched progForgotten (2%positive, 0)) as [[m msgs]|] eqn:Hf;
    [|vm_compute in Hf; discriminate].
  assert (Hm : effectiveReleaseTag m = ReleaseTag.None).
  { vm_compute in Hf. by inversion Hf; subst. }
  assert (Hi : installed c (decl_astSymbol (declId classUnexported))).
  { vm_compute in Hrun. inversion Hrun; subst. vm_compute. eauto. }
  destruct (H m msgs Hrun Hi eq_refl eq_refl eq_refl eq_refl eq_refl Hf) as [He _].
  rewrite Hm in He. discriminate He.
Qed.

(** ** Declaration metadata objects are only ever pushed to *)

Lemma dm_grow_refl (c : Collector) : dm_grow c c.
Proof. intros d m H. exists m. split_and!; auto. Qed.

Lemma dm_grow_trans (c1 c2 c3 : Collector) : dm_grow c1 c2 -> dm_grow c2 c3 -> dm_grow c1 c3.
Proof.
  intros H12 H23 d m H. destruct (H12 d m H) as (m2 & H2 & Ha & Ht & Hp).
  destruct (H23 d m2 H2) as (m3 & H3 & Ha' & Ht' & Hp').
  exists m3. split_and!; auto; try congruence. by etransitivity.
Qed.

Lemma dm_grow_same (c c' : Collector) :
  declarationMetadata c' = declarationMetadata c -> dm_grow c c'.
Proof. intros Heq d m H. exists m. rewrite Heq. split_and!; auto. Qed.

Lemma dm_grow_except_refl (D : list DeclId) (c : Collector) : dm_grow_except D c c.
Proof. intros d m _ H. exists m. split_and!; auto. Qed.

Lemma dm_grow_except_trans (D : list DeclId) (c1 c2 c3 : Collector) :
  dm_grow_except D c1 c2 -> dm_grow_except D c2 c3 -> dm_grow_except D c1 c3.
Proof.
  intros H12 H23 d m Hd H. destruct (H12 d m Hd H) as (m2 & H2 & Ha & Ht & Hp).
  destruct (H23 d m2 Hd H2) as (m3 & H3 & Ha' & Ht' & Hp').
  exists m3. split_and!; auto; try congruence. by etransitivity.
Qed.

(** What [_addAncillaryDeclaration] does when it does something. *)
Lemma addAncillary_spec (main anc : AstDeclaration) (c c' : Collector) :
  _addAncillaryDeclaration main anc c = Done c' ->
  (c' = c /\ exists mm, declarationMetadata c !! declId main = Some mm /\
                        declId anc ∈ ancillaryDeclarations mm) \/
  exists mm am,
    declarationMetadata c !! declId main = Some mm /\
    declarationMetadata c !! declId anc = Some am /\
    isAncillary mm = false /\ isAncillary am = false /\
    apiItemMetadata c !! declId main = None /\ apiItemMetadata c !! declId anc = None /\
    decl_astSymbol (declId main) = decl_astSymbol (declId anc) /\
    exists mm',
      <[declId anc := mkDeclarationMetadata (tsdocParserContext am) true
                        (ancillaryDeclarations am) (inheritedDeclarations am)]>
        (declarationMetadata c) !! declId main = Some mm' /\
      c' = setDeclarationMetadata (declId main)
             (mkDeclarationMetadata (tsdocParserContext mm') (isAncillary mm')
                (ancillaryDeclarations mm' ++ [declId anc]) (inheritedDeclarations mm'))
             (setDeclarationMetadata (declId anc)
                (mkDeclarationMetadata (tsdocParserContext am) true
                   (ancillaryDeclarations am) (inheritedDeclarations am)) c).
Proof.
  unfold _addAncillaryDeclaration. intros H.
  destruct (declarationMetadata c !! declId main) as [mm|] eqn:Hmm; [|done].
  destruct (declarationMetadata c !! declId anc) as [am|] eqn:Ham; [|done].
  case_bool_decide as Halready; [inversion H; left; eauto|].
  case_bool_decide as Hsym; [done|].
  destruct (isAncillary mm) eqn:Hma; [done|].
  destruct (isAncillary am) eqn:Haa; [done|].
  destruct (bool_decide (is_Some (apiItemMetadata c !! declId main))
            || bool_decide (is_Some (apiItemMetadata c !! declId anc))) eqn:Hapi; [done|].
  apply orb_false_iff in Hapi as [Hapi1 Hapi2].
  apply bool_decide_eq_false in Hapi1. apply bool_decide_eq_false in Hapi2.
  simpl in H.
  destruct (<[declId anc := _]> (declarationMetadata c) !! declId main) as [mm'|] eqn:Hmm';
    [|done].
  inversion H; subst. right. exists mm, am.
  split_and!; try done.
  - destruct (apiItemMetadata c !! declId main); [exfalso; eauto|done].
  - destruct (apiItemMetadata c !! declId anc); [exfalso; eauto|done].
  - exists mm'. split; [exact Hmm'|reflexivity].
Qed.

Lemma addAncillary_grow (D : list DeclId) (main anc : AstDeclaration) (c c' : Collector) :
  declId anc ∈ D -> _addAncillaryDeclaration main anc c = Done c' ->
  dm_grow_except D c c' /\ apiItemMetadata c' = apiItemMetadata c.
Proof.
  intros HD H. apply addAncillary_spec in H as [[-> _]|(mm & am & Hmm & Ham & _ & _ & _ & _ & _
                                                  & mm' & Hmm' & ->)].
  { split; [apply dm_grow_except_refl|done]. }
  split; [|done]. intros d m Hd Hm. simpl.
  assert (Hda : d <> declId anc) by (intros ->; done).
  destruct (decide (d = declId main)) as [->|Hdm].
  - rewrite lookup_insert_eq. rewrite lookup_insert_ne in Hmm' by done.
    rewrite Hm in Hmm'. inversion Hmm'; subst. eexists. split; [reflexivity|]. simpl.
    split_and!; auto. by apply prefix_app_r.
  - rewrite !lookup_insert_ne by done. exists m. split_and!; auto.
Qed.

Lemma initialize_spec (l : list AstDeclaration) (c c1 : Collector) :
  forEach (fun c astDeclaration =>
     if bool_decide (is_Some (declarationMetadata c !! declId astDeclaration)) then
       Throw (InternalError
         "AstDeclaration.declarationMetadata is not expected to have been initialized yet")
     else Done (setDeclarationMetadata (declId astDeclaration)
                  (newDeclarationMetadata astDeclaration) c)) l c = Done c1 ->
  (forall d, d ∈ declId <$> l -> declarationMetadata c !! d = None) /\
  dm_grow c c1 /\ apiItemMetadata c1 = apiItemMetadata c.
Proof.
  revert c. induction l as [|x l IH]; intros c H1; simpl in H1.
  { inversion H1; subst. split_and!; auto using dm_grow_refl.
    intros d Hd. by apply elem_of_nil in Hd. }
  case_bool_decide as Hx; [done|]. simpl in H1.
  apply IH in H1 as (Hfresh & Hgrow & Hapi).
  assert (Hxn : declarationMetadata c !! declId x = None).
  { destruct (declarationMetadata c !! declId x); [exfalso; eauto|done]. }
  split; [|split; [|exact Hapi]].
  - intros d Hd. rewrite fmap_cons in Hd. apply elem_of_cons in Hd as [->|Hd]; [done|].
    specialize (Hfresh d Hd). simpl in Hfresh.
    destruct (decide (d = declId x)) as [->|Hne]; [done|].
    by rewrite lookup_insert_ne in Hfresh.
  - intros d m Hm. apply Hgrow. simpl. rewrite lookup_insert_ne; [done|].
    intros <-. congruence.
Qed.

Lemma initialize_fresh (l : list AstDeclaration) (c c1 : Collector) :
  forEach (fun c astDeclaration =>
     if bool_decide (is_Some (declarationMetadata c !! declId astDeclaration)) then
       Throw (InternalError
         "AstDeclaration.declarationMetadata is not expected to have been initialized yet")
     else Done (setDeclarationMetadata (declId astDeclaration)
                  (newDeclarationMetadata astDeclaration) c)) l c = Done c1 ->
  messages c1 = messages c /\
  (forall d, d ∈ l -> declarationMetadata c1 !! declId d = Some (newDeclarationMetadata d)) /\
  (forall id, id ∉ declId <$> l -> declarationMetadata c1 !! id = declarationMetadata c !! id).
Proof.
  revert c. induction l as [|x l IH]; intros c H; simpl in H.
  { inversion H; subst. split_and!; [done| |done]. intros d Hd. by apply elem_of_nil in Hd. }
  case_bool_decide as Hx; [done|]. simpl in H.
  pose proof (initialize_spec _ _ _ H) as (Hfresh & _).
  apply IH in H as (Hm & Hl & Hother). split_and!; [done| |].
  - intros d Hd. apply elem_of_cons in Hd as [->|Hd]; [|by apply Hl].
    rewrite Hother; [simpl; by rewrite lookup_insert_eq|].
    intros Hid. apply Hfresh in Hid. simpl in Hid. by rewrite lookup_insert_eq in Hid.
  - intros id Hid. rewrite fmap_cons in Hid. apply not_elem_of_cons in Hid as [Hne Hid].
    rewrite (Hother id Hid). simpl. by rewrite lookup_insert_ne.
Qed.

Lemma declarationMetadata_grow (p : Program) (s : AstSymbol) (c c' : Collector) :
  _calculateDeclarationMetadataForDeclarations p s c = Done c' ->
  dm_grow c c' /\ apiItemMetadata c' = apiItemMetadata c.
Proof.
  unfold _calculateDeclarationMetadataForDeclarations. intros H.
  apply bind_Done in H as (c1 & H1 & H2).
  set (D := declId <$> astDeclarations s).
  pose proof (initialize_spec _ _ _ H1) as Hinit. fold D in Hinit.
  destruct Hinit as (Hfresh & Hgrow1 & Hapi1).
  assert (Hlink : dm_grow_except D c1 c' /\ apiItemMetadata c' = apiItemMetadata c1).
  { eapply (forEach_invariant _
              (fun c2 => dm_grow_except D c1 c2 /\ apiItemMetadata c2 = apiItemMetadata c1));
      [|split; [apply dm_grow_except_refl|done]|exact H2].
    intros c2 x c3 Hx [Hg2 Ha2] Hbody.
    case_bool_decide as Hk; [|by inversion Hbody; subst].
    apply bind_Done in Hbody as (owner & _ & Hbody).
    apply bind_Done in Hbody as ([c4 found] & Hinner & Hbody).
    assert (H4 : dm_grow_except D c1 c4 /\ apiItemMetadata c4 = apiItemMetadata c1).
    { change c4 with (fst (c4, found)).
      eapply (forEach_invariant _
                (fun r => dm_grow_except D c1 (fst r)
                          /\ apiItemMetadata (fst r) = apiItemMetadata c1));
        [| |exact Hinner]; [|split; [exact Hg2|exact Ha2]].
      intros r getter r' _ [Hgr Har] Hb.
      case_bool_decide; [|by inversion Hb; subst].
      apply bind_Done in Hb as (c5 & Hadd & Hb). inversion Hb; subst. simpl.
      apply (addAncillary_grow D) in Hadd as [Hg5 Ha5].
      - split; [by eapply dm_grow_except_trans|congruence].
      - unfold D. apply list_elem_of_fmap. eauto. }
    inversion Hbody; subst. destruct found; auto. }
  destruct Hlink as [Hgrow2 Hapi2]. split; [|congruence].
  intros d m Hm. destruct (Hgrow1 d m Hm) as (m1 & Hm1 & Ha & Ht & Hp).
  assert (HdD : d ∉ D).
  { intros HdD. apply Hfresh in HdD. congruence. }
  destruct (Hgrow2 d m1 HdD Hm1) as (m2 & Hm2 & Ha' & Ht' & Hp').
  exists m2. split_and!; auto; try congruence. by etransitivity.
Qed.

Section MetadataGrow.
Variables (p : Program) (fetchSym : EntityId -> Collector -> Outcome Collector).
Hypothesis fetchSym_grow : forall e c c', fetchSym e c = Done c' -> dm_grow c c'.

Lemma dm_grow_inheritReleaseTag d r c r' b c' :
  inheritReleaseTag fetchSym d r c = Done (r', b, c') -> dm_grow c c'.
Proof.
  unfold inheritReleaseTag, fetchApiItemMetadata_with. intros H.
  destruct (parent d) as [pd|]; [|by inversion H; subst; apply dm_grow_refl].
  apply bind_Done in H as ([a c3] & Hf & H).
  apply bind_Done in Hf as (c1 & H1 & H2). inversion H2; subst.
  destruct (_ ≫= _); [|done]. inversion H; subst.
  clear H H2. case_bool_decide; [eauto|]. inversion H1; subst. apply dm_grow_refl.
Qed.

(** [_calculateApiItemMetadata] on a declaration that is not ancillary: a new
    metadata object is made, and the declaration and the ancillary
    declarations it had before the call all point to it. *)
Lemma calculate_shares d c c' m :
  _calculateApiItemMetadata_with p fetchSym d c = Done c' ->
  declarationMetadata c !! declId d = Some m -> isAncillary m = false ->
  exists c3 o,
    dm_grow c c3 /\ declarationMetadata c' = declarationMetadata c3 /\
    metadataObjects c' = metadataObjects c3 ++ [o] /\
    apiItemMetadata c' !! declId d = Some (length (metadataObjects c3)) /\
    (forall x, x ∈ ancillaryDeclarations m ->
               apiItemMetadata c' !! x = Some (length (metadataObjects c3))).
Proof.
  unfold _calculateApiItemMetadata_with. intros H Hm Hanc.
  apply bind_Done in H as (sym & _ & H). rewrite Hm, Hanc in H.
  destruct (readModifierTags_spec sym d (tsdocParserContext m) c)
    as (pre & c1 & more & Hread & _ & _ & _ & _ & Hd1 & _).
  rewrite Hread in H.
  apply bind_Done in H as ([[eff same] c2] & H2 & H).
  apply dm_grow_inheritReleaseTag in H2.
  apply bind_Done in H as ([eff' c3] & H3 & H).
  apply healReleaseTag_spec in H3 as (_ & _ & _ & Hd3 & _).
  inversion H; subst. clear H.
  assert (Hgrow : dm_grow c c3).
  { eapply dm_grow_trans; [apply dm_grow_same; exact Hd1|].
    eapply dm_grow_trans; [exact H2|]. by apply dm_grow_same. }
  match goal with |- context [attachApiItemMetadata ?d ?dm ?o ?c] =>
    destruct (attach_spec d dm o c) as (Ha & Ho & _ & Hd & Hin & _); exists c, o end.
  split_and!; auto.
  intros x Hx. apply Hin. unfold liveDeclarationMetadata.
  destruct (Hgrow _ _ Hm) as (m3 & -> & _ & _ & Hprefix). simpl.
  destruct Hprefix as [k ->]. apply elem_of_app. by left.
Qed.

Lemma calculate_ancillary d c c' m :
  _calculateApiItemMetadata_with p fetchSym d c = Done c' ->
  declarationMetadata c !! declId d = Some m -> isAncillary m = true ->
  declarationMetadata c' = declarationMetadata c /\
  apiItemMetadata c' = apiItemMetadata c /\ metadataObjects c' = metadataObjects c.
Proof.
  unfold _calculateApiItemMetadata_with. intros H Hm Hanc.
  apply bind_Done in H as (sym & _ & H). rewrite Hm, Hanc in H.
  inversion H; subst. by destruct (_ && _).
Qed.

Lemma dm_grow_calculateApiItemMetadata_with d c c' :
  _calculateApiItemMetadata_with p fetchSym d c = Done c' -> dm_grow c c'.
Proof.
  intros H. pose proof H as H'. unfold _calculateApiItemMetadata_with in H'.
  apply bind_Done in H' as (sym & _ & H').
  destruct (declarationMetadata c !! declId d) as [m|] eqn:Hm; [|done]. clear H'.
  destruct (isAncillary m) eqn:Hanc.
  - apply (calculate_ancillary _ _ _ _ H Hm) in Hanc as (Hd & _). by apply dm_grow_same.
  - apply (calculate_shares _ _ _ _ H Hm) in Hanc as (c3 & o & Hg & Hd & _).
    eapply dm_grow_trans; [exact Hg|]. by apply dm_grow_same.
Qed.

Lemma dm_grow_solveSymbol e s c c' :
  solveSymbol p fetchSym e s c = Done c' -> dm_grow c c'.
Proof.
  unfold solveSymbol. intros H.
  apply bind_Done in H as (c1 & H1 & H).
  apply bind_Done in H as (c2 & H2 & H).
  apply bind_Done in H as (r & _ & H). inversion H; subst.
  apply declarationMetadata_grow in H1 as [H1 _].
  eapply dm_grow_trans; [exact H1|].
  eapply (dm_grow_trans _ c2); [|by apply dm_grow_same].
  revert H2. apply forEach_preorder; [apply dm_grow_refl|apply dm_grow_trans|].
  intros ? ? ? _. apply dm_grow_calculateApiItemMetadata_with.
Qed.
End MetadataGrow.

Lemma dm_grow_fetchSymbolMetadata (p : Program) (fuel : nat) :
  forall e c c', _fetchSymbolMetadata p fuel e c = Done c' -> dm_grow c c'.
Proof.
  induction fuel as [|fuel IH]; intros e c c' H; simpl in H; [done|].
  case_bool_decide; [by inversion H; subst; apply dm_grow_refl|].
  apply bind_Done in H as (s & _ & H).
  apply bind_Done in H as (c1 & H1 & H).
  eapply (dm_grow_trans _ c1).
  - destruct (parentAstSymbol s); [case_bool_decide|]; eauto;
      inversion H1; subst; apply dm_grow_refl.
  - eapply dm_grow_solveSymbol; eauto.
Qed.

(** ** A getter and a setter of one property *)

Lemma addAncillary_fresh (main anc : AstDeclaration) (c c' : Collector)
    (tm ta : option ModifierTagSet) :
  declarationMetadata c !! declId main = Some (mkDeclarationMetadata tm false [] []) ->
  declarationMetadata c !! declId anc = Some (mkDeclarationMetadata ta false [] []) ->
  declId main <> declId anc ->
  _addAncillaryDeclaration main anc c = Done c' ->
  declarationMetadata c'
    = <[declId main := mkDeclarationMetadata tm false [declId anc] []]>
        (<[declId anc := mkDeclarationMetadata ta true [] []]> (declarationMetadata c)) /\
  apiItemMetadata c' = apiItemMetadata c.
Proof.
  intros Hm Ha Hne H.
  apply addAncillary_spec in H as [[_ (mm & Hmm & Hin)]|(mm & am & Hmm & Ham & _ & _ & _ & _ & _
                                      & mm' & Hmm' & ->)].
  - rewrite Hm in Hmm. inversion Hmm; subst. by apply elem_of_nil in Hin.
  - rewrite Hm in Hmm. rewrite Ha in Ham. inversion Hmm; inversion Ham; subst. simpl in *.
    rewrite lookup_insert_ne in Hmm' by done. rewrite Hm in Hmm'.
    by inversion Hmm'; subst.
Qed.

Lemma accessor_pair_declarationMetadata (p : Program) (sid : EntityId) (sym : AstSymbol)
    (g t : AstDeclaration) (c c2 : Collector) :
  accessor_pair p sid sym g t ->
  _calculateDeclarationMetadataForDeclarations p sym c = Done c2 ->
  declarationMetadata c2 !! declId g
    = Some (mkDeclarationMetadata (parsedTsdoc g) false [declId t] []) /\
  declarationMetadata c2 !! declId t
    = Some (mkDeclarationMetadata (parsedTsdoc t) true [] []).
Proof.
  intros (Hsym & Hdecls & Hg & Ht & Hgs & Hts & Hne) H.
  unfold _calculateDeclarationMetadataForDeclarations in H.
  apply bind_Done in H as (c1 & H1 & H2).
  assert (Hc1 : declarationMetadata c1 !! declId g = Some (newDeclarationMetadata g) /\
                declarationMetadata c1 !! declId t = Some (newDeclarationMetadata t)).
  { destruct Hdecls as [Hd|Hd]; rewrite Hd in H1; simpl in H1;
      repeat (case_bool_decide; [done|]; simpl in H1);
      inversion H1; subst; simpl;
      rewrite ?lookup_insert_eq, ?(lookup_insert_ne _ _ _ _ Hne),
              ?(lookup_insert_ne _ _ _ _ (not_eq_sym Hne)), ?lookup_insert_eq; done. }
  destruct Hc1 as [Hg1 Ht1].
  assert (Hlink : forall c3,
            forEach (fun (r : Collector * bool) getterAstDeclaration =>
               if bool_decide (declaration_kind getterAstDeclaration = GetAccessor) then
                 c ← _addAncillaryDeclaration getterAstDeclaration t (fst r);
                 Done (c, true)
               else Done r) (astDeclarations sym) (c1, false) = Done c3 ->
            declarationMetadata (fst c3)
              = <[declId g := mkDeclarationMetadata (parsedTsdoc g) false [declId t] []]>
                  (<[declId t := mkDeclarationMetadata (parsedTsdoc t) true [] []]>
                     (declarationMetadata c1)) /\ snd c3 = true).
  { intros c3 H3.
    destruct Hdecls as [Hd|Hd]; rewrite Hd in H3; simpl in H3;
      rewrite Hg, Ht in H3; simpl in H3;
      outcome_inv.
    all: match goal with Hadd : _addAncillaryDeclaration _ _ _ = _ |- _ =>
           apply (addAncillary_fresh _ _ _ _ _ _ Hg1 Ht1 Hne) in Hadd as [Hadd _] end.
    all: done. }
  destruct Hdecls as [Hd|Hd]; rewrite Hd in H2, Hlink; simpl in H2;
    rewrite Hg, Ht in H2; simpl in H2; rewrite Hts, Hsym in H2; simpl in H2;
    rewrite Hd in H2.
  all: apply bind_Done in H2 as (c4 & H2 & H5);
    apply bind_Done in H2 as ([c3 found] & H3 & H4);
    apply Hlink in H3 as [H3 Hf]; simpl in *; subst found;
    inversion H4; subst c4; inversion H5; subst c2;
    rewrite H3; rewrite lookup_insert_eq; rewrite lookup_insert_ne by done;
    by rewrite lookup_insert_eq.
Qed.

Lemma accessor_pair_linked_frame (c c' : Collector) (g t : AstDeclaration) :
  declarationMetadata c' = declarationMetadata c -> apiItemMetadata c' = apiItemMetadata c ->
  metadataObjects c' = metadataObjects c ->
  accessor_pair_linked c g t -> accessor_pair_linked c' g t.
Proof. unfold accessor_pair_linked. by intros -> -> ->. Qed.

Lemma accessor_pair_solved (p : Program) (fuel : nat) (sid : EntityId) (sym : AstSymbol)
    (g t : AstDeclaration) (c c' : Collector) :
  accessor_pair p sid sym g t ->
  solveSymbol p (_fetchSymbolMetadata p fuel) sid sym c = Done c' ->
  accessor_pair_linked c' g t.
Proof.
  intros Hpair H. unfold solveSymbol in H.
  apply bind_Done in H as (c1 & H1 & H).
  apply bind_Done in H as (c2 & H2 & H).
  apply bind_Done in H as (r & _ & H). inversion H; subst c'. clear H.
  apply (accessor_pair_declarationMetadata _ _ _ _ _ _ _ Hpair) in H1 as [Hg1 Ht1].
  destruct Hpair as (_ & Hdecls & _).
  apply (accessor_pair_linked_frame c2); try done.
  assert (Hgetter : forall ca cb mt,
            declarationMetadata ca !! declId g
              = Some (mkDeclarationMetadata (parsedTsdoc g) false [declId t] []) ->
            declarationMetadata ca !! declId t = Some mt -> isAncillary mt = true ->
            _calculateApiItemMetadata_with p (_fetchSymbolMetadata p fuel) g ca = Done cb ->
            accessor_pair_linked cb g t).
  { intros ca cb mt Hga Hta Hanc Hrun.
    eapply calculate_shares in Hrun as (c3 & o & Hgrow & Hd & Ho & Ha & Hin);
      [|apply dm_grow_fetchSymbolMetadata|exact Hga|reflexivity].
    destruct (Hgrow _ _ Hga) as (mg' & Hg3 & Hganc & _ & [k Hk]).
    destruct (Hgrow _ _ Hta) as (mt' & Ht3 & Htanc & _).
    exists mg', mt', (length (metadataObjects c3)), o. rewrite Hd.
    split_and!; auto; try congruence.
    - rewrite Hk. simpl. apply elem_of_cons. by left.
    - apply Hin. simpl. apply elem_of_cons. by left.
    - rewrite Ho. rewrite lookup_app_r by lia. by rewrite Nat.sub_diag. }
  destruct Hdecls as [Hd|Hd]; rewrite Hd in H2; simpl in H2;
    apply bind_Done in H2 as (cm & Ha & Hb);
    apply bind_Done in Hb as (cm' & Hb & Hc); inversion Hc; subst cm'; clear Hc.
  - pose proof (Hgetter _ _ _ Hg1 Ht1 eq_refl Ha) as Hlinked.
    destruct Hlinked as (mg & mt & a & o & Hmg & Hga & Hin & Hmt & Hta & Hrest).
    eapply calculate_ancillary in Hb as (Hd2 & Ha2 & Ho2); [|exact Hmt|exact Hta].
    apply (accessor_pair_linked_frame cm); try done.
    exists mg, mt, a, o. split_and!; auto; apply Hrest.
  - eapply calculate_ancillary in Ha as (Hd2 & Ha2 & Ho2); [|exact Ht1|reflexivity].
    rewrite <- Hd2 in Hg1, Ht1. exact (Hgetter _ _ _ Hg1 Ht1 eq_refl Hb).
Qed.

Lemma accessor_pair_fetched (p : Program) (fuel : nat) (sid : EntityId) (sym : AstSymbol)
    (g t : AstDeclaration) (c c' : Collector) :
  accessor_pair p sid sym g t -> symbolMetadata c !! sid = None ->
  _fetchSymbolMetadata p fuel sid c = Done c' ->
  accessor_pair_linked c' g t.
Proof.
  intros Hpair Hnone H. destruct fuel as [|fuel]; simpl in H; [done|].
  rewrite Hnone in H. rewrite bool_decide_eq_false_2 in H by (intros [? ?]; done).
  destruct Hpair as (Hsym & Hrest). rewrite Hsym in H. simpl in H.
  apply bind_Done in H as (c1 & _ & H).
  eapply accessor_pair_solved; [|exact H]. by split.
Qed.

(** Once the pair is linked, [fetchApiItemMetadata] returns the same object
    for the getter and for the setter, and only the getter is left by
    [getNonAncillaryDeclarations]. *)
Lemma accessor_pair_linked_reads (p : Program) (fuel : nat) (sid : EntityId)
    (sym : AstSymbol) (g t : AstDeclaration) (c : Collector) :
  accessor_pair p sid sym g t -> accessor_pair_linked c g t ->
  (exists a o,
     fetchApiItemMetadata p fuel (declId g) c = Done (Some a, c) /\
     fetchApiItemMetadata p fuel (declId t) c = Done (Some a, c) /\
     metadataObjects c !! a = Some o) /\
  getNonAncillaryDeclarations p fuel sym c = Done ([g], c).
Proof.
  intros (_ & Hdecls & _) (mg & mt & a & o & Hmg & Hga & _ & Hmt & Hta & Hag & Hat & Ho).
  split.
  - exists a, o. unfold fetchApiItemMetadata, fetchApiItemMetadata_with.
    rewrite !bool_decide_eq_false_2 by (rewrite ?Hag, ?Hat; done). simpl.
    by rewrite Hag, Hat.
  - unfold getNonAncillaryDeclarations, fetchDeclarationMetadata.
    destruct Hdecls as [-> | ->]; simpl;
      rewrite !bool_decide_eq_false_2 by (rewrite ?Hmg, ?Hmt; done); simpl;
      rewrite ?Hmg, ?Hmt; simpl;
      rewrite ?bool_decide_eq_false_2 by (rewrite ?Hmg, ?Hmt; done); simpl;
      rewrite ?Hmg, ?Hmt; simpl; by rewrite Hga, Hta.
Qed.

(** ** Only setters are ancillary, only getters have ancillary declarations *)

Lemma accessor_roles_same (p : Program) (c c' : Collector) :
  declarationMetadata c' = declarationMetadata c -> accessor_roles p c -> accessor_roles p c'.
Proof. unfold accessor_roles. by intros ->. Qed.

Lemma addAncillary_roles (p : Program) (main anc : AstDeclaration) (c c' : Collector) :
  declarationKindOf p (declId main) GetAccessor ->
  declarationKindOf p (declId anc) SetAccessor ->
  accessor_roles p c -> _addAncillaryDeclaration main anc c = Done c' ->
  accessor_roles p c'.
Proof.
  intros Hmain Hanc Hroles H.
  apply addAncillary_spec in H as [[-> _]|(mm & am & Hmm & Ham & _ & _ & _ & _ & _
                                          & mm' & Hmm' & ->)]; [done|].
  intros d m Hm. simpl in Hm.
  destruct (decide (d = declId main)) as [->|Hdm].
  - rewrite lookup_insert_eq in Hm. inversion Hm; subst m. simpl. split; [|done].
    intros Hisanc. destruct (decide (declId main = declId anc)) as [Heq|Hne].
    + by rewrite Heq.
    + rewrite lookup_insert_ne in Hmm' by done. by apply (Hroles _ _ Hmm').
  - rewrite lookup_insert_ne in Hm by done.
    destruct (decide (d = declId anc)) as [->|Hda].
    + rewrite lookup_insert_eq in Hm. inversion Hm; subst m. simpl. split; [done|].
      by apply (Hroles _ _ Ham).
    + rewrite lookup_insert_ne in Hm by done. by apply Hroles.
Qed.

Lemma declarationMetadata_roles (p : Program) (e : EntityId) (s : AstSymbol)
    (c c' : Collector) :
  astEntities p !! e = Some (EntSymbol s) -> accessor_roles p c ->
  _calculateDeclarationMetadataForDeclarations p s c = Done c' -> accessor_roles p c'.
Proof.
  intros Hs Hroles H. unfold _calculateDeclarationMetadataForDeclarations in H.
  apply bind_Done in H as (c1 & H1 & H2).
  assert (Hroles1 : accessor_roles p c1).
  { eapply (forEach_invariant _ (accessor_roles p)); [|exact Hroles|exact H1].
    clear H1 H2. intros c2 x c3 _ Hc2 Hb. simpl in Hb.
    case_bool_decide; [done|]. inversion Hb; subst.
    intros d m Hm. simpl in Hm. destruct (decide (d = declId x)) as [->|Hne].
    - rewrite lookup_insert_eq in Hm. by inversion Hm; subst.
    - rewrite lookup_insert_ne in Hm by done. by apply Hc2. }
  eapply (forEach_invariant _ (accessor_roles p)); [|exact Hroles1|exact H2].
  clear H1 H2. intros c2 x c3 Hx Hc2 Hb. cbv beta in Hb.
  case_bool_decide as Hk; [|by inversion Hb; subst].
  apply bind_Done in Hb as (owner & Howner & Hb).
  apply bind_Done in Hb as ([c4 found] & Hinner & Hb).
  assert (H4 : accessor_roles p (fst (c4, found))).
  { eapply (forEach_invariant _ (fun r => accessor_roles p (fst r)));
      [| |exact Hinner]; [|exact Hc2].
    intros r getter r' Hgetter Hr Hbody. cbv beta in Hbody.
    case_bool_decide as Hkg; [|by inversion Hbody; subst].
    apply bind_Done in Hbody as (c5 & Hadd & Hbody). inversion Hbody; subst. simpl.
    eapply addAncillary_roles; [| |exact Hr|exact Hadd].
    - unfold getSymbol in Howner.
      destruct (astEntities p !! decl_astSymbol (declId x)) as [[o| |]|] eqn:Ho; try done.
      inversion Howner; subst o. by exists (decl_astSymbol (declId x)), owner, getter.
    - by exists e, s, x. }
  inversion Hb; subst. destruct found; [exact H4|].
  eapply accessor_roles_same; [|exact H4]. done.
Qed.

Section MetadataRoles.
Variables (p : Program) (fetchSym : EntityId -> Collector -> Outcome Collector).
Hypothesis fetchSym_roles :
  forall e c c', fetchSym e c = Done c' -> accessor_roles p c -> accessor_roles p c'.

Lemma inheritReleaseTag_roles d r c r' b c' :
  inheritReleaseTag fetchSym d r c = Done (r', b, c') ->
  accessor_roles p c -> accessor_roles p c'.
Proof.
  unfold inheritReleaseTag, fetchApiItemMetadata_with. intros H Hroles.
  destruct (parent d) as [pd|]; [|by inversion H; subst].
  apply bind_Done in H as ([a c3] & Hf & H).
  apply bind_Done in Hf as (c1 & H1 & H2). inversion H2; subst.
  destruct (_ ≫= _); [|done]. inversion H; subst.
  clear H H2. case_bool_decide; [eauto|]. by inversion H1; subst.
Qed.

Lemma calculate_roles d c c' :
  _calculateApiItemMetadata_with p fetchSym d c = Done c' ->
  accessor_roles p c -> accessor_roles p c'.
Proof.
  unfold _calculateApiItemMetadata_with. intros H Hroles.
  apply bind_Done in H as (sym & _ & H).
  destruct (declarationMetadata c !! declId d) as [m|] eqn:Hm; [|done].
  destruct (isAncillary m).
  { inversion H; subst. destruct (_ && _); [|done].
    eapply accessor_roles_same; [|exact Hroles]. done. }
  destruct (readModifierTags_spec sym d (tsdocParserContext m) c)
    as (pre & c1 & more & Hread & _ & _ & _ & _ & Hd1 & _).
  rewrite Hread in H.
  apply bind_Done in H as ([[eff same] c2] & H2 & H).
  apply bind_Done in H as ([eff' c3] & H3 & H).
  apply healReleaseTag_spec in H3 as (_ & _ & _ & Hd3 & _).
  inversion H; subst. clear H.
  match goal with |- context [attachApiItemMetadata ?d ?dm ?o ?c] =>
    destruct (attach_spec d dm o c) as (_ & _ & _ & Hd & _) end.
  apply (accessor_roles_same _ _ _ Hd). apply (accessor_roles_same _ _ _ Hd3).
  apply (accessor_roles_same _ _ _ Hd1) in Hroles.
  by apply (inheritReleaseTag_roles _ _ _ _ _ _ H2).
Qed.

Lemma solveSymbol_roles e s c c' :
  astEntities p !! e = Some (EntSymbol s) ->
  solveSymbol p fetchSym e s c = Done c' -> accessor_roles p c -> accessor_roles p c'.
Proof.
  unfold solveSymbol. intros Hs H Hroles.
  apply bind_Done in H as (c1 & H1 & H).
  apply bind_Done in H as (c2 & H2 & H).
  apply bind_Done in H as (r & _ & H). inversion H; subst.
  apply (declarationMetadata_roles _ _ _ _ _ Hs Hroles) in H1.
  apply (accessor_roles_same _ c2); [done|].
  eapply (forEach_invariant _ (accessor_roles p)); [|exact H1|exact H2].
  intros c3 x c4 _ Hc3 Hrun. exact (calculate_roles _ _ _ Hrun Hc3).
Qed.
End MetadataRoles.

Lemma fetchSymbolMetadata_roles (p : Program) (fuel : nat) :
  forall e c c', _fetchSymbolMetadata p fuel e c = Done c' ->
                 accessor_roles p c -> accessor_roles p c'.
Proof.
  induction fuel as [|fuel IH]; intros e c c' H Hroles; simpl in H; [done|].
  case_bool_decide; [by inversion H; subst|].
  apply bind_Done in H as (s & Hs & H).
  apply bind_Done in H as (c1 & H1 & H).
  eapply (solveSymbol_roles _ _ IH e s c1); [|exact H|].
  - unfold getSymbol in Hs. destruct (astEntities p !! e) as [[o| |]|]; try done.
    by inversion Hs.
  - destruct (parentAstSymbol s); [case_bool_decide|]; eauto; by inversion H1; subst.
Qed.

Lemma accessor_roles_exclusive (p : Program) (c : Collector) :
  identified_declarations p -> accessor_roles p c ->
  forall d m, declarationMetadata c !! d = Some m ->
              isAncillary m = true -> ancillaryDeclarations m = [].
Proof.
  intros Hid Hroles d m Hm Hanc.
  destruct (ancillaryDeclarations m) as [|x l] eqn:Hl; [done|].
  destruct (Hroles _ _ Hm) as [Hset Hget].
  assert (SetAccessor = GetAccessor); [|done].
  apply (Hid d); [by apply Hset|]. apply Hget. by rewrite Hl.
Qed.

Lemma accessor_roles_new (p : Program) : accessor_roles p newCollector.
Proof. intros d m Hm. simpl in Hm. by rewrite lookup_empty in Hm. Qed.

(** ** What a run of [_fetchSymbolMetadata] finds not yet computed *)

Lemma api_kept_refl (c : Collector) : api_kept c c.
Proof. by intros d. Qed.

Lemma api_kept_trans (c1 c2 c3 : Collector) : api_kept c1 c2 -> api_kept c2 c3 -> api_kept c1 c3.
Proof. intros H1 H2 d Hd. by apply H2, H1. Qed.

Lemma api_kept_same (c c' : Collector) :
  apiItemMetadata c' = apiItemMetadata c -> api_kept c c'.
Proof. intros H d. by rewrite H. Qed.

Section MetadataKept.
Variables (p : Program) (fetchSym : EntityId -> Collector -> Outcome Collector).
Hypothesis fetchSym_kept : forall e c c', fetchSym e c = Done c' -> api_kept c c'.

Lemma api_kept_inheritReleaseTag d r c r' b c' :
  inheritReleaseTag fetchSym d r c = Done (r', b, c') -> api_kept c c'.
Proof.
  unfold inheritReleaseTag, fetchApiItemMetadata_with. intros H.
  destruct (parent d) as [pd|]; [|by inversion H; subst; apply api_kept_refl].
  apply bind_Done in H as ([a c3] & Hf & H).
  apply bind_Done in Hf as (c1 & H1 & H2). inversion H2; subst.
  destruct (_ ≫= _); [|done]. inversion H; subst.
  clear H H2. case_bool_decide; [eauto|]. inversion H1; subst. apply api_kept_refl.
Qed.

Lemma api_kept_calculateApiItemMetadata_with d c c' :
  _calculateApiItemMetadata_with p fetchSym d c = Done c' -> api_kept c c'.
Proof.
  unfold _calculateApiItemMetadata_with. intros H.
  apply bind_Done in H as (sym & _ & H).
  destruct (declarationMetadata c !! declId d) as [m|] eqn:Hm; [|done].
  destruct (isAncillary m).
  { inversion H; subst. apply api_kept_same. by destruct (_ && _). }
  destruct (readModifierTags_spec sym d (tsdocParserContext m) c)
    as (pre & c1 & more & Hread & _ & _ & Ha1 & _).
  rewrite Hread in H.
  apply bind_Done in H as ([[eff same] c2] & H2 & H).
  apply api_kept_inheritReleaseTag in H2.
  apply bind_Done in H as ([eff' c3] & H3 & H).
  apply healReleaseTag_spec in H3 as (_ & Ha3 & _).
  inversion H; subst. clear H.
  eapply api_kept_trans; [apply api_kept_same; exact Ha1|].
  eapply api_kept_trans; [exact H2|].
  eapply api_kept_trans; [apply api_kept_same; exact Ha3|].
  match goal with |- context [attachApiItemMetadata ?d ?dm ?o ?c] =>
    destruct (attach_spec d dm o c) as (Ha & _ & _ & _ & Hin & Hout) end.
  intros x Hx.
  match goal with |- context [attachApiItemMetadata ?d ?dm ?o ?c] =>
    destruct (decide (x ∈ ancillaryDeclarations dm)) as [Hanc|Hanc] end.
  - rewrite Hin by done. eauto.
  - destruct (decide (x = declId d)) as [->|Hne]; [rewrite Ha; eauto|].
    by rewrite Hout.
Qed.

Lemma api_kept_solveSymbol e s c c' :
  solveSymbol p fetchSym e s c = Done c' -> api_kept c c'.
Proof.
  unfold solveSymbol. intros H.
  apply bind_Done in H as (c1 & H1 & H).
  apply bind_Done in H as (c2 & H2 & H).
  apply bind_Done in H as (r & _ & H). inversion H; subst.
  apply declarationMetadata_grow in H1 as [_ H1].
  eapply api_kept_trans; [apply api_kept_same; exact H1|].
  eapply (api_kept_trans _ c2); [|by apply api_kept_same].
  revert H2. apply forEach_preorder; [apply api_kept_refl|apply api_kept_trans|].
  intros ? ? ? _. apply api_kept_calculateApiItemMetadata_with.
Qed.
End MetadataKept.

Lemma api_kept_fetchSymbolMetadata (p : Program) (fuel : nat) :
  forall e c c', _fetchSymbolMetadata p fuel e c = Done c' -> api_kept c c'.
Proof.
  induction fuel as [|fuel IH]; intros e c c' H; simpl in H; [done|].
  case_bool_decide; [by inversion H; subst; apply api_kept_refl|].
  apply bind_Done in H as (s & _ & H).
  apply bind_Done in H as (c1 & H1 & H).
  eapply (api_kept_trans _ c1).
  - destruct (parentAstSymbol s); [case_bool_decide|]; eauto;
      inversion H1; subst; apply api_kept_refl.
  - eapply api_kept_solveSymbol; eauto.
Qed.

(** When the declarations of a getter and setter pair are linked, neither
    had a [DeclarationMetadata] or an [ApiItemMetadata] before. *)
Lemma accessor_pair_unlinked (p : Program) (sid : EntityId) (sym : AstSymbol)
    (g t : AstDeclaration) (c c2 : Collector) :
  accessor_pair p sid sym g t ->
  _calculateDeclarationMetadataForDeclarations p sym c = Done c2 ->
  declarationMetadata c !! declId g = None /\ declarationMetadata c !! declId t = None /\
  apiItemMetadata c !! declId g = None /\ apiItemMetadata c !! declId t = None.
Proof.
  intros (Hsym & Hdecls & Hg & Ht & Hgs & Hts & Hne) H.
  unfold _calculateDeclarationMetadataForDeclarations in H.
  apply bind_Done in H as (c1 & H1 & H2).
  pose proof (initialize_spec _ _ _ H1) as (Hfresh & _ & Hapi).
  pose proof (initialize_fresh _ _ _ H1) as (_ & Hnew & _).
  assert (Hgin : g ∈ astDeclarations sym) by (destruct Hdecls as [-> | ->]; set_solver).
  assert (Htin : t ∈ astDeclarations sym) by (destruct Hdecls as [-> | ->]; set_solver).
  split; [apply Hfresh; by apply list_elem_of_fmap_2|].
  split; [apply Hfresh; by apply list_elem_of_fmap_2|].
  rewrite <- Hapi.
  assert (Hadd : exists cx, _addAncillaryDeclaration g t c1 = Done cx).
  { destruct Hdecls as [Hd|Hd]; rewrite Hd in H2; simpl in H2;
      rewrite Hg, Ht in H2; simpl in H2; rewrite Hts, Hsym in H2; simpl in H2;
      rewrite Hd in H2; simpl in H2; rewrite Hg, Ht in H2; simpl in H2;
      destruct (_addAncillaryDeclaration g t c1) as [cx| |]; eauto; done. }
  destruct Hadd as (cx & Hadd).
  apply addAncillary_spec in Hadd
    as [[_ (mm & Hmm & Hin)]|(mm & am & _ & _ & _ & _ & Hag & Hat & _)]; [|done].
  rewrite (Hnew g Hgin) in Hmm. inversion Hmm; subst. by apply elem_of_nil in Hin.
Qed.

Lemma accessor_pair_fresh (p : Program) (fuel : nat) (sid : EntityId) (sym : AstSymbol)
    (g t : AstDeclaration) (c c' : Collector) :
  accessor_pair p sid sym g t -> symbolMetadata c !! sid = None ->
  _fetchSymbolMetadata p fuel sid c = Done c' ->
  declarationMetadata c !! declId g = None /\ declarationMetadata c !! declId t = None /\
  apiItemMetadata c !! declId g = None /\ apiItemMetadata c !! declId t = None.
Proof.
  intros Hpair Hnone H. destruct fuel as [|fuel]; simpl in H; [done|].
  rewrite Hnone in H. rewrite bool_decide_eq_false_2 in H by (intros [? ?]; done).
  pose proof Hpair as (Hsym & _). rewrite Hsym in H. simpl in H.
  apply bind_Done in H as (c1 & H1 & H).
  assert (Hgrow : dm_grow c c1 /\ api_kept c c1).
  { destruct (parentAstSymbol sym); [case_bool_decide|];
      try (inversion H1; subst; split; [apply dm_grow_refl|apply api_kept_refl]).
    split; [by eapply dm_grow_fetchSymbolMetadata|by eapply api_kept_fetchSymbolMetadata]. }
  destruct Hgrow as [Hdm Hapi].
  unfold solveSymbol in H. apply bind_Done in H as (c2 & H2 & _).
  apply (accessor_pair_unlinked _ _ _ _ _ _ _ Hpair) in H2 as (Hg1 & Ht1 & Hag1 & Hat1).
  assert (Hdmnone : forall d, declarationMetadata c1 !! d = None ->
                              declarationMetadata c !! d = None).
  { intros d Hd. destruct (declarationMetadata c !! d) as [m|] eqn:Hm; [|done].
    destruct (Hdm _ _ Hm) as (m' & Hm' & _). congruence. }
  assert (Hapinone : forall d, apiItemMetadata c1 !! d = None -> apiItemMetadata c !! d = None).
  { intros d Hd. destruct (apiItemMetadata c !! d) as [a|] eqn:Ha; [|done].
    destruct (Hapi d) as [a' Ha']; [by rewrite Ha|]. congruence. }
  split_and!; auto.
Qed.


Lemma identified_declarations_progAccessors : identified_declarations progAccessors.
Proof.
  assert (Hkind : forall d k, declarationKindOf progAccessors d k ->
            (d = (1%positive, 0) /\ k = ClassDeclaration) \/
            (d = (2%positive, 0) /\ k = GetAccessor) \/
            (d = (2%positive, 1) /\ k = SetAccessor)).
  { intros d k (e & sym & n & He & Hn & <- & <-).
    apply elem_of_list_to_map_2 in He.
    repeat (apply elem_of_cons in He as [He|He];
            [inversion He; subst; clear He;
             repeat (apply elem_of_cons in Hn as [->|Hn]; [auto|]);
             by apply elem_of_nil in Hn|]).
    by apply elem_of_nil in He. }
  intros d k1 k2 H1 H2.
  destruct (Hkind _ _ H1) as [[-> ->]|[[-> ->]|[-> ->]]];
    destruct (Hkind _ _ H2) as [[Hd ->]|[[Hd ->]|[Hd ->]]]; done.
Qed.


(** * Further properties of the code *)

(** ** Overload indexes *)

Lemma split_at_unique {A B : Type} (f : A -> B) (l b1 a1 b2 a2 : list A) (x1 x2 : A) :
  NoDup (f <$> l) -> l = b1 ++ x1 :: a1 -> l = b2 ++ x2 :: a2 -> f x1 = f x2 ->
  b1 = b2 /\ x1 = x2 /\ a1 = a2.
Proof.
  revert l b2. induction b1 as [|y b1 IH]; intros l b2 Hnd -> H2 Hf.
  - destruct b2 as [|z b2]; simpl in *.
    + by inversion H2.
    + inversion H2; subst. apply NoDup_cons in Hnd as [Hnin _]. exfalso. apply Hnin.
      rewrite Hf, fmap_app, fmap_cons. apply elem_of_app. right. by left.
  - destruct b2 as [|z b2]; simpl in *.
    + inversion H2; subst. apply NoDup_cons in Hnd as [Hnin _]. exfalso. apply Hnin.
      rewrite <- Hf, fmap_app, fmap_cons. apply elem_of_app. right. by left.
    + inversion H2; subst. apply NoDup_cons in Hnd as [_ Hnd].
      destruct (IH _ b2 Hnd eq_refl H1 Hf) as (-> & -> & ->). done.
Qed.

(** The loop of [getOverloadIndex], from any cache and any [nextIndex]. *)
Lemma cacheOverloads_loop (kind : SyntaxKind) (l : list AstDeclaration) :
  forall (cache : gmap DeclId nat) (n : nat),
    NoDup (declId <$> l) ->
    let r := foldl (fun (st : gmap DeclId nat * nat) other =>
                      if bool_decide (declaration_kind other = kind)
                      then (<[declId other := snd st]> (fst st), S (snd st))
                      else st) (cache, n) l in
    (forall b x a, l = b ++ x :: a -> declaration_kind x = kind ->
       fst r !! declId x
         = Some (n + length (filter (fun y => declaration_kind y = kind) b))) /\
    (forall id, (forall x, x ∈ l -> declaration_kind x = kind -> declId x <> id) ->
       fst r !! id = cache !! id).
Proof.
  induction l as [|y l IH]; intros cache n Hnd; simpl.
  { split; [|done]. intros [|? ?] ? ? H; discriminate H. }
  rewrite fmap_cons in Hnd. apply NoDup_cons in Hnd as [Hy Hnd].
  case_bool_decide as Hk; simpl.
  - destruct (IH (<[declId y := n]> cache) (S n) Hnd) as [Hin Hout]. split.
    + intros [|z b] x a Hl Hx; simpl in Hl; injection Hl as -> ->.
      * rewrite Hout.
        { rewrite lookup_insert_eq. by rewrite filter_nil, Nat.add_0_r. }
        intros z Hz _ Heq. apply Hy. rewrite <- Heq. apply list_elem_of_fmap. eauto.
      * rewrite (Hin b x a eq_refl Hx). rewrite filter_cons_True by done. simpl.
        f_equal. lia.
    + intros id Hid. rewrite Hout.
      * rewrite lookup_insert_ne; [done|]. apply Hid; [by left|done].
      * intros x Hx. apply Hid. by right.
  - destruct (IH cache n Hnd) as [Hin Hout]. split.
    + intros [|z b] x a Hl Hx; simpl in Hl; injection Hl as -> ->; [done|].
      rewrite (Hin b x a eq_refl Hx). by rewrite filter_cons_False.
    + intros id Hid. apply Hout. intros x Hx. apply Hid. by right.
Qed.

Lemma cacheOverloads_ok (p : Program) (d : AstDeclaration) (s : AstSymbol)
    (cache : gmap DeclId nat) :
  distinct_declarations p -> owned_declarations p -> cache_ok p cache ->
  getSymbol p (decl_astSymbol (declId d)) = Done s ->
  cache_ok p (fst (cacheOverloads (declaration_kind d) (astDeclarations s) cache)).
Proof.
  intros Hdist Hown Hok Hs s' before' d' after' i Hs' Hl' Hi.
  assert (He : astEntities p !! decl_astSymbol (declId d) = Some (EntSymbol s)).
  { unfold getSymbol in Hs.
    destruct (astEntities p !! decl_astSymbol (declId d)) as [[?| |]|]; by inversion Hs. }
  destruct (cacheOverloads_loop (declaration_kind d) (astDeclarations s) cache 1
              (Hdist _ _ He)) as [Hin Hout].
  fold (cacheOverloads (declaration_kind d) (astDeclarations s) cache) in Hin, Hout.
  destruct (decide (Exists (fun x => declaration_kind x = declaration_kind d /\
                                     declId x = declId d') (astDeclarations s)))
    as [Hsome|Hnone].
  - apply Exists_exists in Hsome as (x & Hx & Hk & Hid).
    apply list_elem_of_split in Hx as (b & a & Hl).
    assert (Hsame : s' = s).
    { pose proof (Hown _ _ x He ltac:(rewrite Hl; apply elem_of_app; right; by left)) as Ho.
      rewrite <- Hid, Ho, Hs in Hs'. by inversion Hs'. }
    subst s'.
    destruct (split_at_unique declId _ _ _ _ _ _ _ (Hdist _ _ He) Hl Hl' Hid)
      as (-> & -> & ->).
    rewrite (Hin _ _ _ Hl Hk) in Hi. inversion Hi; subst. unfold overloadNumber.
    by rewrite Hk.
  - rewrite Hout in Hi; [by eapply Hok|].
    intros x Hx Hk Hid. apply Hnone. apply Exists_exists. eauto.
Qed.

Lemma getSymbol_Done (p : Program) (e : EntityId) (s : AstSymbol) :
  getSymbol p e = Done s <-> astEntities p !! e = Some (EntSymbol s).
Proof.
  unfold getSymbol. destruct (astEntities p !! e) as [[?| |]|]; split; intros H;
    by inversion H.
Qed.

Lemma getOverloadIndex_spec (p : Program) (d : AstDeclaration) (s : AstSymbol)
    (before after : list AstDeclaration) (cache : gmap DeclId nat) :
  distinct_declarations p -> owned_declarations p -> cache_ok p cache ->
  getSymbol p (decl_astSymbol (declId d)) = Done s ->
  astDeclarations s = before ++ d :: after ->
  exists cache',
    getOverloadIndex p d cache = Done (overloadNumber before d, cache') /\
    cache_ok p cache' /\
    getOverloadIndex p d cache' = Done (overloadNumber before d, cache').
Proof.
  intros Hdist Hown Hok Hs Hl. unfold getOverloadIndex. rewrite Hs. simpl.
  case_bool_decide as Hlen.
  { exists cache. rewrite Hl, length_app in Hlen. simpl in Hlen.
    destruct before; [|simpl in Hlen; lia]. by split_and!. }
  destruct (cache !! declId d) as [i|] eqn:Hc.
  { exists cache. rewrite Hc. rewrite (Hok s before d after i Hs Hl Hc). by split_and!. }
  set (cache' := fst (cacheOverloads (declaration_kind d) (astDeclarations s) cache)).
  assert (Hnew : cache' !! declId d = Some (overloadNumber before d)).
  { apply getSymbol_Done in Hs.
    destruct (cacheOverloads_loop (declaration_kind d) (astDeclarations s) cache 1
                (Hdist _ _ Hs)) as [Hin _].
    apply (Hin before d after Hl eq_refl). }
  exists cache'. rewrite Hnew. split_and!; [done|by apply cacheOverloads_ok|done].
Qed.

(** X1.  [getOverloadIndex], for a declaration of a symbol of well-formed
    front-end data, whatever calls were made before: it returns the number of
    the declaration among the declarations of the same kind of its symbol,
    counting from 1 (the declarations of other kinds, such as the namespace
    merged with an overloaded function, are not counted); it keeps the cache
    right; and asking again gives the same index and leaves the cache as it
    is. *)
Theorem overload_index_is_position (p : Program) (d : AstDeclaration) (s : AstSymbol)
    (before after : list AstDeclaration) (cache : gmap DeclId nat) :
  distinct_declarations p -> owned_declarations p -> cache_ok p cache ->
  getSymbol p (decl_astSymbol (declId d)) = Done s ->
  astDeclarations s = before ++ d :: after ->
  exists cache',
    getOverloadIndex p d cache = Done (overloadNumber before d, cache') /\
    cache_ok p cache' /\
    getOverloadIndex p d cache' = Done (overloadNumber before d, cache').
Proof. apply getOverloadIndex_spec. Qed.

Lemma wf_progOverloads :
  distinct_declarations progOverloads /\ owned_declarations progOverloads.
Proof.
  split.
  - intros e s He. apply elem_of_list_to_map_2 in He.
    apply list_elem_of_singleton in He. inversion He; subst.
    apply (bool_decide_unpack _). by vm_compute.
  - intros e s d He Hd. apply elem_of_list_to_map_2 in He.
    apply list_elem_of_singleton in He. inversion He; subst.
    repeat (apply elem_of_cons in Hd as [->|Hd]; [done|]). by apply elem_of_nil in Hd.
Qed.

Example overload_index_is_position_witness :
  distinct_declarations progOverloads /\ owned_declarations progOverloads /\
  cache_ok progOverloads ∅ /\
  getSymbol progOverloads (decl_astSymbol (declId overload3)) = Done symbolF /\
  astDeclarations symbolF = [overload1; overload2; namespaceOfF] ++ overload3 :: [] /\
  exists cache', getOverloadIndex progOverloads overload3 ∅ = Done (3, cache').
Proof.
  destruct wf_progOverloads as [Hdist Hown].
  assert (Hok : cache_ok progOverloads ∅).
  { intros s b d a i _ _ Hi. by rewrite lookup_empty in Hi. }
  split_and!; [done|done|done|reflexivity|reflexivity|].
  destruct (overload_index_is_position progOverloads overload3 symbolF
              [overload1; overload2; namespaceOfF] [] ∅ Hdist Hown Hok eq_refl eq_refl)
    as (cache' & Hrun & _).
  exists cache'. exact Hrun.
Defined.

Lemma two_splits {A : Type} (l b1 a1 b2 a2 : list A) (x1 x2 : A) :
  l = b1 ++ x1 :: a1 -> l = b2 ++ x2 :: a2 -> x1 <> x2 ->
  (exists m, b2 = b1 ++ x1 :: m) \/ (exists m, b1 = b2 ++ x2 :: m).
Proof.
  revert l b2. induction b1 as [|y b1 IH]; intros l b2 -> H2 Hne.
  - destruct b2 as [|z b2]; simpl in H2; injection H2 as -> ?; [done|].
    left. by exists b2.
  - destruct b2 as [|z b2]; simpl in H2; injection H2 as -> H2.
    + right. by exists b1.
    + destruct (IH _ b2 eq_refl H2 Hne) as [[m ->]|[m ->]]; [left|right]; by exists m.
Qed.

(** X2.  Two different declarations of the same kind of one symbol never get
    the same overload index, in whatever order they are asked for and whatever
    was cached before. *)
Theorem overloads_have_distinct_indexes (p : Program) (d1 d2 : AstDeclaration)
    (s : AstSymbol) (cache c1 c2 : gmap DeclId nat) (i1 i2 : nat) :
  distinct_declarations p -> owned_declarations p -> cache_ok p cache ->
  getSymbol p (decl_astSymbol (declId d1)) = Done s ->
  d1 ∈ astDeclarations s -> d2 ∈ astDeclarations s ->
  declaration_kind d1 = declaration_kind d2 -> declId d1 <> declId d2 ->
  getOverloadIndex p d1 cache = Done (i1, c1) ->
  getOverloadIndex p d2 c1 = Done (i2, c2) ->
  i1 <> i2.
Proof.
  intros Hdist Hown Hok Hs Hd1 Hd2 Hk Hne H1 H2.
  apply list_elem_of_split in Hd1 as (b1 & a1 & Hl1).
  apply list_elem_of_split in Hd2 as (b2 & a2 & Hl2).
  assert (Hs2 : getSymbol p (decl_astSymbol (declId d2)) = Done s).
  { pose proof Hs as Hs'. apply getSymbol_Done in Hs'.
    assert (Ho : decl_astSymbol (declId d2) = decl_astSymbol (declId d1)).
    { apply (Hown _ s d2 Hs'). rewrite Hl2. apply elem_of_app. right. by left. }
    by rewrite Ho. }
  destruct (getOverloadIndex_spec p d1 s b1 a1 cache Hdist Hown Hok Hs Hl1)
    as (c1' & Hrun1 & Hok1 & _).
  rewrite Hrun1 in H1. injection H1 as <- <-.
  destruct (getOverloadIndex_spec p d2 s b2 a2 c1' Hdist Hown Hok1 Hs2 Hl2)
    as (c2' & Hrun2 & _).
  rewrite Hrun2 in H2. injection H2 as <- <-.
  unfold overloadNumber. rewrite Hk.
  assert (Hd : d1 <> d2) by (intros ->; done).
  destruct (two_splits _ _ _ _ _ _ _ Hl1 Hl2 Hd) as [[m ->]|[m ->]];
    rewrite filter_app, length_app.
  - rewrite filter_cons_True by done. simpl. lia.
  - rewrite filter_cons_True by done. simpl. lia.
Qed.

Example overloads_have_distinct_indexes_witness :
  distinct_declarations progOverloads /\ owned_declarations progOverloads /\
  cache_ok progOverloads ∅ /\
  getOverloadIndex progOverloads overload3 ∅
    = Done (3, {[declId overload3 := 3; declId overload2 := 2; declId overload1 := 1]}) /\
  getOverloadIndex progOverloads overload1
      {[declId overload3 := 3; declId overload2 := 2; declId overload1 := 1]}
    = Done (1, {[declId overload3 := 3; declId overload2 := 2; declId overload1 := 1]}) /\
  3 <> 1.
Proof.
  destruct wf_progOverloads as [Hdist Hown].
  assert (Hok : cache_ok progOverloads ∅).
  { intros s b d a i _ _ Hi. by rewrite lookup_empty in Hi. }
  assert (H1 : getOverloadIndex progOverloads overload3 ∅
    = Done (3, {[declId overload3 := 3; declId overload2 := 2; declId overload1 := 1]}))
    by (vm_compute; reflexivity).
  assert (H2 : getOverloadIndex progOverloads overload1
      {[declId overload3 := 3; declId overload2 := 2; declId overload1 := 1]}
    = Done (1, {[declId overload3 := 3; declId overload2 := 2; declId overload1 := 1]}))
    by (vm_compute; reflexivity).
  split_and!; [done|done|done|exact H1|exact H2|].
  refine (overloads_have_distinct_indexes progOverloads overload3 overload1 symbolF
            ∅ _ _ 3 1 Hdist Hown Hok eq_refl _ _ eq_refl _ H1 H2).
  - apply list_elem_of_In. simpl. tauto.
  - apply list_elem_of_In. simpl. tauto.
  - discriminate.
Defined.

(** ** Sort keys *)

Lemma string_app_length (s t : string) :
  String.length (s +:+ t) = String.length s + String.length t.
Proof. induction s as [|a s IH]; simpl; [done|]. congruence. Qed.

Lemma string_app_assoc (s t u : string) : (s +:+ t) +:+ u = s +:+ (t +:+ u).
Proof.
  induction s as [|a s IH]; [done|].
  change (String a ((s +:+ t) +:+ u) = String a (s +:+ (t +:+ u))). by rewrite IH.
Qed.

(** Two splits of one string at the same position are the same split. *)
Lemma string_app_inj_length (s1 s2 t1 t2 : string) :
  String.length s1 = String.length s2 -> s1 +:+ t1 = s2 +:+ t2 -> s1 = s2 /\ t1 = t2.
Proof.
  revert s2. induction s1 as [|a s1 IH]; intros [|b s2] Hlen H; simpl in *; try done.
  injection H as -> H. destruct (IH s2) as [-> ->]; auto.
Qed.

Lemma toLowerCase_length (s : string) : String.length (toLowerCase s) = String.length s.
Proof. induction s as [|a s IH]; simpl; [done|]. congruence. Qed.

Lemma toLowerCase_app (s t : string) :
  toLowerCase (s +:+ t) = toLowerCase s +:+ toLowerCase t.
Proof.
  induction s as [|a s IH]; [done|].
  change (toLowerCase (String a (s +:+ t))
          = String (toLowerCase_ascii a) (toLowerCase s +:+ toLowerCase t)).
  simpl. by rewrite IH.
Qed.

Lemma sortKey_plain (x : string) :
  x <> EmptyString -> (forall w, x <> String "_" w) ->
  getSortKeyIgnoringUnderscore (Some x) = toLowerCase x +:+ "*" +:+ x.
Proof.
  intros Hne Hu. destruct x as [|a x]; [done|]. simpl.
  case_bool_decide as Ha; [|done]. subst a. by destruct (Hu x).
Qed.

Lemma sortKey_underscore (w : string) :
  getSortKeyIgnoringUnderscore (Some (String "_" w))
  = toLowerCase w +:+ "*" +:+ w +:+ "*" +:+ "_".
Proof. reflexivity. Qed.

(** The key of a name with a leading underscore is never the key of a name
    without. *)
Lemma sortKey_mixed (x w : string) :
  x <> EmptyString -> (forall w', x <> String "_" w') ->
  toLowerCase x +:+ "*" +:+ x <> toLowerCase w +:+ "*" +:+ w +:+ "*" +:+ "_".
Proof.
  intros Hne Hu H.
  assert (Hlen : String.length x = S (String.length w)).
  { apply (f_equal String.length) in H.
    rewrite !string_app_length, !toLowerCase_length in H. simpl in H. lia. }
  rewrite <- (string_app_assoc (toLowerCase w) "*") in H.
  apply string_app_inj_length in H as [Hlow Hrest].
  2:{ rewrite string_app_length, !toLowerCase_length. simpl. lia. }
  destruct w as [|c w].
  { change (String "*" x = String "*" (String "_" EmptyString)) in Hrest.
    injection Hrest as ->. by destruct (Hu EmptyString). }
  change (String "*" x = String c (w +:+ "*" +:+ "_")) in Hrest.
  injection Hrest as <- ->.
  rewrite toLowerCase_app in Hlow.
  change (toLowerCase w +:+ ("*" +:+ "_") = String "*" (toLowerCase w +:+ "*")) in Hlow.
  change (String "*" (toLowerCase w +:+ "*")) with (("*" +:+ toLowerCase w) +:+ "*") in Hlow.
  rewrite <- string_app_assoc in Hlow.
  apply string_app_inj_length in Hlow as [_ Hlast]; [done|].
  rewrite !string_app_length. simpl. lia.
Qed.

(** X3.  [getSortKeyIgnoringUnderscore] never gives two different non-empty
    names the same key, also when one has a leading underscore and the other
    has not: the order of the keys settles the order of the names. *)
Theorem sort_keys_of_distinct_names_differ (x y : string) :
  x <> EmptyString -> y <> EmptyString ->
  getSortKeyIgnoringUnderscore (Some x) = getSortKeyIgnoringUnderscore (Some y) ->
  x = y.
Proof.
  intros Hx Hy H.
  assert (Hcase : forall z, (exists w, z = String "_" w) \/ (forall w, z <> String "_" w)).
  { intros [|a z]; [by right|].
    destruct (decide (a = "_"%char)) as [->|Ha]; [left; eauto|right; congruence]. }
  destruct (Hcase x) as [[w ->]|Hux], (Hcase y) as [[w' ->]|Huy].
  - rewrite !sortKey_underscore in H.
    apply string_app_inj_length in H as [_ H];
      [|apply (f_equal String.length) in H;
        rewrite !string_app_length, !toLowerCase_length in H; simpl in H;
        rewrite !toLowerCase_length; lia].
    change ("*" +:+ w +:+ "*" +:+ "_") with (String "*" (w +:+ "*" +:+ "_")) in H.
    change ("*" +:+ w' +:+ "*" +:+ "_") with (String "*" (w' +:+ "*" +:+ "_")) in H.
    injection H as H.
    assert (Hlen : String.length w = String.length w').
    { apply (f_equal String.length) in H. rewrite !string_app_length in H. lia. }
    apply string_app_inj_length in H as [-> _]; done.
  - rewrite sortKey_underscore, (sortKey_plain y) in H by done.
    symmetry in H. by apply sortKey_mixed in H.
  - rewrite sortKey_underscore, (sortKey_plain x) in H by done.
    by apply sortKey_mixed in H.
  - rewrite (sortKey_plain x), (sortKey_plain y) in H by done.
    apply string_app_inj_length in H as [_ H];
      [|apply (f_equal String.length) in H;
        rewrite !string_app_length, !toLowerCase_length in H; simpl in H;
        rewrite !toLowerCase_length; lia].
    change ("*" +:+ x) with (String "*" x) in H.
    change ("*" +:+ y) with (String "*" y) in H. by injection H.
Qed.

Example sort_keys_of_distinct_names_differ_witness :
  "_Example" <> EmptyString /\
  getSortKeyIgnoringUnderscore (Some "_Example") = "example*Example*_" /\
  "_Example" = "_Example".
Proof.
  split; [discriminate|]. split; [reflexivity|].
  apply (sort_keys_of_distinct_names_differ "_Example" "_Example");
    [discriminate|discriminate|reflexivity].
Defined.

(** ** Nothing is computed twice *)

Lemma store_grow_refl (c : Collector) : store_grow c c.
Proof. split_and!; auto. exists []. by rewrite app_nil_r. Qed.

Lemma store_grow_trans (c1 c2 c3 : Collector) :
  store_grow c1 c2 -> store_grow c2 c3 -> store_grow c1 c3.
Proof.
  intros (Hs1 & [m1 Ho1] & He1) (Hs2 & [m2 Ho2] & He2). split_and!; auto.
  - exists (m1 ++ m2). by rewrite Ho2, Ho1, app_assoc.
  - congruence.
Qed.

(** A state that differs in other fields only. *)
Lemma store_grow_same (c c' : Collector) :
  symbolMetadata c' = symbolMetadata c -> metadataObjects c' = metadataObjects c ->
  _astEntryPoint c' = _astEntryPoint c -> store_grow c c'.
Proof. intros Hs Ho He. split_and!; [by rewrite Hs| |done]. exists []. by rewrite app_nil_r. Qed.

Lemma store_grow_addAncillary (m a : AstDeclaration) (c c' : Collector) :
  _addAncillaryDeclaration m a c = Done c' -> store_grow c c'.
Proof.
  intros H. apply addAncillary_spec in H as [[-> _]|(? & ? & _ & _ & _ & _ & _ & _ & _
                                                      & ? & _ & ->)];
    by apply store_grow_same.
Qed.

Lemma store_grow_declarationMetadata (p : Program) (s : AstSymbol) (c c' : Collector) :
  _calculateDeclarationMetadataForDeclarations p s c = Done c' -> store_grow c c'.
Proof.
  unfold _calculateDeclarationMetadataForDeclarations. intros H.
  apply bind_Done in H as (c1 & H1 & H2).
  apply (store_grow_trans _ c1).
  - revert H1. apply forEach_preorder; [apply store_grow_refl|apply store_grow_trans|].
    intros c2 d c3 _ H. cbv beta in H. case_bool_decide; [done|]. inversion H; subst.
    by apply store_grow_same.
  - revert H2. apply forEach_preorder; [apply store_grow_refl|apply store_grow_trans|].
    intros c2 d c3 _ H. cbv beta in H.
    case_bool_decide; [|by inversion H; subst; apply store_grow_refl].
    apply bind_Done in H as (owner & _ & H).
    apply bind_Done in H as ([c4 found] & H & H').
    assert (H4 : store_grow c2 (fst (c4, found))).
    { eapply (forEach_invariant _ (fun r => store_grow c2 (fst r)));
        [| |exact H]; [|apply store_grow_refl].
      intros r g r' _ Hr Hb. cbv beta in Hb. case_bool_decide; [|by inversion Hb; subst].
      apply bind_Done in Hb as (c5 & Hb & Hb'). inversion Hb'; subst. simpl.
      eapply store_grow_trans; eauto using store_grow_addAncillary. }
    inversion H'; subst. destruct found; [exact H4|].
    eapply store_grow_trans; [exact H4|]. by apply store_grow_same.
Qed.

Lemma store_grow_readModifierTags sym d tags c r b c' :
  readModifierTags sym d tags c = (r, b, c') -> store_grow c c'.
Proof.
  unfold readModifierTags. intros H.
  destruct tags as [tags|]; [|by inversion H; subst; apply store_grow_refl].
  destruct (declaredTagOf tags) as [declared extra].
  destruct (extra && negb (isExternal sym)), (hasPreapproved tags);
    try destruct (declaration_kind d); try case_bool_decide;
    inversion H; subst; by apply store_grow_same.
Qed.

Lemma store_grow_healReleaseTag p sym d r c r' c' :
  healReleaseTag p sym d r c = Done (r', c') -> store_grow c c'.
Proof.
  intros H. unfold healReleaseTag in H.
  case_bool_decide; [|by inversion H; subst; apply store_grow_refl].
  destruct (negb (isExternal sym)); [|by inversion H; subst; apply store_grow_refl].
  destruct (_entitiesByAstEntity c !! rootAstSymbol sym) as [entity|];
    [|by inversion H; subst; apply store_grow_refl].
  destruct (consumable entity); [|by inversion H; subst; apply store_grow_refl].
  apply bind_Done in H as (root & _ & H). inversion H; subst.
  case_bool_decide; by apply store_grow_same.
Qed.

Lemma store_grow_foldl_set (a : nat) (l : list DeclId) (c : Collector) :
  store_grow c (foldl (fun c d => setApiItemMetadata d a c) c l).
Proof.
  revert c. induction l as [|d l IH]; intros c; simpl; [apply store_grow_refl|].
  eapply store_grow_trans; [|apply IH]. by apply store_grow_same.
Qed.

Lemma store_grow_attach d dm o c : store_grow c (attachApiItemMetadata d dm o c).
Proof.
  unfold attachApiItemMetadata. simpl.
  eapply store_grow_trans; [|apply store_grow_foldl_set].
  split_and!; simpl; auto. by exists [o].
Qed.

Section MetadataStore.
Variables (p : Program) (fetchSym : EntityId -> Collector -> Outcome Collector).
Hypothesis fetchSym_grow : forall e c c', fetchSym e c = Done c' -> store_grow c c'.

Lemma store_grow_inheritReleaseTag d r c r' b c' :
  inheritReleaseTag fetchSym d r c = Done (r', b, c') -> store_grow c c'.
Proof.
  unfold inheritReleaseTag, fetchApiItemMetadata_with. intros H.
  destruct (parent d) as [pd|]; [|by inversion H; subst; apply store_grow_refl].
  apply bind_Done in H as ([a c3] & Hf & H).
  apply bind_Done in Hf as (c1 & H1 & H2). inversion H2; subst.
  destruct (_ ≫= _); [|done]. inversion H; subst.
  clear H H2. case_bool_decide; [eauto|]. inversion H1; subst. apply store_grow_refl.
Qed.

Lemma store_grow_calculateApiItemMetadata_with d c c' :
  _calculateApiItemMetadata_with p fetchSym d c = Done c' -> store_grow c c'.
Proof.
  unfold _calculateApiItemMetadata_with. intros H.
  apply bind_Done in H as (sym & _ & H).
  destruct (declarationMetadata c !! declId d) as [dm|]; [|done].
  destruct (isAncillary dm).
  { inversion H; subst. destruct (_ && _); [by apply store_grow_same|apply store_grow_refl]. }
  destruct (readModifierTags sym d (tsdocParserContext dm) c) as [[declared pre] c1] eqn:H1.
  apply store_grow_readModifierTags in H1.
  apply bind_Done in H as ([[eff same] c2] & H2 & H).
  apply store_grow_inheritReleaseTag in H2.
  apply bind_Done in H as ([eff' c3] & H3 & H).
  apply store_grow_healReleaseTag in H3.
  inversion H; subst.
  eauto using store_grow_trans, store_grow_attach.
Qed.

Lemma store_grow_calculate_loop l c c' :
  forEach (fun c astDeclaration => _calculateApiItemMetadata_with p fetchSym astDeclaration c)
    l c = Done c' -> store_grow c c'.
Proof.
  apply forEach_preorder; [apply store_grow_refl|apply store_grow_trans|].
  intros ? ? ? _. apply store_grow_calculateApiItemMetadata_with.
Qed.
End MetadataStore.

Lemma store_grow_fetchSymbolMetadata (p : Program) (fuel : nat) :
  forall e c c', _fetchSymbolMetadata p fuel e c = Done c' -> store_grow c c'.
Proof.
  induction fuel as [|fuel IH]; intros e c c' H; simpl in H; [done|].
  case_bool_decide as Hsolved; [by inversion H; subst; apply store_grow_refl|].
  apply bind_Done in H as (s & _ & H).
  apply bind_Done in H as (c1 & H1 & H).
  assert (H01 : store_grow c c1).
  { destruct (parentAstSymbol s); [case_bool_decide|]; eauto;
      inversion H1; subst; apply store_grow_refl. }
  unfold solveSymbol in H.
  apply bind_Done in H as (c2 & H2 & H).
  apply bind_Done in H as (c3 & H3 & H).
  apply bind_Done in H as (r & _ & H). inversion H; subst c'. clear H.
  apply store_grow_declarationMetadata in H2.
  apply (store_grow_calculate_loop p _ IH) in H3.
  destruct (store_grow_trans _ _ _ H01 (store_grow_trans _ _ _ H2 H3)) as (Hs & Ho & He).
  split_and!; simpl; auto.
  intros e' r' He'. destruct (decide (e' = e)) as [->|Hne].
  - exfalso. apply Hsolved. rewrite He'. eauto.
  - rewrite lookup_insert_ne by done. by apply Hs.
Qed.

Lemma fetchSymbolMetadata_solves (p : Program) (fuel : nat) (e : EntityId)
    (c c' : Collector) :
  _fetchSymbolMetadata p fuel e c = Done c' -> is_Some (symbolMetadata c' !! e).
Proof.
  destruct fuel as [|fuel]; simpl; [done|]. intros H.
  case_bool_decide as Hsolved; [by inversion H; subst|].
  apply bind_Done in H as (s & _ & H).
  apply bind_Done in H as (c1 & _ & H).
  unfold solveSymbol in H.
  apply bind_Done in H as (c2 & _ & H).
  apply bind_Done in H as (c3 & _ & H).
  apply bind_Done in H as (r & _ & H). inversion H; subst c'. simpl.
  rewrite lookup_insert_eq. eauto.
Qed.

(** X4.  Whatever a successful run of [_fetchSymbolMetadata] does, nothing
    that exists is computed again: the [SymbolMetadata] that were set are the
    same, the [ApiItemMetadata] objects are unchanged, every
    [DeclarationMetadata] keeps its doc comment and its [isAncillary], the
    diagnostics reported so far are still there in the same order, and the
    entity graph is untouched.  The symbol is solved afterwards, so that
    [fetchSymbolMetadata] on it returns without doing anything. *)
Theorem metadata_is_never_recomputed (p : Program) (fuel : nat) (e : EntityId)
    (c c' : Collector) :
  _fetchSymbolMetadata p fuel e c = Done c' ->
  (forall e' r, symbolMetadata c !! e' = Some r -> symbolMetadata c' !! e' = Some r) /\
  (forall a o, metadataObjects c !! a = Some o -> metadataObjects c' !! a = Some o) /\
  (forall d m, declarationMetadata c !! d = Some m ->
     exists m', declarationMetadata c' !! d = Some m' /\
                isAncillary m' = isAncillary m /\
                tsdocParserContext m' = tsdocParserContext m) /\
  (exists more, messages c' = messages c ++ more) /\
  _entities c' = _entities c /\ _entitiesByAstEntity c' = _entitiesByAstEntity c /\
  forall fuel', fetchSymbolMetadata p fuel' e c' = Done c'.
Proof.
  intros H.
  destruct (store_grow_fetchSymbolMetadata _ _ _ _ _ H) as (Hs & [more Ho] & _).
  pose proof (dm_grow_fetchSymbolMetadata _ _ _ _ _ H) as Hd.
  pose proof (messages_grow_fetchSymbolMetadata' _ _ _ _ _ H) as Hm.
  destruct (same_graph_fetchSymbolMetadata' _ _ _ _ _ H) as [He Hg].
  split_and!; auto.
  - intros a o Ha. rewrite Ho. by apply lookup_app_l_Some.
  - intros d m Hdm. destruct (Hd d m Hdm) as (m' & ? & ? & ? & _). eauto.
  - intros fuel'. unfold fetchSymbolMetadata.
    destruct (fetchSymbolMetadata_solves _ _ _ _ _ H) as [r Hr].
    rewrite Hr. by rewrite bool_decide_eq_false_2.
Qed.

Example metadata_is_never_recomputed_witness :
  _fetchSymbolMetadata progAccessors 10 2%positive accessorsAnalyzed = Done accessorsFetched /\
  symbolMetadata accessorsAnalyzed !! 1%positive = Some ReleaseTag.Public /\
  symbolMetadata accessorsFetched !! 1%positive = Some ReleaseTag.Public /\
  fetchSymbolMetadata progAccessors 0 2%positive accessorsFetched = Done accessorsFetched.
Proof.
  assert (Hrun : _fetchSymbolMetadata progAccessors 10 2%positive accessorsAnalyzed
                 = Done accessorsFetched) by (vm_compute; reflexivity).
  assert (H1 : symbolMetadata accessorsAnalyzed !! 1%positive = Some ReleaseTag.Public)
    by (vm_compute; reflexivity).
  destruct (metadata_is_never_recomputed _ _ _ _ _ Hrun) as (Hs & _ & _ & _ & _ & _ & Hagain).
  split_and!; [exact Hrun|exact H1|exact (Hs _ _ H1)|apply Hagain].
Defined.

(** The loop of [_fetchSymbolMetadata] that looks for the most public
    effective release tag. *)
Lemma max_loop (c : Collector) (l : list AstDeclaration) :
  forall r0 r,
    forEach (fun maxEffectiveReleaseTag astDeclaration =>
      match readApiItemMetadata c (declId astDeclaration) with
      | None => Throw TypeError
      | Some (_, apiItemMetadata) =>
          let effectiveReleaseTag := effectiveReleaseTag apiItemMetadata in
          Done (if ReleaseTag.gtb effectiveReleaseTag maxEffectiveReleaseTag
                then effectiveReleaseTag else maxEffectiveReleaseTag)
      end) l r0 = Done r ->
    (forall d, d ∈ l -> exists m, metadataOf c (declId d) = Some m /\
       (ReleaseTag.value (effectiveReleaseTag m) <= ReleaseTag.value r)%Z) /\
    (ReleaseTag.value r0 <= ReleaseTag.value r)%Z /\
    (r = r0 \/ exists d m, d ∈ l /\ metadataOf c (declId d) = Some m /\
                           effectiveReleaseTag m = r).
Proof.
  induction l as [|x l IH]; intros r0 r H; simpl in H.
  { inversion H; subst. split_and!; [|lia|by left]. intros d Hd. by apply elem_of_nil in Hd. }
  apply bind_Done in H as (r1 & H1 & H).
  destruct (readApiItemMetadata c (declId x)) as [[a m]|] eqn:Hread; [|done].
  inversion H1; subst r1. clear H1.
  destruct (IH _ _ H) as (Hall & Hle & Hatt).
  assert (Hstep : (ReleaseTag.value r0 <= ReleaseTag.value r)%Z /\
                  (ReleaseTag.value (effectiveReleaseTag m) <= ReleaseTag.value r)%Z).
  { unfold ReleaseTag.gtb in Hle.
    destruct (Z.ltb_spec (ReleaseTag.value r0) (ReleaseTag.value (effectiveReleaseTag m)));
      lia. }
  assert (Hx : metadataOf c (declId x) = Some m) by (unfold metadataOf; by rewrite Hread).
  split_and!; [|lia|].
  - intros d Hd. apply elem_of_cons in Hd as [->|Hd]; [|by apply Hall].
    exists m. split; [done|lia].
  - destruct Hatt as [->|(d & m' & Hd & Hm' & Hr)].
    + destruct (ReleaseTag.gtb _ _); [right|by left]. exists x, m. split_and!; auto. by left.
    + right. exists d, m'. split_and!; auto. by right.
Qed.

(** X5.  Solving a symbol: when [_fetchSymbolMetadata] returns for a symbol
    that was not solved, every declaration of the symbol has its
    [DeclarationMetadata] and its [ApiItemMetadata]; the [SymbolMetadata] of
    the symbol is the most public effective release tag of its declarations
    ([None] when it has none); and the parent symbol is solved too. *)
Theorem symbol_metadata_is_max (p : Program) (fuel : nat) (sid : EntityId) (s : AstSymbol)
    (c c' : Collector) :
  getSymbol p sid = Done s -> symbolMetadata c !! sid = None ->
  _fetchSymbolMetadata p fuel sid c = Done c' ->
  exists r,
    symbolMetadata c' !! sid = Some r /\
    (forall d, d ∈ astDeclarations s ->
       is_Some (declarationMetadata c' !! declId d) /\
       exists m, metadataOf c' (declId d) = Some m /\
         (ReleaseTag.value (effectiveReleaseTag m) <= ReleaseTag.value r)%Z) /\
    (r = ReleaseTag.None \/
     exists d m, d ∈ astDeclarations s /\ metadataOf c' (declId d) = Some m /\
                 effectiveReleaseTag m = r) /\
    (forall parentId, parentAstSymbol s = Some parentId ->
       is_Some (symbolMetadata c' !! parentId)).
Proof.
  intros Hs Hnone H. destruct fuel as [|fuel]; simpl in H; [done|].
  rewrite Hnone in H. rewrite bool_decide_eq_false_2 in H by (intros [? ?]; done).
  rewrite Hs in H. simpl in H.
  apply bind_Done in H as (c1 & H1 & H).
  unfold solveSymbol in H.
  apply bind_Done in H as (c2 & H2 & H).
  apply bind_Done in H as (c3 & H3 & H).
  apply bind_Done in H as (r & Hmax & H). inversion H; subst c'. clear H.
  apply max_loop in Hmax as (Hall & _ & Hatt).
  exists r. simpl. rewrite lookup_insert_eq. split_and!; [done| | |].
  - intros d Hd. split; [|by apply Hall].
    eapply (forEach_collect _ (fun _ => True) dm_grow
              (fun d c => is_Some (declarationMetadata c !! declId d)))
      in H3 as (_ & _ & Hdm);
      [by apply Hdm|apply dm_grow_refl|apply dm_grow_trans| | |done].
    + intros x ca cb [m Hm] Hg. destruct (Hg _ _ Hm) as (m' & -> & _). eauto.
    + intros ca x cb _ _ Hrun. split; [done|].
      pose proof (dm_grow_calculateApiItemMetadata_with p _
                    (dm_grow_fetchSymbolMetadata p fuel) _ _ _ Hrun) as Hg.
      split; [done|].
      unfold _calculateApiItemMetadata_with in Hrun.
      apply bind_Done in Hrun as (sym & _ & Hrun).
      destruct (declarationMetadata ca !! declId x) as [m|] eqn:Hm; [|done].
      destruct (Hg _ _ Hm) as (m' & -> & _). eauto.
  - destruct Hatt as [->|Hatt]; [by left|by right].
  - intros parentId Hp. rewrite Hp in H1.
    assert (Hsolved : is_Some (symbolMetadata c1 !! parentId)).
    { case_bool_decide as Hpn.
      - by apply fetchSymbolMetadata_solves in H1.
      - inversion H1; subst. destruct (symbolMetadata c1 !! parentId); [eauto|done]. }
    destruct Hsolved as [rp Hrp].
    apply store_grow_declarationMetadata in H2 as (Hs2 & _).
    apply (store_grow_calculate_loop p _ (store_grow_fetchSymbolMetadata p fuel)) in H3
      as (Hs3 & _).
    destruct (decide (parentId = sid)) as [->|Hne].
    + rewrite lookup_insert_eq. eauto.
    + rewrite lookup_insert_ne by done. exists rp. auto.
Qed.

Example symbol_metadata_is_max_witness :
  getSymbol progAccessors 2%positive = Done valueSymbol /\
  symbolMetadata accessorsAnalyzed !! 2%positive = None /\
  _fetchSymbolMetadata progAccessors 10 2%positive accessorsAnalyzed = Done accessorsFetched /\
  is_Some (symbolMetadata accessorsFetched !! 2%positive) /\
  is_Some (symbolMetadata accessorsFetched !! 1%positive).
Proof.
  assert (Hs : getSymbol progAccessors 2%positive = Done valueSymbol) by reflexivity.
  assert (Hnone : symbolMetadata accessorsAnalyzed !! 2%positive = None)
    by (vm_compute; reflexivity).
  assert (Hrun : _fetchSymbolMetadata progAccessors 10 2%positive accessorsAnalyzed
                 = Done accessorsFetched) by (vm_compute; reflexivity).
  destruct (symbol_metadata_is_max _ _ _ _ _ _ Hs Hnone Hrun) as (r & Hr & _ & _ & Hparent).
  split_and!; [exact Hs|exact Hnone|exact Hrun|by exists r|by apply Hparent].
Defined.

(** ** Setters without a getter *)

(** The loop over the declarations of the setter's symbol. *)
Lemma getter_loop (setter : AstDeclaration) (l : list AstDeclaration) :
  forall r r',
    forEach (fun (r : Collector * bool) getterAstDeclaration =>
       if bool_decide (declaration_kind getterAstDeclaration = GetAccessor) then
         c ← _addAncillaryDeclaration getterAstDeclaration setter (fst r);
         Done (c, true)
       else Done r) l r = Done r' ->
    messages (fst r') = messages (fst r) /\
    (Exists (fun d => declaration_kind d = GetAccessor) l -> snd r' = true) /\
    (~ Exists (fun d => declaration_kind d = GetAccessor) l -> r' = r).
Proof.
  induction l as [|x l IH]; intros r r' H; simpl in H.
  { inversion H; subst. split_and!; auto. intros Hex. by apply Exists_nil in Hex. }
  apply bind_Done in H as (r1 & H1 & H).
  destruct (IH _ _ H) as (Hm & Hyes & Hno). clear IH.
  case_bool_decide as Hk.
  - apply bind_Done in H1 as (c1 & Hadd & H1). inversion H1; subst r1. simpl in *.
    destruct (messages_grow_addAncillary _ _ _ _ Hadd) as [more Hmore].
    assert (Hsame : messages c1 = messages (fst r)).
    { apply addAncillary_spec in Hadd as [[-> _]|(? & ? & _ & _ & _ & _ & _ & _ & _
                                                  & ? & _ & ->)]; done. }
    split_and!; [congruence| |].
    + intros _. destruct (decide (Exists (fun d => declaration_kind d = GetAccessor) l))
        as [Hex|Hnex]; [by apply Hyes|]. by rewrite (Hno Hnex).
    + intros Hnex. exfalso. apply Hnex. by left.
  - inversion H1; subst r1. split_and!; [done| |].
    + intros Hex. apply Exists_cons in Hex as [?|Hex]; [done|by apply Hyes].
    + intros Hnex. apply Hno. intros Hex. apply Hnex. by right.
Qed.

(** X6.  [_calculateDeclarationMetadataForDeclarations] reports [MissingGetter]
    exactly for the setters of a symbol that has no getter, once for each
    setter and in the order of the declarations, and reports nothing else;
    in a symbol without a getter no declaration is made ancillary: each has
    the new [DeclarationMetadata] with its own doc comment. *)
Theorem setter_without_getter_is_reported (p : Program) (s : AstSymbol) (c c' : Collector) :
  (forall d, d ∈ astDeclarations s -> getSymbol p (decl_astSymbol (declId d)) = Done s) ->
  _calculateDeclarationMetadataForDeclarations p s c = Done c' ->
  messages c' = messages c ++ missingGetterMessages s /\
  (hasGetter s = false ->
   forall d, d ∈ astDeclarations s ->
     declarationMetadata c' !! declId d = Some (newDeclarationMetadata d)).
Proof.
  intros Hown H. unfold _calculateDeclarationMetadataForDeclarations in H.
  apply bind_Done in H as (c1 & H1 & H2).
  apply initialize_fresh in H1 as (Hm1 & Hnew & _).
  assert (Hloop : forall l ca cb,
            (forall d, d ∈ l -> d ∈ astDeclarations s) ->
            forEach (fun c astDeclaration =>
              if bool_decide (declaration_kind astDeclaration = SetAccessor) then
                owner ← getSymbol p (decl_astSymbol (declId astDeclaration));
                '(c, foundGetter) ← forEach (fun (r : Collector * bool) getterAstDeclaration =>
                       if bool_decide (declaration_kind getterAstDeclaration = GetAccessor) then
                         c ← _addAncillaryDeclaration getterAstDeclaration astDeclaration (fst r);
                         Done (c, true)
                       else Done r)
                     (astDeclarations owner) (c, false);
                Done (if (foundGetter : bool) then c
                      else addAnalyzerIssue MissingGetter
                             (OnDeclaration (declId astDeclaration)) c)
              else Done c) l ca = Done cb ->
            messages cb = messages ca ++
              (if hasGetter s then []
               else (fun d => (MissingGetter, OnDeclaration (declId d)))
                      <$> filter (fun d => declaration_kind d = SetAccessor) l) /\
            (hasGetter s = false -> declarationMetadata cb = declarationMetadata ca)).
  { induction l as [|x l IH]; intros ca cb Hsub Hrun; simpl in Hrun.
    { inversion Hrun; subst. split; [|done]. destruct (hasGetter s); by rewrite app_nil_r. }
    apply bind_Done in Hrun as (cx & Hx & Hrun).
    apply IH in Hrun as [Hm Hd]; [|intros d Hd; apply Hsub; by right].
    assert (Hstep : messages cx = messages ca ++
              (if hasGetter s then []
               else if bool_decide (declaration_kind x = SetAccessor)
                    then [(MissingGetter, OnDeclaration (declId x))] else []) /\
              (hasGetter s = false -> declarationMetadata cx = declarationMetadata ca)).
    { case_bool_decide as Hk.
      2:{ inversion Hx; subst. split; [|done]. destruct (hasGetter s); by rewrite app_nil_r. }
      rewrite (Hown x) in Hx by (apply Hsub; by left). simpl in Hx.
      apply bind_Done in Hx as ([c4 found] & Hinner & Hx).
      apply getter_loop in Hinner as (Hm4 & Hyes & Hno). simpl in *.
      unfold hasGetter. case_bool_decide as Hg.
      - rewrite (Hyes Hg) in Hx. inversion Hx; subst. rewrite app_nil_r. done.
      - specialize (Hno Hg). inversion Hno; subst. inversion Hx; subst. simpl. done. }
    destruct Hstep as [Hmx Hdx]. split.
    - rewrite Hm, Hmx, <- app_assoc. f_equal. destruct (hasGetter s); [done|].
      case_bool_decide as Hk.
      + by rewrite filter_cons_True.
      + by rewrite filter_cons_False.
    - intros Hg. rewrite (Hd Hg). by apply Hdx. }
  apply Hloop in H2 as [Hm2 Hd2]; [|done].
  split.
  - rewrite Hm2, Hm1. done.
  - intros Hg d Hd. rewrite (Hd2 Hg). by apply Hnew.
Qed.

Example setter_without_getter_is_reported_witness :
  (forall d, d ∈ astDeclarations onlySymbol ->
     getSymbol progLoneSetter (decl_astSymbol (declId d)) = Done onlySymbol) /\
  _calculateDeclarationMetadataForDeclarations progLoneSetter onlySymbol newCollector
    = Done (addAnalyzerIssue MissingGetter (OnDeclaration (declId loneSetter))
              (setDeclarationMetadata (declId loneSetter)
                 (newDeclarationMetadata loneSetter) newCollector)) /\
  messages (addAnalyzerIssue MissingGetter (OnDeclaration (declId loneSetter))
              (setDeclarationMetadata (declId loneSetter)
                 (newDeclarationMetadata loneSetter) newCollector))
    = [(MissingGetter, OnDeclaration (declId loneSetter))].
Proof.
  assert (Hown : forall d, d ∈ astDeclarations onlySymbol ->
            getSymbol progLoneSetter (decl_astSymbol (declId d)) = Done onlySymbol).
  { intros d Hd. apply list_elem_of_singleton in Hd. by subst. }
  assert (Hrun : _calculateDeclarationMetadataForDeclarations progLoneSetter onlySymbol
                   newCollector
                 = Done (addAnalyzerIssue MissingGetter (OnDeclaration (declId loneSetter))
                           (setDeclarationMetadata (declId loneSetter)
                              (newDeclarationMetadata loneSetter) newCollector)))
    by (vm_compute; reflexivity).
  split_and!; [exact Hown|exact Hrun|].
  destruct (setter_without_getter_is_reported _ _ _ _ Hown Hrun) as [Hm _].
  rewrite Hm. reflexivity.
Defined.

(** ** The doc comment of a getter/setter pair *)

Lemma calculate_doc (p : Program) (fuel : nat) (d : AstDeclaration) (c c' : Collector)
    (m : InternalDeclarationMetadata) :
  _calculateApiItemMetadata_with p (_fetchSymbolMetadata p fuel) d c = Done c' ->
  declarationMetadata c !! declId d = Some m -> isAncillary m = false ->
  exists o, metadataOf c' (declId d) = Some o /\ tsdocComment o = tsdocParserContext m.
Proof.
  unfold _calculateApiItemMetadata_with. intros H Hm Hanc.
  apply bind_Done in H as (sym & _ & H). rewrite Hm, Hanc in H.
  destruct (readModifierTags sym d (tsdocParserContext m) c) as [[declared pre] c1].
  apply bind_Done in H as ([[eff same] c2] & _ & H).
  apply bind_Done in H as ([eff' c3] & _ & H).
  inversion H; subst. rewrite metadataOf_attach. eauto.
Qed.

Lemma calculate_setter_with_docs (p : Program) (fuel : nat) (d : AstDeclaration)
    (c c' : Collector) (m : InternalDeclarationMetadata) :
  _calculateApiItemMetadata_with p (_fetchSymbolMetadata p fuel) d c = Done c' ->
  declarationMetadata c !! declId d = Some m -> isAncillary m = true ->
  declaration_kind d = SetAccessor -> is_Some (tsdocParserContext m) ->
  (SetterWithDocs, OnDeclaration (declId d)) ∈ messages c' /\
  metadataOf c' = metadataOf c.
Proof.
  unfold _calculateApiItemMetadata_with. intros H Hm Hanc Hk Hdoc.
  apply bind_Done in H as (sym & _ & H). rewrite Hm, Hanc, Hk in H.
  rewrite !bool_decide_eq_true_2 in H by done. simpl in H. inversion H; subst.
  split; [|done]. simpl. apply elem_of_app. right. by left.
Qed.

(** X7.  A getter/setter pair shares the [ApiItemMetadata] made for the
    getter: its doc comment is the getter's, whatever the setter's says; and
    when the setter has a doc comment too, [SetterWithDocs] is reported for
    the setter. *)
Theorem setter_docs_are_reported_and_dropped (p : Program) (fuel : nat) (sid : EntityId)
    (sym : AstSymbol) (g t : AstDeclaration) (c c' : Collector) :
  accessor_pair p sid sym g t -> symbolMetadata c !! sid = None ->
  _fetchSymbolMetadata p fuel sid c = Done c' ->
  (exists o, metadataOf c' (declId g) = Some o /\ metadataOf c' (declId t) = Some o /\
             tsdocComment o = parsedTsdoc g) /\
  (is_Some (parsedTsdoc t) -> (SetterWithDocs, OnDeclaration (declId t)) ∈ messages c').
Proof.
  intros Hpair Hnone H.
  pose proof (accessor_pair_fetched _ _ _ _ _ _ _ _ Hpair Hnone H) as Hlinked.
  destruct fuel as [|fuel]; simpl in H; [done|].
  rewrite Hnone in H. rewrite bool_decide_eq_false_2 in H by (intros [? ?]; done).
  pose proof Hpair as (Hsym & Hdecls & _ & Hkt & _). rewrite Hsym in H. simpl in H.
  apply bind_Done in H as (c0 & _ & H). unfold solveSymbol in H.
  apply bind_Done in H as (c1 & H1 & H).
  apply bind_Done in H as (c2 & H2 & H).
  apply bind_Done in H as (r & _ & H). inversion H; subst c'. clear H.
  apply (accessor_pair_declarationMetadata _ _ _ _ _ _ _ Hpair) in H1 as [Hg1 Ht1].
  change (metadataOf (setSymbolMetadata sid r c2)) with (metadataOf c2).
  change (messages (setSymbolMetadata sid r c2)) with (messages c2).
  assert (Hshare : forall o, metadataOf c2 (declId g) = Some o ->
                             metadataOf c2 (declId t) = Some o).
  { destruct Hlinked as (_ & _ & a & o' & _ & _ & _ & _ & _ & Hag & Hat & Ho).
    unfold metadataOf, readApiItemMetadata in *. simpl in *. by rewrite Hag, Hat. }
  destruct Hdecls as [Hd|Hd]; rewrite Hd in H2; simpl in H2;
    apply bind_Done in H2 as (cm & Ha & Hb);
    apply bind_Done in Hb as (cm' & Hb & Hc); inversion Hc; subst cm'; clear Hc.
  - destruct (calculate_doc _ _ _ _ _ _ Ha Hg1 eq_refl) as (o & Ho & Hdoc).
    pose proof (dm_grow_calculateApiItemMetadata_with p _
                  (dm_grow_fetchSymbolMetadata p fuel) _ _ _ Ha) as Hgrow.
    destruct (Hgrow _ _ Ht1) as (mt & Hmt & Hta & Htt & _). simpl in *.
    assert (Hsame : metadataOf c2 = metadataOf cm).
    { unfold _calculateApiItemMetadata_with in Hb.
      apply bind_Done in Hb as (sy & _ & Hb). rewrite Hmt, Hta in Hb.
      inversion Hb; subst. by destruct (_ && _). }
    split.
    + exists o. rewrite Hsame in *. by split_and!; auto.
    + intros Hdocs.
      apply (calculate_setter_with_docs _ _ _ _ _ _ Hb Hmt Hta Hkt). by rewrite Htt.
  - assert (Hdm : declarationMetadata cm = declarationMetadata c1).
    { unfold _calculateApiItemMetadata_with in Ha.
      apply bind_Done in Ha as (sy & _ & Ha). rewrite Ht1 in Ha. simpl in Ha.
      inversion Ha; subst. by destruct (_ && _). }
    rewrite <- Hdm in Hg1.
    destruct (calculate_doc _ _ _ _ _ _ Hb Hg1 eq_refl) as (o & Ho & Hdoc).
    split.
    + exists o. split_and!; auto.
    + intros Hdocs.
      destruct (calculate_setter_with_docs _ _ _ _ _ _ Ha Ht1 eq_refl Hkt Hdocs) as [Hin _].
      eapply messages_grow_elem; [|exact Hin].
      apply (messages_grow_calculateApiItemMetadata_with p _
               (messages_grow_fetchSymbolMetadata' p fuel) _ _ _ Hb).
Qed.

Example setter_docs_are_reported_and_dropped_witness :
  accessor_pair progSetterWithDocs 2%positive documentedValueSymbol
    getterDeclaration documentedSetter /\
  symbolMetadata newCollector !! 2%positive = None /\
  _fetchSymbolMetadata progSetterWithDocs 10 2%positive newCollector
    = Done setterWithDocsFetched /\
  (tsdocComment <$> metadataOf setterWithDocsFetched (declId documentedSetter))
    = Some (Some noTags) /\
  (SetterWithDocs, OnDeclaration (declId documentedSetter)) ∈ messages setterWithDocsFetched.
Proof.
  assert (Hpair : accessor_pair progSetterWithDocs 2%positive documentedValueSymbol
                    getterDeclaration documentedSetter).
  { unfold accessor_pair. split_and!; try reflexivity; [by left|discriminate]. }
  assert (Hrun : _fetchSymbolMetadata progSetterWithDocs 10 2%positive newCollector
                 = Done setterWithDocsFetched) by (vm_compute; reflexivity).
  assert (Hnone : symbolMetadata newCollector !! 2%positive = None) by reflexivity.
  destruct (setter_docs_are_reported_and_dropped _ _ _ _ _ _ _ _ Hpair Hnone Hrun)
    as ((o & _ & Ht & Hdoc) & Hmsg).
  split_and!; [exact Hpair|reflexivity|exact Hrun| |].
  - rewrite Ht. simpl. by rewrite Hdoc.
  - apply Hmsg. simpl. eauto.
Defined.

(** ** Invariants of the declaration metadata *)

(** A property of the [DeclarationMetadata] objects that the two writers
    keep is kept by [_fetchSymbolMetadata]. *)
Section DeclarationMetadataInvariant.
Variable I : gmap DeclId InternalDeclarationMetadata -> Prop.
Hypothesis I_init : forall dm d,
  I dm -> dm !! declId d = None -> I (<[declId d := newDeclarationMetadata d]> dm).
Hypothesis I_add : forall main anc c c',
  I (declarationMetadata c) -> _addAncillaryDeclaration main anc c = Done c' ->
  I (declarationMetadata c').

Lemma invariant_declarationMetadata (p : Program) (s : AstSymbol) (c c' : Collector) :
  I (declarationMetadata c) ->
  _calculateDeclarationMetadataForDeclarations p s c = Done c' ->
  I (declarationMetadata c').
Proof.
  intros HI H. unfold _calculateDeclarationMetadataForDeclarations in H.
  apply bind_Done in H as (c1 & H1 & H2).
  assert (HI1 : I (declarationMetadata c1)).
  { eapply (forEach_invariant _ (fun c => I (declarationMetadata c))); [|exact HI|exact H1].
    clear H1 H2. intros c2 x c3 _ Hc2 Hb. simpl in Hb.
    case_bool_decide as Hx; [done|]. inversion Hb; subst. simpl. apply I_init; [done|].
    destruct (declarationMetadata c2 !! declId x); [exfalso; eauto|done]. }
  eapply (forEach_invariant _ (fun c => I (declarationMetadata c))); [|exact HI1|exact H2].
  clear H1 H2. intros c2 x c3 Hx Hc2 Hb. cbv beta in Hb.
  case_bool_decide as Hk; [|by inversion Hb; subst].
  apply bind_Done in Hb as (owner & Howner & Hb).
  apply bind_Done in Hb as ([c4 found] & Hinner & Hb).
  assert (H4 : I (declarationMetadata (fst (c4, found)))).
  { eapply (forEach_invariant _ (fun r => I (declarationMetadata (fst r))));
      [| |exact Hinner]; [|exact Hc2].
    intros r getter r' Hgetter Hr Hbody. cbv beta in Hbody.
    case_bool_decide as Hkg; [|by inversion Hbody; subst].
    apply bind_Done in Hbody as (c5 & Hadd & Hbody). inversion Hbody; subst. simpl.
    by eapply I_add. }
  inversion Hb; subst. by destruct found.
Qed.

Lemma invariant_calculate (p : Program)
    (fetchSym : EntityId -> Collector -> Outcome Collector) d c c' :
  (forall e c c', fetchSym e c = Done c' ->
     I (declarationMetadata c) -> I (declarationMetadata c')) ->
  _calculateApiItemMetadata_with p fetchSym d c = Done c' ->
  I (declarationMetadata c) -> I (declarationMetadata c').
Proof.
  intros Hfetch H HI. unfold _calculateApiItemMetadata_with in H.
  apply bind_Done in H as (sym & _ & H).
  destruct (declarationMetadata c !! declId d) as [m|] eqn:Hm; [|done].
  destruct (isAncillary m).
  { inversion H; subst. by destruct (_ && _). }
  destruct (readModifierTags_spec sym d (tsdocParserContext m) c)
    as (pre & c1 & more & Hread & _ & _ & _ & _ & Hd1 & _).
  rewrite Hread in H.
  apply bind_Done in H as ([[eff same] c2] & H2 & H).
  apply bind_Done in H as ([eff' c3] & H3 & H).
  apply healReleaseTag_spec in H3 as (_ & _ & _ & Hd3 & _).
  inversion H; subst. clear H.
  match goal with |- context [attachApiItemMetadata ?d ?dm ?o ?c] =>
    destruct (attach_spec d dm o c) as (_ & _ & _ & Hd & _) end.
  rewrite Hd, Hd3. rewrite <- Hd1 in HI. clear Hd Hd3 Hd1 Hread Hm.
  unfold inheritReleaseTag, fetchApiItemMetadata_with in H2.
  destruct (parent d) as [pd|]; [|by inversion H2; subst].
  apply bind_Done in H2 as ([a c4] & Hf & H2).
  apply bind_Done in Hf as (c5 & H5 & H6). inversion H6; subst.
  destruct (_ ≫= _); [|done]. inversion H2; subst. clear H2 H6.
  case_bool_decide; [eauto|]. by inversion H5; subst.
Qed.

Lemma invariant_fetchSymbolMetadata (p : Program) (fuel : nat) :
  forall e c c', _fetchSymbolMetadata p fuel e c = Done c' ->
                 I (declarationMetadata c) -> I (declarationMetadata c').
Proof.
  induction fuel as [|fuel IH]; intros e c c' H HI; simpl in H; [done|].
  case_bool_decide; [by inversion H; subst|].
  apply bind_Done in H as (s & Hs & H).
  apply bind_Done in H as (c1 & H1 & H).
  assert (HI1 : I (declarationMetadata c1)).
  { destruct (parentAstSymbol s); [case_bool_decide|]; eauto; by inversion H1; subst. }
  unfold solveSymbol in H.
  apply bind_Done in H as (c2 & H2 & H).
  apply bind_Done in H as (c3 & H3 & H).
  apply bind_Done in H as (r & _ & H). inversion H; subst c'. simpl.
  apply (invariant_declarationMetadata _ _ _ _ HI1) in H2.
  eapply (forEach_invariant _ (fun c => I (declarationMetadata c))); [|exact H2|exact H3].
  intros ca x cb _ Hca Hrun. exact (invariant_calculate p _ _ _ _ IH Hrun Hca).
Qed.
End DeclarationMetadataInvariant.

Lemma links_ok_init (dm : gmap DeclId InternalDeclarationMetadata) (d : AstDeclaration) :
  links_ok dm -> dm !! declId d = None ->
  links_ok (<[declId d := newDeclarationMetadata d]> dm).
Proof.
  intros (Hitems & Hnd & Hown & Hlisted) Hfresh.
  assert (Hold : forall x m, <[declId d := newDeclarationMetadata d]> dm !! x = Some m ->
            (x = declId d /\ m = newDeclarationMetadata d) \/ (x <> declId d /\ dm !! x = Some m)).
  { intros x m Hm. destruct (decide (x = declId d)) as [->|Hne].
    - rewrite lookup_insert_eq in Hm. inversion Hm. by left.
    - rewrite lookup_insert_ne in Hm by done. by right. }
  assert (Hkeep : forall x m, dm !! x = Some m ->
            <[declId d := newDeclarationMetadata d]> dm !! x = Some m).
  { intros x m Hm. rewrite lookup_insert_ne; [done|]. intros <-. congruence. }
  split_and!.
  - intros x m y Hm Hy. destruct (Hold _ _ Hm) as [[-> ->]|[_ Hm']].
    + by apply elem_of_nil in Hy.
    + destruct (Hitems _ _ _ Hm' Hy) as (my & Hmy & Ha). eauto.
  - intros x m Hm. destruct (Hold _ _ Hm) as [[-> ->]|[_ Hm']]; [constructor|eauto].
  - intros d1 d2 m1 m2 x H1 H2 Hx1 Hx2.
    destruct (Hold _ _ H1) as [[-> ->]|[_ H1']]; [by apply elem_of_nil in Hx1|].
    destruct (Hold _ _ H2) as [[-> ->]|[_ H2']]; [by apply elem_of_nil in Hx2|].
    eauto.
  - intros x mx Hm Ha. destruct (Hold _ _ Hm) as [[-> ->]|[_ Hm']]; [done|].
    destruct (Hlisted _ _ Hm' Ha) as (d0 & m0 & Hm0 & Hx). eauto.
Qed.

(** The two ways for [_addAncillaryDeclaration] to return. *)
Lemma addAncillary_cases (main anc : AstDeclaration) (c c' : Collector) :
  _addAncillaryDeclaration main anc c = Done c' ->
  exists mm am,
    declarationMetadata c !! declId main = Some mm /\
    declarationMetadata c !! declId anc = Some am /\
    ((declId anc ∈ ancillaryDeclarations mm /\ c' = c) \/
     ((declId anc ∉ ancillaryDeclarations mm) /\
      isAncillary mm = false /\ isAncillary am = false /\
      let am' := mkDeclarationMetadata (tsdocParserContext am) true
                   (ancillaryDeclarations am) (inheritedDeclarations am) in
      let mm' := if decide (declId main = declId anc) then am' else mm in
      declarationMetadata c'
      = <[declId main := mkDeclarationMetadata (tsdocParserContext mm') (isAncillary mm')
                           (ancillaryDeclarations mm' ++ [declId anc])
                           (inheritedDeclarations mm')]>
          (<[declId anc := am']> (declarationMetadata c)))).
Proof.
  unfold _addAncillaryDeclaration. intros H.
  destruct (declarationMetadata c !! declId main) as [mm|] eqn:Hmm; [|done].
  destruct (declarationMetadata c !! declId anc) as [am|] eqn:Ham; [|done].
  exists mm, am. split_and!; [done|done|].
  case_bool_decide as Halready; [inversion H; left; eauto|].
  case_bool_decide as Hsym; [done|].
  destruct (isAncillary mm) eqn:Hma; [done|].
  destruct (isAncillary am) eqn:Haa; [done|].
  destruct (bool_decide (is_Some (apiItemMetadata c !! declId main))
            || bool_decide (is_Some (apiItemMetadata c !! declId anc))); [done|].
  simpl in H. right. split_and!; [done|done|done|]. cbv zeta.
  destruct (decide (declId main = declId anc)) as [Heq|Hne].
  - rewrite Heq in H. rewrite lookup_insert_eq in H. inversion H; subst. simpl.
    by rewrite Heq.
  - rewrite lookup_insert_ne in H by done. rewrite Hmm in H. by inversion H; subst.
Qed.

Lemma links_ok_add (main anc : AstDeclaration) (c c' : Collector) :
  links_ok (declarationMetadata c) -> _addAncillaryDeclaration main anc c = Done c' ->
  links_ok (declarationMetadata c').
Proof.
  intros Hok H.
  apply addAncillary_cases in H as (mm & am & Hmm & Ham & [[_ ->]|(Hfresh & Hma & Haa & Hdm)]);
    [done|].
  cbv zeta in Hdm. rewrite Hdm. clear Hdm c'.
  set (M := declarationMetadata c) in *.
  set (am' := mkDeclarationMetadata (tsdocParserContext am) true
                (ancillaryDeclarations am) (inheritedDeclarations am)).
  set (mm' := if decide (declId main = declId anc) then am' else mm).
  set (E := mkDeclarationMetadata (tsdocParserContext mm') (isAncillary mm')
              (ancillaryDeclarations mm' ++ [declId anc]) (inheritedDeclarations mm')).
  set (M' := <[declId main := E]> (<[declId anc := am']> M)).
  assert (Hlist : ancillaryDeclarations mm' = ancillaryDeclarations mm).
  { unfold mm'. destruct (decide (declId main = declId anc)) as [Heq|]; [|done].
    rewrite Heq, Ham in Hmm. injection Hmm as <-. reflexivity. }
  assert (Hmain : M' !! declId main = Some E) by (unfold M'; by rewrite lookup_insert_eq).
  assert (Hanc : exists m, M' !! declId anc = Some m /\ isAncillary m = true).
  { unfold M'. destruct (decide (declId main = declId anc)) as [Heq|Hne].
    - rewrite <- Heq, lookup_insert_eq. exists E. split; [done|]. reflexivity.
    - rewrite lookup_insert_ne, lookup_insert_eq by done. by exists am'. }
  assert (Hold : forall x m, M' !! x = Some m ->
            exists m0, M !! x = Some m0 /\
              ((x = declId main /\
                ancillaryDeclarations m = ancillaryDeclarations m0 ++ [declId anc]) \/
               (x <> declId main /\ ancillaryDeclarations m = ancillaryDeclarations m0)) /\
              (isAncillary m = true -> isAncillary m0 = true \/ x = declId anc)).
  { intros x m Hm. unfold M' in Hm. destruct (decide (x = declId main)) as [->|Hxm].
    - rewrite lookup_insert_eq in Hm. inversion Hm; subst m. exists mm.
      split_and!; [done|left; by rewrite <- Hlist|].
      unfold E, mm'. simpl. destruct (decide (declId main = declId anc)); [by right|by left].
    - rewrite lookup_insert_ne in Hm by done.
      destruct (decide (x = declId anc)) as [->|Hxa].
      + rewrite lookup_insert_eq in Hm. inversion Hm; subst m. exists am.
        split_and!; [done|by right|by right].
      + rewrite lookup_insert_ne in Hm by done. exists m.
        split_and!; [done|by right|by left]. }
  assert (Hnew : forall x m0, M !! x = Some m0 ->
            exists m, M' !! x = Some m /\
              (isAncillary m0 = true -> isAncillary m = true) /\
              (forall y, y ∈ ancillaryDeclarations m0 -> y ∈ ancillaryDeclarations m)).
  { intros x m0 Hm0. unfold M'. destruct (decide (x = declId main)) as [->|Hxm].
    - rewrite lookup_insert_eq. exists E. rewrite Hmm in Hm0. inversion Hm0; subst m0.
      split_and!; [done|congruence|].
      intros y Hy. unfold E. simpl. rewrite Hlist. apply elem_of_app. by left.
    - rewrite lookup_insert_ne by done.
      destruct (decide (x = declId anc)) as [->|Hxa].
      + rewrite lookup_insert_eq. exists am'. rewrite Ham in Hm0. inversion Hm0; subst m0.
        by split_and!.
      + rewrite lookup_insert_ne by done. exists m0. by split_and!. }
  destruct Hok as (Hitems & Hnd & Hown & Hlisted).
  assert (Hnotlisted : forall d m0, M !! d = Some m0 -> declId anc ∉ ancillaryDeclarations m0).
  { intros d m0 Hm0 Hin. destruct (Hitems _ _ _ Hm0 Hin) as (mx & Hmx & Hax).
    rewrite Hmx in Ham. injection Ham as ->. congruence. }
  split_and!.
  - intros d m x Hm Hx. destruct (Hold _ _ Hm) as (m0 & Hm0 & Hl & _).
    assert (Hcase : x ∈ ancillaryDeclarations m0 \/ x = declId anc).
    { destruct Hl as [[_ Hl]|[_ Hl]]; rewrite Hl in Hx; [|by left].
      apply elem_of_app in Hx as [Hx|Hx]; [by left|].
      apply list_elem_of_singleton in Hx. by right. }
    destruct Hcase as [Hx0| ->]; [|exact Hanc].
    destruct (Hitems _ _ _ Hm0 Hx0) as (mx & Hmx & Hax).
    destruct (Hnew _ _ Hmx) as (mx' & Hmx' & Hax' & _). eauto.
  - intros d m Hm. destruct (Hold _ _ Hm) as (m0 & Hm0 & Hl & _).
    destruct Hl as [[_ Hl]|[_ Hl]]; rewrite Hl; [|by eapply Hnd].
    apply NoDup_app. split_and!; [by eapply Hnd| |apply NoDup_singleton].
    intros y Hy Hy'. apply list_elem_of_singleton in Hy'. subst y.
    by apply (Hnotlisted _ _ Hm0).
  - intros d1 d2 m1 m2 x H1 H2 Hx1 Hx2.
    destruct (Hold _ _ H1) as (m01 & Hm01 & Hl1 & _).
    destruct (Hold _ _ H2) as (m02 & Hm02 & Hl2 & _).
    destruct Hl1 as [[-> Hl1]|[Hn1 Hl1]], Hl2 as [[-> Hl2]|[Hn2 Hl2]];
      rewrite Hl1 in Hx1; rewrite Hl2 in Hx2; [done| | |by eapply Hown].
    + apply elem_of_app in Hx1 as [Hx1|Hx1]; [by eapply Hown|].
      apply list_elem_of_singleton in Hx1. subst x. by destruct (Hnotlisted _ _ Hm02).
    + apply elem_of_app in Hx2 as [Hx2|Hx2]; [by eapply Hown|].
      apply list_elem_of_singleton in Hx2. subst x. by destruct (Hnotlisted _ _ Hm01).
  - intros x mx Hm Ha. destruct (Hold _ _ Hm) as (m0 & Hm0 & _ & Hanc0).
    destruct (Hanc0 Ha) as [Ha0| ->].
    + destruct (Hlisted _ _ Hm0 Ha0) as (d & md & Hmd & Hx).
      destruct (Hnew _ _ Hmd) as (md' & Hmd' & _ & Hin). eauto.
    + exists (declId main), E. split; [done|]. unfold E. simpl.
      apply elem_of_app. right. by left.
Qed.

(** X8.  The links between main and ancillary declarations keep their
    documented shape through every run of [_fetchSymbolMetadata], from the new
    Collector on: a declaration listed in an [ancillaryDeclarations] array is
    ancillary; no array lists a declaration twice; no declaration is ancillary
    to two declarations; and every ancillary declaration is listed by some
    declaration. *)
Theorem ancillary_links_keep_their_shape (p : Program) (fuel : nat) (e : EntityId)
    (c c' : Collector) :
  links_ok (declarationMetadata c) ->
  _fetchSymbolMetadata p fuel e c = Done c' ->
  links_ok (declarationMetadata c') /\ links_ok (declarationMetadata newCollector).
Proof.
  intros Hok H. split.
  - exact (invariant_fetchSymbolMetadata links_ok links_ok_init links_ok_add p fuel
             e c c' H Hok).
  - split_and!; intros *; simpl; rewrite ?lookup_empty; done.
Qed.

Example ancillary_links_keep_their_shape_witness :
  links_ok (declarationMetadata newCollector) /\
  _fetchSymbolMetadata progSetterWithDocs 10 2%positive newCollector
    = Done setterWithDocsFetched /\
  links_ok (declarationMetadata setterWithDocsFetched).
Proof.
  assert (Hnew : links_ok (declarationMetadata newCollector)).
  { split_and!; intros *; simpl; rewrite ?lookup_empty; done. }
  assert (Hrun : _fetchSymbolMetadata progSetterWithDocs 10 2%positive newCollector
                 = Done setterWithDocsFetched) by (vm_compute; reflexivity).
  split_and!; [exact Hnew|exact Hrun|].
  apply (ancillary_links_keep_their_shape _ _ _ _ _ Hnew Hrun).
Defined.

(** ** Invariants of the traversal *)

(** A property of the Collector that [_createCollectorEntity] keeps for the
    entities of [Q], a set closed under references and re-exports, is kept by
    the traversal from an entity of [Q]. *)
Section TraversalInvariant.
Variables (p : Program) (I : Collector -> Prop) (Q : EntityId -> Prop).
Hypothesis Q_edge : forall x y, Q x -> edge p x y -> Q y.
Hypothesis I_create : forall c e b, I c -> Q e -> I (_createCollectorEntity e None b c).
Hypothesis I_import : forall c e ns entity,
  I c -> Q e -> _entitiesByAstEntity c !! e = Some entity ->
  I (updateEntity e (addAstNamespaceImports ns entity) c).

Lemma traversal_invariant (fuel : nat) :
  forall (e : EntityId) (w w' : Walk),
    _createEntityForIndirectReferences p fuel e w = Done w' ->
    Q e -> I (collector w) -> I (collector w').
Proof.
  induction fuel as [|fuel IH]; intros e w w' Hrun HQ HI; simpl in Hrun; [done|].
  case_bool_decide as Hseen; [by inversion Hrun; subst|].
  destruct (astEntities p !! e) as [[s|name ex|name]|] eqn:He;
    [| |by inversion Hrun; subst..].
  - eapply (forEach_invariant _ (fun w => I (collector w))); [| |exact Hrun]; [|exact HI].
    intros w1 r w2 Hr HI1 Hbody. cbv beta zeta in Hbody.
    destruct (_entitiesByAstEntity (collector w1) !! e) as [entity|]; [|done].
    assert (HQr : Q (ref_astEntity r)).
    { apply (Q_edge e); [done|]. left. by exists s, r. }
    apply IH in Hbody; [done|done|]. simpl.
    destruct (astEntities p !! ref_astEntity r) as [[t|? ?|?]|]; auto.
    destruct (parentAstSymbol t); auto.
  - eapply (forEach_invariant _ (fun w => I (collector w))); [| |exact Hrun]; [|exact HI].
    intros w1 x w2 Hx HI1 Hbody. cbv beta zeta in Hbody.
    assert (HQx : Q x).
    { apply (Q_edge e); [done|]. right. by exists name, ex. }
    apply IH in Hbody; [done|done|]. simpl.
    destruct (_entitiesByAstEntity (_createCollectorEntity x None false (collector w1)) !! x)
      as [entity|] eqn:Hl; auto.
Qed.
End TraversalInvariant.

(** A property of the entity graph that holds once the exports of the entry
    module are registered, and that the traversal, the renaming and the
    sorting keep, holds after [analyze]. *)
Section AnalyzeInvariant.
Variables (p : Program) (I : Collector -> Prop) (Q : EntityId -> Prop).
Hypothesis Q_edge : forall x y, Q x -> edge p x y -> Q y.
Hypothesis Q_exports : forall x, x ∈ (entryExports p).*2 -> Q x.
Hypothesis I_create : forall c e b, I c -> Q e -> I (_createCollectorEntity e None b c).
Hypothesis I_import : forall c e ns entity,
  I c -> Q e -> _entitiesByAstEntity c !! e = Some entity ->
  I (updateEntity e (addAstNamespaceImports ns entity) c).
Hypothesis I_graph : forall c c', same_graph c c' -> I c -> I c'.
Hypothesis I_renamed : forall c c', renamed c c' -> I c -> I c'.
Hypothesis I_sorted : forall c, I c -> I (sortEntities c).
Hypothesis I_start :
  I (foldl (fun c (ex : string * EntityId) =>
              _createCollectorEntity (snd ex) (Some (fst ex)) false c)
       (setAstEntryPoint newCollector) (entryExports p)).

Lemma analyze_invariant (fuel : nat) (c : Collector) :
  analyze p fuel newCollector = Done c -> I c.
Proof.
  intros H. apply analyze_unfold in H as (w & c1 & Hloop & Hnames & ->).
  pose proof (analyze_loop _ _ _ Hloop) as ((_ & _ & Hwf) & _).
  apply makeUniqueNames_spec in Hnames as (Hr & _); [|done].
  apply I_sorted, (I_renamed _ _ Hr).
  eapply (forEach_invariant _ (fun w => I (collector w))); [| |exact Hloop]; [|exact I_start].
  intros w1 x w3 Hx HI1 Hbody.
  apply bind_Done in Hbody as (w2 & Hrun & Hbody).
  apply (traversal_invariant p I Q Q_edge I_create I_import) in Hrun; [|by apply Q_exports|done].
  destruct (astEntities p !! x) as [[s|? ?|?]|]; try (by inversion Hbody; subst).
  apply bind_Done in Hbody as (c2 & Hfetch & Hbody). inversion Hbody; subst. simpl.
  apply same_graph_fetchSymbolMetadata in Hfetch. by apply (I_graph (collector w2)).
Qed.
End AnalyzeInvariant.

Lemma reachable_edge (p : Program) (x y : EntityId) :
  reachable p x -> edge p x y -> reachable p y.
Proof. intros (r & Hr & Hrx) Hxy. exists r. split; [done|]. by eapply rtc_r. Qed.

(** X9.  [analyze] makes a [CollectorEntity] only for what the entry module
    exports or what can be reached from an export along references and
    namespace re-exports: nothing else of the program gets into the graph. *)
Theorem only_reachable_entities_are_collected (p : Program) (fuel : nat) (c : Collector)
    (ce : CollectorEntity) :
  analyze p fuel newCollector = Done c -> ce ∈ entities c ->
  reachable p (astEntity ce).
Proof.
  intros H Hin.
  assert (HI : forall e, installed c e -> reachable p e).
  { apply (analyze_invariant p (fun c => forall e, installed c e -> reachable p e)
             (reachable p)) with (fuel := fuel); [..|exact H].
    - apply reachable_edge.
    - intros x Hx. exists x. split; [done|]. apply rtc_refl.
    - intros c0 e b HI0 He x Hx. apply installed_create_inv in Hx as [->|Hx]; auto.
    - intros c0 e ns entity HI0 He Hl x Hx. apply HI0. unfold installed in *. simpl in Hx.
      destruct (decide (x = e)) as [->|Hne]; [eauto|]. by rewrite lookup_insert_ne in Hx.
    - intros c0 c' [_ Hm] HI0 e. unfold installed. rewrite Hm. apply HI0.
    - intros c0 c' (_ & Hnone & _) HI0 e [ce' Hl]. apply HI0.
      destruct (_entitiesByAstEntity c0 !! e) as [ce0|] eqn:Hl0; [red; eauto|].
      apply Hnone in Hl0. congruence.
    - intros c0 HI0 e. apply HI0.
    - assert (Hexp : forall l c0, (forall e, installed c0 e -> e ∈ (entryExports p).*2) ->
                (forall y, y ∈ l.*2 -> y ∈ (entryExports p).*2) ->
                forall e, installed (foldl (fun c (ex : string * EntityId) =>
                            _createCollectorEntity (snd ex) (Some (fst ex)) false c) c0 l) e ->
                          e ∈ (entryExports p).*2).
      { induction l as [|[n x] l IHl]; intros c0 Hc0 Hl e He; simpl in He; [by apply Hc0|].
        eapply IHl; [| |exact He].
        - intros y Hy. apply installed_create_inv in Hy as [->|Hy]; [|by apply Hc0].
          apply Hl. rewrite fmap_cons. by left.
        - intros y Hy. apply Hl. rewrite fmap_cons. by right. }
      intros e He. exists e. split; [|apply rtc_refl].
      eapply Hexp; [| |exact He]; [|done].
      intros y [? Hy]. simpl in Hy. by rewrite lookup_empty in Hy. }
  apply analyze_graph in H as ((_ & _ & Hid) & _).
  apply elem_of_entities in Hin as (e & _ & Hl).
  rewrite (Hid e ce Hl). apply HI. red. eauto.
Qed.

Example only_reachable_entities_are_collected_witness :
  analyze progUnused 10 newCollector = Done unusedAnalyzed /\
  mkCollectorEntity 2%positive [] [] true (Some "Base") ∈ entities unusedAnalyzed /\
  (astEntity <$> entities unusedAnalyzed) = [2%positive; 1%positive] /\
  reachable progUnused 2%positive.
Proof.
  assert (Hrun : analyze progUnused 10 newCollector = Done unusedAnalyzed)
    by (vm_compute; reflexivity).
  assert (Hin : mkCollectorEntity 2%positive [] [] true (Some "Base")
                ∈ entities unusedAnalyzed).
  { apply list_elem_of_In. vm_compute. auto. }
  split_and!; [exact Hrun|exact Hin|by vm_compute|].
  apply (only_reachable_entities_are_collected _ _ _ _ Hrun Hin).
Defined.

(** ** Export names *)

(** The entity that [_createCollectorEntity] leaves in the map, and the rest
    of the map. *)
Lemma create_lookup (e : EntityId) (n : option string) (b : bool) (c : Collector) :
  (exists ce',
     _entitiesByAstEntity (_createCollectorEntity e n b c) !! e = Some ce' /\
     forall m, m ∈ exportNames ce' <->
       m ∈ exportNames (default (newCollectorEntity e) (_entitiesByAstEntity c !! e)) \/
       (n = Some m /\ m <> EmptyString)) /\
  (forall x, x <> e ->
     _entitiesByAstEntity (_createCollectorEntity e n b c) !! x = _entitiesByAstEntity c !! x).
Proof.
  unfold _createCollectorEntity.
  set (old := default (newCollectorEntity e) (_entitiesByAstEntity c !! e)).
  assert (Hnames : forall ce0 : CollectorEntity, exportNames ce0 = exportNames old ->
            forall m, m ∈ exportNames
                  (let entity := match n with
                                 | Some n0 => if truthy n then addExportName n0 ce0 else ce0
                                 | None => ce0
                                 end in
                   if b then setConsumableViaInheritance entity else entity) <->
              m ∈ exportNames old \/ (n = Some m /\ m <> EmptyString)).
  { intros ce0 Hce0 m. cbv zeta.
    assert (Hb : forall x : CollectorEntity,
              exportNames (if b then setConsumableViaInheritance x else x) = exportNames x)
      by (intros x; by destruct b).
    rewrite Hb. destruct n as [n0|].
    - destruct n0 as [|a n0]; simpl.
      + rewrite Hce0. split; [by left|]. intros [?|[Heq Hne]]; [done|]. by inversion Heq; subst.
      + unfold addExportName. case_bool_decide as Hin; simpl; rewrite Hce0 in *.
        * split; [by left|]. intros [?|[Heq _]]; [done|]. by inversion Heq; subst.
        * rewrite elem_of_app, list_elem_of_singleton. split.
          -- intros [Hm | ->]; [by left|by right].
          -- intros [?|[Heq _]]; [by left|]. inversion Heq; subst. by right.
    - rewrite Hce0. split; [by left|]. by intros [?|[? _]]. }
  unfold old in *. destruct (_entitiesByAstEntity c !! e) as [ce0|] eqn:Hl; simpl.
  - split.
    + eexists. rewrite lookup_insert_eq. split; [reflexivity|]. by apply Hnames.
    + intros x Hx. by rewrite lookup_insert_ne.
  - split.
    + eexists. rewrite lookup_insert_eq. split; [reflexivity|]. by apply (Hnames _ eq_refl).
    + intros x Hx. by rewrite !lookup_insert_ne.
Qed.

Lemma exports_exact_create (exports : list (string * EntityId)) (c : Collector)
    (e : EntityId) (b : bool) :
  exports_exact exports c -> exports_exact exports (_createCollectorEntity e None b c).
Proof.
  intros [Hnames Hinst].
  destruct (create_lookup e None b c) as ((ce' & Hce' & Hex) & Hother).
  split; [|intros x Hx; by apply installed_create, Hinst].
  intros x cx Hx n. destruct (decide (x = e)) as [->|Hne].
  - rewrite Hce' in Hx. inversion Hx; subst cx. rewrite Hex.
    destruct (_entitiesByAstEntity c !! e) as [ce0|] eqn:Hl; simpl.
    + rewrite (Hnames e ce0 Hl). split; [intros [?|[? _]]; done|by left].
    + split; [intros [Hn|[? _]]; [by apply elem_of_nil in Hn|done]|].
      intros [_ Hin]. exfalso.
      assert (Hi : installed c e).
      { apply Hinst. apply list_elem_of_fmap. by exists (n, e). }
      destruct Hi as [? Hi]. congruence.
  - rewrite Hother in Hx by done. by apply Hnames.
Qed.

Lemma exports_exact_start (l done : list (string * EntityId)) (c : Collector) :
  exports_exact done c ->
  exports_exact (done ++ l)
    (foldl (fun c (ex : string * EntityId) =>
              _createCollectorEntity (snd ex) (Some (fst ex)) false c) c l).
Proof.
  revert done c. induction l as [|[n x] l IH]; intros done c Hc; simpl.
  { by rewrite app_nil_r. }
  replace (done ++ (n, x) :: l) with ((done ++ [(n, x)]) ++ l) by (by rewrite <- app_assoc).
  apply IH. destruct Hc as [Hnames Hinst].
  destruct (create_lookup x (Some n) false c) as ((ce' & Hce' & Hex) & Hother).
  split.
  - intros e ce He m. rewrite elem_of_app, list_elem_of_singleton.
    destruct (decide (e = x)) as [->|Hne].
    + rewrite Hce' in He. inversion He; subst ce. rewrite Hex.
      destruct (_entitiesByAstEntity c !! x) as [ce0|] eqn:Hl; simpl.
      * rewrite (Hnames x ce0 Hl). split.
        -- intros [[? ?]|[Heq ?]]; [by auto|]. inversion Heq; subst. auto.
        -- intros [? [?|Heq]]; [by left|]. inversion Heq; subst. by right.
      * split.
        -- intros [Hm|[Heq ?]]; [by apply elem_of_nil in Hm|]. inversion Heq; subst. auto.
        -- intros [? [Hin|Heq]]; [|inversion Heq; subst; by right]. exfalso.
           assert (Hi : installed c x).
           { apply Hinst. apply list_elem_of_fmap. by exists (m, x). }
           destruct Hi as [? Hi]. congruence.
    + rewrite Hother in He by done. rewrite (Hnames e ce He). split.
      * intros [? ?]. auto.
      * intros [? [?|Heq]]; [done|]. inversion Heq; subst. done.
  - intros y Hy. rewrite fmap_app in Hy. apply elem_of_app in Hy as [Hy|Hy].
    + by apply installed_create, Hinst.
    + simpl in Hy. apply list_elem_of_singleton in Hy. subst y. apply installed_create_self.
Qed.

(** X10.  After [analyze], the export names of every [CollectorEntity] are
    exactly the names under which the entry module exports its entity (an
    empty name is never recorded): the traversal, the renaming and the sorting
    neither add nor drop an export name, and an entity that the entry module
    does not export has none. *)
Theorem export_names_are_the_entry_exports (p : Program) (fuel : nat) (c : Collector)
    (ce : CollectorEntity) (n : string) :
  analyze p fuel newCollector = Done c -> ce ∈ entities c ->
  n ∈ exportNames ce <-> n <> EmptyString /\ (n, astEntity ce) ∈ entryExports p.
Proof.
  intros H Hin.
  assert (HI : exports_exact (entryExports p) c).
  { apply (analyze_invariant p (exports_exact (entryExports p)) (fun _ => True))
      with (fuel := fuel); [done|done|..|exact H].
    - intros c0 e b HI0 _. by apply exports_exact_create.
    - intros c0 e ns entity [Hnames Hinst] _ Hl. split.
      + intros x cx Hx m. simpl in Hx. destruct (decide (x = e)) as [->|Hne].
        * rewrite lookup_insert_eq in Hx. inversion Hx; subst cx. simpl. by apply Hnames.
        * rewrite lookup_insert_ne in Hx by done. by apply Hnames.
      + intros x Hx. by apply installed_updateEntity, Hinst.
    - intros c0 c' [_ Hm] [Hnames Hinst]. unfold exports_exact, installed. by rewrite Hm.
    - intros c0 c' Hr [Hnames Hinst]. split.
      + intros e ce' Hl m.
        destruct (renamed_exports _ _ _ _ Hr Hl) as (ce0 & Hl0 & -> & _). by apply Hnames.
      + intros x Hx. by apply (renamed_installed _ _ _ Hr), Hinst.
    - intros c0 HI0. exact HI0.
    - apply (exports_exact_start (entryExports p) []). split.
      + intros e ce0 Hl. simpl in Hl. by rewrite lookup_empty in Hl.
      + intros x Hx. by apply elem_of_nil in Hx. }
  apply analyze_graph in H as ((_ & _ & Hid) & _).
  apply elem_of_entities in Hin as (e & _ & Hl).
  rewrite (Hid e ce Hl). by apply HI.
Qed.

Example export_names_are_the_entry_exports_witness :
  analyze progUnused 10 newCollector = Done unusedAnalyzed /\
  mkCollectorEntity 2%positive [] [] true (Some "Base") ∈ entities unusedAnalyzed /\
  ("Base" ∈ exportNames (mkCollectorEntity 2%positive [] [] true (Some "Base")) <->
   "Base" <> EmptyString /\ ("Base", 2%positive) ∈ entryExports progUnused).
Proof.
  assert (Hrun : analyze progUnused 10 newCollector = Done unusedAnalyzed)
    by (vm_compute; reflexivity).
  assert (Hin : mkCollectorEntity 2%positive [] [] true (Some "Base")
                ∈ entities unusedAnalyzed).
  { apply list_elem_of_In. vm_compute. auto. }
  split_and!; [exact Hrun|exact Hin|].
  apply (export_names_are_the_entry_exports _ _ _ _ "Base" Hrun Hin).
Defined.

(** ** [analyze] runs once *)

Lemma astEntryPoint_create (e : EntityId) (n : option string) (b : bool) (c : Collector) :
  _astEntryPoint (_createCollectorEntity e n b c) = _astEntryPoint c.
Proof.
  destruct (_createCollectorEntity_unfold e n b c) as (ce & c1 & -> & _ & [[_ ->]|[_ ->]]);
    done.
Qed.

Lemma astEntryPoint_makeUniqueNames (p : Program) (fuel : nat) (c c' : Collector) :
  _makeUniqueNames p fuel c = Done c' -> _astEntryPoint c' = _astEntryPoint c.
Proof.
  unfold _makeUniqueNames. intros H.
  apply bind_Done in H as (used & _ & H).
  apply bind_Done in H as ([c1 used1] & Hloop & H). inversion H; subst c1. clear H.
  change c' with (fst (c', used1)).
  eapply (forEach_invariant _ (fun st => _astEntryPoint (fst st) = _astEntryPoint c));
    [| |exact Hloop]; [|done].
  intros [ca ua] e [cb ub] _ Ha Hb.
  apply assignName_spec in Hb as (entity & ast & n & _ & _ & -> & _). exact Ha.
Qed.

(** X11.  [analyze] can be run once on a Collector: when it has returned, a
    second call (with whatever program) throws the error
    [DtsRollupGenerator.analyze() was already called]. *)
Theorem analyze_runs_once (p p' : Program) (fuel fuel' : nat) (c0 c : Collector) :
  analyze p fuel c0 = Done c ->
  analyze p' fuel' c = Throw (Error "DtsRollupGenerator.analyze() was already called").
Proof.
  intros H. assert (He : _astEntryPoint c = true); [|unfold analyze; by rewrite He].
  unfold analyze in H. destruct (_astEntryPoint c0); [done|].
  apply bind_Done in H as (w & Hloop & H).
  apply bind_Done in H as (c1 & Hnames & H). inversion H; subst c. simpl.
  rewrite (astEntryPoint_makeUniqueNames _ _ _ _ Hnames).
  eapply (forEach_invariant _ (fun w => _astEntryPoint (collector w) = true));
    [| |exact Hloop].
  - intros w1 x w3 _ H1 Hbody.
    apply bind_Done in Hbody as (w2 & Hrun & Hbody).
    apply (traversal_invariant p (fun c => _astEntryPoint c = true) (fun _ => True)) in Hrun;
      [|done|intros; by rewrite astEntryPoint_create|by intros|done|done].
    destruct (astEntities p !! x) as [[s|? ?|?]|]; try (by inversion Hbody; subst).
    apply bind_Done in Hbody as (c2 & Hfetch & Hbody). inversion Hbody; subst. simpl.
    unfold fetchSymbolMetadata in Hfetch. case_bool_decide.
    + apply store_grow_fetchSymbolMetadata in Hfetch as (_ & _ & He). congruence.
    + by inversion Hfetch; subst.
  - simpl. generalize (entryExports p). intros l.
    assert (Hfold : forall c, _astEntryPoint c = true ->
              _astEntryPoint (foldl (fun c (ex : string * EntityId) =>
                 _createCollectorEntity (snd ex) (Some (fst ex)) false c) c l) = true).
    { induction l as [|[n x] l IH]; intros c Hc; simpl; [done|].
      apply IH. by rewrite astEntryPoint_create. }
    by apply Hfold.
Qed.

Example analyze_runs_once_witness :
  analyze progUnused 10 newCollector = Done unusedAnalyzed /\
  analyze progAliases 10 unusedAnalyzed
    = Throw (Error "DtsRollupGenerator.analyze() was already called").
Proof.
  assert (Hrun : analyze progUnused 10 newCollector = Done unusedAnalyzed)
    by (vm_compute; reflexivity).
  split; [exact Hrun|]. apply (analyze_runs_once _ _ _ _ _ _ Hrun).
Defined.

(** ** What [_makeUniqueNames] refuses and what it never emits *)

(** X12.  When two entities of the graph have an export name in common,
    [_makeUniqueNames] assigns no name: it throws the internal error
    [A package cannot have two exports with the name ...], naming an export
    name of the graph. *)
Theorem duplicate_export_name_aborts (p : Program) (fuel : nat) (c : Collector)
    (e1 e2 : EntityId) (ce1 ce2 : CollectorEntity) (n : string) :
  graph_wf c ->
  _entitiesByAstEntity c !! e1 = Some ce1 -> _entitiesByAstEntity c !! e2 = Some ce2 ->
  e1 <> e2 -> n ∈ exportNames ce1 -> n ∈ exportNames ce2 ->
  exists m,
    m ∈ allExportNames c /\
    _makeUniqueNames p fuel c
    = Throw (InternalError
        ("A package cannot have two exports with the name " +:+ dquote +:+ m +:+ dquote)).
Proof.
  intros Hwf H1 H2 Hne Hn1 Hn2. unfold _makeUniqueNames.
  pose proof (collectExportNames_ends c) as Hends.
  destruct (collectExportNames c) as [used|err|] eqn:Hc; simpl in *; [| |done].
  { apply collectExportNames_spec in Hc as (_ & Hnd & _).
    destruct Hne. by eapply (allExportNames_owner c Hwf Hnd e1 e2). }
  unfold collectExportNames in Hc.
  apply (forEach_throw _ (fun err => exists m, m ∈ allExportNames c /\
           err = InternalError
             ("A package cannot have two exports with the name " +:+ dquote +:+ m +:+ dquote)))
    in Hc as (m & Hm & ->); [by exists m|].
  intros used e err' He Hbody. destruct Hwf as (_ & Hdom & _).
  destruct (proj1 (Hdom e) He) as [ce Hce]. rewrite Hce in Hbody.
  apply (forEach_throw _ (fun err => exists m, m ∈ allExportNames c /\
           err = InternalError
             ("A package cannot have two exports with the name " +:+ dquote +:+ m +:+ dquote)))
    in Hbody; [done|].
  intros u m err'' Hm Hb. case_bool_decide; [|done]. inversion Hb; subst.
  exists m. split; [|done]. by eapply allExportNames_elem.
Qed.

(** X13.  After [_makeUniqueNames] every entity of the graph has an emitted
    name; the name is never ["default"], is never a global name, and is never
    an export name of another entity. *)
Theorem emitted_names_are_safe (p : Program) (fuel : nat) (c c' : Collector)
    (ce : CollectorEntity) :
  graph_wf c -> _makeUniqueNames p fuel c = Done c' -> ce ∈ entities c' ->
  exists n,
    nameForEmit ce = Some n /\ n <> "default" /\ hasGlobalName p n = false /\
    forall ce2, ce2 ∈ entities c' -> n ∈ exportNames ce2 -> astEntity ce2 = astEntity ce.
Proof.
  intros Hwf Hrun Hin.
  apply makeUniqueNames_spec in Hrun as (Hr & Hnd & (used' & Hnamed) & _); [|done].
  pose proof (renamed_graph_wf _ _ Hr Hwf) as (_ & _ & Hid').
  apply elem_of_entities in Hin as (e & _ & Hce).
  destruct (renamed_exports _ _ _ _ Hr Hce) as (ce0 & Hce0 & _).
  destruct (Hnamed e ltac:(red; eauto)) as (ce1 & ast & n & Hce1 & Hast & Hce' & _ & Hcase).
  rewrite Hce' in Hce. inversion Hce; subst ce. exists n. simpl. split; [done|].
  assert (Hreserved : forall m, m ∉ reservedNames p (list_to_set (allExportNames c)) ->
            m <> "default" /\ hasGlobalName p m = false /\ m ∉ allExportNames c).
  { intros m Hm. rewrite <- reserved_spec in Hm.
    apply not_true_iff_false in Hm. rewrite !orb_false_iff in Hm.
    destruct Hm as [[Hd Hu] Hg]. apply bool_decide_eq_false in Hd, Hu.
    split_and!; [done|done|]. by rewrite elem_of_list_to_set in Hu. }
  assert (Hexp : forall ce2, ce2 ∈ entities c' -> n ∈ exportNames ce2 ->
            exists e2 ce02, _entitiesByAstEntity c !! e2 = Some ce02 /\
                            n ∈ exportNames ce02 /\ astEntity ce2 = e2 /\ e2 ∈ _entities c).
  { intros ce2 Hin2 Hn2. apply elem_of_entities in Hin2 as (e2 & He2 & Hl2).
    destruct (renamed_exports _ _ _ _ Hr Hl2) as (ce02 & Hl02 & Hex & _).
    exists e2, ce02. rewrite <- Hex. split_and!; auto.
    destruct Hr as (<- & _). done. }
  destruct Hcase as [[Hacc ->]|[_ Hres]].
  - unfold acceptsIdeal in Hacc. rewrite !andb_true_iff in Hacc.
    destruct Hacc as [[Hown Hg] Hd]. apply bool_decide_eq_true in Hown, Hd.
    apply negb_true_iff in Hg. split_and!; [done|done|].
    intros ce2 Hin2 Hn2. destruct (Hexp ce2 Hin2 Hn2) as (e2 & ce02 & Hl02 & Hn02 & -> & _).
    pose proof Hwf as (_ & _ & Hid). rewrite (Hid _ _ Hce1).
    by eapply (allExportNames_owner c Hwf Hnd e2 e).
  - destruct (Hreserved n Hres) as (Hd & Hg & Hfree). split_and!; [done|done|].
    intros ce2 Hin2 Hn2. destruct (Hexp ce2 Hin2 Hn2) as (e2 & ce02 & Hl02 & Hn02 & _ & He2).
    destruct Hfree. by eapply allExportNames_elem.
Qed.

Example duplicate_export_name_aborts_witness :
  graph_wf clashingExports /\
  _makeUniqueNames progAliases 10 clashingExports
  = Throw (InternalError
      ("A package cannot have two exports with the name " +:+ dquote +:+ "A" +:+ dquote)).
Proof.
  assert (Hwf : graph_wf clashingExports)
    by (unfold clashingExports; auto using graph_wf_create, graph_wf_new).
  split; [exact Hwf|].
  destruct (duplicate_export_name_aborts progAliases 10 clashingExports 1%positive 2%positive
              (mkCollectorEntity 1%positive ["A"] [] false None)
              (mkCollectorEntity 2%positive ["A"] [] false None) "A" Hwf)
    as (m & Hm & Hthrow); [by vm_compute|by vm_compute|done|by left|by left|].
  rewrite Hthrow. vm_compute in Hthrow. by inversion Hthrow.
Defined.

Example emitted_names_are_safe_witness :
  graph_wf defaultExported /\
  _makeUniqueNames progDefault 10 defaultExported = Done defaultNamed /\
  mkCollectorEntity 1%positive ["default"] [] false (Some "Foo") ∈ entities defaultNamed /\
  exists n, Some "Foo" = Some n /\ n <> "default".
Proof.
  assert (Hwf : graph_wf defaultExported)
    by (unfold defaultExported; auto using graph_wf_create, graph_wf_new).
  assert (Hrun : _makeUniqueNames progDefault 10 defaultExported = Done defaultNamed)
    by (vm_compute; reflexivity).
  assert (Hin : mkCollectorEntity 1%positive ["default"] [] false (Some "Foo")
                ∈ entities defaultNamed).
  { apply list_elem_of_In. vm_compute. auto. }
  split_and!; [exact Hwf|exact Hrun|exact Hin|].
  destruct (emitted_names_are_safe _ _ _ _ _ Hwf Hrun Hin) as (n & Hn & Hd & _).
  exists n. by split.
Defined.

(** * The API model generator *)

(** ** The metadata the generator reads *)

Lemma consistent_same (c c' : Collector) :
  declarationMetadata c' = declarationMetadata c -> apiItemMetadata c' = apiItemMetadata c ->
  consistent c -> consistent c'.
Proof. unfold consistent. by intros -> ->. Qed.

Lemma consistent_new : consistent newCollector.
Proof.
  split.
  - split_and!; intros *; simpl; rewrite ?lookup_empty; done.
  - intros d [a Ha]. simpl in Ha. by rewrite lookup_empty in Ha.
Qed.

Section MetadataConsistent.
Variables (p : Program) (fetchSym : EntityId -> Collector -> Outcome Collector).
Hypothesis fetchSym_links : forall e c c',
  fetchSym e c = Done c' -> links_ok (declarationMetadata c) -> links_ok (declarationMetadata c').
Hypothesis fetchSym_grow : forall e c c', fetchSym e c = Done c' -> dm_grow c c'.
Hypothesis fetchSym_consistent : forall e c c',
  fetchSym e c = Done c' -> consistent c -> consistent c'.

Lemma consistent_inheritReleaseTag d r c r' b c' :
  inheritReleaseTag fetchSym d r c = Done (r', b, c') -> consistent c -> consistent c'.
Proof.
  unfold inheritReleaseTag, fetchApiItemMetadata_with. intros H Hc.
  destruct (parent d) as [pd|]; [|by inversion H; subst].
  apply bind_Done in H as ([a c3] & Hf & H).
  apply bind_Done in Hf as (c1 & H1 & H2). inversion H2; subst.
  destruct (_ ≫= _); [|done]. inversion H; subst.
  clear H H2. case_bool_decide; [eauto|]. by inversion H1; subst.
Qed.

Lemma consistent_calculateApiItemMetadata_with d c c' :
  _calculateApiItemMetadata_with p fetchSym d c = Done c' -> consistent c -> consistent c'.
Proof.
  intros H Hc. split.
  { eapply invariant_calculate; [exact fetchSym_links|exact H|apply Hc]. }
  unfold _calculateApiItemMetadata_with in H.
  apply bind_Done in H as (sym & _ & H).
  destruct (declarationMetadata c !! declId d) as [m|] eqn:Hm; [|done].
  destruct (isAncillary m).
  { inversion H; subst. destruct Hc as [_ Hc]. by destruct (_ && _). }
  destruct (readModifierTags_spec sym d (tsdocParserContext m) c)
    as (pre & c1 & more & Hread & _ & _ & Ha1 & _ & Hd1 & _).
  rewrite Hread in H.
  apply bind_Done in H as ([[eff same] c2] & H2 & H).
  apply bind_Done in H as ([eff' c3] & H3 & H).
  apply healReleaseTag_spec in H3 as (_ & Ha3 & _ & Hd3 & _).
  inversion H; subst. clear H.
  assert (Hc1 : consistent c1) by (by apply (consistent_same c)).
  pose proof (consistent_inheritReleaseTag _ _ _ _ _ _ H2 Hc1) as Hc2.
  assert (Hc3 : consistent c3) by (by apply (consistent_same c2)).
  assert (Hgrow : dm_grow c c3).
  { eapply dm_grow_trans; [apply dm_grow_same; exact Hd1|].
    eapply dm_grow_trans; [eapply dm_grow_inheritReleaseTag; eauto|]. by apply dm_grow_same. }
  destruct (Hgrow _ _ Hm) as (m3 & Hm3 & _).
  match goal with |- context [attachApiItemMetadata ?d ?dm ?o ?c] =>
    destruct (attach_spec d dm o c) as (Ha & _ & _ & Hd & Hin & Hout);
    set (live := dm) in * end.
  intros k Hk. rewrite Hd.
  destruct (decide (k ∈ ancillaryDeclarations live)) as [Hanc|Hanc].
  - unfold live, liveDeclarationMetadata in Hanc. rewrite Hm3 in Hanc. simpl in Hanc.
    destruct Hc3 as [(Hlisted & _) _].
    destruct (Hlisted _ _ _ Hm3 Hanc) as (mx & Hmx & _). eauto.
  - destruct (decide (k = declId d)) as [->|Hne]; [eauto|].
    rewrite Hout in Hk by done. by apply Hc3.
Qed.

Lemma consistent_solveSymbol e s c c' :
  solveSymbol p fetchSym e s c = Done c' -> consistent c -> consistent c'.
Proof.
  unfold solveSymbol. intros H Hc.
  apply bind_Done in H as (c1 & H1 & H).
  apply bind_Done in H as (c2 & H2 & H).
  apply bind_Done in H as (r & _ & H). inversion H; subst.
  assert (Hc1 : consistent c1).
  { split.
    - eapply (invariant_declarationMetadata links_ok links_ok_init links_ok_add);
        [apply Hc|exact H1].
    - apply declarationMetadata_grow in H1 as [Hg Ha]. intros k Hk. rewrite Ha in Hk.
      destruct Hc as [_ Hc]. destruct (Hc k Hk) as [mk Hmk].
      destruct (Hg _ _ Hmk) as (mk' & Hmk' & _). eauto. }
  apply (consistent_same c2); [done|done|].
  eapply (forEach_invariant _ consistent); [|exact Hc1|exact H2].
  intros ca x cb _ Hca Hrun. exact (consistent_calculateApiItemMetadata_with _ _ _ Hrun Hca).
Qed.
End MetadataConsistent.

Lemma consistent_fetchSymbolMetadata (p : Program) (fuel : nat) :
  forall e c c', _fetchSymbolMetadata p fuel e c = Done c' -> consistent c -> consistent c'.
Proof.
  induction fuel as [|fuel IH]; intros e c c' H Hc; simpl in H; [done|].
  case_bool_decide; [by inversion H; subst|].
  apply bind_Done in H as (s & _ & H).
  apply bind_Done in H as (c1 & H1 & H).
  assert (Hc1 : consistent c1).
  { destruct (parentAstSymbol s); [case_bool_decide|]; eauto; by inversion H1; subst. }
  eapply (consistent_solveSymbol p (_fetchSymbolMetadata p fuel)); [| | |exact H|exact Hc1].
  - intros e0 c0 c0' Hrun0 Hl.
    exact (invariant_fetchSymbolMetadata links_ok links_ok_init links_ok_add p fuel
             e0 c0 c0' Hrun0 Hl).
  - apply dm_grow_fetchSymbolMetadata.
  - exact IH.
Qed.

Lemma consistent_create (e : EntityId) (n : option string) (b : bool) (c : Collector) :
  consistent c -> consistent (_createCollectorEntity e n b c).
Proof.
  destruct (_createCollectorEntity_unfold e n b c) as (ce & c1 & -> & _ & [[_ ->]|[_ ->]]);
    by apply consistent_same.
Qed.

Lemma consistent_makeUniqueNames (p : Program) (fuel : nat) (c c' : Collector) :
  _makeUniqueNames p fuel c = Done c' -> consistent c -> consistent c'.
Proof.
  unfold _makeUniqueNames. intros H Hc.
  apply bind_Done in H as (used & _ & H).
  apply bind_Done in H as ([c1 used1] & Hloop & H). inversion H; subst.
  change c' with (fst (c', used1)).
  eapply (forEach_invariant _ (fun st => consistent (fst st))); [| |exact Hloop]; [|exact Hc].
  intros [ca ua] x [cb ub] _ Hca Hstep.
  apply assignName_spec in Hstep as (entity & ast & n & _ & _ & -> & _).
  by apply (consistent_same ca).
Qed.

(** The metadata hangs together in every state [analyze] returns. *)
Lemma consistent_analyze (p : Program) (fuel : nat) (c : Collector) :
  analyze p fuel newCollector = Done c -> consistent c.
Proof.
  intros H. apply analyze_unfold in H as (w & c1 & Hloop & Hnames & ->).
  apply (consistent_same c1); [done|done|].
  apply (consistent_makeUniqueNames _ _ _ _ Hnames).
  eapply (forEach_invariant _ (fun w => consistent (collector w))); [| |exact Hloop].
  - intros w1 x w3 Hx HI1 Hbody.
    apply bind_Done in Hbody as (w2 & Hrun & Hbody).
    assert (HI2 : consistent (collector w2)).
    { eapply (traversal_creates p consistent); [| | |exact Hrun|exact HI1].
      - intros c0 e b Hc0 _. by apply consistent_create.
      - intros c0 ns e Hc0 _. by apply consistent_create.
      - intros c0 e ns entity Hc0 _. by apply (consistent_same c0). }
    destruct (astEntities p !! x) as [[s|? ?|?]|]; try (by inversion Hbody; subst).
    apply bind_Done in Hbody as (c2 & Hfetch & Hbody). inversion Hbody; subst. simpl.
    unfold fetchSymbolMetadata in Hfetch. case_bool_decide; [|by inversion Hfetch; subst].
    by eapply consistent_fetchSymbolMetadata.
  - simpl. generalize (entryExports p).
    assert (Hstart : consistent (setAstEntryPoint newCollector))
      by (apply (consistent_same newCollector); [done|done|apply consistent_new]).
    revert Hstart. generalize (setAstEntryPoint newCollector).
    intros c0 Hc0 l. revert c0 Hc0.
    induction l as [|[n e] l IHl]; intros c0 Hc0; simpl; [done|].
    apply IHl. by apply consistent_create.
Qed.

(** ** Items and their members *)

Lemma same_item_refl (i : ApiItem) : same_item i i.
Proof. by split_and!. Qed.

Lemma same_item_trans (i1 i2 i3 : ApiItem) :
  same_item i1 i2 -> same_item i2 i3 -> same_item i1 i3.
Proof. unfold same_item. intros (? & ? & ? & ?) (? & ? & ? & ?). split_and!; congruence. Qed.

Lemma same_item_addMember (m i : ApiItem) : same_item i (addMember m i).
Proof. by split_and!. Qed.

Lemma same_item_setMember (k : nat) (m i : ApiItem) : same_item i (setMember k m i).
Proof. by split_and!. Qed.

Lemma same_items_refl (l : list ApiItem) : Forall2 same_item l l.
Proof. induction l; constructor; auto using same_item_refl. Qed.

Lemma same_items_trans (l1 l2 l3 : list ApiItem) :
  Forall2 same_item l1 l2 -> Forall2 same_item l2 l3 -> Forall2 same_item l1 l3.
Proof.
  intros H12. revert l3. induction H12 as [|x y l k Hxy _ IH]; intros l3 H23.
  - by inversion H23.
  - inversion H23; subst. constructor; [by eapply same_item_trans|auto].
Qed.

Lemma same_items_Forall (Q : ApiItem -> Prop) (l k : list ApiItem) :
  (forall x x', same_item x x' -> Q x -> Q x') ->
  Forall2 same_item l k -> Forall Q l -> Forall Q k.
Proof.
  intros HQ H. induction H as [|x y l k Hxy _ IH]; intros Hl; [done|].
  inversion Hl; subst. constructor; eauto.
Qed.

Lemma grows_refl (Q : ApiItem -> Prop) (i : ApiItem) : grows Q i i.
Proof.
  split; [apply same_item_refl|]. exists (members i), [].
  rewrite app_nil_r. split_and!; [done|apply same_items_refl|constructor].
Qed.

Lemma grows_mono (Q Q' : ApiItem -> Prop) (i i' : ApiItem) :
  (forall x, Q x -> Q' x) -> grows Q i i' -> grows Q' i i'.
Proof.
  intros HQ (Hs & old & more & Hm & Hold & Hmore). split; [done|].
  exists old, more. split_and!; [done|done|]. by eapply Forall_impl.
Qed.

Lemma grows_trans (Q : ApiItem -> Prop) (i1 i2 i3 : ApiItem) :
  (forall x x', same_item x x' -> Q x -> Q x') ->
  grows Q i1 i2 -> grows Q i2 i3 -> grows Q i1 i3.
Proof.
  intros HQ (Hs1 & old1 & more1 & Hm1 & Hold1 & Hmore1) (Hs2 & old2 & more2 & Hm2 & Hold2 & Hmore2).
  split; [by eapply same_item_trans|].
  rewrite Hm1 in Hold2. apply Forall2_app_inv_l in Hold2 as (k1 & k2 & Hk1 & Hk2 & ->).
  exists k1, (k2 ++ more2). split_and!.
  - by rewrite Hm2, app_assoc.
  - by eapply same_items_trans.
  - apply Forall_app. split; [|done]. by eapply same_items_Forall.
Qed.

Lemma grows_addMember (Q : ApiItem -> Prop) (m i : ApiItem) : Q m -> grows Q i (addMember m i).
Proof.
  intros HQ. split; [apply same_item_addMember|]. exists (members i), [m].
  split_and!; [done|apply same_items_refl|by constructor].
Qed.

Lemma grows_setMember (Q : ApiItem -> Prop) (k : nat) (m m' i : ApiItem) :
  members i !! k = Some m -> same_item m m' -> grows Q i (setMember k m' i).
Proof.
  intros Hk Hs. split; [apply same_item_setMember|]. exists (<[k := m']> (members i)), [].
  simpl. rewrite app_nil_r. split_and!; [done| |constructor].
  rewrite <- (list_insert_id (members i) k m Hk) at 1.
  apply Forall2_insert; [apply same_items_refl|done].
Qed.

Lemma setMember_last (m m' i : ApiItem) :
  setMember (length (members i)) m' (addMember m i) = addMember m' i.
Proof.
  unfold setMember, addMember. simpl. f_equal.
  rewrite insert_app_r_alt by lia. by rewrite Nat.sub_diag.
Qed.

Lemma tryGetMemberByKey_Some (key : ContainerKey) (i : ApiItem) (k : nat) (m : ApiItem) :
  tryGetMemberByKey key i = Some (k, m) -> members i !! k = Some m /\ containerKey m = key.
Proof. unfold tryGetMemberByKey. intros H. apply list_find_Some in H as (? & ? & _). done. Qed.

Lemma tryGetMemberByKey_None (key : ContainerKey) (i : ApiItem) :
  tryGetMemberByKey key i = None -> key ∉ containerKey <$> members i.
Proof.
  unfold tryGetMemberByKey. intros H Hin. apply list_find_None in H.
  apply list_elem_of_fmap in Hin as (m & -> & Hm).
  rewrite Forall_forall in H. by apply (H m).
Qed.

(** ** What the handlers do *)

Lemma getContainerKey_kind (p : Program) (kind : ApiItemKind) (d : AstDeclaration)
    (name : option string) (cache cache' : gmap DeclId nat) (key : ContainerKey) :
  getContainerKey p kind d name cache = Done (key, cache') -> key_kind key = kind.
Proof.
  unfold getContainerKey. intros H.
  apply bind_Done in H as (n & _ & H).
  apply bind_Done in H as ([i cache1] & _ & H). by inversion H; subst.
Qed.

Lemma buildExcerptTokens_head (p : Program) (fuel : nat) (d : AstDeclaration)
    (c c1 : Collector) (excerpt : list DeclId) :
  _buildExcerptTokens p fuel d c = Done (excerpt, c1) -> head excerpt = Some (declId d).
Proof.
  unfold _buildExcerptTokens. intros H.
  apply bind_Done in H as ([dm c2] & _ & H).
  destruct dm; [|done]. by inversion H; subst.
Qed.

Lemma processApiItem_cases (p : Program) (fuel : nat) (kind : ApiItemKind)
    (d : AstDeclaration) (name : option string) (parent : ApiItem) (g : Generator)
    (found : option (nat * ApiItem)) (parent' : ApiItem) (g' : Generator) :
  _processApiItem p fuel kind d name parent g = Done (found, parent', g') ->
  exists key cache',
    getContainerKey p kind d name (_cachedOverloadIndexesByDeclaration g)
    = Done (key, cache') /\
    ((exists x, tryGetMemberByKey key parent = Some x /\ found = Some x /\ parent' = parent /\
                g' = mkGenerator (_collector g) cache') \/
     (tryGetMemberByKey key parent = None /\
      exists excerpt c1 a c2 m,
        _buildExcerptTokens p fuel d (_collector g) = Done (excerpt, c1) /\
        fetchApiItemMetadata p fuel (declId d) c1 = Done (Some a, c2) /\
        metadataObjects c2 !! a = Some m /\ g' = mkGenerator c2 cache' /\
        ((trimsAgain kind && trimmedTag (effectiveReleaseTag m) = true /\
          found = None /\ parent' = parent) \/
         (trimsAgain kind && trimmedTag (effectiveReleaseTag m) = false /\
          found = Some (length (members parent),
                        mkApiItem key (effectiveReleaseTag m) (tsdocComment m) excerpt []) /\
          parent' = addMember
                      (mkApiItem key (effectiveReleaseTag m) (tsdocComment m) excerpt [])
                      parent)))).
Proof.
  unfold _processApiItem. intros H.
  apply bind_Done in H as ([key cache'] & Hkey & H). exists key, cache'. split; [done|].
  simpl in H. destruct (tryGetMemberByKey key parent) as [x|] eqn:Hfind.
  { inversion H; subst. left. exists x. by split_and!. }
  right. split; [done|].
  apply bind_Done in H as ([excerpt c1] & Hex & H).
  apply bind_Done in H as ([a c2] & Hf & H). simpl in H.
  destruct a as [a|]; [|done]. simpl in H.
  destruct (metadataObjects c2 !! a) as [m|] eqn:Hm; [|done].
  exists excerpt, c1, a, c2, m. split_and!; try done.
  - by destruct (trimsAgain kind && trimmedTag (effectiveReleaseTag m)); inversion H.
  - destruct (trimsAgain kind && trimmedTag (effectiveReleaseTag m)); inversion H; subst;
      [left|right]; by split_and!.
Qed.

Lemma processDeclaration_unfold (p : Program) (fuel : nat) (astDeclaration : AstDeclaration)
    (exportedName : option string) (parentApiItem : ApiItem) (g : Generator) :
  _processDeclaration p fuel astDeclaration exportedName parentApiItem g =
  if isPrivate astDeclaration then Done (parentApiItem, g)
  else
    '(a, c) ← fetchApiItemMetadata p fuel (declId astDeclaration) (_collector g);
    let g := mkGenerator c (_cachedOverloadIndexesByDeclaration g) in
    match a ≫= (fun a => metadataObjects c !! a) with
    | None => Throw TypeError
    | Some apiItemMetadata =>
        if trimmedTag (effectiveReleaseTag apiItemMetadata)
        then Done (parentApiItem, g)
        else
          match apiItemKindOf (declaration_kind astDeclaration) with
          | None => Done (parentApiItem, g)
          | Some kind =>
              '(found, parentApiItem, g) ←
                _processApiItem p fuel kind astDeclaration exportedName parentApiItem g;
              if processesChildren kind then
                match found with
                | Some (index, apiItem) =>
                    '(apiItem, g) ←
                      forEach (fun (st : ApiItem * Generator) childDeclaration =>
                                 _processDeclaration p fuel childDeclaration None
                                   (fst st) (snd st))
                        (children astDeclaration) (apiItem, g);
                    Done (setMember index apiItem parentApiItem, g)
                | None => Done (parentApiItem, g)
                end
              else Done (parentApiItem, g)
          end
    end.
Proof. by destruct astDeclaration. Qed.

(** What a call of [_processDeclaration] does to the container it is given:
    at most one member is new, the one made from the declaration; the other
    members are the same items. *)
Lemma processDeclaration_grows (p : Program) (fuel : nat) (d : AstDeclaration) :
  forall name parent g parent' g',
    _processDeclaration p fuel d name parent g = Done (parent', g') ->
    grows (madeFrom d) parent parent'.
Proof.
  induction d as [id k f t r pa ch IH] using AstDeclaration_tree_ind.
  intros name parent g parent' g' H. rewrite processDeclaration_unfold in H.
  set (d := mkAstDeclaration id k f t r pa ch) in *.
  destruct (isPrivate d); [by inversion H; subst; apply grows_refl|].
  apply bind_Done in H as ([a c] & Hfetch & H). cbv zeta in H.
  destruct (a ≫= _) as [m|]; [|done].
  destruct (trimmedTag (effectiveReleaseTag m)); [by inversion H; subst; apply grows_refl|].
  destruct (apiItemKindOf (declaration_kind d)) as [kind|];
    [|by inversion H; subst; apply grows_refl].
  apply bind_Done in H as ([[found parent1] g1] & Hitem & H).
  apply processApiItem_cases in Hitem as (key & cache' & Hkey & Hcase).
  assert (Hloop : forall item item' gA gB,
            forEach (fun (st : ApiItem * Generator) childDeclaration =>
                       _processDeclaration p fuel childDeclaration None (fst st) (snd st))
              ch (item, gA) = Done (item', gB) -> same_item item item').
  { intros item item' gA gB Hrun.
    change item' with (fst (item', gB)).
    eapply (forEach_invariant _ (fun st => same_item item (fst st))); [| |exact Hrun];
      [|apply same_item_refl].
    intros [i1 g2] x [i2 g3] Hx Hs Hstep. simpl in *.
    rewrite Forall_forall in IH. apply (IH x Hx) in Hstep as [Hs2 _].
    by eapply same_item_trans. }
  destruct Hcase as [(x & Hfind & -> & -> & ->)
                    |(Hnone & excerpt & c1 & a2 & c2 & m2 & Hex & Hf2 & Hm2 & -> &
                      [(Htrim & -> & ->)|(Htrim & -> & ->)])].
  - destruct x as [index item]. apply tryGetMemberByKey_Some in Hfind as [Hindex _].
    destruct (processesChildren kind); [|by inversion H; subst; apply grows_refl].
    apply bind_Done in H as ([item' g2] & Hch & H). inversion H; subst.
    eapply grows_setMember; eauto.
  - destruct (processesChildren kind); inversion H; subst; apply grows_refl.
  - apply buildExcerptTokens_head in Hex.
    destruct (processesChildren kind).
    + apply bind_Done in H as ([item' g2] & Hch & H). inversion H; subst.
      rewrite setMember_last. apply grows_addMember.
      apply Hloop in Hch as (_ & _ & _ & Hexc). unfold madeFrom. by rewrite Hexc.
    + inversion H; subst. by apply grows_addMember.
Qed.

(** ** Fetching again what was fetched *)

Lemma fetchApiItemMetadata_consistent (p : Program) (fuel : nat) (d : DeclId)
    (c c' : Collector) (a : option nat) :
  consistent c -> fetchApiItemMetadata p fuel d c = Done (a, c') ->
  consistent c' /\ a = apiItemMetadata c' !! d.
Proof.
  unfold fetchApiItemMetadata, fetchApiItemMetadata_with. intros Hc H.
  apply bind_Done in H as (c1 & H1 & H). inversion H; subst. split; [|done].
  case_bool_decide; [|by inversion H1; subst].
  by eapply consistent_fetchSymbolMetadata.
Qed.

Lemma fetchApiItemMetadata_again (p : Program) (fuel : nat) (d : DeclId) (c : Collector)
    (a : nat) :
  apiItemMetadata c !! d = Some a -> fetchApiItemMetadata p fuel d c = Done (Some a, c).
Proof.
  unfold fetchApiItemMetadata, fetchApiItemMetadata_with. intros Ha.
  rewrite bool_decide_eq_false_2 by congruence. simpl. by rewrite Ha.
Qed.

Lemma buildExcerptTokens_again (p : Program) (fuel : nat) (x : AstDeclaration)
    (c : Collector) :
  consistent c -> is_Some (apiItemMetadata c !! declId x) ->
  exists dm, declarationMetadata c !! declId x = Some dm /\
    _buildExcerptTokens p fuel x c = Done (declId x :: ancillaryDeclarations dm, c).
Proof.
  intros [_ Hc] Ha. destruct (Hc _ Ha) as [dm Hdm]. exists dm. split; [done|].
  unfold _buildExcerptTokens, fetchDeclarationMetadata.
  rewrite bool_decide_eq_false_2 by congruence. simpl. by rewrite Hdm.
Qed.

Lemma fetchDeclarationMetadata_consistent (p : Program) (fuel : nat) (d : DeclId)
    (c c' : Collector) (dm : option InternalDeclarationMetadata) :
  consistent c -> fetchDeclarationMetadata p fuel d c = Done (dm, c') -> consistent c'.
Proof.
  unfold fetchDeclarationMetadata. intros Hc H.
  apply bind_Done in H as (c1 & H1 & H). inversion H; subst.
  case_bool_decide; [|by inversion H1; subst].
  by eapply consistent_fetchSymbolMetadata.
Qed.

Lemma getNonAncillaryDeclarations_subset (p : Program) (fuel : nat) (s : AstSymbol)
    (c c' : Collector) (ds : list AstDeclaration) :
  getNonAncillaryDeclarations p fuel s c = Done (ds, c') ->
  forall x, x ∈ ds -> x ∈ astDeclarations s.
Proof.
  unfold getNonAncillaryDeclarations. intros H.
  change ds with (fst (ds, c')).
  eapply (forEach_invariant _ (fun r => forall x, x ∈ fst r -> x ∈ astDeclarations s));
    [| |exact H]; [|by intros x Hx; apply elem_of_nil in Hx].
  intros [l c1] x [l' c2] Hx Hl Hstep. simpl in *.
  apply bind_Done in Hstep as ([dm c3] & _ & Hstep).
  destruct dm as [dm|]; [|done]. inversion Hstep; subst.
  destruct (isAncillary dm); [done|].
  intros y Hy. apply elem_of_app in Hy as [Hy|Hy]; [auto|].
  apply list_elem_of_singleton in Hy. by subst.
Qed.

Lemma getNonAncillaryDeclarations_consistent (p : Program) (fuel : nat) (s : AstSymbol)
    (c c' : Collector) (ds : list AstDeclaration) :
  consistent c -> getNonAncillaryDeclarations p fuel s c = Done (ds, c') -> consistent c'.
Proof.
  unfold getNonAncillaryDeclarations. intros Hc H.
  change c' with (snd (ds, c')).
  eapply (forEach_invariant _ (fun r => consistent (snd r))); [| |exact H]; [|done].
  intros [l c1] x [l' c2] Hx Hl Hstep. simpl in *.
  apply bind_Done in Hstep as ([dm c3] & Hf & Hstep).
  destruct dm as [dm|]; [|done]. inversion Hstep; subst.
  by eapply fetchDeclarationMetadata_consistent.
Qed.

(** ** The declarations of the program *)

Lemma declarationRecursive_self (d : AstDeclaration) : d ∈ declarationRecursive d.
Proof. destruct d; simpl. by left. Qed.

Lemma declarationRecursive_children (x d ch : AstDeclaration) :
  x ∈ declarationRecursive d -> ch ∈ children x -> ch ∈ declarationRecursive d.
Proof.
  revert x ch. induction d as [id k f t r pa l IH] using AstDeclaration_tree_ind.
  intros x ch Hx Hch. simpl in *. apply elem_of_cons in Hx as [->|Hx].
  - right. apply list_elem_of_In, in_flat_map. exists ch.
    split; [by apply list_elem_of_In|]. apply list_elem_of_In, declarationRecursive_self.
  - right. apply list_elem_of_In, in_flat_map in Hx as (y & Hy & Hx).
    apply list_elem_of_In, in_flat_map. exists y. split; [done|].
    apply list_elem_of_In. rewrite Forall_forall in IH.
    eapply IH; [by apply list_elem_of_In|by apply list_elem_of_In|done].
Qed.

Lemma declaredIn_children (p : Program) (x ch : AstDeclaration) :
  declaredIn p x -> ch ∈ children x -> declaredIn p ch.
Proof.
  intros (e & s & He & Hx) Hch. exists e, s. split; [done|].
  unfold forEachDeclarationRecursive in *.
  apply list_elem_of_In, in_flat_map in Hx as (y & Hy & Hx).
  apply list_elem_of_In, in_flat_map. exists y. split; [done|].
  apply list_elem_of_In. eapply declarationRecursive_children; [|done].
  by apply list_elem_of_In.
Qed.

Lemma declaredIn_symbol (p : Program) (e : EntityId) (s : AstSymbol) (x : AstDeclaration) :
  astEntities p !! e = Some (EntSymbol s) -> x ∈ astDeclarations s -> declaredIn p x.
Proof.
  intros He Hx. exists e, s. split; [done|].
  apply list_elem_of_In, in_flat_map. exists x.
  split; [by apply list_elem_of_In|]. apply list_elem_of_In, declarationRecursive_self.
Qed.

(** ** Every item of the model *)

Lemma Forall_flat_map_iff {A B : Type} (P : B -> Prop) (f : A -> list B) (l : list A) :
  Forall P (flat_map f l) <-> Forall (fun x => Forall P (f x)) l.
Proof.
  induction l as [|x l IH]; simpl; [split; constructor|].
  rewrite Forall_app, Forall_cons, IH. done.
Qed.

Lemma allItems_Forall (N : ApiItem -> Prop) (i : ApiItem) :
  Forall N (allItems i) <-> N i /\ Forall (fun m => Forall N (allItems m)) (members i).
Proof. destruct i. simpl. by rewrite Forall_cons, Forall_flat_map_iff. Qed.

Lemma madeFor_same (p : Program) (e : EntityId) (i i' : ApiItem) :
  same_item i i' -> madeFor p e i -> madeFor p e i'.
Proof.
  intros (Hk & _ & _ & Hx). unfold madeFor, madeFrom. rewrite Hk, Hx. done.
Qed.

Lemma processAstEntity_unfold (p : Program) (moduleSymbolName : EntityId -> string)
    (fuel : nat) (astEntity : EntityId) (exportedName : option string)
    (parentApiItem : ApiItem) (g : Generator) :
  _processAstEntity p moduleSymbolName (S fuel) astEntity exportedName parentApiItem g =
  match astEntities p !! astEntity with
  | Some (EntSymbol s) =>
      '(ds, c) ← getNonAncillaryDeclarations p (S fuel) s (_collector g);
      forEach (fun (st : ApiItem * Generator) astDeclaration =>
                 _processDeclaration p (S fuel) astDeclaration exportedName (fst st) (snd st))
        ds (parentApiItem, mkGenerator c (_cachedOverloadIndexesByDeclaration g))
  | Some (EntNamespaceImport _ exportedLocalEntities) =>
      _processAstModule (_processAstEntity p moduleSymbolName fuel)
        (moduleSymbolName astEntity) exportedLocalEntities exportedName parentApiItem g
  | _ => Done (parentApiItem, g)
  end.
Proof. done. Qed.

(** [_processAstModule] in its two cases: the namespace was found among the
    members, or it is made. *)
Lemma processAstModule_cases
    (processAstEntity : EntityId -> option string -> ApiItem -> Generator
                        -> Outcome (ApiItem * Generator))
    (moduleSymbolName : string) (exps : list (string * EntityId)) (name : option string)
    (parent : ApiItem) (g : Generator) (parent' : ApiItem) (g' : Generator) :
  _processAstModule processAstEntity moduleSymbolName exps name parent g = Done (parent', g') ->
  exists key ns ns',
    key_kind key = ApiNamespace /\
    forEach (fun (st : ApiItem * Generator) (ex : string * EntityId) =>
               processAstEntity (snd ex) (Some (fst ex)) (fst st) (snd st))
      exps (ns, g) = Done (ns', g') /\
    ((exists index, tryGetMemberByKey key parent = Some (index, ns) /\
                    parent' = setMember index ns' parent) \/
     (tryGetMemberByKey key parent = None /\
      ns = mkApiItem key ReleaseTag.None None [] [] /\
      parent' = addMember ns' parent)).
Proof.
  unfold _processAstModule. intros H.
  set (key := mkContainerKey ApiNamespace _ None None) in H.
  exists key. destruct (tryGetMemberByKey key parent) as [[index ns]|] eqn:Hfind.
  - apply bind_Done in H as ([ns' g2] & Hloop & H). inversion H; subst.
    exists ns, ns'. split_and!; [done|done|]. left. by exists index.
  - apply bind_Done in H as ([ns' g2] & Hloop & H). inversion H; subst.
    exists (mkApiItem key ReleaseTag.None None [] []), ns'. split_and!; [done|done|].
    right. split_and!; [done|done|]. apply setMember_last.
Qed.

(** What a call of [_processAstEntity] does to the container it is given:
    the new members were made for the entity. *)
Lemma processAstEntity_grows (p : Program) (names : EntityId -> string) (fuel : nat) :
  forall e name parent g parent' g',
    _processAstEntity p names fuel e name parent g = Done (parent', g') ->
    grows (madeFor p e) parent parent'.
Proof.
  induction fuel as [|fuel IH]; intros e name parent g parent' g' H; [done|].
  rewrite processAstEntity_unfold in H.
  destruct (astEntities p !! e) as [[s|nsname exps|imp]|] eqn:He;
    try (inversion H; subst; apply grows_refl).
  - apply bind_Done in H as ([ds c] & Hds & H).
    pose proof (getNonAncillaryDeclarations_subset _ _ _ _ _ _ Hds) as Hsub.
    change parent with (fst (parent, mkGenerator c (_cachedOverloadIndexesByDeclaration g))).
    change parent' with (fst (parent', g')).
    revert H. apply (forEach_preorder (fun st st' => grows (madeFor p e) (fst st) (fst st'))).
    + intros. apply grows_refl.
    + intros ? ? ?. apply grows_trans. intros ? ?. apply madeFor_same.
    + intros [i1 g1] x [i2 g2] Hx Hstep. simpl in *.
      apply processDeclaration_grows in Hstep. revert Hstep. apply grows_mono.
      intros i Hi. unfold madeFor. rewrite He. exists x. split; [auto|done].
  - apply processAstModule_cases in H as (key & ns & ns' & Hkind & Hloop & Hcase).
    assert (Hsame : same_item ns ns').
    { change ns' with (fst (ns', g')).
      eapply (forEach_invariant _ (fun st => same_item ns (fst st))); [| |exact Hloop];
        [|apply same_item_refl].
      intros [i1 g1] x [i2 g2] Hx Hs Hstep. simpl in *.
      apply IH in Hstep as [Hs2 _]. by eapply same_item_trans. }
    destruct Hcase as [(index & Hfind & ->)|(Hnone & -> & ->)].
    + apply tryGetMemberByKey_Some in Hfind as [Hindex _]. by eapply grows_setMember.
    + apply grows_addMember. unfold madeFor. rewrite He.
      destruct Hsame as (Hk & _ & _ & Hx). rewrite Hk, Hx. done.
Qed.

Section ModelInvariant.

Variable p : Program.
Variable N : ApiItem -> Prop.

Hypothesis N_add : forall i m,
  N i -> containerKey m ∉ containerKey <$> members i -> N (addMember m i).
Hypothesis N_set : forall i k m m',
  N i -> members i !! k = Some m -> same_item m m' -> N (setMember k m' i).
Hypothesis N_new : forall x key m excerpt,
  declaredIn p x -> isPrivate x = false -> trimmedTag (effectiveReleaseTag m) = false ->
  head excerpt = Some (declId x) ->
  N (mkApiItem key (effectiveReleaseTag m) (tsdocComment m) excerpt []).
Hypothesis N_empty : forall key, N (mkApiItem key ReleaseTag.None None [] []).

Lemma deep_setMember (i : ApiItem) (k : nat) (m m' : ApiItem) :
  Forall N (allItems i) -> members i !! k = Some m -> same_item m m' ->
  Forall N (allItems m') -> Forall N (allItems (setMember k m' i)).
Proof.
  intros Hi Hk Hs Hm'. apply allItems_Forall in Hi as [Hi Hmem].
  apply allItems_Forall. split; [by eapply N_set|].
  simpl. by apply Forall_insert.
Qed.

Lemma deep_addMember (i m : ApiItem) :
  Forall N (allItems i) -> containerKey m ∉ containerKey <$> members i ->
  Forall N (allItems m) -> Forall N (allItems (addMember m i)).
Proof.
  intros Hi Hk Hm. apply allItems_Forall in Hi as [Hi Hmem].
  apply allItems_Forall. split; [by apply N_add|].
  simpl. apply Forall_app. split; [done|by constructor].
Qed.

Lemma deep_member (i : ApiItem) (k : nat) (m : ApiItem) :
  Forall N (allItems i) -> members i !! k = Some m -> Forall N (allItems m).
Proof.
  intros Hi Hk. apply allItems_Forall in Hi as [_ Hmem].
  rewrite Forall_lookup in Hmem. by eapply Hmem.
Qed.

Lemma processDeclaration_deep (fuel : nat) (d : AstDeclaration) :
  forall name parent g parent' g',
    declaredIn p d -> consistent (_collector g) ->
    _processDeclaration p fuel d name parent g = Done (parent', g') ->
    Forall N (allItems parent) ->
    Forall N (allItems parent') /\ consistent (_collector g').
Proof.
  induction d as [id k f t r pa ch IH] using AstDeclaration_tree_ind.
  intros name parent g parent' g' Hd Hc H HN. rewrite processDeclaration_unfold in H.
  set (d := mkAstDeclaration id k f t r pa ch) in *.
  destruct (isPrivate d) eqn:Hpriv; [by inversion H; subst|].
  apply bind_Done in H as ([a c] & Hfetch & H). cbv zeta in H.
  apply fetchApiItemMetadata_consistent in Hfetch as [Hc1 ->]; [|done].
  destruct (apiItemMetadata c !! declId d) as [a|] eqn:Ha; simpl in H; [|done].
  destruct (metadataObjects c !! a) as [m|] eqn:Hm; [|done].
  destruct (trimmedTag (effectiveReleaseTag m)) eqn:Htag; [by inversion H; subst|].
  destruct (apiItemKindOf _) as [kind|]; [|by inversion H; subst].
  apply bind_Done in H as ([[found parent1] g1] & Hitem & H).
  apply processApiItem_cases in Hitem as (key & cache' & Hkey & Hcase). simpl in Hcase.
  assert (Hloop : forall item item' gA gB,
            consistent (_collector gA) -> Forall N (allItems item) ->
            forEach (fun (st : ApiItem * Generator) childDeclaration =>
                       _processDeclaration p fuel childDeclaration None (fst st) (snd st))
              ch (item, gA) = Done (item', gB) ->
            Forall N (allItems item') /\ consistent (_collector gB) /\ same_item item item').
  { intros item item' gA gB HcA HNA Hrun.
    change item' with (fst (item', gB)). change gB with (snd (item', gB)) at 2.
    eapply (forEach_invariant _
              (fun st => Forall N (allItems (fst st)) /\ consistent (_collector (snd st)) /\
                         same_item item (fst st))); [| |exact Hrun];
      [|by split_and!; [| |apply same_item_refl]].
    intros [i1 g2] x [i2 g3] Hx (H1 & H2 & H3) Hstep. simpl in *.
    rewrite Forall_forall in IH.
    assert (Hdx : declaredIn p x) by (by eapply declaredIn_children).
    destruct (IH x Hx _ _ _ _ _ Hdx H2 Hstep H1) as [H4 H5].
    apply processDeclaration_grows in Hstep as [Hs _].
    split_and!; [done|done|by eapply same_item_trans]. }
  destruct Hcase as [(x & Hfind & -> & -> & ->)
                    |(Hnone & excerpt & c1 & a2 & c2 & m2 & Hex & Hf2 & Hm2 & -> & Hcase)].
  - destruct x as [index item]. apply tryGetMemberByKey_Some in Hfind as [Hindex _].
    destruct (processesChildren kind); [|by inversion H; subst].
    apply bind_Done in H as ([item' g2] & Hch & H). inversion H; subst.
    apply Hloop in Hch as (H1 & H2 & H3); [|done|by eapply deep_member].
    split; [|done]. by eapply deep_setMember.
  - destruct (buildExcerptTokens_again p fuel d c Hc1) as (dm & Hdm & Hex');
      [by rewrite Ha|].
    rewrite Hex' in Hex. inversion Hex; subst excerpt c1. clear Hex Hex'.
    rewrite (fetchApiItemMetadata_again _ _ _ _ _ Ha) in Hf2. inversion Hf2; subst a2 c2.
    rewrite Hm in Hm2. inversion Hm2; subst m2. clear Hf2 Hm2.
    destruct Hcase as [(Htrim & -> & ->)|(Htrim & -> & ->)].
    { by destruct (processesChildren kind); inversion H; subst. }
    set (item := mkApiItem key (effectiveReleaseTag m) (tsdocComment m)
                   (declId d :: ancillaryDeclarations dm) []) in *.
    assert (Hitem : Forall N (allItems item)).
    { apply allItems_Forall. split; [|constructor]. by apply (N_new d). }
    apply tryGetMemberByKey_None in Hnone.
    destruct (processesChildren kind).
    + apply bind_Done in H as ([item' g2] & Hch & H). inversion H; subst.
      apply Hloop in Hch as (H1 & H2 & H3); [|done|done].
      split; [|done]. rewrite setMember_last. apply deep_addMember; [done| |done].
      destruct H3 as (-> & _). done.
    + inversion H; subst. split; [|done]. by apply deep_addMember.
Qed.

Lemma processAstEntity_deep (names : EntityId -> string) (fuel : nat) :
  forall e name parent g parent' g',
    consistent (_collector g) ->
    _processAstEntity p names fuel e name parent g = Done (parent', g') ->
    Forall N (allItems parent) ->
    Forall N (allItems parent') /\ consistent (_collector g').
Proof.
  induction fuel as [|fuel IH]; intros e name parent g parent' g' Hc H HN; [done|].
  rewrite processAstEntity_unfold in H.
  destruct (astEntities p !! e) as [[s|nsname exps|imp]|] eqn:He;
    try (by inversion H; subst).
  - apply bind_Done in H as ([ds c] & Hds & H).
    pose proof (getNonAncillaryDeclarations_subset _ _ _ _ _ _ Hds) as Hsub.
    apply getNonAncillaryDeclarations_consistent in Hds; [|done].
    change parent' with (fst (parent', g')). change g' with (snd (parent', g')) at 2.
    eapply (forEach_invariant _
              (fun st => Forall N (allItems (fst st)) /\ consistent (_collector (snd st))));
      [| |exact H]; [|done].
    intros [i1 g1] x [i2 g2] Hx [H1 H2] Hstep. simpl in *.
    eapply processDeclaration_deep; [|exact H2|exact Hstep|exact H1].
    eapply declaredIn_symbol; eauto.
  - apply processAstModule_cases in H as (key & ns & ns' & Hkind & Hloop & Hcase).
    assert (Hns : Forall N (allItems ns) ->
                  Forall N (allItems ns') /\ consistent (_collector g') /\ same_item ns ns').
    { intros Hns. change ns' with (fst (ns', g')). change g' with (snd (ns', g')) at 2.
      eapply (forEach_invariant _
                (fun st => Forall N (allItems (fst st)) /\ consistent (_collector (snd st)) /\
                           same_item ns (fst st))); [| |exact Hloop];
        [|by split_and!; [| |apply same_item_refl]].
      intros [i1 g1] x [i2 g2] Hx (H1 & H2 & H3) Hstep. simpl in *.
      destruct (IH _ _ _ _ _ _ H2 Hstep H1) as [H4 H5].
      apply processAstEntity_grows in Hstep as [Hs _].
      split_and!; [done|done|by eapply same_item_trans]. }
    destruct Hcase as [(index & Hfind & ->)|(Hnone & -> & ->)].
    + apply tryGetMemberByKey_Some in Hfind as [Hindex _].
      destruct Hns as (H1 & H2 & H3); [by eapply deep_member|].
      split; [|done]. by eapply deep_setMember.
    + destruct Hns as (H1 & H2 & H3).
      { apply allItems_Forall. split; [apply N_empty|constructor]. }
      split; [|done]. apply tryGetMemberByKey_None in Hnone.
      apply deep_addMember; [done| |done]. destruct H3 as (-> & _). done.
Qed.

Lemma buildApiPackage_deep (names : EntityId -> string) (fuel : nat) (g : Generator)
    (apiEntryPoint : ApiItem) (g' : Generator) :
  consistent (_collector g) ->
  buildApiPackage p names fuel g = Done (apiEntryPoint, g') ->
  Forall N (allItems apiEntryPoint).
Proof.
  unfold buildApiPackage. intros Hc H.
  change apiEntryPoint with (fst (apiEntryPoint, g')).
  eapply (forEach_invariant _
            (fun st => Forall N (allItems (fst st)) /\ consistent (_collector (snd st))));
    [| |exact H].
  - intros [i1 g1] ce [i2 g2] _ [H1 H2] Hstep. simpl in *.
    destruct (exported ce || includeForgottenExports p); [|by inversion Hstep; subst].
    eapply processAstEntity_deep; eauto.
  - split; [|done]. apply allItems_Forall. split; [apply N_empty|constructor].
Qed.

End ModelInvariant.

(** ** What is left out of the model *)

Lemma processDeclaration_private (p : Program) (fuel : nat) (d : AstDeclaration)
    (name : option string) (parent : ApiItem) (g : Generator) :
  isPrivate d = true -> _processDeclaration p fuel d name parent g = Done (parent, g).
Proof. intros H. by rewrite processDeclaration_unfold, H. Qed.

Lemma processDeclaration_trimmed (p : Program) (fuel : nat) (d : AstDeclaration)
    (name : option string) (parent : ApiItem) (g : Generator) (r : ReleaseTag.t)
    (c : Collector) :
  isPrivate d = false -> fetchedTag p fuel (declId d) (_collector g) r c ->
  r = ReleaseTag.Internal \/ r = ReleaseTag.Alpha ->
  _processDeclaration p fuel d name parent g
  = Done (parent, mkGenerator c (_cachedOverloadIndexesByDeclaration g)).
Proof.
  intros Hpriv (a & m & Hf & Hm & Hr) Htag.
  rewrite processDeclaration_unfold, Hpriv, Hf. simpl. rewrite Hm, Hr.
  by destruct Htag as [-> | ->].
Qed.

Lemma buildApiPackage_members (p : Program) (names : EntityId -> string) (fuel : nat)
    (g : Generator) (apiEntryPoint : ApiItem) (g' : Generator) :
  buildApiPackage p names fuel g = Done (apiEntryPoint, g') ->
  Forall (fun i => exists ce, ce ∈ entities (_collector g) /\
                     (exported ce = true \/ includeForgottenExports p = true) /\
                     madeFor p (astEntity ce) i)
    (members apiEntryPoint).
Proof.
  unfold buildApiPackage. intros H.
  set (Q := fun i => exists ce, ce ∈ entities (_collector g) /\
                   (exported ce = true \/ includeForgottenExports p = true) /\
                   madeFor p (astEntity ce) i).
  assert (HQ : forall x x', same_item x x' -> Q x -> Q x').
  { intros x x' Hs (ce & H1 & H2 & H3). exists ce. split_and!; [done|done|].
    by eapply madeFor_same. }
  apply (forEach_preorder (fun st st' => grows Q (fst st) (fst st'))) in H.
  - destruct H as (_ & old & more & Hm & Hold & Hmore). simpl in *.
    inversion Hold; subst. by rewrite Hm.
  - intros. apply grows_refl.
  - intros ? ? ?. by apply grows_trans.
  - intros [i1 g1] ce [i2 g2] Hce Hstep. simpl in *.
    destruct (exported ce || includeForgottenExports p) eqn:Hguard;
      [|by inversion Hstep; subst; apply grows_refl].
    apply processAstEntity_grows in Hstep. revert Hstep. apply grows_mono.
    intros i Hi. exists ce. split_and!; [done| |done].
    apply orb_true_iff in Hguard. done.
Qed.




(** ** Declarations that share an item *)

Lemma distinct_keys_addMember (i m : ApiItem) :
  distinct_keys i -> containerKey m ∉ containerKey <$> members i ->
  distinct_keys (addMember m i).
Proof.
  unfold distinct_keys. simpl. intros Hi Hk. rewrite fmap_app. apply NoDup_app.
  split_and!; [done| |apply NoDup_singleton].
  intros x Hx Hx'. apply list_elem_of_singleton in Hx'. by subst.
Qed.

Lemma distinct_keys_setMember (i : ApiItem) (k : nat) (m m' : ApiItem) :
  distinct_keys i -> members i !! k = Some m -> same_item m m' ->
  distinct_keys (setMember k m' i).
Proof.
  unfold distinct_keys. simpl. intros Hi Hk (Hkey & _).
  rewrite list_fmap_insert, Hkey, list_insert_id; [done|].
  by rewrite list_lookup_fmap, Hk.
Qed.

Lemma processDeclaration_found (p : Program) (fuel : nat) (d : AstDeclaration)
    (name : option string) (parent : ApiItem) (gen : Generator) (r : ReleaseTag.t)
    (c : Collector) (key : ContainerKey) (cache' : gmap DeclId nat)
    (found : nat * ApiItem) :
  isPrivate d = false -> fetchedTag p fuel (declId d) (_collector gen) r c ->
  trimmedTag r = false ->
  apiItemKindOf (declaration_kind d) = Some ApiProperty ->
  getContainerKey p ApiProperty d name (_cachedOverloadIndexesByDeclaration gen)
  = Done (key, cache') ->
  tryGetMemberByKey key parent = Some found ->
  _processDeclaration p fuel d name parent gen = Done (parent, mkGenerator c cache').
Proof.
  intros Hpriv (a & m & Hf & Hm & Hr) Htag Hkind Hkey Hfind.
  rewrite processDeclaration_unfold, Hpriv, Hf. simpl. rewrite Hm, Hr, Htag, Hkind.
  unfold _processApiItem. simpl. rewrite Hkey. simpl. by rewrite Hfind.
Qed.

Lemma processDeclaration_made (p : Program) (fuel : nat) (d : AstDeclaration)
    (name : option string) (parent : ApiItem) (gen : Generator) (a : nat)
    (m : ApiItemMetadata) (c : Collector) (key : ContainerKey) (cache' : gmap DeclId nat) :
  isPrivate d = false -> consistent (_collector gen) ->
  fetchApiItemMetadata p fuel (declId d) (_collector gen) = Done (Some a, c) ->
  metadataObjects c !! a = Some m -> trimmedTag (effectiveReleaseTag m) = false ->
  apiItemKindOf (declaration_kind d) = Some ApiProperty ->
  getContainerKey p ApiProperty d name (_cachedOverloadIndexesByDeclaration gen)
  = Done (key, cache') ->
  tryGetMemberByKey key parent = None ->
  exists dm, declarationMetadata c !! declId d = Some dm /\
    _processDeclaration p fuel d name parent gen
    = Done (addMember
              (mkApiItem key (effectiveReleaseTag m) (tsdocComment m)
                 (declId d :: ancillaryDeclarations dm) [])
              parent,
            mkGenerator c cache').
Proof.
  intros Hpriv Hc Hf Hm Htag Hkind Hkey Hnone.
  destruct (fetchApiItemMetadata_consistent _ _ _ _ _ _ Hc Hf) as [Hc1 Ha].
  symmetry in Ha.
  destruct (buildExcerptTokens_again p fuel d c Hc1) as (dm & Hdm & Hex); [by rewrite Ha|].
  exists dm. split; [done|].
  rewrite processDeclaration_unfold, Hpriv, Hf. simpl. rewrite Hm, Htag, Hkind.
  unfold _processApiItem. simpl. rewrite Hkey. simpl. rewrite Hnone, Hex. simpl.
  rewrite (fetchApiItemMetadata_again _ _ _ _ _ Ha). simpl. by rewrite Hm.
Qed.

(** X14.  The getter and the setter of a property are both children of the
    class, and [_processChildDeclarations] hands both to
    [_processDeclaration]; both reach [_processApiProperty], with the same
    container key (the name of their symbol, and the static flag).  The one
    that comes first, not private and not trimmed, adds the [ApiProperty],
    with the release tag and the doc comment of its [ApiItemMetadata], and an
    excerpt of its declaration followed by its ancillary declarations; the
    one that comes second finds that member by its key, and the container
    stays as it is.  In the model of an analyzed program, no two members of
    an item have the same container key, at any depth.  The class of
    [progAccessors] gets one property, whose excerpt has the getter and the
    setter; when the setter is declared first, the one property is made from
    the setter alone. *)
Theorem accessor_pair_is_one_api_item (p : Program) (names : EntityId -> string)
    (fuel : nat) :
  (forall g t name cache,
     declaration_kind g = GetAccessor -> declaration_kind t = SetAccessor ->
     decl_astSymbol (declId g) = decl_astSymbol (declId t) -> isStatic g = isStatic t ->
     apiItemKindOf (declaration_kind g) = Some ApiProperty /\
     apiItemKindOf (declaration_kind t) = Some ApiProperty /\
     getContainerKey p ApiProperty t name cache = getContainerKey p ApiProperty g name cache) /\
  (forall d name parent gen a m c key cache',
     isPrivate d = false -> consistent (_collector gen) ->
     fetchApiItemMetadata p fuel (declId d) (_collector gen) = Done (Some a, c) ->
     metadataObjects c !! a = Some m -> trimmedTag (effectiveReleaseTag m) = false ->
     apiItemKindOf (declaration_kind d) = Some ApiProperty ->
     getContainerKey p ApiProperty d name (_cachedOverloadIndexesByDeclaration gen)
     = Done (key, cache') ->
     tryGetMemberByKey key parent = None ->
     exists dm, declarationMetadata c !! declId d = Some dm /\
       _processDeclaration p fuel d name parent gen
       = Done (addMember
                 (mkApiItem key (effectiveReleaseTag m) (tsdocComment m)
                    (declId d :: ancillaryDeclarations dm) [])
                 parent,
               mkGenerator c cache')) /\
  (forall d name parent gen r c key cache' found,
     isPrivate d = false -> fetchedTag p fuel (declId d) (_collector gen) r c ->
     trimmedTag r = false ->
     apiItemKindOf (declaration_kind d) = Some ApiProperty ->
     getContainerKey p ApiProperty d name (_cachedOverloadIndexesByDeclaration gen)
     = Done (key, cache') ->
     tryGetMemberByKey key parent = Some found ->
     _processDeclaration p fuel d name parent gen = Done (parent, mkGenerator c cache')) /\
  (forall fuel0 c cache apiEntryPoint g',
     analyze p fuel0 newCollector = Done c ->
     buildApiPackage p names fuel (mkGenerator c cache) = Done (apiEntryPoint, g') ->
     Forall distinct_keys (allItems apiEntryPoint)) /\
  modelOf progAccessors
    = Some (entryPointWith
              [mkApiItem (mkContainerKey ApiClass (Some "P") None None) ReleaseTag.Public
                 (Some publicTag) [(1%positive, 0)]
                 [mkApiItem (mkContainerKey ApiProperty (Some "value") (Some false) None)
                    ReleaseTag.Public (Some noTags)
                    [declId getterDeclaration; declId setterDeclaration] []]]) /\
  modelOf progSetterFirst
    = Some (entryPointWith
              [mkApiItem (mkContainerKey ApiClass (Some "P") None None) ReleaseTag.Public
                 (Some publicTag) [(1%positive, 0)]
                 [mkApiItem (mkContainerKey ApiProperty (Some "value") (Some false) None)
                    ReleaseTag.Public (Some noTags) [declId setterDeclaration] []]]).
Proof.
  split_and!.
  - intros g t name cache Hg Ht Hsym Hstatic. rewrite Hg, Ht. split_and!; [done|done|].
    unfold getContainerKey. simpl. by rewrite Hsym, Hstatic.
  - intros. by eapply processDeclaration_made.
  - intros. by eapply processDeclaration_found.
  - intros fuel0 c cache apiEntryPoint g' Hrun Hbuild.
    apply consistent_analyze in Hrun.
    revert Hbuild. apply buildApiPackage_deep; [| | | |done].
    + apply distinct_keys_addMember.
    + apply distinct_keys_setMember.
    + intros. apply NoDup_nil_2.
    + intros. apply NoDup_nil_2.
  - by vm_compute.
  - by vm_compute.
Qed.

Lemma accessor_pair_is_one_api_item_witness :
  let classItem :=
    mkApiItem (mkContainerKey ApiClass (Some "P") None None) ReleaseTag.Public
      (Some publicTag) [(1%positive, 0)] [] in
  let key := mkContainerKey ApiProperty (Some "value") (Some false) None in
  let valueItem :=
    mkApiItem key ReleaseTag.Public (Some noTags)
      [declId getterDeclaration; declId setterDeclaration] [] in
  getContainerKey progAccessors ApiProperty setterDeclaration None ∅
  = getContainerKey progAccessors ApiProperty getterDeclaration None ∅ /\
  (exists dm,
     declarationMetadata accessorsFetched !! declId getterDeclaration = Some dm /\
     _processDeclaration progAccessors 10 getterDeclaration None classItem
       (mkGenerator accessorsAnalyzed ∅)
     = Done (addMember
               (mkApiItem key ReleaseTag.Public (Some noTags)
                  (declId getterDeclaration :: ancillaryDeclarations dm) [])
               classItem,
             mkGenerator accessorsFetched ∅)) /\
  _processDeclaration progAccessors 10 setterDeclaration None (addMember valueItem classItem)
    (mkGenerator accessorsFetched ∅)
  = Done (addMember valueItem classItem, mkGenerator accessorsFetched ∅) /\
  match buildApiPackage progAccessors moduleNames 10 (mkGenerator accessorsAnalyzed ∅) with
  | Done (apiEntryPoint, _) => Forall distinct_keys (allItems apiEntryPoint)
  | _ => False
  end.
Proof.
  intros classItem key valueItem.
  pose proof (accessor_pair_is_one_api_item progAccessors moduleNames 10)
    as (Hkey & Hmade & Hfound & Hdistinct & _).
  set (m := mkApiItemMetadata ReleaseTag.None ReleaseTag.Public false false false false
              false true (Some noTags)).
  assert (Hrun : analyze progAccessors 10 newCollector = Done accessorsAnalyzed)
    by (by vm_compute).
  split_and!.
  - by apply (Hkey getterDeclaration setterDeclaration None ∅).
  - apply (Hmade getterDeclaration None classItem (mkGenerator accessorsAnalyzed ∅) 1 m
             accessorsFetched key ∅); try (by vm_compute).
    exact (consistent_analyze _ _ _ Hrun).
  - apply (Hfound setterDeclaration None (addMember valueItem classItem)
             (mkGenerator accessorsFetched ∅) ReleaseTag.Public accessorsFetched key ∅
             (0, valueItem)); try (by vm_compute).
    exists 1, m. split_and!; by vm_compute.
  - destruct (buildApiPackage progAccessors moduleNames 10 (mkGenerator accessorsAnalyzed ∅))
      as [[apiEntryPoint g']|err|] eqn:Hbuild.
    + exact (Hdistinct 10 accessorsAnalyzed ∅ apiEntryPoint g' Hrun Hbuild).
    + by vm_compute in Hbuild.
    + by vm_compute in Hbuild.
Defined.

